(** * Crossword puzzle generator (puzzleGenerator.ts): model and properties

    The generator packs words of a pool into a 15x15 grid, numbers the
    clues and overlays a solution word.  The TypeScript code is embedded
    function by function:

    - arrays are lists read and written through checked indices: an index
      outside the array makes the whole computation fail ([None]), which
      covers both JavaScript outcomes of such an access (a [TypeError] when
      a row is missing, the value [undefined] when a column is missing);
    - [Map] and [Set] objects are finite maps and sets; the string key
      [`${r}-${c}`] is the pair [(r, c)] (the rendering is injective on
      integers: an optional sign, digits, the separator, and the rest);
    - rows, columns and clue numbers are integers; a string is its
      sequence of code units, [word[i]] the one-unit string at [i];
    - [Math.random] is a stream of raw draws read through a position
      counter, threaded through the generator by a state-and-failure monad;
    - scores are rationals: every score the code computes is a multiple of
      one quarter of small magnitude, which doubles represent exactly.

    The word pool and the list of solution words come from a module that is
    read-only for the generator; they are parameters here. *)

From Stdlib Require Import ZArith QArith Qabs String Ascii Lia Lqa.
From stdpp Require Import base option list gmap strings sorting.

Local Open Scope Z_scope.

Set Warnings "-clear-no-such-hyp".

(** ** Data model (types.ts) *)

Inductive direction := across | down.

#[global] Instance direction_eq_dec : EqDecision direction.
Proof. solve_decision. Defined.

#[global] Instance direction_countable : Countable direction.
Proof.
  refine (inj_countable' (λ d, match d with across => true | down => false end)
                         (λ b : bool, if b then across else down) _).
  by intros [].
Defined.

Record WordEntry := mkWordEntry {
  we_word : string;
  we_clue : string;
  we_category : string
}.

Record PlacedWord := mkPlacedWord {
  pw_word : string;
  pw_clue : string;
  pw_row : Z;
  pw_col : Z;
  pw_direction : direction;
  pw_number : Z
}.

Record Cell := mkCell {
  letter : string;
  userInput : string;
  isBlack : bool;
  number : option Z;
  acrossClue : option Z;
  downClue : option Z;
  isSolutionCell : bool;
  solutionIndex : option Z;
  revealed : bool;
  checked : bool;
  isCorrect : option bool
}.

Record SolutionCell := mkSolutionCell {
  sc_row : Z;
  sc_col : Z;
  sc_index : Z
}.

Record Puzzle := mkPuzzle {
  grid : list (list Cell);
  placedWords : list PlacedWord;
  solutionWord : string;
  solutionCells : list SolutionCell
}.

(** ** Arrays and strings *)

Definition GRID_SIZE : Z := 15.

(** [a[i]] for an integer index; [None] outside the array. *)
Definition at_index {A} (l : list A) (i : Z) : option A :=
  if decide (0 ≤ i) then l !! Z.to_nat i else None.

(** [a[i] = x]; [None] outside the array. *)
Definition set_index {A} (l : list A) (i : Z) (x : A) : option (list A) :=
  if decide (0 ≤ i < Z.of_nat (length l)) then Some (<[Z.to_nat i := x]> l) else None.

(** [g[r][c]]. *)
Definition cellAt {A} (g : list (list A)) (r c : Z) : option A :=
  row ← at_index g r; at_index row c.

(** [g[r][c] = x]. *)
Definition setCell {A} (g : list (list A)) (r c : Z) (x : A) : option (list (list A)) :=
  row ← at_index g r; row' ← set_index row c x; set_index g r row'.

(** [word.length]. *)
Definition wlen (w : string) : Z := Z.of_nat (String.length w).

(** [word[i]]: the one-letter string at position [i]. *)
Definition letterAt (w : string) (i : Z) : option string :=
  if decide (0 ≤ i) then (λ a, String a EmptyString) <$> String.get (Z.to_nat i) w
  else None.

(** [s !== ''] *)
Definition filled (s : string) : bool := negb (bool_decide (s = ""%string)).

(** [cond && read !== ''], the read being evaluated only under [cond]. *)
Definition guardedFilled (cond : bool) (read : option string) : option bool :=
  if cond then s ← read; Some (filled s) else Some false.

(** ** createEmptyGrid *)

Definition createEmptyGrid : list (list string) :=
  replicate (Z.to_nat GRID_SIZE) (replicate (Z.to_nat GRID_SIZE) ""%string).

(** ** getOccupied *)

Abbreviation OccupiedMap := (gmap (Z * Z) (gset direction)).

(** The cell of the [i]-th letter of a word starting at [(row, col)]. *)
Definition cellOf (d : direction) (row col i : Z) : Z * Z :=
  match d with
  | across => (row, col + i)
  | down => (row + i, col)
  end.

(** [if (!map.has(key)) map.set(key, new Set()); map.get(key)!.add(d)] *)
Definition addDirection (key : Z * Z) (d : direction) (m : OccupiedMap) : OccupiedMap :=
  <[key := {[d]} ∪ default ∅ (m !! key)]> m.

Definition getOccupied (placed : list PlacedWord) : OccupiedMap :=
  foldl (λ m pw,
           foldl (λ m i, addDirection (cellOf (pw_direction pw) (pw_row pw) (pw_col pw) i)
                                      (pw_direction pw) m)
                 m (seqZ 0 (wlen (pw_word pw))))
        ∅ placed.

(** [dirs && dirs.has(d)] for [dirs = occupied.get(key)]. *)
Definition hasDirection (occupied : OccupiedMap) (key : Z * Z) (d : direction) : bool :=
  match occupied !! key with
  | Some dirs => bool_decide (d ∈ dirs)
  | None => false
  end.

(** ** canPlaceWord *)

Definition otherDir (d : direction) : direction :=
  match d with across => down | down => across end.

(** The body of the letter loop.  The result is [None] on a bad index,
    [Some None] when the code returns [false], and [Some (Some n)] with the
    running intersection count when the loop goes on. *)
Definition canPlaceCell (grid : list (list string)) (word : string) (row col : Z)
    (direction : direction) (occupied : OccupiedMap) (i : Z) (intersectionCount : Z)
    : option (option Z) :=
  let isAcross := bool_decide (direction = across) in
  let r := if isAcross then row else row + i in
  let c := if isAcross then col + i else col in
  let returnFalse : option (option Z) := Some None in
  existing ← cellAt grid r c;
  if filled existing then
    wi ← letterAt word i;
    if negb (bool_decide (existing = wi)) then returnFalse
    else if hasDirection occupied (r, c) direction then returnFalse
    else if negb (hasDirection occupied (r, c) (otherDir direction)) then returnFalse
    else Some (Some (intersectionCount + 1))
  else if isAcross then
    above ← guardedFilled (r >? 0) (cellAt grid (r - 1) c);
    if (above : bool) then returnFalse else
    below ← guardedFilled (r <? GRID_SIZE - 1) (cellAt grid (r + 1) c);
    if (below : bool) then returnFalse else Some (Some intersectionCount)
  else
    onLeft ← guardedFilled (c >? 0) (cellAt grid r (c - 1));
    if (onLeft : bool) then returnFalse else
    onRight ← guardedFilled (c <? GRID_SIZE - 1) (cellAt grid r (c + 1));
    if (onRight : bool) then returnFalse else Some (Some intersectionCount).

(** [for (let i = 0; i < len; i++)] over the positions still to visit. *)
Fixpoint canPlaceLoop (grid : list (list string)) (word : string) (row col : Z)
    (direction : direction) (occupied : OccupiedMap) (positions : list Z)
    (intersectionCount : Z) : option (option Z) :=
  match positions with
  | [] => Some (Some intersectionCount)
  | i :: rest =>
      step ← canPlaceCell grid word row col direction occupied i intersectionCount;
      match step with
      | None => Some None
      | Some n => canPlaceLoop grid word row col direction occupied rest n
      end
  end.

Definition canPlaceWord (grid : list (list string)) (word : string) (row col : Z)
    (direction : direction) (placed : list PlacedWord) (occupied : OccupiedMap)
    : option bool :=
  let len := wlen word in
  let isAcross := bool_decide (direction = across) in
  if isAcross && (col + len >? GRID_SIZE) then Some false else
  if negb isAcross && (row + len >? GRID_SIZE) then Some false else
  before ← (if isAcross then guardedFilled (col >? 0) (cellAt grid row (col - 1))
            else guardedFilled (row >? 0) (cellAt grid (row - 1) col));
  if (before : bool) then Some false else
  after ← (if isAcross then guardedFilled (col + len <? GRID_SIZE) (cellAt grid row (col + len))
           else guardedFilled (row + len <? GRID_SIZE) (cellAt grid (row + len) col));
  if (after : bool) then Some false else
  cells ← canPlaceLoop grid word row col direction occupied (seqZ 0 len) 0;
  match cells with
  | None => Some false
  | Some intersectionCount =>
      if (Z.of_nat (length placed) >? 0) && (intersectionCount =? 0) then Some false
      else Some true
  end.

(** ** placeWord *)

Fixpoint placeLoop (grid : list (list string)) (word : string) (row col : Z)
    (direction : direction) (positions : list Z) : option (list (list string)) :=
  match positions with
  | [] => Some grid
  | i :: rest =>
      wi ← letterAt word i;
      grid' ← (if bool_decide (direction = across) then setCell grid row (col + i) wi
               else setCell grid (row + i) col wi);
      placeLoop grid' word row col direction rest
  end.

Definition placeWord (grid : list (list string)) (word : string) (row col : Z)
    (direction : direction) : option (list (list string)) :=
  placeLoop grid word row col direction (seqZ 0 (wlen word)).

(** ** The generator monad: a position in the stream of random draws, and
    failure on a bad index *)

Definition Gen (A : Type) : Type := nat → option (A * nat).

#[global] Instance Gen_ret : MRet Gen := λ A x pos, Some (x, pos).

#[global] Instance Gen_bind : MBind Gen := λ A B f m pos,
  match m pos with
  | Some (x, pos') => f x pos'
  | None => None
  end.

(** A pure, possibly failing step inside the generator. *)
Definition liftOpt {A} (o : option A) : Gen A := λ pos,
  match o with
  | Some x => Some (x, pos)
  | None => None
  end.

(** A loop over a list carrying a state: [for (const x of l) s = body(s, x)]. *)
Fixpoint forEach {M : Type → Type} `{!MBind M, !MRet M} {A S : Type}
    (l : list A) (s : S) (body : S → A → M S) : M S :=
  match l with
  | [] => mret s
  | x :: rest => s' ← body s x; forEach rest s' body
  end.

(** [arr.filter(p)] for a callback that indexes arrays. *)
Fixpoint filterOpt {A : Type} (p : A → option bool) (l : list A) : option (list A) :=
  match l with
  | [] => Some []
  | x :: rest =>
      keep ← p x;
      rest' ← filterOpt p rest;
      Some (if (keep : bool) then x :: rest' else rest')
  end.

(** [a > b] on scores. *)
Definition Qgtb (a b : Q) : bool := negb (Qle_bool a b).

Record Placement := mkPlacement {
  pl_row : Z;
  pl_col : Z;
  pl_direction : direction;
  pl_score : Q
}.

(** ** findBestPlacement *)

(** The intersection-counting loop of the score. *)
Fixpoint scoreLoop (grid : list (list string)) (word : string) (r c : Z)
    (isAcross : bool) (positions : list Z) (score : Q) : option Q :=
  match positions with
  | [] => Some score
  | i :: rest =>
      let cr := if isAcross then r else r + i in
      let cc := if isAcross then c + i else c in
      g ← cellAt grid cr cc;
      wi ← letterAt word i;
      scoreLoop grid word r c isAcross rest
        (if bool_decide (g = wi) && filled g then (score + 10)%Q else score)
  end.

(** The score of one candidate (the body of the [if (canPlaceWord(...))]). *)
Definition placementScore (grid : list (list string)) (word : string) (r c : Z)
    (dir : direction) : option Q :=
  let isAcross := bool_decide (dir = across) in
  score ← scoreLoop grid word r c isAcross (seqZ 0 (wlen word)) 0%Q;
  let half := (inject_Z (wlen word) / 2)%Q in
  let centerR := if isAcross then inject_Z r else (inject_Z r + half)%Q in
  let centerC := if isAcross then (inject_Z c + half)%Q else inject_Z c in
  Some (score - (Qabs (centerR - 7) + Qabs (centerC - 7)) * (1 # 2))%Q.

(** The body of the innermost scan loop. *)
Definition considerPlacement (grid : list (list string)) (word : string)
    (placed : list PlacedWord) (occupied : OccupiedMap) (dir : direction) (r c : Z)
    (best : option Placement) : option (option Placement) :=
  ok ← canPlaceWord grid word r c dir placed occupied;
  if (ok : bool) then
    score ← placementScore grid word r c dir;
    match best with
    | None => Some (Some (mkPlacement r c dir score))
    | Some b =>
        if Qgtb score (pl_score b) then Some (Some (mkPlacement r c dir score))
        else Some best
    end
  else Some best.

Definition findBestPlacement (grid : list (list string)) (word : string)
    (placed : list PlacedWord) (occupied : OccupiedMap) : option (option Placement) :=
  forEach [across; down] None (λ best dir,
    let isAcross := bool_decide (dir = across) in
    let maxR := if isAcross then GRID_SIZE else GRID_SIZE - wlen word in
    let maxC := if isAcross then GRID_SIZE - wlen word else GRID_SIZE in
    forEach (seqZ 0 (maxR - (if isAcross then 1 else 0) + 1)) best (λ best r,
      forEach (seqZ 0 (maxC - (if isAcross then 0 else 1) + 1)) best (λ best c,
        considerPlacement grid word placed occupied dir r c best))).

(** ** Cell records *)

Definition newCell (l : string) : Cell :=
  {| letter := l; userInput := ""%string; isBlack := bool_decide (l = ""%string);
     number := None; acrossClue := None; downClue := None;
     isSolutionCell := false; solutionIndex := None;
     revealed := false; checked := false; isCorrect := None |}.

Definition withLetter (l : string) (x : Cell) : Cell :=
  {| letter := l; userInput := userInput x; isBlack := isBlack x;
     number := number x; acrossClue := acrossClue x; downClue := downClue x;
     isSolutionCell := isSolutionCell x; solutionIndex := solutionIndex x;
     revealed := revealed x; checked := checked x; isCorrect := isCorrect x |}.

Definition withNumber (n : Z) (x : Cell) : Cell :=
  {| letter := letter x; userInput := userInput x; isBlack := isBlack x;
     number := Some n; acrossClue := acrossClue x; downClue := downClue x;
     isSolutionCell := isSolutionCell x; solutionIndex := solutionIndex x;
     revealed := revealed x; checked := checked x; isCorrect := isCorrect x |}.

Definition withAcrossClue (n : Z) (x : Cell) : Cell :=
  {| letter := letter x; userInput := userInput x; isBlack := isBlack x;
     number := number x; acrossClue := Some n; downClue := downClue x;
     isSolutionCell := isSolutionCell x; solutionIndex := solutionIndex x;
     revealed := revealed x; checked := checked x; isCorrect := isCorrect x |}.

Definition withDownClue (n : Z) (x : Cell) : Cell :=
  {| letter := letter x; userInput := userInput x; isBlack := isBlack x;
     number := number x; acrossClue := acrossClue x; downClue := Some n;
     isSolutionCell := isSolutionCell x; solutionIndex := solutionIndex x;
     revealed := revealed x; checked := checked x; isCorrect := isCorrect x |}.

Definition withIsSolutionCell (b : bool) (x : Cell) : Cell :=
  {| letter := letter x; userInput := userInput x; isBlack := isBlack x;
     number := number x; acrossClue := acrossClue x; downClue := downClue x;
     isSolutionCell := b; solutionIndex := solutionIndex x;
     revealed := revealed x; checked := checked x; isCorrect := isCorrect x |}.

Definition withSolutionIndex (i : Z) (x : Cell) : Cell :=
  {| letter := letter x; userInput := userInput x; isBlack := isBlack x;
     number := number x; acrossClue := acrossClue x; downClue := downClue x;
     isSolutionCell := isSolutionCell x; solutionIndex := Some i;
     revealed := revealed x; checked := checked x; isCorrect := isCorrect x |}.

(** [g[r][c].field = v]: the cell object is read, then one field is set. *)
Definition updCell (g : list (list Cell)) (r c : Z) (f : Cell → Cell)
    : option (list (list Cell)) :=
  cell ← cellAt g r c; setCell g r c (f cell).

(** ** Clue numbering *)

(** The comparator of [bestPlaced.sort]: negative, zero or positive. *)
Definition comparePlaced (a b : PlacedWord) : Z :=
  if negb (pw_row a =? pw_row b) then pw_row a - pw_row b
  else pw_col a - pw_col b.

(** [Array.prototype.sort] is stable; with this comparator (a total
    preorder) its result is the one of a stable insertion sort. *)
Fixpoint insertPlaced (x : PlacedWord) (l : list PlacedWord) : list PlacedWord :=
  match l with
  | [] => [x]
  | y :: rest => if comparePlaced x y <=? 0 then x :: y :: rest
                 else y :: insertPlaced x rest
  end.

Definition sortPlaced (l : list PlacedWord) : list PlacedWord :=
  foldr insertPlaced [] l.

Definition withPwNumber (n : Z) (pw : PlacedWord) : PlacedWord :=
  {| pw_word := pw_word pw; pw_clue := pw_clue pw; pw_row := pw_row pw;
     pw_col := pw_col pw; pw_direction := pw_direction pw; pw_number := n |}.

(** [for (const pw of bestPlaced)] over [numberMap] and [num]. *)
Fixpoint numberLoop (pws : list PlacedWord) (numberMap : gmap (Z * Z) Z) (num : Z)
    : list PlacedWord :=
  match pws with
  | [] => []
  | pw :: rest =>
      let key := (pw_row pw, pw_col pw) in
      match numberMap !! key with
      | None => withPwNumber num pw :: numberLoop rest (<[key := num]> numberMap) (num + 1)
      | Some n => withPwNumber n pw :: numberLoop rest numberMap num
      end
  end.

Definition numberClues (bestPlaced : list PlacedWord) : list PlacedWord :=
  numberLoop (sortPlaced bestPlaced) ∅ 1.

(** ** The cell grid *)

Definition buildCellGrid (bestGrid : list (list string)) : option (list (list Cell)) :=
  mapM (λ r, mapM (λ c, l ← cellAt bestGrid r c; Some (newCell l))
                  (seqZ 0 GRID_SIZE))
       (seqZ 0 GRID_SIZE).

(** The body of the "numbers and clue references" loop. *)
Definition setClueRefs (cellGrid : list (list Cell)) (pw : PlacedWord)
    : option (list (list Cell)) :=
  cell ← cellAt cellGrid (pw_row pw) (pw_col pw);
  g ← (if match number cell with
          | None => true
          | Some n => pw_number pw <? n
          end
       then setCell cellGrid (pw_row pw) (pw_col pw) (withNumber (pw_number pw) cell)
       else Some cellGrid);
  forEach (seqZ 0 (wlen (pw_word pw))) g (λ g i,
    match pw_direction pw with
    | across => updCell g (pw_row pw) (pw_col pw + i) (withAcrossClue (pw_number pw))
    | down => updCell g (pw_row pw + i) (pw_col pw) (withDownClue (pw_number pw))
    end).

Definition setAllClueRefs (cellGrid : list (list Cell)) (bestPlaced : list PlacedWord)
    : option (list (list Cell)) :=
  forEach bestPlaced cellGrid setClueRefs.

(** ** Solution-word overlay *)

(** [if (!m.has(key)) m.set(key, []); m.get(key)!.push(wi)] *)
Definition pushWord (key : Z * Z) (wi : nat) (m : gmap (Z * Z) (list nat))
    : gmap (Z * Z) (list nat) :=
  <[key := default [] (m !! key) ++ [wi]]> m.

Definition buildCellToWords (bestPlaced : list PlacedWord) : gmap (Z * Z) (list nat) :=
  foldl (λ m '(wi, pw),
           foldl (λ m i, pushWord (cellOf (pw_direction pw) (pw_row pw) (pw_col pw) i) wi m)
                 m (seqZ 0 (wlen (pw_word pw))))
        ∅ (zip (seq 0 (length bestPlaced)) bestPlaced).

Definition collectLetterCells (cellGrid : list (list Cell)) : option (list (Z * Z)) :=
  forEach (seqZ 0 GRID_SIZE) [] (λ acc r,
    forEach (seqZ 0 GRID_SIZE) acc (λ acc c,
      cell ← cellAt cellGrid r c;
      Some (if isBlack cell then acc else acc ++ [(r, c)]))).

Record Overlay := mkOverlay {
  ov_grid : list (list Cell);
  ov_solutionCells : list SolutionCell;
  ov_usedCells : gset (Z * Z);
  ov_usedWords : gset nat
}.

(** [cellToWords.get(key) || []] *)
Definition wordsAt (cellToWords : gmap (Z * Z) (list nat)) (key : Z * Z) : list nat :=
  default [] (cellToWords !! key).

(** The filter callback of the strict tier. *)
Definition strictCandidate (cellToWords : gmap (Z * Z) (list nat)) (st : Overlay)
    (target : string) (lc : Z * Z) : option bool :=
  cell ← cellAt (ov_grid st) lc.1 lc.2;
  if negb (bool_decide (letter cell = target)) then Some false
  else if bool_decide (lc ∈ ov_usedCells st) then Some false
  else Some (forallb (λ wi, negb (bool_decide (wi ∈ ov_usedWords st)))
                     (wordsAt cellToWords lc)).

(** The filter callback of fallback A. *)
Definition fallbackCandidate (st : Overlay) (target : string) (lc : Z * Z) : option bool :=
  cell ← cellAt (ov_grid st) lc.1 lc.2;
  if negb (bool_decide (letter cell = target)) then Some false
  else if bool_decide (lc ∈ ov_usedCells st) then Some false
  else Some true.

(** A chosen cell is recorded, claimed and marked on the grid. *)
Definition markSolutionCell (st : Overlay) (lc : Z * Z) (i : Z) : option Overlay :=
  g1 ← updCell (ov_grid st) lc.1 lc.2 (withIsSolutionCell true);
  g2 ← updCell g1 lc.1 lc.2 (withSolutionIndex i);
  Some {| ov_grid := g2;
          ov_solutionCells := ov_solutionCells st ++ [mkSolutionCell lc.1 lc.2 i];
          ov_usedCells := {[lc]} ∪ ov_usedCells st;
          ov_usedWords := ov_usedWords st |}.

(** [for (const wi of wordIndices) usedWords.add(wi)] *)
Definition markWordsUsed (cellToWords : gmap (Z * Z) (list nat)) (lc : Z * Z)
    (st : Overlay) : Overlay :=
  {| ov_grid := ov_grid st;
     ov_solutionCells := ov_solutionCells st;
     ov_usedCells := ov_usedCells st;
     ov_usedWords := foldl (λ used wi, {[wi]} ∪ used) (ov_usedWords st)
                           (wordsAt cellToWords lc) |}.

(** The last resort: the letter of the cell is overwritten. *)
Definition overwriteLetter (lc : Z * Z) (target : string) (st : Overlay) : option Overlay :=
  g ← updCell (ov_grid st) lc.1 lc.2 (withLetter target);
  Some {| ov_grid := g;
          ov_solutionCells := ov_solutionCells st;
          ov_usedCells := ov_usedCells st;
          ov_usedWords := ov_usedWords st |}.

Section Generator.

(** [Math.random]: the stream of raw draws. *)
Variable random : nat → nat.

(** The constants of the module [wordPool], which is not part of the
    sources at hand: they are parameters of the generator. *)
Variable wordPool : list WordEntry.
Variable solutionWords : list string.

(** [Math.floor(Math.random() * n)]: [Math.random] yields a number in
    [0, 1), so the expression is one of [0 .. n - 1] (and [0] for
    [n = 0]); the raw draw is reduced modulo [n], which reaches each of
    these outcomes. *)
Definition randomBelow (n : nat) : Gen nat := λ pos,
  Some (if (n =? 0)%nat then 0%nat else (random pos `mod` n)%nat, S pos).

(** [[a[i], a[j]] = [a[j], a[i]]] *)
Definition swap {T} (a : list T) (i j : nat) : option (list T) :=
  ai ← a !! i; aj ← a !! j; Some (<[j := ai]> (<[i := aj]> a)).

(** [for (let i = a.length - 1; i > 0; i--)] *)
Fixpoint shuffleLoop {T} (i : nat) (a : list T) : Gen (list T) :=
  match i with
  | O => mret a
  | S i' =>
      j ← randomBelow (i + 1);
      a' ← liftOpt (swap a i j);
      shuffleLoop i' a'
  end.

Definition shuffle {T} (arr : list T) : Gen (list T) :=
  shuffleLoop (length arr - 1) arr.

(** The seed: the first word, across, centred. *)
Definition placeFirst (shuffled : list WordEntry)
    : option (list (list string) * list PlacedWord) :=
  match shuffled with
  | [] => Some (createEmptyGrid, [])
  | first :: _ =>
      let startCol := (GRID_SIZE - wlen (we_word first)) / 2 in
      let startRow := GRID_SIZE / 2 in
      grid ← placeWord createEmptyGrid (we_word first) startRow startCol across;
      Some (grid, [mkPlacedWord (we_word first) (we_clue first) startRow startCol across 0])
  end.

(** The body of the placement loop: the best placement of the entry is
    committed when its score is positive. *)
Definition placeNext (entry : WordEntry) (grid : list (list string))
    (placed : list PlacedWord) : option (list (list string) * list PlacedWord) :=
  let occupied := getOccupied placed in
  placement ← findBestPlacement grid (we_word entry) placed occupied;
  match placement with
  | Some p =>
      if Qgtb (pl_score p) 0 then
        grid' ← placeWord grid (we_word entry) (pl_row p) (pl_col p) (pl_direction p);
        Some (grid', placed ++ [mkPlacedWord (we_word entry) (we_clue entry)
                                             (pl_row p) (pl_col p) (pl_direction p) 0])
      else Some (grid, placed)
  | None => Some (grid, placed)
  end.

(** [for (let i = 1; i < shuffled.length && placed.length < 28; i++)]
    over the entries still to visit. *)
Fixpoint placeRest (entries : list WordEntry) (grid : list (list string))
    (placed : list PlacedWord) : option (list (list string) * list PlacedWord) :=
  match entries with
  | [] => Some (grid, placed)
  | entry :: rest =>
      if Z.of_nat (length placed) <? 28 then
        '(grid', placed') ← placeNext entry grid placed;
        placeRest rest grid' placed'
      else Some (grid, placed)
  end.

(** One placement attempt, from the shuffled pool. *)
Definition runAttempt (shuffledPool : list WordEntry)
    : option (list (list string) * list PlacedWord) :=
  let shuffled := filter (λ w, wlen (we_word w) ≤ GRID_SIZE) shuffledPool in
  '(grid, placed) ← placeFirst shuffled;
  placeRest (drop 1 shuffled) grid placed.

(** The body of the attempt loop over [(bestPlaced, bestGrid)]. *)
Definition attemptStep (best : list PlacedWord * list (list string)) (attempt : Z)
    : Gen (list PlacedWord * list (list string)) :=
  shuffledPool ← shuffle wordPool;
  '(grid, placed) ← liftOpt (runAttempt shuffledPool);
  if Z.of_nat (length placed) >? Z.of_nat (length best.1) then mret (placed, grid) else mret best.

(** The body of the overlay loop: the three tiers for the letter at
    index [i] of the solution word. *)
Definition overlayStep (solutionWord : string) (cellToWords : gmap (Z * Z) (list nat))
    (letterCells : list (Z * Z)) (st : Overlay) (i : Z) : Gen Overlay :=
  target ← liftOpt (letterAt solutionWord i);
  shuffled ← shuffle letterCells;
  candidates ← liftOpt (filterOpt (strictCandidate cellToWords st target) shuffled);
  match candidates with
  | chosen :: _ =>
      st' ← liftOpt (markSolutionCell st chosen i);
      mret (markWordsUsed cellToWords chosen st')
  | [] =>
      shuffled' ← shuffle letterCells;
      fallbackCandidates ← liftOpt (filterOpt (fallbackCandidate st target) shuffled');
      match fallbackCandidates with
      | chosen :: _ =>
          st' ← liftOpt (markSolutionCell st chosen i);
          mret (markWordsUsed cellToWords chosen st')
      | [] =>
          match List.find (λ lc, negb (bool_decide (lc ∈ ov_usedCells st))) letterCells with
          | Some anyCell =>
              st' ← liftOpt (markSolutionCell st anyCell i);
              liftOpt (overwriteLetter anyCell target st')
          | None => mret st
          end
      end
  end.

Definition generatePuzzle : Gen Puzzle :=
  k ← randomBelow (length solutionWords);
  solutionWord ← liftOpt (solutionWords !! k);
  best ← forEach (seqZ 0 8) ([], createEmptyGrid) attemptStep;
  let bestPlaced := numberClues best.1 in
  let bestGrid := best.2 in
  cellGrid0 ← liftOpt (buildCellGrid bestGrid);
  cellGrid ← liftOpt (setAllClueRefs cellGrid0 bestPlaced);
  let cellToWords := buildCellToWords bestPlaced in
  letterCells ← liftOpt (collectLetterCells cellGrid);
  st ← forEach (seqZ 0 (wlen solutionWord)) (mkOverlay cellGrid [] ∅ ∅)
               (overlayStep solutionWord cellToWords letterCells);
  mret {| grid := ov_grid st;
          placedWords := bestPlaced;
          solutionWord := solutionWord;
          solutionCells := ov_solutionCells st |}.

End Generator.

(** * The game (App.tsx): model

    The component keeps its state in [useState] hooks and one ref; an event
    handler reads the state of the render it was created in and queues
    updates, which are all applied before the next event is handled.  A
    handler is therefore a function from the state to the next state; it
    fails ([None]) where the code reads a field of [undefined].  The copy
    [grid.map(r => r.map(c => ({ ...c })))] that the handlers write to is the
    grid itself here, values being immutable.  Effects on the document (focus,
    local storage, the interval timer) are not part of the model. *)

Record AppState := mkAppState {
  app_puzzle : Puzzle;
  app_grid : list (list Cell);
  app_selectedCell : option (Z * Z);
  app_direction : direction;
  app_showSolution : bool;
  app_isComplete : bool;
  app_timer : Z;
  app_isRunning : bool;
  app_showCongrats : bool;
  app_solutionInput : string;
  app_solutionCorrect : option bool;
  app_hintsLetterUsed : Z;
  app_hintsWordUsed : Z;
  app_showKeyboard : bool;
  app_showCluesPanel : bool;
  app_lastTap : option (Z * Z * Z)
}.

Definition setPuzzle (v : Puzzle) (st : AppState) : AppState :=
  {| app_puzzle := v; app_grid := app_grid st; app_selectedCell := app_selectedCell st;
     app_direction := app_direction st; app_showSolution := app_showSolution st;
     app_isComplete := app_isComplete st; app_timer := app_timer st;
     app_isRunning := app_isRunning st; app_showCongrats := app_showCongrats st;
     app_solutionInput := app_solutionInput st; app_solutionCorrect := app_solutionCorrect st;
     app_hintsLetterUsed := app_hintsLetterUsed st; app_hintsWordUsed := app_hintsWordUsed st;
     app_showKeyboard := app_showKeyboard st; app_showCluesPanel := app_showCluesPanel st;
     app_lastTap := app_lastTap st |}.

Definition setGrid (v : list (list Cell)) (st : AppState) : AppState :=
  {| app_puzzle := app_puzzle st; app_grid := v; app_selectedCell := app_selectedCell st;
     app_direction := app_direction st; app_showSolution := app_showSolution st;
     app_isComplete := app_isComplete st; app_timer := app_timer st;
     app_isRunning := app_isRunning st; app_showCongrats := app_showCongrats st;
     app_solutionInput := app_solutionInput st; app_solutionCorrect := app_solutionCorrect st;
     app_hintsLetterUsed := app_hintsLetterUsed st; app_hintsWordUsed := app_hintsWordUsed st;
     app_showKeyboard := app_showKeyboard st; app_showCluesPanel := app_showCluesPanel st;
     app_lastTap := app_lastTap st |}.

Definition setSelectedCell (v : option (Z * Z)) (st : AppState) : AppState :=
  {| app_puzzle := app_puzzle st; app_grid := app_grid st; app_selectedCell := v;
     app_direction := app_direction st; app_showSolution := app_showSolution st;
     app_isComplete := app_isComplete st; app_timer := app_timer st;
     app_isRunning := app_isRunning st; app_showCongrats := app_showCongrats st;
     app_solutionInput := app_solutionInput st; app_solutionCorrect := app_solutionCorrect st;
     app_hintsLetterUsed := app_hintsLetterUsed st; app_hintsWordUsed := app_hintsWordUsed st;
     app_showKeyboard := app_showKeyboard st; app_showCluesPanel := app_showCluesPanel st;
     app_lastTap := app_lastTap st |}.

Definition setDirection (v : direction) (st : AppState) : AppState :=
  {| app_puzzle := app_puzzle st; app_grid := app_grid st;
     app_selectedCell := app_selectedCell st; app_direction := v;
     app_showSolution := app_showSolution st; app_isComplete := app_isComplete st;
     app_timer := app_timer st; app_isRunning := app_isRunning st;
     app_showCongrats := app_showCongrats st; app_solutionInput := app_solutionInput st;
     app_solutionCorrect := app_solutionCorrect st;
     app_hintsLetterUsed := app_hintsLetterUsed st; app_hintsWordUsed := app_hintsWordUsed st;
     app_showKeyboard := app_showKeyboard st; app_showCluesPanel := app_showCluesPanel st;
     app_lastTap := app_lastTap st |}.

Definition setShowSolution (v : bool) (st : AppState) : AppState :=
  {| app_puzzle := app_puzzle st; app_grid := app_grid st;
     app_selectedCell := app_selectedCell st; app_direction := app_direction st;
     app_showSolution := v; app_isComplete := app_isComplete st; app_timer := app_timer st;
     app_isRunning := app_isRunning st; app_showCongrats := app_showCongrats st;
     app_solutionInput := app_solutionInput st; app_solutionCorrect := app_solutionCorrect st;
     app_hintsLetterUsed := app_hintsLetterUsed st; app_hintsWordUsed := app_hintsWordUsed st;
     app_showKeyboard := app_showKeyboard st; app_showCluesPanel := app_showCluesPanel st;
     app_lastTap := app_lastTap st |}.

Definition setIsComplete (v : bool) (st : AppState) : AppState :=
  {| app_puzzle := app_puzzle st; app_grid := app_grid st;
     app_selectedCell := app_selectedCell st; app_direction := app_direction st;
     app_showSolution := app_showSolution st; app_isComplete := v; app_timer := app_timer st;
     app_isRunning := app_isRunning st; app_showCongrats := app_showCongrats st;
     app_solutionInput := app_solutionInput st; app_solutionCorrect := app_solutionCorrect st;
     app_hintsLetterUsed := app_hintsLetterUsed st; app_hintsWordUsed := app_hintsWordUsed st;
     app_showKeyboard := app_showKeyboard st; app_showCluesPanel := app_showCluesPanel st;
     app_lastTap := app_lastTap st |}.

Definition setTimer (v : Z) (st : AppState) : AppState :=
  {| app_puzzle := app_puzzle st; app_grid := app_grid st;
     app_selectedCell := app_selectedCell st; app_direction := app_direction st;
     app_showSolution := app_showSolution st; app_isComplete := app_isComplete st;
     app_timer := v; app_isRunning := app_isRunning st;
     app_showCongrats := app_showCongrats st; app_solutionInput := app_solutionInput st;
     app_solutionCorrect := app_solutionCorrect st;
     app_hintsLetterUsed := app_hintsLetterUsed st; app_hintsWordUsed := app_hintsWordUsed st;
     app_showKeyboard := app_showKeyboard st; app_showCluesPanel := app_showCluesPanel st;
     app_lastTap := app_lastTap st |}.

Definition setIsRunning (v : bool) (st : AppState) : AppState :=
  {| app_puzzle := app_puzzle st; app_grid := app_grid st;
     app_selectedCell := app_selectedCell st; app_direction := app_direction st;
     app_showSolution := app_showSolution st; app_isComplete := app_isComplete st;
     app_timer := app_timer st; app_isRunning := v; app_showCongrats := app_showCongrats st;
     app_solutionInput := app_solutionInput st; app_solutionCorrect := app_solutionCorrect st;
     app_hintsLetterUsed := app_hintsLetterUsed st; app_hintsWordUsed := app_hintsWordUsed st;
     app_showKeyboard := app_showKeyboard st; app_showCluesPanel := app_showCluesPanel st;
     app_lastTap := app_lastTap st |}.

Definition setShowCongrats (v : bool) (st : AppState) : AppState :=
  {| app_puzzle := app_puzzle st; app_grid := app_grid st;
     app_selectedCell := app_selectedCell st; app_direction := app_direction st;
     app_showSolution := app_showSolution st; app_isComplete := app_isComplete st;
     app_timer := app_timer st; app_isRunning := app_isRunning st; app_showCongrats := v;
     app_solutionInput := app_solutionInput st; app_solutionCorrect := app_solutionCorrect st;
     app_hintsLetterUsed := app_hintsLetterUsed st; app_hintsWordUsed := app_hintsWordUsed st;
     app_showKeyboard := app_showKeyboard st; app_showCluesPanel := app_showCluesPanel st;
     app_lastTap := app_lastTap st |}.

Definition setSolutionInput (v : string) (st : AppState) : AppState :=
  {| app_puzzle := app_puzzle st; app_grid := app_grid st;
     app_selectedCell := app_selectedCell st; app_direction := app_direction st;
     app_showSolution := app_showSolution st; app_isComplete := app_isComplete st;
     app_timer := app_timer st; app_isRunning := app_isRunning st;
     app_showCongrats := app_showCongrats st; app_solutionInput := v;
     app_solutionCorrect := app_solutionCorrect st;
     app_hintsLetterUsed := app_hintsLetterUsed st; app_hintsWordUsed := app_hintsWordUsed st;
     app_showKeyboard := app_showKeyboard st; app_showCluesPanel := app_showCluesPanel st;
     app_lastTap := app_lastTap st |}.

Definition setSolutionCorrect (v : option bool) (st : AppState) : AppState :=
  {| app_puzzle := app_puzzle st; app_grid := app_grid st;
     app_selectedCell := app_selectedCell st; app_direction := app_direction st;
     app_showSolution := app_showSolution st; app_isComplete := app_isComplete st;
     app_timer := app_timer st; app_isRunning := app_isRunning st;
     app_showCongrats := app_showCongrats st; app_solutionInput := app_solutionInput st;
     app_solutionCorrect := v; app_hintsLetterUsed := app_hintsLetterUsed st;
     app_hintsWordUsed := app_hintsWordUsed st; app_showKeyboard := app_showKeyboard st;
     app_showCluesPanel := app_showCluesPanel st; app_lastTap := app_lastTap st |}.

Definition setHintsLetterUsed (v : Z) (st : AppState) : AppState :=
  {| app_puzzle := app_puzzle st; app_grid := app_grid st;
     app_selectedCell := app_selectedCell st; app_direction := app_direction st;
     app_showSolution := app_showSolution st; app_isComplete := app_isComplete st;
     app_timer := app_timer st; app_isRunning := app_isRunning st;
     app_showCongrats := app_showCongrats st; app_solutionInput := app_solutionInput st;
     app_solutionCorrect := app_solutionCorrect st; app_hintsLetterUsed := v;
     app_hintsWordUsed := app_hintsWordUsed st; app_showKeyboard := app_showKeyboard st;
     app_showCluesPanel := app_showCluesPanel st; app_lastTap := app_lastTap st |}.

Definition setHintsWordUsed (v : Z) (st : AppState) : AppState :=
  {| app_puzzle := app_puzzle st; app_grid := app_grid st;
     app_selectedCell := app_selectedCell st; app_direction := app_direction st;
     app_showSolution := app_showSolution st; app_isComplete := app_isComplete st;
     app_timer := app_timer st; app_isRunning := app_isRunning st;
     app_showCongrats := app_showCongrats st; app_solutionInput := app_solutionInput st;
     app_solutionCorrect := app_solutionCorrect st;
     app_hintsLetterUsed := app_hintsLetterUsed st; app_hintsWordUsed := v;
     app_showKeyboard := app_showKeyboard st; app_showCluesPanel := app_showCluesPanel st;
     app_lastTap := app_lastTap st |}.

Definition setShowKeyboard (v : bool) (st : AppState) : AppState :=
  {| app_puzzle := app_puzzle st; app_grid := app_grid st;
     app_selectedCell := app_selectedCell st; app_direction := app_direction st;
     app_showSolution := app_showSolution st; app_isComplete := app_isComplete st;
     app_timer := app_timer st; app_isRunning := app_isRunning st;
     app_showCongrats := app_showCongrats st; app_solutionInput := app_solutionInput st;
     app_solutionCorrect := app_solutionCorrect st;
     app_hintsLetterUsed := app_hintsLetterUsed st; app_hintsWordUsed := app_hintsWordUsed st;
     app_showKeyboard := v; app_showCluesPanel := app_showCluesPanel st;
     app_lastTap := app_lastTap st |}.

Definition setShowCluesPanel (v : bool) (st : AppState) : AppState :=
  {| app_puzzle := app_puzzle st; app_grid := app_grid st;
     app_selectedCell := app_selectedCell st; app_direction := app_direction st;
     app_showSolution := app_showSolution st; app_isComplete := app_isComplete st;
     app_timer := app_timer st; app_isRunning := app_isRunning st;
     app_showCongrats := app_showCongrats st; app_solutionInput := app_solutionInput st;
     app_solutionCorrect := app_solutionCorrect st;
     app_hintsLetterUsed := app_hintsLetterUsed st; app_hintsWordUsed := app_hintsWordUsed st;
     app_showKeyboard := app_showKeyboard st; app_showCluesPanel := v;
     app_lastTap := app_lastTap st |}.

Definition setLastTap (v : option (Z * Z * Z)) (st : AppState) : AppState :=
  {| app_puzzle := app_puzzle st; app_grid := app_grid st;
     app_selectedCell := app_selectedCell st; app_direction := app_direction st;
     app_showSolution := app_showSolution st; app_isComplete := app_isComplete st;
     app_timer := app_timer st; app_isRunning := app_isRunning st;
     app_showCongrats := app_showCongrats st; app_solutionInput := app_solutionInput st;
     app_solutionCorrect := app_solutionCorrect st;
     app_hintsLetterUsed := app_hintsLetterUsed st; app_hintsWordUsed := app_hintsWordUsed st;
     app_showKeyboard := app_showKeyboard st; app_showCluesPanel := app_showCluesPanel st;
     app_lastTap := v |}.

(** The state after [useState(() => generatePuzzle())] and the other
    initial values. *)
Definition initialState (p : Puzzle) : AppState :=
  {| app_puzzle := p; app_grid := grid p; app_selectedCell := None;
     app_direction := across; app_showSolution := false; app_isComplete := false;
     app_timer := 0; app_isRunning := true; app_showCongrats := false;
     app_solutionInput := ""%string; app_solutionCorrect := None;
     app_hintsLetterUsed := 0; app_hintsWordUsed := 0;
     app_showKeyboard := false; app_showCluesPanel := false; app_lastTap := None |}.

Definition MAX_LETTER_HINTS : Z := 3.
Definition MAX_WORD_HINTS : Z := 1.

Definition withUserInput (v : string) (x : Cell) : Cell :=
  {| letter := letter x; userInput := v; isBlack := isBlack x;
     number := number x; acrossClue := acrossClue x; downClue := downClue x;
     isSolutionCell := isSolutionCell x; solutionIndex := solutionIndex x;
     revealed := revealed x; checked := checked x; isCorrect := isCorrect x |}.

Definition withRevealed (v : bool) (x : Cell) : Cell :=
  {| letter := letter x; userInput := userInput x; isBlack := isBlack x;
     number := number x; acrossClue := acrossClue x; downClue := downClue x;
     isSolutionCell := isSolutionCell x; solutionIndex := solutionIndex x;
     revealed := v; checked := checked x; isCorrect := isCorrect x |}.

Definition withChecked (v : bool) (x : Cell) : Cell :=
  {| letter := letter x; userInput := userInput x; isBlack := isBlack x;
     number := number x; acrossClue := acrossClue x; downClue := downClue x;
     isSolutionCell := isSolutionCell x; solutionIndex := solutionIndex x;
     revealed := revealed x; checked := v; isCorrect := isCorrect x |}.

Definition withIsCorrect (v : option bool) (x : Cell) : Cell :=
  {| letter := letter x; userInput := userInput x; isBlack := isBlack x;
     number := number x; acrossClue := acrossClue x; downClue := downClue x;
     isSolutionCell := isSolutionCell x; solutionIndex := solutionIndex x;
     revealed := revealed x; checked := checked x; isCorrect := v |}.

(** [g[r][c].userInput = u; g[r][c].checked = false; g[r][c].isCorrect = null] *)
Definition enterAt (g : list (list Cell)) (r c : Z) (u : string)
    : option (list (list Cell)) :=
  g1 ← updCell g r c (withUserInput u);
  g2 ← updCell g1 r c (withChecked false);
  updCell g2 r c (withIsCorrect None).

(** [g[r][c].userInput = g[r][c].letter; g[r][c].revealed = true;
    g[r][c].checked = true; g[r][c].isCorrect = true] *)
Definition revealAt (g : list (list Cell)) (r c : Z) : option (list (list Cell)) :=
  cell ← cellAt g r c;
  g1 ← updCell g r c (withUserInput (letter cell));
  g2 ← updCell g1 r c (withRevealed true);
  g3 ← updCell g2 r c (withChecked true);
  updCell g3 r c (withIsCorrect (Some true)).

(** The two nested loops over the rows and the columns of the grid. *)
Definition forCells (g : list (list Cell))
    (body : list (list Cell) → Z → Z → option (list (list Cell)))
    : option (list (list Cell)) :=
  forEach (seqZ 0 GRID_SIZE) g (λ g r, forEach (seqZ 0 GRID_SIZE) g (λ g c, body g r c)).

(** [clues.findIndex(p)]: the index of the first match, [-1] without one. *)
Fixpoint findIndex {A} (p : A → bool) (l : list A) : Z :=
  match l with
  | [] => -1
  | x :: rest => if p x then 0 else let k := findIndex p rest in
                                   if k <? 0 then -1 else k + 1
  end.

(** [a % b] on integers: the remainder has the sign of [a]; it is [NaN]
    ([None]) for [b = 0]. *)
Definition jsRem (a b : Z) : option Z :=
  if b =? 0 then None else Some (Z.rem a b).

(** A key of the keyboard as [handleKeyDown] tells them apart: [Letter]
    is a key that matches [/^[a-zA-ZäöüÄÖÜß]$/], [OtherKey] any key the
    handler ignores. *)
Inductive Key :=
  | Tab (shiftKey : bool)
  | ArrowRight | ArrowLeft | ArrowDown | ArrowUp
  | Backspace | Delete
  | Letter (key : string)
  | OtherKey.

Section Game.

(** [String.prototype.toUpperCase]. *)
Variable toUpperCase : string → string.

Definition checkCompleteScan (g : list (list Cell)) : option (bool * bool) :=
  forEach (seqZ 0 GRID_SIZE) (true, true) (λ acc r,
    forEach (seqZ 0 GRID_SIZE) acc (λ '(allFilled, allCorrect) c,
      cell ← cellAt g r c;
      if negb (isBlack cell) then
        Some (if bool_decide (userInput cell = ""%string) then false else allFilled,
              if negb (bool_decide (toUpperCase (userInput cell) = letter cell))
              then false else allCorrect)
      else Some (allFilled, allCorrect))).

Definition checkComplete (g : list (list Cell)) (st : AppState) : option AppState :=
  '(allFilled, allCorrect) ← checkCompleteScan g;
  Some (if allFilled && allCorrect
        then setShowKeyboard false (setShowCongrats true (setIsRunning false
               (setIsComplete true st)))
        else st).

(** [placedWords.find(pw => pw.number === n && pw.direction === d) || null] *)
Definition findClue (pws : list PlacedWord) (n : Z) (d : direction) : option PlacedWord :=
  List.find (λ pw, bool_decide (pw_number pw = n) && bool_decide (pw_direction pw = d)) pws.

Definition getActiveClue (st : AppState) : option (option PlacedWord) :=
  match app_selectedCell st with
  | None => Some None
  | Some (row, col) =>
      cell ← cellAt (app_grid st) row col;
      let clueNum := if bool_decide (app_direction st = across)
                     then acrossClue cell else downClue cell in
      match clueNum with
      | None =>
          let altNum := if bool_decide (app_direction st = across)
                        then downClue cell else acrossClue cell in
          match altNum with
          | Some n =>
              Some (findClue (placedWords (app_puzzle st)) n
                             (if bool_decide (app_direction st = across) then down else across))
          | None => Some None
          end
      | Some n => Some (findClue (placedWords (app_puzzle st)) n (app_direction st))
      end
  end.

Definition getClueCells (clue : PlacedWord) : list (Z * Z) :=
  (λ i, if bool_decide (pw_direction clue = across)
        then (pw_row clue, pw_col clue + i) else (pw_row clue + i, pw_col clue))
  <$> seqZ 0 (wlen (pw_word clue)).

(** The grid read is the one of the render the callback was created in. *)
Definition moveToNextCell (g : list (list Cell)) (row col : Z) (dir : direction)
    (st : AppState) : option AppState :=
  let nr := if bool_decide (dir = across) then row else row + 1 in
  let nc := if bool_decide (dir = across) then col + 1 else col in
  if (nr <? GRID_SIZE) && (nc <? GRID_SIZE) then
    cell ← cellAt g nr nc;
    Some (if negb (isBlack cell) then setSelectedCell (Some (nr, nc)) st else st)
  else Some st.

Definition moveToPrevCell (g : list (list Cell)) (row col : Z) (dir : direction)
    (st : AppState) : option AppState :=
  let nr := if bool_decide (dir = across) then row else row - 1 in
  let nc := if bool_decide (dir = across) then col - 1 else col in
  if (nr >=? 0) && (nc >=? 0) then
    cell ← cellAt g nr nc;
    Some (if negb (isBlack cell) then setSelectedCell (Some (nr, nc)) st else st)
  else Some st.

(** The updater of [setDirection(d => ...)]: the other orientation when
    the cell has a clue for it. *)
Definition toggleDirection (cell : Cell) (d : direction) : direction :=
  let newDir := if bool_decide (d = across) then down else across in
  let clueNum := if bool_decide (newDir = across) then acrossClue cell else downClue cell in
  match clueNum with
  | Some _ => newDir
  | None => d
  end.

(** [setSelectedCell({ row, col })] and the orientation of a cell that
    has a clue in one orientation only. *)
Definition selectCell (cell : Cell) (row col : Z) (st : AppState) : AppState :=
  let st1 := setSelectedCell (Some (row, col)) st in
  let hasAcross := bool_decide (acrossClue cell ≠ None) in
  let hasDown := bool_decide (downClue cell ≠ None) in
  if hasAcross && negb hasDown then setDirection across st1
  else if negb hasAcross && hasDown then setDirection down st1
  else st1.

Definition handleCellInteraction (row col : Z) (isMobile : bool) (now : Z)
    (st : AppState) : option AppState :=
  cell ← cellAt (app_grid st) row col;
  if isBlack cell then Some st else
  let sameCell := bool_decide (app_selectedCell st = Some (row, col)) in
  if isMobile then
    if match app_lastTap st with
       | Some (lr, lc, ltime) =>
           bool_decide (lr = row) && bool_decide (lc = col) && (now - ltime <? 400)
       | None => false
       end
    then
      Some (setLastTap None (setShowKeyboard true
              (setDirection (toggleDirection cell (app_direction st)) st)))
    else
      Some (setLastTap (Some (row, col, now))
              (if sameCell then setShowKeyboard true st
               else setShowKeyboard true (selectCell cell row col st)))
  else
    Some (if sameCell then setDirection (toggleDirection cell (app_direction st)) st
          else selectCell cell row col st).

Definition handleLetterInput (letter : string) (st : AppState) : option AppState :=
  match app_selectedCell st with
  | None => Some st
  | Some (row, col) =>
      let upperLetter := toUpperCase letter in
      newGrid ← enterAt (app_grid st) row col upperLetter;
      st1 ← moveToNextCell (app_grid st) row col (app_direction st) (setGrid newGrid st);
      checkComplete newGrid st1
  end.

Definition handleDelete (st : AppState) : option AppState :=
  match app_selectedCell st with
  | None => Some st
  | Some (row, col) =>
      cell ← cellAt (app_grid st) row col;
      if bool_decide (userInput cell = ""%string) then
        st1 ← moveToPrevCell (app_grid st) row col (app_direction st) st;
        let pr := if bool_decide (app_direction st = across) then row else row - 1 in
        let pc := if bool_decide (app_direction st = across) then col - 1 else col in
        newGrid ← (if (pr >=? 0) && (pc >=? 0) then
                     prev ← cellAt (app_grid st) pr pc;
                     if negb (isBlack prev) then enterAt (app_grid st) pr pc ""%string
                     else Some (app_grid st)
                   else Some (app_grid st));
        Some (setGrid newGrid st1)
      else
        newGrid ← enterAt (app_grid st) row col ""%string;
        Some (setGrid newGrid st)
  end.

Definition handleKeyDown (key : Key) (st : AppState) : option AppState :=
  match app_selectedCell st with
  | None => Some st
  | Some (row, col) =>
      match key with
      | Tab shiftKey =>
          activeClue ← getActiveClue st;
          match activeClue with
          | Some active =>
              let clues := filter (λ pw, pw_direction pw = app_direction st)
                                  (placedWords (app_puzzle st)) in
              let idx := findIndex (λ c, bool_decide (pw_number c = pw_number active)) clues in
              let len := Z.of_nat (length clues) in
              nextIdx ← jsRem (idx + (if shiftKey then -1 else 1) + len) len;
              nextClue ← at_index clues nextIdx;
              Some (setSelectedCell (Some (pw_row nextClue, pw_col nextClue)) st)
          | None => Some st
          end
      | ArrowRight => moveToNextCell (app_grid st) row col across (setDirection across st)
      | ArrowLeft => moveToPrevCell (app_grid st) row col across (setDirection across st)
      | ArrowDown => moveToNextCell (app_grid st) row col down (setDirection down st)
      | ArrowUp => moveToPrevCell (app_grid st) row col down (setDirection down st)
      | Backspace => handleDelete st
      | Delete =>
          newGrid ← enterAt (app_grid st) row col ""%string;
          Some (setGrid newGrid st)
      | Letter key => handleLetterInput key st
      | OtherKey => Some st
      end
  end.

Definition handleClueClick (clue : PlacedWord) (isMobile : bool) (st : AppState)
    : AppState :=
  let st1 := setDirection (pw_direction clue)
               (setSelectedCell (Some (pw_row clue, pw_col clue)) st) in
  if isMobile then setShowCluesPanel false (setShowKeyboard true st1) else st1.

Definition revealCell (st : AppState) : option AppState :=
  match app_selectedCell st with
  | None => Some st
  | Some (row, col) =>
      if app_hintsLetterUsed st >=? MAX_LETTER_HINTS then Some st else
      cell ← cellAt (app_grid st) row col;
      if isBlack cell || revealed cell
         || bool_decide (toUpperCase (userInput cell) = letter cell)
      then Some st else
      newGrid ← revealAt (app_grid st) row col;
      checkComplete newGrid
        (setHintsLetterUsed (app_hintsLetterUsed st + 1) (setGrid newGrid st))
  end.

Definition revealWord (st : AppState) : option AppState :=
  if app_hintsWordUsed st >=? MAX_WORD_HINTS then Some st else
  activeClue ← getActiveClue st;
  match activeClue with
  | None => Some st
  | Some active =>
      newGrid ← forEach (getClueCells active) (app_grid st)
                        (λ g rc, revealAt g rc.1 rc.2);
      checkComplete newGrid
        (setHintsWordUsed (app_hintsWordUsed st + 1) (setGrid newGrid st))
  end.

Definition revealAll (st : AppState) : option AppState :=
  newGrid ← forCells (app_grid st) (λ g r c,
               cell ← cellAt g r c;
               if negb (isBlack cell) then revealAt g r c else Some g);
  Some (setShowKeyboard false (setIsRunning false (setIsComplete true
          (setShowSolution true (setGrid newGrid st))))).

Definition checkPuzzle (st : AppState) : option AppState :=
  newGrid ← forCells (app_grid st) (λ g r c,
               cell ← cellAt g r c;
               if negb (isBlack cell) && negb (bool_decide (userInput cell = ""%string)) then
                 g1 ← updCell g r c (withChecked true);
                 cell1 ← cellAt g1 r c;
                 updCell g1 r c
                   (withIsCorrect
                      (Some (bool_decide (toUpperCase (userInput cell1) = letter cell1))))
               else Some g);
  Some (setGrid newGrid st).

(** [{ ...c, userInput: c.revealed ? c.userInput : '', checked: ..., isCorrect: ... }] *)
Definition clearedCell (c : Cell) : Cell :=
  withIsCorrect (if revealed c then isCorrect c else None)
    (withChecked (if revealed c then checked c else false)
       (withUserInput (if revealed c then userInput c else ""%string) c)).

Definition clearPuzzle (st : AppState) : AppState :=
  setGrid ((λ r : list Cell, clearedCell <$> r) <$> app_grid st) st.

Definition clearErrors (st : AppState) : option AppState :=
  newGrid ← forCells (app_grid st) (λ g r c,
               cell ← cellAt g r c;
               if checked cell && bool_decide (isCorrect cell = Some false)
               then enterAt g r c ""%string else Some g);
  Some (setGrid newGrid st).

Definition checkSolutionWord (st : AppState) : AppState :=
  if bool_decide (toUpperCase (app_solutionInput st) = solutionWord (app_puzzle st))
  then setSolutionCorrect (Some true) st
  else setSolutionCorrect (Some false) st.

(** [newPuzzle], with [p] the puzzle that its call of [generatePuzzle]
    returns.  The clues panel and the last tap stay as they are. *)
Definition newPuzzle (p : Puzzle) (st : AppState) : AppState :=
  setShowKeyboard false (setHintsWordUsed 0 (setHintsLetterUsed 0
    (setSolutionCorrect None (setSolutionInput ""%string (setShowCongrats false
      (setIsRunning true (setTimer 0 (setIsComplete false (setShowSolution false
        (setDirection across (setSelectedCell None
          (setGrid (grid p) (setPuzzle p st))))))))))))).

(** [onChange] of the solution word input. *)
Definition changeSolutionInput (value : string) (st : AppState) : AppState :=
  setSolutionCorrect None (setSolutionInput (toUpperCase value) st).

(** [onToggleDirection] of the mobile keyboard. *)
Definition onToggleDirection (st : AppState) : option AppState :=
  match app_selectedCell st with
  | None => Some st
  | Some (row, col) =>
      cell ← cellAt (app_grid st) row col;
      Some (setDirection (toggleDirection cell (app_direction st)) st)
  end.

(** [puzzle.solutionCells.map(sc => grid[sc.row][sc.col].userInput || '_')] *)
Definition solutionLetters (st : AppState) : option (list string) :=
  mapM (λ sc, cell ← cellAt (app_grid st) (sc_row sc) (sc_col sc);
              Some (if bool_decide (userInput cell = ""%string) then "_"%string
                    else userInput cell))
       (solutionCells (app_puzzle st)).

(** What the user can do, with what the document supplies to the handler:
    the cell or clue clicked, the key, the clock. *)
Inductive Event :=
  | CellInteraction (row col : Z) (isMobile : bool) (now : Z)
  | KeyDown (key : Key)
  | KeyPress (key : string)
  | DeleteKey
  | ToggleDirection
  | ClueClick (clue : PlacedWord) (isMobile : bool)
  | RevealCell | RevealWord | RevealAll
  | CheckPuzzle | ClearPuzzle | ClearErrors
  | NewPuzzle (p : Puzzle)
  | CheckSolutionWord
  | ChangeSolutionInput (value : string).

Definition handle (ev : Event) (st : AppState) : option AppState :=
  match ev with
  | CellInteraction row col isMobile now => handleCellInteraction row col isMobile now st
  | KeyDown key => handleKeyDown key st
  | KeyPress key => handleLetterInput key st
  | DeleteKey => handleDelete st
  | ToggleDirection => onToggleDirection st
  | ClueClick clue isMobile => Some (handleClueClick clue isMobile st)
  | RevealCell => revealCell st
  | RevealWord => revealWord st
  | RevealAll => revealAll st
  | CheckPuzzle => checkPuzzle st
  | ClearPuzzle => Some (clearPuzzle st)
  | ClearErrors => clearErrors st
  | NewPuzzle p => Some (newPuzzle p st)
  | CheckSolutionWord => Some (checkSolutionWord st)
  | ChangeSolutionInput value => Some (changeSolutionInput value st)
  end.

End Game.

(** * Properties *)

(** ** Grids of the fixed size *)

Definition wfGrid {A} (g : list (list A)) : Prop :=
  length g = Z.to_nat GRID_SIZE ∧ Forall (λ row, length row = Z.to_nat GRID_SIZE) g.

Definition inGrid (r c : Z) : Prop :=
  (0 ≤ r < GRID_SIZE) ∧ (0 ≤ c < GRID_SIZE).

#[global] Instance inGrid_dec r c : Decision (inGrid r c).
Proof. unfold inGrid. apply _. Defined.

Lemma at_index_Some {A} (l : list A) i x :
  at_index l i = Some x ↔ 0 ≤ i ∧ l !! Z.to_nat i = Some x.
Proof. unfold at_index. destruct (decide (0 ≤ i)); intuition congruence. Qed.

Lemma at_index_is_Some {A} (l : list A) i :
  is_Some (at_index l i) ↔ 0 ≤ i < Z.of_nat (length l).
Proof.
  unfold at_index. case_decide.
  - rewrite lookup_lt_is_Some. lia.
  - split; [intros [? ?]; done | lia].
Qed.

Lemma cellAt_Some_inGrid {A} (g : list (list A)) r c x :
  wfGrid g → cellAt g r c = Some x → inGrid r c.
Proof.
  intros [Hlen Hrows] H. unfold cellAt in H.
  destruct (at_index g r) as [row|] eqn:Hr; simplify_eq/=.
  assert (is_Some (at_index g r)) as Hr' by eauto.
  assert (is_Some (at_index row c)) as Hc' by eauto.
  apply at_index_is_Some in Hr', Hc'.
  apply at_index_Some in Hr as [_ Hr].
  rewrite Forall_lookup in Hrows. apply Hrows in Hr.
  unfold inGrid, GRID_SIZE in *. lia.
Qed.

Lemma cellAt_inGrid {A} (g : list (list A)) r c :
  wfGrid g → inGrid r c → is_Some (cellAt g r c).
Proof.
  intros [Hlen Hrows] [Hr Hc]. unfold cellAt.
  destruct (at_index g r) as [row|] eqn:Hrow.
  - simpl. apply at_index_is_Some.
    apply at_index_Some in Hrow as [_ Hrow].
    rewrite Forall_lookup in Hrows. apply Hrows in Hrow.
    unfold GRID_SIZE in *. lia.
  - assert (is_Some (at_index g r)) as [? ?]; [|congruence].
    apply at_index_is_Some. unfold GRID_SIZE in *. lia.
Qed.

Lemma cellAt_None_iff {A} (g : list (list A)) r c :
  wfGrid g → cellAt g r c = None ↔ ¬ inGrid r c.
Proof.
  intros Hwf. split.
  - intros HN Hin. apply (cellAt_inGrid g) in Hin as [? ?]; congruence.
  - intros Hn. destruct (cellAt g r c) eqn:E; [|done].
    apply cellAt_Some_inGrid in E; done.
Qed.

Lemma setCell_spec {A} (g : list (list A)) r c x :
  wfGrid g → inGrid r c →
  ∃ g', setCell g r c x = Some g' ∧ wfGrid g' ∧
        ∀ r' c', cellAt g' r' c' = if decide ((r', c') = (r, c)) then Some x
                                   else cellAt g r' c'.
Proof.
  intros Hwf Hin. destruct (Hwf) as [Hlen Hrows]. destruct (Hin) as [Hr Hc].
  unfold setCell.
  destruct (at_index g r) as [row|] eqn:Hrow; last first.
  { assert (is_Some (at_index g r)) as [? ?]; [|congruence].
    apply at_index_is_Some. unfold GRID_SIZE in *. lia. }
  apply at_index_Some in Hrow as [_ Hrow]. simpl.
  assert (length row = Z.to_nat GRID_SIZE) as Hrl.
  { rewrite Forall_lookup in Hrows. by eapply Hrows. }
  unfold set_index.
  rewrite decide_True by (unfold GRID_SIZE in *; lia). simpl.
  rewrite decide_True by (unfold GRID_SIZE in *; lia).
  eexists; split; [done|]. split.
  - split; [by rewrite length_insert|].
    apply Forall_insert; [done|]. by rewrite length_insert.
  - intros r' c'. unfold cellAt, at_index.
    destruct (decide ((r', c') = (r, c))) as [Heq|Heq].
    + simplify_eq. rewrite decide_True by lia.
      rewrite list_lookup_insert_eq by (unfold GRID_SIZE in *; lia). simpl.
      rewrite decide_True by lia.
      rewrite list_lookup_insert_eq by (unfold GRID_SIZE in *; lia). done.
    + destruct (decide (0 ≤ r')); [|done].
      destruct (decide (Z.to_nat r' = Z.to_nat r)) as [E|E].
      * assert (r' = r) by lia. subst r'.
        rewrite list_lookup_insert_eq by (unfold GRID_SIZE in *; lia).
        rewrite Hrow. simpl.
        destruct (decide (0 ≤ c')); [|done].
        rewrite list_lookup_insert_ne; [done|]. intros E'.
        apply Heq. f_equal. lia.
      * by rewrite list_lookup_insert_ne.
Qed.

Lemma createEmptyGrid_wf : wfGrid createEmptyGrid.
Proof.
  split; [done|]. unfold createEmptyGrid.
  apply Forall_replicate. done.
Qed.

Lemma cellAt_replicate {A} (n m : nat) (x : A) r c :
  0 ≤ r < Z.of_nat n → 0 ≤ c < Z.of_nat m →
  cellAt (replicate n (replicate m x)) r c = Some x.
Proof.
  intros Hr Hc. unfold cellAt, at_index.
  rewrite decide_True by lia.
  rewrite lookup_replicate_2 by lia. simpl.
  rewrite decide_True by lia.
  by rewrite lookup_replicate_2 by lia.
Qed.

Lemma createEmptyGrid_cell r c :
  inGrid r c → cellAt createEmptyGrid r c = Some ""%string.
Proof.
  intros [Hr Hc]. unfold GRID_SIZE in *.
  apply cellAt_replicate; unfold GRID_SIZE; lia.
Qed.

(** ** Letters of a word *)

Lemma string_get_is_Some (w : string) (n : nat) :
  (n < String.length w)%nat → is_Some (String.get n w).
Proof.
  revert n. induction w as [|a w IH]; intros n Hn; simpl in *; [lia|].
  destruct n; [eauto|]. apply IH. lia.
Qed.

Lemma string_get_Some_lt (w : string) (n : nat) a :
  String.get n w = Some a → (n < String.length w)%nat.
Proof.
  revert n. induction w as [|b w IH]; intros n Hn; simpl in *; [done|].
  destruct n; [lia|]. apply IH in Hn. lia.
Qed.

Lemma letterAt_is_Some w i :
  0 ≤ i < wlen w → ∃ a, letterAt w i = Some (String a EmptyString).
Proof.
  intros Hi. unfold letterAt, wlen in *. rewrite decide_True by lia.
  destruct (string_get_is_Some w (Z.to_nat i)) as [a Ha]; [lia|].
  exists a. by rewrite Ha.
Qed.

Lemma letterAt_Some w i s :
  letterAt w i = Some s → 0 ≤ i < wlen w ∧ s ≠ ""%string.
Proof.
  unfold letterAt, wlen. case_decide; [|done].
  destruct (String.get (Z.to_nat i) w) as [a|] eqn:E; [|done].
  intros [= <-]. apply string_get_Some_lt in E. split; [lia|done].
Qed.

Lemma filled_true s : filled s = true ↔ s ≠ ""%string.
Proof. unfold filled. rewrite negb_true_iff, bool_decide_eq_false. done. Qed.

Lemma filled_false s : filled s = false ↔ s = ""%string.
Proof. unfold filled. rewrite negb_false_iff, bool_decide_eq_true. done. Qed.

(** ** The legality of a placement, stated on the grid *)

(** The cell is outside the grid or holds no letter. *)
Definition emptyOrOff (g : list (list string)) (rc : Z * Z) : Prop :=
  ¬ inGrid rc.1 rc.2 ∨ cellAt g rc.1 rc.2 = Some ""%string.

(** The word lies inside the grid in its orientation: its line is a line of
    the grid and its span is within the 15 cells of that line. *)
Definition fitsInGrid (word : string) (row col : Z) (d : direction) : Prop :=
  match d with
  | across => (0 ≤ row < GRID_SIZE) ∧ 0 ≤ col ∧ col + wlen word ≤ GRID_SIZE
  | down => (0 ≤ col < GRID_SIZE) ∧ 0 ≤ row ∧ row + wlen word ≤ GRID_SIZE
  end.

(** The two neighbours of a cell along the axis perpendicular to [d]. *)
Definition sideNeighbours (d : direction) (rc : Z * Z) : list (Z * Z) :=
  match d with
  | across => [(rc.1 - 1, rc.2); (rc.1 + 1, rc.2)]
  | down => [(rc.1, rc.2 - 1); (rc.1, rc.2 + 1)]
  end.

(** The occupancy map records a word of orientation [d] on the cell. *)
Definition occupiedBy (occupied : OccupiedMap) (rc : Z * Z) (d : direction) : Prop :=
  ∃ dirs, occupied !! rc = Some dirs ∧ d ∈ dirs.

(** The rule for the letter at position [i]. *)
Definition positionOK (g : list (list string)) (word : string) (row col : Z)
    (d : direction) (occupied : OccupiedMap) (i : Z) : Prop :=
  ∃ existing, cellAt g (cellOf d row col i).1 (cellOf d row col i).2 = Some existing ∧
    (existing ≠ ""%string →
       letterAt word i = Some existing ∧
       ¬ occupiedBy occupied (cellOf d row col i) d ∧
       occupiedBy occupied (cellOf d row col i) (otherDir d)) ∧
    (existing = ""%string →
       ∀ n, n ∈ sideNeighbours d (cellOf d row col i) → emptyOrOff g n).

(** The target cell of position [i] already holds a letter. *)
Definition targetFilled (g : list (list string)) (row col : Z) (d : direction)
    (i : Z) : bool :=
  match cellAt g (cellOf d row col i).1 (cellOf d row col i).2 with
  | Some s => filled s
  | None => false
  end.

(** The number of intersections of a placement: the positions whose target
    cell already holds a letter. *)
Definition intersections (g : list (list string)) (word : string) (row col : Z)
    (d : direction) : Z :=
  Z.of_nat (length (filter (λ i, targetFilled g row col d i = true) (seqZ 0 (wlen word)))).

Definition legalPlacement (g : list (list string)) (word : string) (row col : Z)
    (d : direction) (placed : list PlacedWord) (occupied : OccupiedMap) : Prop :=
  fitsInGrid word row col d ∧
  emptyOrOff g (cellOf d row col (-1)) ∧
  emptyOrOff g (cellOf d row col (wlen word)) ∧
  (∀ i, 0 ≤ i < wlen word → positionOK g word row col d occupied i) ∧
  (placed ≠ [] → 1 ≤ intersections g word row col d).

Lemma hasDirection_true occupied rc d :
  hasDirection occupied rc d = true ↔ occupiedBy occupied rc d.
Proof.
  unfold hasDirection, occupiedBy. destruct (occupied !! rc) as [dirs|].
  - rewrite bool_decide_eq_true. naive_solver.
  - naive_solver.
Qed.

Lemma hasDirection_false occupied rc d :
  hasDirection occupied rc d = false ↔ ¬ occupiedBy occupied rc d.
Proof. rewrite <- hasDirection_true. by destruct (hasDirection occupied rc d). Qed.

(** A guarded read of a neighbour, when the guard says whether the
    neighbour is inside the grid. *)
Lemma guardedFilled_spec (g : list (list string)) (cond : bool) r c :
  wfGrid g → (cond = true ↔ inGrid r c) →
  ∃ b, guardedFilled cond (cellAt g r c) = Some b ∧ (b = false ↔ emptyOrOff g (r, c)).
Proof.
  intros Hwf Hcond. unfold guardedFilled, emptyOrOff. simpl.
  destruct cond.
  - assert (inGrid r c) as Hin by by apply Hcond.
    destruct (cellAt_inGrid g r c Hwf Hin) as [s Hs]. rewrite Hs. simpl.
    exists (filled s). split; [done|]. rewrite filled_false. naive_solver.
  - exists false. split; [done|]. split; [|done]. intros _. left.
    intros Hin. apply Hcond in Hin. done.
Qed.

Lemma cellOf_across row col i : cellOf across row col i = (row, col + i).
Proof. done. Qed.

Lemma cellOf_down row col i : cellOf down row col i = (row + i, col).
Proof. done. Qed.

(** One turn of the letter loop on a cell of the grid. *)
Lemma canPlaceCell_spec g word row col d occupied i n :
  wfGrid g → 0 ≤ i < wlen word →
  inGrid (cellOf d row col i).1 (cellOf d row col i).2 →
  (positionOK g word row col d occupied i ∧
   canPlaceCell g word row col d occupied i n
   = Some (Some (if targetFilled g row col d i then n + 1 else n))) ∨
  (¬ positionOK g word row col d occupied i ∧
   canPlaceCell g word row col d occupied i n = Some None).
Proof.
  intros Hwf Hi Hin.
  destruct (cellAt_inGrid g _ _ Hwf Hin) as [existing Hex].
  destruct (letterAt_is_Some word i Hi) as [a Ha].
  unfold canPlaceCell, positionOK, targetFilled.
  assert ((if bool_decide (d = across) then row else row + i) = (cellOf d row col i).1)
    as -> by by destruct d.
  assert ((if bool_decide (d = across) then col + i else col) = (cellOf d row col i).2)
    as -> by by destruct d.
  rewrite Hex. simpl.
  destruct (filled existing) eqn:Hf.
  - apply filled_true in Hf. rewrite Ha. simpl.
    rewrite <- surjective_pairing.
    destruct (bool_decide (existing = String a EmptyString)) eqn:Heq; simpl.
    + apply bool_decide_eq_true in Heq.
      destruct (hasDirection occupied (cellOf d row col i) d) eqn:Hsame.
      { right. split; [|done]. intros (e & He & Hocc & _). simplify_eq.
        apply hasDirection_true in Hsame. naive_solver. }
      destruct (hasDirection occupied (cellOf d row col i) (otherDir d)) eqn:Hoth; simpl.
      * left. split; [|done]. exists existing. split; [done|].
        apply hasDirection_false in Hsame. apply hasDirection_true in Hoth.
        split; [|done]. intros _. by subst.
      * right. split; [|done]. intros (e & He & Hocc & _). simplify_eq.
        apply hasDirection_false in Hoth. naive_solver.
    + apply bool_decide_eq_false in Heq.
      right. split; [|done]. intros (e & He & Hocc & _). simplify_eq.
      destruct (Hocc Hf) as [? _]. congruence.
  - apply filled_false in Hf. subst existing.
    destruct d; simpl.
    + rewrite cellOf_across in *. simpl in *.
      destruct (guardedFilled_spec g (row >? 0) (row - 1) (col + i) Hwf)
        as (b1 & -> & Hb1).
      { unfold inGrid, GRID_SIZE in *. rewrite Z.gtb_gt. lia. }
      destruct (guardedFilled_spec g (row <? GRID_SIZE - 1) (row + 1) (col + i) Hwf)
        as (b2 & Hg2 & Hb2).
      { unfold inGrid, GRID_SIZE in *. rewrite Z.ltb_lt. lia. }
      simpl. destruct b1.
      { right. split; [|done]. intros (e & He & _ & Hnb). simplify_eq.
        assert (true = false); [|done]. apply Hb1, Hnb; [done|]. set_solver. }
      rewrite Hg2. simpl. destruct b2.
      { right. split; [|done]. intros (e & He & _ & Hnb). simplify_eq.
        assert (true = false); [|done]. apply Hb2, Hnb; [done|]. set_solver. }
      left. split; [|done]. eexists; split; [done|]. split; [done|].
      intros _ nb Hnb. simpl in Hnb.
      apply elem_of_cons in Hnb as [->|Hnb]; [by apply Hb1|].
      apply list_elem_of_singleton in Hnb as ->. by apply Hb2.
    + rewrite cellOf_down in *. simpl in *.
      destruct (guardedFilled_spec g (col >? 0) (row + i) (col - 1) Hwf)
        as (b1 & -> & Hb1).
      { unfold inGrid, GRID_SIZE in *. rewrite Z.gtb_gt. lia. }
      destruct (guardedFilled_spec g (col <? GRID_SIZE - 1) (row + i) (col + 1) Hwf)
        as (b2 & Hg2 & Hb2).
      { unfold inGrid, GRID_SIZE in *. rewrite Z.ltb_lt. lia. }
      simpl. destruct b1.
      { right. split; [|done]. intros (e & He & _ & Hnb). simplify_eq.
        assert (true = false); [|done]. apply Hb1, Hnb; [done|]. set_solver. }
      rewrite Hg2. simpl. destruct b2.
      { right. split; [|done]. intros (e & He & _ & Hnb). simplify_eq.
        assert (true = false); [|done]. apply Hb2, Hnb; [done|]. set_solver. }
      left. split; [|done]. eexists; split; [done|]. split; [done|].
      intros _ nb Hnb. simpl in Hnb.
      apply elem_of_cons in Hnb as [->|Hnb]; [by apply Hb1|].
      apply list_elem_of_singleton in Hnb as ->. by apply Hb2.
Qed.

Definition filledCount (g : list (list string)) (row col : Z) (d : direction)
    (positions : list Z) : Z :=
  Z.of_nat (length (filter (λ i, targetFilled g row col d i = true) positions)).

Lemma filledCount_cons g row col d i positions :
  filledCount g row col d (i :: positions)
  = (if targetFilled g row col d i then 1 else 0) + filledCount g row col d positions.
Proof.
  unfold filledCount. rewrite filter_cons.
  destruct (targetFilled g row col d i).
  - rewrite decide_True by done. simpl length. lia.
  - rewrite decide_False by done. lia.
Qed.

Lemma filledCount_nonneg g row col d positions : 0 ≤ filledCount g row col d positions.
Proof. unfold filledCount. lia. Qed.

(** The letter loop over cells of the grid: it runs to its end exactly when
    every position obeys the rule, and then it has counted the filled
    target cells. *)
Lemma canPlaceLoop_spec g word row col d occupied positions n :
  wfGrid g →
  (∀ i, i ∈ positions →
        0 ≤ i < wlen word ∧ inGrid (cellOf d row col i).1 (cellOf d row col i).2) →
  (Forall (positionOK g word row col d occupied) positions ∧
   canPlaceLoop g word row col d occupied positions n
   = Some (Some (n + filledCount g row col d positions))) ∨
  (¬ Forall (positionOK g word row col d occupied) positions ∧
   canPlaceLoop g word row col d occupied positions n = Some None).
Proof.
  intros Hwf. revert n. induction positions as [|i rest IH]; intros n Hpos.
  - left. split; [constructor|]. simpl. unfold filledCount. simpl. f_equal. f_equal. lia.
  - destruct (Hpos i) as [Hi Hin]; [set_solver|].
    simpl. rewrite filledCount_cons.
    destruct (canPlaceCell_spec g word row col d occupied i n Hwf Hi Hin)
      as [[Hok ->]|[Hno ->]]; simpl.
    + destruct (IH (if targetFilled g row col d i then n + 1 else n)) as [[HF ->]|[HF ->]].
      { intros j Hj. apply Hpos. set_solver. }
      * left. split; [by constructor|]. f_equal. f_equal.
        destruct (targetFilled g row col d i); lia.
      * right. split; [|done]. intros HF'. apply HF. by inversion HF'.
    + right. split; [|done]. intros HF'. apply Hno. by inversion HF'.
Qed.

Lemma guardedFilled_read (read : option string) b :
  guardedFilled true read = Some b → is_Some read.
Proof. unfold guardedFilled. destruct read; [eauto|done]. Qed.

Lemma canPlaceLoop_first_read g word row col d occupied i rest n res :
  canPlaceLoop g word row col d occupied (i :: rest) n = Some res →
  is_Some (cellAt g (cellOf d row col i).1 (cellOf d row col i).2).
Proof.
  simpl. unfold canPlaceCell.
  assert ((if bool_decide (d = across) then row else row + i) = (cellOf d row col i).1)
    as -> by by destruct d.
  assert ((if bool_decide (d = across) then col + i else col) = (cellOf d row col i).2)
    as -> by by destruct d.
  destruct (cellAt g (cellOf d row col i).1 (cellOf d row col i).2); [eauto|done].
Qed.

Lemma Forall_seqZ_positions (P : Z → Prop) len :
  Forall P (seqZ 0 len) ↔ ∀ i, 0 ≤ i < len → P i.
Proof. rewrite Forall_seqZ. split; intros H i Hi; apply H; lia. Qed.

Lemma Zgtb_false a b : (a >? b) = false ↔ a ≤ b.
Proof. rewrite Z.gtb_ltb, Z.ltb_ge. done. Qed.

(** A placement accepted by the code lies inside the grid. *)
Lemma canPlaceWord_true_fits g word row col d placed occupied :
  wfGrid g → canPlaceWord g word row col d placed occupied = Some true →
  fitsInGrid word row col d.
Proof.
  intros Hwf H. unfold canPlaceWord in H.
  assert (0 ≤ wlen word) as Hlen by (unfold wlen; lia).
  destruct d; simpl in H.
  - destruct (col + wlen word >? GRID_SIZE) eqn:Hb; [done|].
    apply Zgtb_false in Hb.
    destruct (guardedFilled (col >? 0) _) as [[|]|] eqn:Hbefore; simplify_eq/=.
    destruct (guardedFilled (col + wlen word <? GRID_SIZE) _) as [[|]|] eqn:Hafter;
      simplify_eq/=.
    destruct (canPlaceLoop _ _ _ _ _ _ _ _) as [res|] eqn:Hloop; simplify_eq/=.
    unfold fitsInGrid.
    destruct (decide (0 < wlen word)) as [Hpos|Hzero].
    + rewrite seqZ_cons in Hloop by done.
      apply canPlaceLoop_first_read in Hloop as [s Hs]. rewrite cellOf_across in Hs.
      apply cellAt_Some_inGrid in Hs as [? ?]; [|done]. simpl in *. lia.
    + destruct (col >? 0) eqn:Hcol.
      * apply guardedFilled_read in Hbefore as [s Hs].
        apply cellAt_Some_inGrid in Hs as [? ?]; [|done].
        apply Z.gtb_lt in Hcol. lia.
      * assert ((col + wlen word <? GRID_SIZE) = true) as Hc'.
        { apply Z.ltb_lt. apply Zgtb_false in Hcol. unfold GRID_SIZE. lia. }
        rewrite Hc' in Hafter. apply guardedFilled_read in Hafter as [s Hs].
        apply cellAt_Some_inGrid in Hs as [? ?]; [|done]. lia.
  - destruct (row + wlen word >? GRID_SIZE) eqn:Hb; [done|].
    apply Zgtb_false in Hb.
    destruct (guardedFilled (row >? 0) _) as [[|]|] eqn:Hbefore; simplify_eq/=.
    destruct (guardedFilled (row + wlen word <? GRID_SIZE) _) as [[|]|] eqn:Hafter;
      simplify_eq/=.
    destruct (canPlaceLoop _ _ _ _ _ _ _ _) as [res|] eqn:Hloop; simplify_eq/=.
    unfold fitsInGrid.
    destruct (decide (0 < wlen word)) as [Hpos|Hzero].
    + rewrite seqZ_cons in Hloop by done.
      apply canPlaceLoop_first_read in Hloop as [s Hs]. rewrite cellOf_down in Hs.
      apply cellAt_Some_inGrid in Hs as [? ?]; [|done]. simpl in *. lia.
    + destruct (row >? 0) eqn:Hrow.
      * apply guardedFilled_read in Hbefore as [s Hs].
        apply cellAt_Some_inGrid in Hs as [? ?]; [|done].
        apply Z.gtb_lt in Hrow. lia.
      * assert ((row + wlen word <? GRID_SIZE) = true) as Hc'.
        { apply Z.ltb_lt. apply Zgtb_false in Hrow. unfold GRID_SIZE. lia. }
        rewrite Hc' in Hafter. apply guardedFilled_read in Hafter as [s Hs].
        apply cellAt_Some_inGrid in Hs as [? ?]; [|done]. lia.
Qed.

(** Inside the grid the code reads no cell out of bounds, and it accepts
    the placement exactly when the remaining rules hold. *)
Lemma canPlaceWord_fits_result g word row col d placed occupied :
  wfGrid g → fitsInGrid word row col d →
  ∃ b, canPlaceWord g word row col d placed occupied = Some b ∧
       (b = true ↔
        emptyOrOff g (cellOf d row col (-1)) ∧
        emptyOrOff g (cellOf d row col (wlen word)) ∧
        (∀ i, 0 ≤ i < wlen word → positionOK g word row col d occupied i) ∧
        (placed ≠ [] → 1 ≤ intersections g word row col d)).
Proof.
  intros Hwf Hfits. unfold canPlaceWord.
  assert (0 ≤ wlen word) as Hlen by (unfold wlen; lia).
  assert (0 ≤ filledCount g row col d (seqZ 0 (wlen word))) as Hcnt
    by apply filledCount_nonneg.
  assert ((Z.of_nat (length placed) >? 0) = true ↔ placed ≠ []) as Hplaced.
  { rewrite Z.gtb_lt. destruct placed; simpl length; [split; [lia|congruence]|split; [done|lia]]. }
  destruct (canPlaceLoop_spec g word row col d occupied (seqZ 0 (wlen word)) 0 Hwf)
    as [[HF Hloop]|[HF Hloop]].
  { intros i Hi. apply elem_of_seqZ in Hi. split; [lia|].
    destruct d; simpl in *; unfold inGrid, GRID_SIZE in *; simpl; lia. }
  - rewrite Z.add_0_l in Hloop. destruct d; simpl in Hfits |- *.
    + rewrite (proj2 (Zgtb_false _ _)) by lia. simpl.
      destruct (guardedFilled_spec g (col >? 0) row (col - 1) Hwf) as (b1 & -> & Hb1).
      { unfold inGrid, GRID_SIZE in *. rewrite Z.gtb_lt. lia. }
      destruct (guardedFilled_spec g (col + wlen word <? GRID_SIZE) row (col + wlen word) Hwf)
        as (b2 & Hg2 & Hb2).
      { unfold inGrid, GRID_SIZE in *. rewrite Z.ltb_lt. lia. }
      simpl. replace (col + -1) with (col - 1) by lia.
      destruct b1; [exists false; split; [done|]; naive_solver|].
      rewrite Hg2. simpl.
      destruct b2; [exists false; split; [done|]; naive_solver|].
      rewrite Hloop. simpl. rewrite Forall_seqZ_positions in HF.
      unfold intersections. fold (filledCount g row col across (seqZ 0 (wlen word))).
      destruct (Z.of_nat (length placed) >? 0) eqn:Hp; simpl.
      * destruct (Z.eqb_spec (filledCount g row col across (seqZ 0 (wlen word))) 0) as [E|E].
        -- exists false. split; [done|]. split; [done|].
           intros (_ & _ & _ & Hint). specialize (Hint (proj1 Hplaced eq_refl)). lia.
        -- exists true. split; [done|]. split; [|done]. intros _.
           repeat split; [by apply Hb1|by apply Hb2|done|]. intros _. lia.
      * exists true. split; [done|]. split; [|done]. intros _.
        repeat split; [by apply Hb1|by apply Hb2|done|].
        intros Hne. apply Hplaced in Hne. done.
    + rewrite (proj2 (Zgtb_false _ _)) by lia. simpl.
      destruct (guardedFilled_spec g (row >? 0) (row - 1) col Hwf) as (b1 & -> & Hb1).
      { unfold inGrid, GRID_SIZE in *. rewrite Z.gtb_lt. lia. }
      destruct (guardedFilled_spec g (row + wlen word <? GRID_SIZE) (row + wlen word) col Hwf)
        as (b2 & Hg2 & Hb2).
      { unfold inGrid, GRID_SIZE in *. rewrite Z.ltb_lt. lia. }
      simpl. replace (row + -1) with (row - 1) by lia.
      destruct b1; [exists false; split; [done|]; naive_solver|].
      rewrite Hg2. simpl.
      destruct b2; [exists false; split; [done|]; naive_solver|].
      rewrite Hloop. simpl. rewrite Forall_seqZ_positions in HF.
      unfold intersections. fold (filledCount g row col down (seqZ 0 (wlen word))).
      destruct (Z.of_nat (length placed) >? 0) eqn:Hp; simpl.
      * destruct (Z.eqb_spec (filledCount g row col down (seqZ 0 (wlen word))) 0) as [E|E].
        -- exists false. split; [done|]. split; [done|].
           intros (_ & _ & _ & Hint). specialize (Hint (proj1 Hplaced eq_refl)). lia.
        -- exists true. split; [done|]. split; [|done]. intros _.
           repeat split; [by apply Hb1|by apply Hb2|done|]. intros _. lia.
      * exists true. split; [done|]. split; [|done]. intros _.
        repeat split; [by apply Hb1|by apply Hb2|done|].
        intros Hne. apply Hplaced in Hne. done.
  - rewrite Forall_seqZ_positions in HF.
    assert (∃ b, canPlaceWord g word row col d placed occupied = Some b ∧ b = false)
      as (b & Hb & ->); [|exists false; split; [done|]; naive_solver].
    unfold canPlaceWord.
    destruct d; simpl in Hfits |- *.
    + rewrite (proj2 (Zgtb_false _ _)) by lia. simpl.
      destruct (guardedFilled_spec g (col >? 0) row (col - 1) Hwf) as (b1 & -> & Hb1).
      { unfold inGrid, GRID_SIZE in *. rewrite Z.gtb_lt. lia. }
      destruct (guardedFilled_spec g (col + wlen word <? GRID_SIZE) row (col + wlen word) Hwf)
        as (b2 & Hg2 & Hb2).
      { unfold inGrid, GRID_SIZE in *. rewrite Z.ltb_lt. lia. }
      simpl. destruct b1; [eauto|]. rewrite Hg2. simpl. destruct b2; [eauto|].
      rewrite Hloop. simpl. eauto.
    + rewrite (proj2 (Zgtb_false _ _)) by lia. simpl.
      destruct (guardedFilled_spec g (row >? 0) (row - 1) col Hwf) as (b1 & -> & Hb1).
      { unfold inGrid, GRID_SIZE in *. rewrite Z.gtb_lt. lia. }
      destruct (guardedFilled_spec g (row + wlen word <? GRID_SIZE) (row + wlen word) col Hwf)
        as (b2 & Hg2 & Hb2).
      { unfold inGrid, GRID_SIZE in *. rewrite Z.ltb_lt. lia. }
      simpl. destruct b1; [eauto|]. rewrite Hg2. simpl. destruct b2; [eauto|].
      rewrite Hloop. simpl. eauto.
Qed.

Lemma canPlaceWord_spec g word row col d placed occupied :
  wfGrid g →
  canPlaceWord g word row col d placed occupied = Some true
  ↔ legalPlacement g word row col d placed occupied.
Proof.
  intros Hwf. split.
  - intros H. pose proof (canPlaceWord_true_fits _ _ _ _ _ _ _ Hwf H) as Hfits.
    destruct (canPlaceWord_fits_result g word row col d placed occupied Hwf Hfits)
      as (b & Hb & Hiff).
    rewrite H in Hb. simplify_eq. split; [done|]. by apply Hiff.
  - intros (Hfits & Hrest).
    destruct (canPlaceWord_fits_result g word row col d placed occupied Hwf Hfits)
      as (b & Hb & Hiff).
    rewrite Hb. f_equal. by apply Hiff.
Qed.

(** ** The occupancy map of a list of placed words *)

(** The placed word covers the cell. *)
Definition covers (pw : PlacedWord) (rc : Z * Z) : Prop :=
  ∃ i, 0 ≤ i < wlen (pw_word pw) ∧
       cellOf (pw_direction pw) (pw_row pw) (pw_col pw) i = rc.

Lemma occupiedBy_addDirection (key : Z * Z) (d : direction) (m : OccupiedMap)
    (rc : Z * Z) (d' : direction) :
  occupiedBy (addDirection key d m) rc d' ↔ occupiedBy m rc d' ∨ (rc = key ∧ d' = d).
Proof.
  unfold occupiedBy, addDirection. destruct (decide (rc = key)) as [->|Hne].
  - rewrite lookup_insert_eq. split.
    + intros (dirs & [= <-] & Hin). apply elem_of_union in Hin as [Hin|Hin].
      * apply elem_of_singleton in Hin. by right.
      * left. destruct (m !! key) as [dirs|]; simpl in Hin; [eauto|set_solver].
    + intros [(dirs & Hm & Hin)|[_ ->]]; eexists; (split; [done|]).
      * rewrite Hm. simpl. set_solver.
      * set_solver.
  - rewrite lookup_insert_ne by done. naive_solver.
Qed.

Lemma occupiedBy_addDirections (cell : Z → Z * Z) (d : direction) (positions : list Z)
    (m : OccupiedMap) (rc : Z * Z) (d' : direction) :
  occupiedBy (foldl (λ m i, addDirection (cell i) d m) m positions) rc d'
  ↔ occupiedBy m rc d' ∨ (d' = d ∧ ∃ i, i ∈ positions ∧ cell i = rc).
Proof.
  revert m. induction positions as [|i rest IH]; intros m; simpl.
  - set_solver.
  - rewrite IH, occupiedBy_addDirection. set_solver.
Qed.

Lemma occupiedBy_foldl_placed (placed : list PlacedWord) (m : OccupiedMap)
    (rc : Z * Z) (d : direction) :
  occupiedBy
    (foldl (λ m pw,
              foldl (λ m i, addDirection (cellOf (pw_direction pw) (pw_row pw) (pw_col pw) i)
                                         (pw_direction pw) m)
                    m (seqZ 0 (wlen (pw_word pw))))
           m placed) rc d
  ↔ occupiedBy m rc d ∨ ∃ pw, pw ∈ placed ∧ pw_direction pw = d ∧ covers pw rc.
Proof.
  revert m. induction placed as [|pw rest IH]; intros m; simpl.
  - set_solver.
  - rewrite IH, occupiedBy_addDirections. unfold covers.
    setoid_rewrite elem_of_seqZ. split.
    + intros [[H|(-> & i & Hi & Hc)]|(pw' & Hin & Hd & Hc)].
      * by left.
      * right. exists pw. split; [set_solver|]. split; [done|]. exists i. split; [lia|done].
      * right. exists pw'. set_solver.
    + intros [H|(pw' & Hin & Hd & i & Hi & Hc)]; [by left; left|].
      apply elem_of_cons in Hin as [->|Hin].
      * left. right. split; [done|]. exists i. split; [lia|done].
      * right. exists pw'. split; [done|]. split; [done|]. by exists i.
Qed.

(** The map records an orientation on a cell exactly when a placed word of
    that orientation covers it. *)
Lemma getOccupied_spec placed rc d :
  occupiedBy (getOccupied placed) rc d
  ↔ ∃ pw, pw ∈ placed ∧ pw_direction pw = d ∧ covers pw rc.
Proof.
  unfold getOccupied. rewrite occupiedBy_foldl_placed.
  split; [|by right]. intros [(dirs & Hd & _)|H]; [|done].
  by rewrite lookup_empty in Hd.
Qed.

(** ** placeWord *)

Lemma cellOf_inj d row col i j : cellOf d row col i = cellOf d row col j → i = j.
Proof. destruct d; simpl; intros [=]; lia. Qed.

Lemma placeLoop_spec g word row col d positions :
  wfGrid g → NoDup positions →
  (∀ i, i ∈ positions →
        0 ≤ i < wlen word ∧ inGrid (cellOf d row col i).1 (cellOf d row col i).2) →
  ∃ g', placeLoop g word row col d positions = Some g' ∧ wfGrid g' ∧
        (∀ i, i ∈ positions →
              cellAt g' (cellOf d row col i).1 (cellOf d row col i).2 = letterAt word i) ∧
        (∀ r c, (∀ i, i ∈ positions → cellOf d row col i ≠ (r, c)) →
                cellAt g' r c = cellAt g r c).
Proof.
  intros Hwf Hnd. revert g Hwf. induction Hnd as [|i rest Hni Hnd IH]; intros g Hwf Hpos.
  - exists g. split; [done|]. split; [done|]. split; [|done]. intros i Hi. set_solver.
  - destruct (Hpos i) as [Hi Hin]; [set_solver|].
    destruct (letterAt_is_Some word i Hi) as [a Ha].
    destruct (setCell_spec g _ _ (String a EmptyString) Hwf Hin) as (g1 & Hset & Hwf1 & Hg1).
    destruct (IH g1 Hwf1) as (g' & Hloop & Hwf' & Hin' & Hout').
    { intros j Hj. apply Hpos. set_solver. }
    exists g'. split.
    { simpl. rewrite Ha. simpl.
      assert ((if bool_decide (d = across)
               then setCell g row (col + i) (String a EmptyString)
               else setCell g (row + i) col (String a EmptyString)) = Some g1) as ->.
      { by destruct d. }
      done. }
    split; [done|]. split.
    + intros j Hj. apply elem_of_cons in Hj as [->|Hj]; [|by apply Hin'].
      rewrite Hout'.
      * rewrite Hg1. rewrite decide_True; [done|]. by rewrite <- surjective_pairing.
      * intros k Hk Heq. rewrite <- surjective_pairing in Heq.
        apply cellOf_inj in Heq. by subst.
    + intros r c Hrc. rewrite Hout'.
      * rewrite Hg1. rewrite decide_False; [done|]. intros Heq.
        apply (Hrc i); [set_solver|]. rewrite Heq. apply surjective_pairing.
      * intros k Hk. apply Hrc. set_solver.
Qed.

Lemma fitsInGrid_cells word row col d i :
  fitsInGrid word row col d → 0 ≤ i < wlen word →
  inGrid (cellOf d row col i).1 (cellOf d row col i).2.
Proof. destruct d; unfold fitsInGrid, inGrid, GRID_SIZE; simpl; lia. Qed.

(** A word that fits is written letter by letter; every other cell of the
    grid is left as it was. *)
Lemma placeWord_spec g word row col d :
  wfGrid g → fitsInGrid word row col d →
  ∃ g', placeWord g word row col d = Some g' ∧ wfGrid g' ∧
        (∀ i, 0 ≤ i < wlen word →
              cellAt g' (cellOf d row col i).1 (cellOf d row col i).2 = letterAt word i) ∧
        (∀ r c, (∀ i, 0 ≤ i < wlen word → cellOf d row col i ≠ (r, c)) →
                cellAt g' r c = cellAt g r c).
Proof.
  intros Hwf Hfits.
  destruct (placeLoop_spec g word row col d (seqZ 0 (wlen word)) Hwf)
    as (g' & H & Hwf' & Hin & Hout).
  { apply NoDup_seqZ. }
  { intros i Hi. apply elem_of_seqZ in Hi. split; [lia|].
    apply (fitsInGrid_cells word); [done|lia]. }
  exists g'. split; [done|]. split; [done|]. split.
  - intros i Hi. apply Hin. apply elem_of_seqZ. lia.
  - intros r c Hrc. apply Hout. intros i Hi. apply Hrc. apply elem_of_seqZ in Hi. lia.
Qed.

(** ** The layout invariant of the placement search *)

(** The cell is inside the grid and holds a letter. *)
Definition cellFilled (g : list (list string)) (rc : Z * Z) : Prop :=
  ∃ s, cellAt g rc.1 rc.2 = Some s ∧ s ≠ ""%string.

(** The next cell along an orientation. *)
Definition nextCell (d : direction) (rc : Z * Z) : Z * Z := cellOf d rc.1 rc.2 1.

Record layoutOK (g : list (list string)) (placed : list PlacedWord) : Prop := mkLayoutOK {
  lo_wf : wfGrid g;
  lo_fits : ∀ pw, pw ∈ placed →
    fitsInGrid (pw_word pw) (pw_row pw) (pw_col pw) (pw_direction pw);
  lo_start : ∀ pw, pw ∈ placed → inGrid (pw_row pw) (pw_col pw);
  lo_letters : ∀ pw i, pw ∈ placed → 0 ≤ i < wlen (pw_word pw) →
    cellAt g (cellOf (pw_direction pw) (pw_row pw) (pw_col pw) i).1
             (cellOf (pw_direction pw) (pw_row pw) (pw_col pw) i).2
    = letterAt (pw_word pw) i;
  lo_covered : ∀ rc, cellFilled g rc → ∃ pw, pw ∈ placed ∧ covers pw rc;
  lo_single : ∀ i j pw1 pw2 rc,
    placed !! i = Some pw1 → placed !! j = Some pw2 →
    pw_direction pw1 = pw_direction pw2 → covers pw1 rc → covers pw2 rc → i = j;
  lo_adjacent : ∀ d rc, cellFilled g rc → cellFilled g (nextCell d rc) →
    ∃ pw, pw ∈ placed ∧ pw_direction pw = d ∧ covers pw rc ∧ covers pw (nextCell d rc)
}.

Lemma emptyOrOff_not_filled g rc :
  wfGrid g → emptyOrOff g rc → cellFilled g rc → False.
Proof.
  intros Hwf [Hoff|Hempty] (s & Hs & Hne).
  - apply Hoff. by eapply cellAt_Some_inGrid.
  - congruence.
Qed.

Lemma nextCell_along d row col i :
  nextCell d (cellOf d row col i) = cellOf d row col (i + 1).
Proof. destruct d; unfold nextCell; simpl; f_equal; lia. Qed.

Lemma nextCell_side d d' rc :
  d' ≠ d → nextCell d' rc ∈ sideNeighbours d rc.
Proof. destruct d, d'; unfold nextCell; simpl; intros ?; try done; set_solver. Qed.

Lemma prevCell_side d d' rc rc' :
  d' ≠ d → nextCell d' rc = rc' → rc ∈ sideNeighbours d rc'.
Proof.
  destruct rc as [r c]. destruct d, d'; unfold nextCell; simpl; intros ? <-; try done; simpl.
  - replace (r + 1 - 1) with r by lia. set_solver.
  - replace (c + 1 - 1) with c by lia. set_solver.
Qed.

Lemma side_off_line d row col i j n :
  n ∈ sideNeighbours d (cellOf d row col i) → cellOf d row col j ≠ n.
Proof.
  destruct d; simpl; intros Hn Heq; subst n;
    rewrite !elem_of_cons, elem_of_nil in Hn;
    destruct Hn as [Hn|[Hn|[]]]; simplify_eq; lia.
Qed.

Lemma cellFilled_letter g w i rc :
  cellAt g rc.1 rc.2 = letterAt w i → 0 ≤ i < wlen w → cellFilled g rc.
Proof.
  intros H Hi. destruct (letterAt_is_Some w i Hi) as [a Ha].
  exists (String a EmptyString). split; [congruence|done].
Qed.

Lemma cellFilled_dec g rc : cellFilled g rc ∨ ¬ cellFilled g rc.
Proof.
  unfold cellFilled. destruct (cellAt g rc.1 rc.2) as [s|]; [|naive_solver].
  destruct (decide (s = ""%string)); naive_solver.
Qed.

Lemma onWord_dec word row col d rc :
  (∃ i, 0 ≤ i < wlen word ∧ cellOf d row col i = rc) ∨
  (∀ i, 0 ≤ i < wlen word → cellOf d row col i ≠ rc).
Proof.
  destruct (decide (Exists (λ i, cellOf d row col i = rc) (seqZ 0 (wlen word))))
    as [H|H].
  - left. apply Exists_exists in H as (i & Hi & Hc). apply elem_of_seqZ in Hi.
    exists i. split; [lia|done].
  - right. intros i Hi Hc. apply H. apply Exists_exists. exists i.
    split; [|done]. apply elem_of_seqZ. lia.
Qed.

(** Committing a legal placement keeps the layout invariant. *)
Lemma layoutOK_place g placed word clue row col d g' :
  layoutOK g placed →
  legalPlacement g word row col d placed (getOccupied placed) →
  inGrid row col →
  placeWord g word row col d = Some g' →
  layoutOK g' (placed ++ [mkPlacedWord word clue row col d 0]).
Proof.
  intros [Hwf Hfits Hstart Hletters Hcovered Hsingle Hadj]
         (Hfit & Hbefore & Hafter & Hpos & _) Hstart' Hplace.
  destruct (placeWord_spec g word row col d Hwf Hfit) as (g'' & Hp & Hwf' & Hin & Hout).
  rewrite Hplace in Hp. injection Hp as <-.
  set (W := mkPlacedWord word clue row col d 0).
  (* a filled cell keeps its letter *)
  assert (∀ rc, cellFilled g rc → cellAt g' rc.1 rc.2 = cellAt g rc.1 rc.2) as Hkeep.
  { intros [r c] (s & Hs & Hne). simpl in *.
    destruct (onWord_dec word row col d (r, c)) as [(i & Hi & Hc)|Hno].
    - destruct (Hpos i ltac:(lia)) as (e & He & Hfilled & _).
      rewrite Hc in He. simpl in He. rewrite Hs in He. simplify_eq.
      destruct (Hfilled Hne) as [Hl _].
      specialize (Hin i ltac:(lia)). rewrite Hc in Hin. simpl in Hin.
      congruence.
    - by apply Hout. }
  (* a cell filled afterwards was filled before or is a fresh cell of the word *)
  assert (∀ rc, cellFilled g' rc →
                cellFilled g rc ∨
                (∃ i, 0 ≤ i < wlen word ∧ cellOf d row col i = rc ∧
                      cellAt g rc.1 rc.2 = Some ""%string)) as Hfresh.
  { intros [r c] Hf. destruct (cellFilled_dec g (r, c)) as [Hold|Hnew]; [by left|].
    right. destruct Hf as (s & Hs & Hne). simpl in *.
    destruct (onWord_dec word row col d (r, c)) as [(i & Hi & Hc)|Hno].
    - exists i. split; [lia|]. split; [done|].
      destruct (Hpos i ltac:(lia)) as (e & He & _). rewrite Hc in He. simpl in He.
      rewrite He. f_equal. destruct (decide (e = ""%string)); [done|].
      exfalso. apply Hnew. exists e. done.
    - exfalso. apply Hnew. exists s. split; [|done]. simpl.
      rewrite <- Hs. symmetry. by apply Hout. }
  (* cells off the word keep their state *)
  assert (∀ rc, (∀ i, 0 ≤ i < wlen word → cellOf d row col i ≠ rc) →
                emptyOrOff g rc → cellFilled g' rc → False) as Hstill.
  { intros [r c] Hoffw He (s & Hs & Hne). simpl in *.
    rewrite Hout in Hs by done. apply (emptyOrOff_not_filled g (r, c) Hwf He).
    by exists s. }
  split.
  - done.
  - intros pw Hpw. apply elem_of_app in Hpw as [Hpw|Hpw]; [by apply Hfits|].
    apply list_elem_of_singleton in Hpw as ->. done.
  - intros pw Hpw. apply elem_of_app in Hpw as [Hpw|Hpw]; [by apply Hstart|].
    apply list_elem_of_singleton in Hpw as ->. done.
  - intros pw i Hpw Hi. apply elem_of_app in Hpw as [Hpw|Hpw].
    + rewrite (Hkeep (cellOf _ _ _ i)); [by apply Hletters|].
      apply (cellFilled_letter g (pw_word pw) i); [by apply Hletters|done].
    + apply list_elem_of_singleton in Hpw as ->. simpl in *. by apply Hin.
  - intros rc Hf. destruct (Hfresh rc Hf) as [Hold|(i & Hi & Hc & _)].
    + destruct (Hcovered rc Hold) as (pw & Hpw & Hcov). exists pw. set_solver.
    + exists W. split; [set_solver|]. exists i. done.
  - assert (∀ pw rc, pw ∈ placed → pw_direction pw = d → covers pw rc → covers W rc → False)
      as Hclash.
    { intros pw rc Hpw Hd (j & Hj & Hcj) (i & Hi & Hci). simpl in *.
      destruct (Hpos i Hi) as (e & He & Hfilled & _).
      assert (cellFilled g rc) as (s & Hs & Hne).
      { apply (cellFilled_letter g (pw_word pw) j); [|done].
        rewrite <- Hcj. by apply Hletters. }
      rewrite Hci, Hs in He. simplify_eq.
      destruct (Hfilled Hne) as (_ & Hnot & _). apply Hnot.
      apply getOccupied_spec. exists pw. rewrite Hci. split; [done|]. split; [done|].
      by exists j. }
    intros i j pw1 pw2 rc H1 H2 Hd Hc1 Hc2.
    apply lookup_app_Some in H1 as [H1|[Hl1 H1]];
      apply lookup_app_Some in H2 as [H2|[Hl2 H2]].
    + by eapply Hsingle.
    + apply list_lookup_singleton_Some in H2 as [_ <-]. exfalso.
      eapply (Hclash pw1 rc); [by eapply list_elem_of_lookup_2|done|done|done].
    + apply list_lookup_singleton_Some in H1 as [_ <-]. exfalso.
      eapply (Hclash pw2 rc); [by eapply list_elem_of_lookup_2|done|done|done].
    + apply list_lookup_singleton_Some in H1 as [? _].
      apply list_lookup_singleton_Some in H2 as [? _]. lia.
  - intros d' rc Hf1 Hf2.
    destruct (Hfresh _ Hf1) as [Hold1|(i & Hi & Hci & Hempty1)].
    + destruct (Hfresh _ Hf2) as [Hold2|(i & Hi & Hci & Hempty2)].
      * destruct (Hadj d' rc Hold1 Hold2) as (pw & Hpw & ?). exists pw. set_solver.
      * (* the next cell is fresh, the cell itself is old *)
        destruct (decide (d' = d)) as [->|Hne].
        -- destruct (decide (i = 0)) as [->|Hi0].
           ++ exfalso. apply (emptyOrOff_not_filled g rc Hwf); [|done].
              assert (rc = cellOf d row col (-1)) as ->; [|done].
              destruct rc as [r c]. destruct d; unfold nextCell in Hci; simpl in *;
                simplify_eq; f_equal; lia.
           ++ exists W. split; [set_solver|]. split; [done|].
              assert (rc = cellOf d row col (i - 1)) as Hrc.
              { destruct rc as [r c]. destruct d; unfold nextCell in Hci; simpl in *;
                  simplify_eq; f_equal; lia. }
              split; [exists (i - 1); split; [simpl; lia|done]|].
              exists i. done.
        -- exfalso. apply (emptyOrOff_not_filled g rc Hwf); [|done].
           destruct (Hpos i Hi) as (e & He & _ & Hside).
           rewrite Hci in He. rewrite Hempty2 in He. simplify_eq.
           apply Hside; [done|]. rewrite Hci. by eapply prevCell_side.
    + (* the cell itself is fresh *)
      subst rc. destruct (decide (d' = d)) as [->|Hne].
      * rewrite nextCell_along in Hf2 |- *.
        destruct (decide (i + 1 < wlen word)) as [Hlt|Hge].
        -- exists W. split; [set_solver|]. split; [done|].
           split; [by exists i|]. exists (i + 1). split; [simpl; lia|done].
        -- exfalso. assert (i + 1 = wlen word) as Heq by lia. rewrite Heq in Hf2.
           eapply (Hstill (cellOf d row col (wlen word))); [|done|done].
           intros j Hj Hc. apply cellOf_inj in Hc. lia.
      * exfalso.
        destruct (Hpos i Hi) as (e & He & _ & Hside).
        rewrite Hempty1 in He. simplify_eq.
        eapply (Hstill (nextCell d' (cellOf d row col i))); [| |done].
        -- intros j Hj. eapply side_off_line. by apply nextCell_side.
        -- apply Hside; [done|]. by apply nextCell_side.
Qed.

(** ** Loops in the failure monad *)

Lemma forEach_opt_app {A S} (f : S → A → option S) (l1 l2 : list A) (s : S) :
  forEach (l1 ++ l2) s f = forEach l1 s f ≫= λ s', forEach l2 s' f.
Proof.
  revert s. induction l1 as [|x l1 IH]; intros s; simpl; [done|].
  destruct (f s x) as [s'|]; simpl; [apply IH|done].
Qed.

Lemma forEach_opt_ext {A S} (f f' : S → A → option S) (l : list A) (s : S) :
  (∀ s x, x ∈ l → f s x = f' s x) → forEach l s f = forEach l s f'.
Proof.
  revert s. induction l as [|x l IH]; intros s Hext; simpl; [done|].
  rewrite Hext by set_solver. destruct (f' s x) as [s'|]; simpl; [|done].
  apply IH. intros. apply Hext. set_solver.
Qed.

Lemma forEach_opt_bind {A B S} (h : A → list B) (f : S → B → option S) (l : list A) (s : S) :
  forEach (l ≫= h) s f = forEach l s (λ s x, forEach (h x) s f).
Proof.
  revert s. induction l as [|x l IH]; intros s; [done|].
  rewrite bind_cons, forEach_opt_app. simpl.
  destruct (forEach (h x) s f) as [s'|]; simpl; [apply IH|done].
Qed.

Lemma forEach_opt_singletons {A B S} (k : A → B) (f : S → B → option S) (l : list A) (s : S) :
  forEach (l ≫= λ x, [k x]) s f = forEach l s (λ s x, f s (k x)).
Proof.
  rewrite forEach_opt_bind. apply forEach_opt_ext. intros s' x _. simpl.
  by destruct (f s' (k x)).
Qed.

(** An invariant carried through a loop, with the part of the list already
    visited. *)
Lemma forEach_opt_invariant {A S} (I : list A → S → Prop) (f : S → A → option S)
    (l : list A) (visited : list A) (s s' : S) :
  I visited s →
  (∀ seen x rest s1 s2, visited ++ l = seen ++ x :: rest →
                        I seen s1 → f s1 x = Some s2 → I (seen ++ [x]) s2) →
  forEach l s f = Some s' → I (visited ++ l) s'.
Proof.
  revert visited s. induction l as [|x l IH]; intros visited s HI Hstep H; simpl in H.
  - injection H as <-. by rewrite app_nil_r.
  - destruct (f s x) as [s1|] eqn:Hf; simplify_eq/=.
    replace (visited ++ x :: l) with ((visited ++ [x]) ++ l) by by rewrite <- app_assoc.
    apply (IH (visited ++ [x]) s1); [by apply (Hstep visited x l s s1)| |done].
    intros seen y rest s2 s3 Heq. apply (Hstep seen y rest).
    by rewrite <- app_assoc in Heq.
Qed.

Lemma forEach_opt_total {A S} (I : S → Prop) (f : S → A → option S) (l : list A) (s : S) :
  I s → (∀ s1 x, x ∈ l → I s1 → ∃ s2, f s1 x = Some s2 ∧ I s2) →
  ∃ s', forEach l s f = Some s' ∧ I s'.
Proof.
  revert s. induction l as [|x l IH]; intros s HI Hstep; simpl; [eauto|].
  destruct (Hstep s x) as (s1 & -> & HI1); [set_solver|done|]. simpl.
  apply IH; [done|]. intros. apply Hstep; [set_solver|done].
Qed.

(** ** The scan of findBestPlacement *)

(** The rows and columns visited for an orientation, in the order of the
    two [for] loops. *)
Definition scanRows (word : string) (d : direction) : list Z :=
  let isAcross := bool_decide (d = across) in
  seqZ 0 ((if isAcross then GRID_SIZE else GRID_SIZE - wlen word)
          - (if isAcross then 1 else 0) + 1).

Definition scanCols (word : string) (d : direction) : list Z :=
  let isAcross := bool_decide (d = across) in
  seqZ 0 ((if isAcross then GRID_SIZE - wlen word else GRID_SIZE)
          - (if isAcross then 0 else 1) + 1).

(** Every candidate (orientation, row, column), in scan order. *)
Definition scanOrder (word : string) : list (direction * Z * Z) :=
  d ← [across; down]; r ← scanRows word d; c ← scanCols word d; [(d, r, c)].

(** The candidate [x] comes before [y]: across before down, then by rows,
    then by columns. *)
Definition scanBefore (x y : direction * Z * Z) : Prop :=
  match x.1.1, y.1.1 with
  | across, down => True
  | down, across => False
  | _, _ => x.1.2 < y.1.2 ∨ (x.1.2 = y.1.2 ∧ x.2 < y.2)
  end.

Lemma scanBefore_irrefl x : ¬ scanBefore x x.
Proof. destruct x as [[[] r] c]; unfold scanBefore; simpl; lia. Qed.

Lemma scanBefore_asym x y : scanBefore x y → ¬ scanBefore y x.
Proof. destruct x as [[[] r] c], y as [[[] r'] c']; unfold scanBefore; simpl; lia. Qed.

Lemma findBestPlacement_flat g word placed occupied :
  findBestPlacement g word placed occupied
  = forEach (scanOrder word) None
      (λ best x, considerPlacement g word placed occupied x.1.1 x.1.2 x.2 best).
Proof.
  unfold findBestPlacement, scanOrder.
  rewrite forEach_opt_bind. apply forEach_opt_ext. intros best d _.
  rewrite forEach_opt_bind. apply forEach_opt_ext. intros best' r _.
  by rewrite forEach_opt_singletons.
Qed.

Lemma StronglySorted_bind {A B} (R1 : relation A) (R : relation B) (f : A → list B)
    (l : list A) :
  StronglySorted R1 l →
  (∀ x, x ∈ l → StronglySorted R (f x)) →
  (∀ x y a b, R1 x y → a ∈ f x → b ∈ f y → R a b) →
  StronglySorted R (l ≫= f).
Proof.
  intros Hl Hin Hcross. induction Hl as [|x l Hl IH Hx]; [constructor|].
  rewrite bind_cons. apply StronglySorted_app. split; [|split].
  - intros a b Ha Hb. apply list_elem_of_bind in Hb as (y & Hb & Hy).
    rewrite Forall_forall in Hx. eapply Hcross; [by apply Hx|done|done].
  - apply Hin. set_solver.
  - apply IH. intros. apply Hin. set_solver.
Qed.

Lemma StronglySorted_seqZ m n : StronglySorted Z.lt (seqZ m n).
Proof.
  destruct (decide (0 ≤ n)) as [Hn|Hn]; [|rewrite seqZ_nil by lia; constructor].
  revert m. pattern n. apply natlike_ind; [| |done].
  - intros m. rewrite seqZ_nil by lia. constructor.
  - intros k Hk IH m. rewrite seqZ_cons by lia.
    replace (Z.pred (Z.succ k)) with k by lia.
    constructor; [apply IH|]. apply Forall_seqZ. lia.
Qed.

Lemma scanOrder_sorted word : StronglySorted scanBefore (scanOrder word).
Proof.
  unfold scanOrder.
  apply (StronglySorted_bind (λ d d', d = across ∧ d' = down)).
  - repeat constructor.
  - intros d _. apply (StronglySorted_bind Z.lt); [apply StronglySorted_seqZ| |].
    + intros r _. apply (StronglySorted_bind Z.lt); [apply StronglySorted_seqZ| |].
      * intros c _. repeat constructor.
      * intros c c' a b Hlt Ha Hb.
        apply list_elem_of_singleton in Ha as ->. apply list_elem_of_singleton in Hb as ->.
        unfold scanBefore. destruct d; simpl; lia.
    + intros r r' a b Hlt Ha Hb.
      apply list_elem_of_bind in Ha as (c & Ha & _).
      apply list_elem_of_bind in Hb as (c' & Hb & _).
      apply list_elem_of_singleton in Ha as ->. apply list_elem_of_singleton in Hb as ->.
      unfold scanBefore. destruct d; simpl; lia.
  - intros d d' a b [-> ->] Ha Hb.
    apply list_elem_of_bind in Ha as (r & Ha & _).
    apply list_elem_of_bind in Ha as (c & Ha & _).
    apply list_elem_of_bind in Hb as (r' & Hb & _).
    apply list_elem_of_bind in Hb as (c' & Hb & _).
    apply list_elem_of_singleton in Ha as ->. apply list_elem_of_singleton in Hb as ->.
    done.
Qed.

(** The candidates visited are the placements inside the grid. *)
Lemma elem_of_scanOrder word d r c :
  (d, r, c) ∈ scanOrder word ↔
  match d with
  | across => (0 ≤ r ≤ GRID_SIZE - 1) ∧ (0 ≤ c ≤ GRID_SIZE - wlen word)
  | down => (0 ≤ r ≤ GRID_SIZE - wlen word) ∧ (0 ≤ c ≤ GRID_SIZE - 1)
  end.
Proof.
  unfold scanOrder. rewrite list_elem_of_bind. split.
  - intros (d' & H & _). apply list_elem_of_bind in H as (r' & H & Hr).
    apply list_elem_of_bind in H as (c' & H & Hc).
    apply list_elem_of_singleton in H. simplify_eq.
    unfold scanRows, scanCols in *. apply elem_of_seqZ in Hr, Hc.
    destruct d'; simpl in *; unfold GRID_SIZE in *; lia.
  - intros H. exists d. split; [|destruct d; set_solver].
    apply list_elem_of_bind. exists r. split.
    + apply list_elem_of_bind. exists c. split; [set_solver|].
      unfold scanCols. apply elem_of_seqZ.
      destruct d; simpl in *; unfold GRID_SIZE in *; lia.
    + unfold scanRows. apply elem_of_seqZ.
      destruct d; simpl in *; unfold GRID_SIZE in *; lia.
Qed.

Lemma scanOrder_fits word d r c :
  (d, r, c) ∈ scanOrder word → fitsInGrid word r c d.
Proof.
  rewrite elem_of_scanOrder. destruct d; unfold fitsInGrid, GRID_SIZE; lia.
Qed.

(** ** The score of a legal candidate *)

(** The offsets of the word's centre (its start moved by half its length
    along its axis) from the middle row and the middle column, index 7. *)
Definition rowCenterOffset (word : string) (r : Z) (d : direction) : Q :=
  match d with
  | across => inject_Z r - 7
  | down => inject_Z r + inject_Z (wlen word) / 2 - 7
  end.

Definition colCenterOffset (word : string) (c : Z) (d : direction) : Q :=
  match d with
  | across => inject_Z c + inject_Z (wlen word) / 2 - 7
  | down => inject_Z c - 7
  end.

(** Ten per intersection, minus half the distance of the centre from the
    middle of the grid. *)
Definition specScore (g : list (list string)) (word : string) (r c : Z) (d : direction) : Q :=
  10 * inject_Z (intersections g word r c d)
  - (1 # 2) * (Qabs (rowCenterOffset word r d) + Qabs (colCenterOffset word c d)).

Lemma scoreLoop_spec g word r c d occupied positions (acc : Q) :
  (∀ i, i ∈ positions → 0 ≤ i < wlen word ∧ positionOK g word r c d occupied i) →
  ∃ q, scoreLoop g word r c (bool_decide (d = across)) positions acc = Some q ∧
       (q == acc + 10 * inject_Z (filledCount g r c d positions))%Q.
Proof.
  revert acc. induction positions as [|i rest IH]; intros acc Hpos.
  - exists acc. split; [done|]. unfold filledCount. simpl. ring.
  - destruct (Hpos i) as (Hi & e & He & Hfilled & _); [set_solver|].
    destruct (letterAt_is_Some word i Hi) as [a Ha].
    simpl.
    assert ((if bool_decide (d = across) then r else r + i) = (cellOf d r c i).1)
      as -> by by destruct d.
    assert ((if bool_decide (d = across) then c + i else c) = (cellOf d r c i).2)
      as -> by by destruct d.
    rewrite He, Ha. simpl.
    rewrite filledCount_cons. unfold targetFilled. rewrite He.
    destruct (filled e) eqn:Hf.
    + apply filled_true in Hf. destruct (Hfilled Hf) as [Hl _].
      rewrite Ha in Hl. injection Hl as <-.
      rewrite (bool_decide_eq_true_2 (String a EmptyString = String a EmptyString)) by done.
      simpl.
      destruct (IH (acc + 10)%Q) as (q & -> & Hq).
      { intros j Hj. apply Hpos. set_solver. }
      exists q. split; [done|]. rewrite Hq, inject_Z_plus. ring.
    + apply filled_false in Hf. subst e.
      rewrite (bool_decide_eq_false_2 (EmptyString = String a EmptyString)) by done.
      simpl.
      destruct (IH acc) as (q & -> & Hq).
      { intros j Hj. apply Hpos. set_solver. }
      exists q. split; [done|]. rewrite Hq, Z.add_0_l. reflexivity.
Qed.

(** The score the code computes for a legal candidate. *)
Lemma placementScore_legal g word r c d placed occupied :
  legalPlacement g word r c d placed occupied →
  ∃ q, placementScore g word r c d = Some q ∧ (q == specScore g word r c d)%Q.
Proof.
  intros (_ & _ & _ & Hpos & _). unfold placementScore.
  destruct (scoreLoop_spec g word r c d occupied (seqZ 0 (wlen word)) 0) as (q & -> & Hq).
  { intros i Hi. apply elem_of_seqZ in Hi. split; [lia|]. apply Hpos. lia. }
  simpl. eexists. split; [done|].
  unfold specScore, intersections, rowCenterOffset, colCenterOffset.
  fold (filledCount g r c d (seqZ 0 (wlen word))). rewrite Hq.
  destruct d; simpl; ring.
Qed.

(** ** The best placement *)

(** What the scan has found after visiting the candidates [seen]. *)
Definition bestOf (g : list (list string)) (word : string) (placed : list PlacedWord)
    (occupied : OccupiedMap) (seen : list (direction * Z * Z))
    (best : option Placement) : Prop :=
  match best with
  | None =>
      ∀ x, x ∈ seen → canPlaceWord g word x.1.2 x.2 x.1.1 placed occupied ≠ Some true
  | Some p =>
      (pl_direction p, pl_row p, pl_col p) ∈ seen ∧
      canPlaceWord g word (pl_row p) (pl_col p) (pl_direction p) placed occupied = Some true ∧
      placementScore g word (pl_row p) (pl_col p) (pl_direction p) = Some (pl_score p) ∧
      ∀ x q, x ∈ seen →
             canPlaceWord g word x.1.2 x.2 x.1.1 placed occupied = Some true →
             placementScore g word x.1.2 x.2 x.1.1 = Some q →
             (q <= pl_score p)%Q ∧
             (scanBefore x (pl_direction p, pl_row p, pl_col p) → (q < pl_score p)%Q)
  end.

Lemma Qgtb_true a b : Qgtb a b = true ↔ (b < a)%Q.
Proof.
  unfold Qgtb. rewrite negb_true_iff. split.
  - intros H. apply Qnot_le_lt. intros Hle. apply Qle_bool_iff in Hle. congruence.
  - intros H. destruct (Qle_bool a b) eqn:E; [|done].
    apply Qle_bool_iff in E. exfalso. eapply Qlt_irrefl, Qle_lt_trans; done.
Qed.

Lemma Qgtb_false a b : Qgtb a b = false ↔ (a <= b)%Q.
Proof. unfold Qgtb. rewrite negb_false_iff. apply Qle_bool_iff. Qed.

Lemma considerPlacement_bestOf g word placed occupied seen x best best' :
  (∀ y, y ∈ seen → scanBefore y x) →
  bestOf g word placed occupied seen best →
  considerPlacement g word placed occupied x.1.1 x.1.2 x.2 best = Some best' →
  bestOf g word placed occupied (seen ++ [x]) best'.
Proof.
  intros Hbefore Hbest H. unfold considerPlacement in H.
  destruct x as [[d r] c]. simpl in *.
  destruct (canPlaceWord g word r c d placed occupied) as [[|]|] eqn:Hcan; simplify_eq/=.
  - destruct (placementScore g word r c d) as [score|] eqn:Hscore; simplify_eq/=.
    destruct best as [b|].
    + destruct Hbest as (Hin & Hlegal & Hsc & Hmax).
      destruct (Qgtb score (pl_score b)) eqn:Hgt; simplify_eq/=.
      * apply Qgtb_true in Hgt.
        split; [set_solver|]. split; [done|]. split; [done|].
        intros y q Hy Hly Hqy. apply elem_of_app in Hy as [Hy|Hy].
        -- destruct (Hmax y q Hy Hly Hqy) as [Hle _].
           assert (q < score)%Q by (eapply Qle_lt_trans; done).
           split; [by apply Qlt_le_weak|done].
        -- apply list_elem_of_singleton in Hy as ->. simpl in *.
           rewrite Hscore in Hqy. injection Hqy as <-.
           split; [apply Qle_refl|]. intros Hb. by apply scanBefore_irrefl in Hb.
      * apply Qgtb_false in Hgt.
        split; [set_solver|]. split; [done|]. split; [done|].
        intros y q Hy Hly Hqy. apply elem_of_app in Hy as [Hy|Hy]; [by apply Hmax|].
        apply list_elem_of_singleton in Hy as ->. simpl in *.
        rewrite Hscore in Hqy. injection Hqy as <-.
        split; [done|]. intros Hb. exfalso.
        eapply scanBefore_asym; [apply Hb|]. by apply Hbefore.
    + simplify_eq/=. split; [set_solver|]. split; [done|]. split; [done|].
      intros y q Hy Hly Hqy. apply elem_of_app in Hy as [Hy|Hy].
      * by apply Hbest in Hy.
      * apply list_elem_of_singleton in Hy as ->. simpl in *.
        rewrite Hscore in Hqy. injection Hqy as <-.
        split; [apply Qle_refl|]. intros Hb. by apply scanBefore_irrefl in Hb.
  - destruct best' as [b|].
    + destruct Hbest as (Hin & Hlegal & Hsc & Hmax).
      split; [set_solver|]. split; [done|]. split; [done|].
      intros y q Hy Hly Hqy. apply elem_of_app in Hy as [Hy|Hy]; [by apply Hmax|].
      apply list_elem_of_singleton in Hy as ->. simpl in *. congruence.
    + intros y Hy. apply elem_of_app in Hy as [Hy|Hy]; [by apply Hbest|].
      apply list_elem_of_singleton in Hy as ->. simpl. congruence.
Qed.

(** The result of the scan, when it does not fail. *)
Lemma findBestPlacement_bestOf g word placed occupied best :
  findBestPlacement g word placed occupied = Some best →
  bestOf g word placed occupied (scanOrder word) best.
Proof.
  rewrite findBestPlacement_flat. intros H.
  apply (forEach_opt_invariant (bestOf g word placed occupied) _ _ [] None best) in H;
    [done|by intros x Hx; set_solver|].
  intros seen x rest s1 s2 Heq Hs1 Hstep.
  eapply considerPlacement_bestOf; [|done|done].
  intros y Hy. simpl in Heq.
  pose proof (scanOrder_sorted word) as Hsorted. rewrite Heq in Hsorted.
  eapply StronglySorted_app_1_elem_of; [done|done|set_solver].
Qed.

(** On a grid of the right size the scan reads no cell out of bounds. *)
Lemma findBestPlacement_total g word placed occupied :
  wfGrid g → is_Some (findBestPlacement g word placed occupied).
Proof.
  intros Hwf. rewrite findBestPlacement_flat.
  destruct (forEach_opt_total (λ _, True)
              (λ best x, considerPlacement g word placed occupied x.1.1 x.1.2 x.2 best)
              (scanOrder word) None) as (s & Hs & _); [done| |by eexists].
  intros best [[d r] c] Hx _. simpl. unfold considerPlacement.
  apply scanOrder_fits in Hx.
  destruct (canPlaceWord_fits_result g word r c d placed occupied Hwf Hx) as (b & Hb & Hiff).
  rewrite Hb. simpl. destruct b; [|eauto].
  destruct (placementScore_legal g word r c d placed occupied) as (q & -> & _).
  { split; [done|]. by apply Hiff. }
  simpl. destruct best as [p|]; [destruct (Qgtb q (pl_score p))|]; eauto.
Qed.

(** ** The placement search keeps the layout invariant *)

Lemma layoutOK_empty : layoutOK createEmptyGrid [].
Proof.
  split.
  - apply createEmptyGrid_wf.
  - intros pw Hpw. set_solver.
  - intros pw Hpw. set_solver.
  - intros pw i Hpw. set_solver.
  - intros rc (s & Hs & Hne). exfalso.
    pose proof (cellAt_Some_inGrid _ _ _ _ createEmptyGrid_wf Hs) as Hin.
    rewrite createEmptyGrid_cell in Hs by done. congruence.
  - intros i j pw1 pw2 rc H. by rewrite lookup_nil in H.
  - intros d rc (s & Hs & Hne). exfalso.
    pose proof (cellAt_Some_inGrid _ _ _ _ createEmptyGrid_wf Hs) as Hin.
    rewrite createEmptyGrid_cell in Hs by done. congruence.
Qed.

Lemma emptyOrOff_empty_grid rc : emptyOrOff createEmptyGrid rc.
Proof.
  unfold emptyOrOff. destruct (decide (inGrid rc.1 rc.2)) as [Hin|Hout]; [|by left].
  right. by apply createEmptyGrid_cell.
Qed.

(** On the empty grid any word that fits may be placed first. *)
Lemma legalPlacement_first word row col d :
  fitsInGrid word row col d →
  legalPlacement createEmptyGrid word row col d [] (getOccupied []).
Proof.
  intros Hfits. split; [done|]. split; [apply emptyOrOff_empty_grid|].
  split; [apply emptyOrOff_empty_grid|]. split; [|done].
  intros i Hi. exists ""%string. split.
  - apply createEmptyGrid_cell. by apply (fitsInGrid_cells word).
  - split; [done|]. intros _ n _. apply emptyOrOff_empty_grid.
Qed.

Lemma legalPlacement_nonempty_word g word row col d placed occupied :
  legalPlacement g word row col d placed occupied → placed ≠ [] → 0 < wlen word.
Proof.
  intros (_ & _ & _ & _ & Hint) Hne. specialize (Hint Hne).
  unfold intersections in Hint.
  destruct (decide (0 < wlen word)) as [|Hle]; [done|].
  rewrite seqZ_nil in Hint by lia. simpl in Hint. lia.
Qed.

Lemma fitsInGrid_start word row col d :
  fitsInGrid word row col d → 0 < wlen word → inGrid row col.
Proof. destruct d; unfold fitsInGrid, inGrid, GRID_SIZE; lia. Qed.

Lemma startCol_bounds len :
  0 ≤ len ≤ GRID_SIZE →
  0 ≤ (GRID_SIZE - len) / 2 < GRID_SIZE ∧ (GRID_SIZE - len) / 2 + len ≤ GRID_SIZE.
Proof.
  unfold GRID_SIZE. intros Hlen.
  pose proof (Z.div_mod (15 - len) 2 ltac:(lia)).
  pose proof (Z.mod_pos_bound (15 - len) 2 ltac:(lia)). lia.
Qed.

Lemma placeFirst_spec (shuffled : list WordEntry) :
  (∀ w, w ∈ shuffled → wlen (we_word w) ≤ GRID_SIZE) →
  ∃ g placed, placeFirst shuffled = Some (g, placed) ∧ layoutOK g placed ∧
              (shuffled ≠ [] → placed ≠ []).
Proof.
  intros Hlen. destruct shuffled as [|first rest]; simpl.
  - exists createEmptyGrid, []. split; [done|]. split; [apply layoutOK_empty|done].
  - assert (wlen (we_word first) ≤ GRID_SIZE) as Hl by (apply Hlen; set_solver).
    assert (0 ≤ wlen (we_word first)) as Hl0 by (unfold wlen; lia).
    assert (fitsInGrid (we_word first) (GRID_SIZE / 2)
              ((GRID_SIZE - wlen (we_word first)) / 2) across) as Hfits.
    { pose proof (startCol_bounds (wlen (we_word first)) ltac:(lia)).
      unfold fitsInGrid. change (GRID_SIZE / 2) with 7. unfold GRID_SIZE in *. lia. }
    destruct (placeWord_spec createEmptyGrid (we_word first) (GRID_SIZE / 2)
                ((GRID_SIZE - wlen (we_word first)) / 2) across createEmptyGrid_wf Hfits)
      as (g & Hg & _).
    rewrite Hg. simpl. eexists _, _. split; [done|]. split; [|done].
    apply (layoutOK_place createEmptyGrid [] (we_word first) (we_clue first)
             (GRID_SIZE / 2) ((GRID_SIZE - wlen (we_word first)) / 2) across g).
    + apply layoutOK_empty.
    + by apply legalPlacement_first.
    + pose proof (startCol_bounds (wlen (we_word first)) ltac:(lia)).
      unfold inGrid. change (GRID_SIZE / 2) with 7. unfold GRID_SIZE in *. lia.
    + done.
Qed.

(** The loop body either commits a legal placement or leaves the layout
    as it is. *)
Lemma placeNext_spec entry g placed :
  layoutOK g placed → placed ≠ [] →
  ∃ g' placed', placeNext entry g placed = Some (g', placed') ∧
                layoutOK g' placed' ∧ placed' ≠ [].
Proof.
  intros Hok Hne. unfold placeNext.
  destruct (findBestPlacement_total g (we_word entry) placed (getOccupied placed))
    as [best Hbest]; [apply Hok|].
  rewrite Hbest. simpl.
  destruct best as [p|]; [|by eexists _, _].
  destruct (Qgtb (pl_score p) 0); [|by eexists _, _].
  apply findBestPlacement_bestOf in Hbest as (_ & Hlegal & _).
  apply canPlaceWord_spec in Hlegal; [|apply Hok].
  destruct (placeWord_spec g (we_word entry) (pl_row p) (pl_col p) (pl_direction p))
    as (g' & Hg' & _); [apply Hok|apply Hlegal|].
  rewrite Hg'. simpl. eexists _, _. split; [done|]. split.
  - eapply layoutOK_place; [done|done| |done].
    eapply fitsInGrid_start; [apply Hlegal|].
    by eapply legalPlacement_nonempty_word.
  - intros H. by apply app_eq_nil in H as [_ ?].
Qed.

Lemma placeRest_spec entries g placed :
  layoutOK g placed → placed ≠ [] ∨ entries = [] →
  ∃ g' placed', placeRest entries g placed = Some (g', placed') ∧ layoutOK g' placed'.
Proof.
  revert g placed. induction entries as [|entry rest IH]; intros g placed Hok Hne; simpl.
  - by eexists _, _.
  - destruct Hne as [Hne|?]; [|done].
    destruct (Z.of_nat (length placed) <? 28); [|by eexists _, _].
    destruct (placeNext_spec entry g placed Hok Hne) as (g1 & placed1 & -> & Hok1 & Hne1).
    simpl. apply IH; [done|by left].
Qed.

(** An attempt never fails, whatever the order of the pool, and its layout
    obeys the invariant. *)
Lemma runAttempt_spec (shuffledPool : list WordEntry) :
  ∃ g placed, runAttempt shuffledPool = Some (g, placed) ∧ layoutOK g placed.
Proof.
  unfold runAttempt.
  set (shuffled := filter (λ w, wlen (we_word w) ≤ GRID_SIZE) shuffledPool).
  destruct (placeFirst_spec shuffled) as (g & placed & -> & Hok & Hne).
  { intros w Hw. apply list_elem_of_filter in Hw. apply Hw. }
  simpl. apply placeRest_spec; [done|].
  destruct shuffled; [by right|left; by apply Hne].
Qed.

(** ** Loops and draws in the generator monad *)

Lemma gen_bind_Some {A B} (m : Gen A) (f : A → Gen B) (pos : nat) (b : B) (pos' : nat) :
  (m ≫= f) pos = Some (b, pos') ↔
  ∃ a pos1, m pos = Some (a, pos1) ∧ f a pos1 = Some (b, pos').
Proof.
  unfold mbind, Gen_bind. destruct (m pos) as [[a pos1]|]; naive_solver.
Qed.

Lemma gen_bind_run {A B} (m : Gen A) (f : A → Gen B) (pos : nat) (a : A) (pos1 : nat) :
  m pos = Some (a, pos1) → (m ≫= f) pos = f a pos1.
Proof. intros H. unfold mbind, Gen_bind. by rewrite H. Qed.

Lemma liftOpt_run {A} (o : option A) (a : A) (pos : nat) :
  o = Some a → liftOpt o pos = Some (a, pos).
Proof. by intros ->. Qed.

(** A loop whose body never fails and keeps an invariant that may depend on
    the part of the list already visited. *)
Lemma forEach_gen_spec {A S} (I : list A → S → Prop) (f : S → A → Gen S)
    (l visited : list A) (s : S) (pos : nat) :
  I visited s →
  (∀ seen x rest s1 pos1, visited ++ l = seen ++ x :: rest → I seen s1 →
     ∃ s2 pos2, f s1 x pos1 = Some (s2, pos2) ∧ I (seen ++ [x]) s2) →
  ∃ s' pos', forEach l s f pos = Some (s', pos') ∧ I (visited ++ l) s'.
Proof.
  revert visited s pos. induction l as [|x l IH]; intros visited s pos HI Hstep.
  - exists s, pos. split; [done|]. by rewrite app_nil_r.
  - destruct (Hstep visited x l s pos eq_refl HI) as (s1 & pos1 & Hf & HI1).
    simpl. rewrite (gen_bind_run _ _ _ _ _ Hf).
    replace (visited ++ x :: l) with ((visited ++ [x]) ++ l) by by rewrite <- app_assoc.
    apply IH; [done|]. intros seen y rest s2 pos2 Heq. apply (Hstep seen y rest).
    by rewrite <- app_assoc in Heq.
Qed.

Lemma forEach_gen_total {A S} (I : S → Prop) (f : S → A → Gen S)
    (l : list A) (s : S) (pos : nat) :
  I s →
  (∀ x s1 pos1, x ∈ l → I s1 → ∃ s2 pos2, f s1 x pos1 = Some (s2, pos2) ∧ I s2) →
  ∃ s' pos', forEach l s f pos = Some (s', pos') ∧ I s'.
Proof.
  intros HI Hstep.
  destruct (forEach_gen_spec (λ _, I) f l [] s pos HI) as (s' & pos' & H & HI'); [|eauto].
  intros seen x rest s1 pos1 Heq. apply Hstep. simpl in Heq. rewrite Heq. set_solver.
Qed.

Section Draws.

Variable random : nat → nat.

Lemma randomBelow_spec (n : nat) (pos : nat) :
  ∃ k, randomBelow random n pos = Some (k, S pos) ∧ ((0 < n)%nat → (k < n)%nat).
Proof.
  unfold randomBelow. eexists. split; [done|]. intros Hn.
  destruct (Nat.eqb_spec n 0); [lia|]. apply Nat.mod_upper_bound. lia.
Qed.

(** Exchanging two elements of an array permutes it. *)
Lemma swap_spec {T} (a : list T) (i j : nat) :
  (i < length a)%nat → (j < length a)%nat →
  ∃ a', swap a i j = Some a' ∧ a' ≡ₚ a.
Proof.
  intros Hi Hj. unfold swap.
  destruct (lookup_lt_is_Some_2 a i Hi) as [ai Hai].
  destruct (lookup_lt_is_Some_2 a j Hj) as [aj Haj].
  rewrite Hai, Haj. simpl. eexists. split; [done|].
  apply Permutation_inj. split; [by rewrite !length_insert|].
  exists (λ n, if decide (n = i) then j else if decide (n = j) then i else n). split.
  - intros n m. repeat case_decide; intros; simplify_eq; lia.
  - intros n. destruct (decide (n = i)) as [->|Hni].
    + destruct (decide (i = j)) as [->|Hij].
      * rewrite list_lookup_insert_eq by (rewrite length_insert; lia). congruence.
      * rewrite list_lookup_insert_ne by done.
        rewrite list_lookup_insert_eq by lia. done.
    + destruct (decide (n = j)) as [->|Hnj].
      * rewrite list_lookup_insert_eq by (rewrite length_insert; lia). done.
      * by rewrite !list_lookup_insert_ne by done.
Qed.

Lemma shuffleLoop_spec {T} (i : nat) (a : list T) (pos : nat) :
  (i < length a)%nat ∨ i = 0%nat →
  ∃ a', shuffleLoop random i a pos = Some (a', (pos + i)%nat) ∧ a' ≡ₚ a.
Proof.
  revert a pos. induction i as [|i IH]; intros a pos Hi.
  - exists a. simpl. rewrite Nat.add_0_r. done.
  - destruct Hi as [Hi|?]; [|done]. simpl.
    destruct (randomBelow_spec (S i + 1) pos) as (j & Hj & Hlt).
    rewrite (gen_bind_run _ _ _ _ _ Hj).
    destruct (swap_spec a (S i) j) as (a1 & Hswap & Hperm); [lia|lia|].
    rewrite (gen_bind_run _ _ _ _ _ (liftOpt_run _ _ _ Hswap)).
    destruct (IH a1 (S pos)) as (a' & Hloop & Hperm').
    { left. rewrite (Permutation_length Hperm). lia. }
    exists a'. rewrite Hloop. split; [f_equal; f_equal; lia|].
    by rewrite Hperm'.
Qed.

(** [shuffle] never fails, permutes its argument and takes one draw per
    element but the first. *)
Lemma shuffle_spec {T} (arr : list T) (pos : nat) :
  ∃ a', shuffle random arr pos = Some (a', (pos + (length arr - 1))%nat) ∧ a' ≡ₚ arr.
Proof.
  unfold shuffle. apply shuffleLoop_spec. destruct arr; simpl; [by right|left; lia].
Qed.

End Draws.

(** ** Clue numbering *)

Definition startCell (pw : PlacedWord) : Z * Z := (pw_row pw, pw_col pw).

(** Row-major order on cells: row first, then column. *)
Definition cellBefore (a b : Z * Z) : Prop :=
  a.1 < b.1 ∨ (a.1 = b.1 ∧ a.2 < b.2).

#[global] Instance cellBefore_dec a b : Decision (cellBefore a b).
Proof. unfold cellBefore. apply _. Defined.

(** The order of the sort: the start cell is not after the other one. *)
Definition startLe (a b : PlacedWord) : Prop :=
  cellBefore (startCell a) (startCell b) ∨ startCell a = startCell b.

(** The distinct start cells of a list of placed words. *)
Definition startCells (l : list PlacedWord) : gset (Z * Z) :=
  list_to_set (startCell <$> l).

(** The position of a cell among the distinct start cells in row-major
    order, counted from 1. *)
Definition clueRank (l : list PlacedWord) (k : Z * Z) : Z :=
  Z.of_nat (size (filter (λ k', cellBefore k' k) (startCells l))) + 1.

Lemma comparePlaced_le a b : (comparePlaced a b <=? 0) = true ↔ startLe a b.
Proof.
  unfold comparePlaced, startLe, cellBefore, startCell. simpl.
  rewrite Z.leb_le. destruct (Z.eqb_spec (pw_row a) (pw_row b)); simpl.
  - split; [|intros [H|[= _ H]]; lia].
    intros H. destruct (decide (pw_col a = pw_col b)); [right; congruence|left; lia].
  - split; [intros; left; lia|]. intros [H|[= H _]]; lia.
Qed.

Lemma startLe_total a b : ¬ startLe a b → startLe b a.
Proof.
  unfold startLe, cellBefore, startCell. simpl. intros H. left.
  destruct (decide (pw_row b < pw_row a)); [by left|right].
  destruct (decide (pw_row a = pw_row b)) as [E|E].
  - split; [done|]. destruct (decide (pw_col b < pw_col a)); [done|].
    exfalso. apply H. destruct (decide (pw_col a = pw_col b)); [right; congruence|left; lia].
  - exfalso. apply H. left. lia.
Qed.

#[global] Instance startLe_trans : Transitive startLe.
Proof.
  intros a b c. unfold startLe, cellBefore, startCell. simpl.
  intros [H1|[= H1 H1']] [H2|[= H2 H2']].
  - left. lia.
  - left. lia.
  - left. lia.
  - right. congruence.
Qed.

Lemma insertPlaced_perm x l : insertPlaced x l ≡ₚ x :: l.
Proof.
  induction l as [|y l IH]; simpl; [done|].
  destruct (comparePlaced x y <=? 0); [done|].
  rewrite IH. apply Permutation_swap.
Qed.

Lemma sortPlaced_perm l : sortPlaced l ≡ₚ l.
Proof.
  induction l as [|x l IH]; simpl; [done|].
  by rewrite insertPlaced_perm, IH.
Qed.

Lemma insertPlaced_sorted x l :
  StronglySorted startLe l → StronglySorted startLe (insertPlaced x l).
Proof.
  induction 1 as [|y l Hl IH Hy]; simpl; [repeat constructor|].
  destruct (comparePlaced x y <=? 0) eqn:E.
  - apply comparePlaced_le in E. constructor; [by constructor|].
    constructor; [done|]. eapply Forall_impl; [done|]. intros z Hz. by etrans.
  - assert (startLe y x) as Hyx.
    { apply startLe_total. intros H. apply comparePlaced_le in H. congruence. }
    constructor; [done|].
    rewrite insertPlaced_perm. by constructor.
Qed.

Lemma sortPlaced_sorted l : StronglySorted startLe (sortPlaced l).
Proof.
  induction l as [|x l IH]; simpl; [constructor|]. by apply insertPlaced_sorted.
Qed.

Lemma startCell_withPwNumber n pw : startCell (withPwNumber n pw) = startCell pw.
Proof. done. Qed.

(** The numbering loop on a sorted list: every word receives the rank of
    its start cell. *)
Lemma numberLoop_spec (L pre rest : list PlacedWord) (numberMap : gmap (Z * Z) Z) (num : Z) :
  L = pre ++ rest → StronglySorted startLe L →
  (∀ k n, numberMap !! k = Some n ↔ k ∈ startCells pre ∧ n = clueRank L k) →
  num = Z.of_nat (size (startCells pre)) + 1 →
  Forall2 (λ a b, b = withPwNumber (clueRank L (startCell a)) a)
          rest (numberLoop rest numberMap num).
Proof.
  revert pre numberMap num.
  induction rest as [|pw rest IH]; intros pre numberMap num HL Hsorted Hmap Hnum; simpl.
  - constructor.
  - assert (pre ++ pw :: rest = (pre ++ [pw]) ++ rest) as Hassoc by by rewrite <- app_assoc.
    assert (startCells (pre ++ [pw]) = {[startCell pw]} ∪ startCells pre) as Hcells.
    { unfold startCells. rewrite fmap_app, list_to_set_app_L. simpl. set_solver. }
    fold (startCell pw).
    destruct (numberMap !! startCell pw) as [n|] eqn:Hlook.
    + apply Hmap in Hlook as [Hin ->]. constructor; [done|].
      apply (IH (pre ++ [pw])); [by rewrite HL|done| |].
      * intros k n. rewrite Hmap, Hcells, elem_of_union, elem_of_singleton.
        split; intros [H1 H2]; (split; [|done]); [by right|].
        destruct H1 as [->|H1]; done.
      * rewrite Hcells. replace ({[startCell pw]} ∪ startCells pre) with (startCells pre); [done|].
        symmetry. apply subseteq_union_1_L. by apply singleton_subseteq_l.
    + assert (startCell pw ∉ startCells pre) as Hfresh.
      { intros Hin. assert (numberMap !! startCell pw = Some (clueRank L (startCell pw)))
          as Hsome by by apply Hmap. congruence. }
      assert (num = clueRank L (startCell pw)) as Hrank.
      { rewrite Hnum. unfold clueRank. f_equal. f_equal. f_equal.
        apply set_eq. intros k. rewrite elem_of_filter.
        subst L. rewrite StronglySorted_app in Hsorted.
        destruct Hsorted as (Hcross & _ & Hrest).
        apply StronglySorted_cons in Hrest as [Hfirst _].
        rewrite Forall_forall in Hfirst.
        unfold startCells. rewrite !elem_of_list_to_set, !list_elem_of_fmap.
        split.
        - intros (a & -> & Ha). split; [|exists a; split; [done|set_solver]].
          destruct (Hcross a pw Ha ltac:(set_solver)) as [Hlt|Heq]; [done|].
          exfalso. apply Hfresh. unfold startCells.
          rewrite elem_of_list_to_set, list_elem_of_fmap. exists a. done.
        - intros (Hlt & a & -> & Ha). exists a. split; [done|].
          apply elem_of_app in Ha as [Ha|Ha]; [done|]. exfalso.
          apply elem_of_cons in Ha as [->|Ha].
          + unfold cellBefore in Hlt. lia.
          + destruct (Hfirst a Ha) as [Hlt'|Heq].
            * unfold cellBefore in *. lia.
            * rewrite Heq in Hlt. unfold cellBefore in Hlt. lia. }
      constructor; [by rewrite Hrank|].
      apply (IH (pre ++ [pw])); [by rewrite HL|done| |].
      * intros k n. rewrite Hcells. destruct (decide (k = startCell pw)) as [->|Hne].
        -- rewrite lookup_insert_eq.
           split; [intros [= <-]; split; [apply elem_of_union; left; by apply elem_of_singleton|done]|].
           intros [_ ->]. by rewrite Hrank.
        -- rewrite lookup_insert_ne by done.
           rewrite Hmap, elem_of_union, elem_of_singleton.
           split; intros [H1 H2]; (split; [|done]); [by right|].
           destruct H1 as [->|H1]; done.
      * rewrite Hcells, size_union by (by apply disjoint_singleton_l).
        rewrite size_singleton. lia.
Qed.

Lemma numberLoop_startCell (l : list PlacedWord) (m : gmap (Z * Z) Z) (num : Z) :
  startCell <$> numberLoop l m num = startCell <$> l.
Proof.
  revert m num. induction l as [|pw l IH]; intros m num; simpl; [done|].
  destruct (m !! (pw_row pw, pw_col pw)); simpl; by rewrite IH.
Qed.

(** The words of the result: those of the best attempt, sorted by start
    cell, each with the rank of its start cell as number. *)
Lemma numberClues_spec (bestPlaced : list PlacedWord) :
  Forall2 (λ a b, b = withPwNumber (clueRank (numberClues bestPlaced) (startCell a)) a)
          (sortPlaced bestPlaced) (numberClues bestPlaced).
Proof.
  assert (∀ k, clueRank (numberClues bestPlaced) k = clueRank (sortPlaced bestPlaced) k)
    as Hrank.
  { intros k. unfold clueRank, startCells, numberClues. by rewrite numberLoop_startCell. }
  eapply Forall2_impl.
  - apply (numberLoop_spec (sortPlaced bestPlaced) [] (sortPlaced bestPlaced) ∅ 1);
      [done|apply sortPlaced_sorted| |done].
    intros k n. rewrite lookup_empty. unfold startCells. simpl. set_solver.
  - intros a b ->. by rewrite Hrank.
Qed.

Lemma numberClues_rank (bestPlaced : list PlacedWord) (pw : PlacedWord) :
  pw ∈ numberClues bestPlaced →
  pw_number pw = clueRank (numberClues bestPlaced) (startCell pw).
Proof.
  intros Hin. apply list_elem_of_lookup in Hin as [i Hi].
  destruct (Forall2_lookup_r _ _ _ _ _ (numberClues_spec bestPlaced) Hi) as (a & _ & ->).
  done.
Qed.

(** ** The cell grid *)

(** Every cell of the grid satisfies a property that may depend on its
    position. *)
Definition gridCells {A} (Q : Z * Z → A → Prop) (g : list (list A)) : Prop :=
  wfGrid g ∧ ∀ r c, inGrid r c → ∃ x, cellAt g r c = Some x ∧ Q (r, c) x.

Lemma gridCells_impl {A} (Q Q' : Z * Z → A → Prop) (g : list (list A)) :
  gridCells Q g →
  (∀ r c x, inGrid r c → cellAt g r c = Some x → Q (r, c) x → Q' (r, c) x) →
  gridCells Q' g.
Proof.
  intros [Hwf HQ] Himpl. split; [done|]. intros r c Hin.
  destruct (HQ r c Hin) as (x & Hx & HQx). exists x. split; [done|]. by apply Himpl.
Qed.

Lemma gridCells_wf {A} (g : list (list A)) : wfGrid g → gridCells (λ _ _, True) g.
Proof.
  intros Hwf. split; [done|]. intros r c Hin.
  destruct (cellAt_inGrid g r c Hwf Hin) as [x Hx]. by exists x.
Qed.

Lemma updCell_spec (g : list (list Cell)) r c (f : Cell → Cell) :
  wfGrid g → inGrid r c →
  ∃ g' x, updCell g r c f = Some g' ∧ wfGrid g' ∧ cellAt g r c = Some x ∧
          ∀ r' c', cellAt g' r' c' = if decide ((r', c') = (r, c)) then Some (f x)
                                     else cellAt g r' c'.
Proof.
  intros Hwf Hin. unfold updCell.
  destruct (cellAt_inGrid g r c Hwf Hin) as [x Hx]. rewrite Hx. simpl.
  destruct (setCell_spec g r c (f x) Hwf Hin) as (g' & Hg' & Hwf' & Hcells).
  exists g', x. done.
Qed.

(** An update of one cell moves a cell-wise property along. *)
Lemma updCell_gridCells (Q Q' : Z * Z → Cell → Prop) (g : list (list Cell)) r c
    (f : Cell → Cell) :
  gridCells Q g → inGrid r c →
  (∀ x, cellAt g r c = Some x → Q (r, c) x → Q' (r, c) (f x)) →
  (∀ r' c' x, (r', c') ≠ (r, c) → cellAt g r' c' = Some x → Q (r', c') x → Q' (r', c') x) →
  ∃ g', updCell g r c f = Some g' ∧ gridCells Q' g'.
Proof.
  intros [Hwf HQ] Hin Hat Hother.
  destruct (updCell_spec g r c f Hwf Hin) as (g' & x & Hg' & Hwf' & Hx & Hcells).
  exists g'. split; [done|]. split; [done|]. intros r' c' Hin'.
  rewrite Hcells. case_decide as Heq.
  - simplify_eq. exists (f x). split; [done|].
    destruct (HQ r c Hin) as (y & Hy & HQy). rewrite Hx in Hy. simplify_eq. by apply Hat.
  - destruct (HQ r' c' Hin') as (y & Hy & HQy). exists y. split; [done|].
    by apply Hother.
Qed.

Lemma mapM_seqZ {A} (f : Z → option A) (n : Z) :
  (∀ i, 0 ≤ i < n → is_Some (f i)) →
  ∃ l, mapM f (seqZ 0 n) = Some l ∧ length l = Z.to_nat n ∧
       ∀ i, 0 ≤ i < n → at_index l i = f i.
Proof.
  intros Hf.
  destruct (mapM_is_Some_2 f (seqZ 0 n)) as [l Hl].
  { apply Forall_seqZ. intros i Hi. apply Hf. lia. }
  exists l. split; [done|].
  apply mapM_Some_1 in Hl.
  pose proof (Forall2_length _ _ _ Hl) as Hlen. rewrite length_seqZ in Hlen.
  split; [done|]. intros i Hi. unfold at_index. rewrite decide_True by lia.
  destruct (Forall2_lookup_l _ _ _ (Z.to_nat i) i Hl) as (y & Hy & Hfy).
  { rewrite lookup_seqZ. lia. }
  by rewrite Hy, Hfy.
Qed.

(** The cell grid is built without a bad index and copies the letters. *)
Lemma buildCellGrid_spec (bestGrid : list (list string)) :
  wfGrid bestGrid →
  ∃ cg, buildCellGrid bestGrid = Some cg ∧
        gridCells (λ rc x, ∃ s, cellAt bestGrid rc.1 rc.2 = Some s ∧ x = newCell s) cg.
Proof.
  intros Hwf. unfold buildCellGrid.
  assert (∀ r, 0 ≤ r < GRID_SIZE →
               ∃ row, mapM (λ c, l ← cellAt bestGrid r c; Some (newCell l)) (seqZ 0 GRID_SIZE)
                      = Some row ∧ length row = Z.to_nat GRID_SIZE ∧
                      ∀ c, 0 ≤ c < GRID_SIZE →
                           at_index row c = (l ← cellAt bestGrid r c; Some (newCell l)))
    as Hrow.
  { intros r Hr. apply mapM_seqZ. intros c Hc.
    destruct (cellAt_inGrid bestGrid r c Hwf) as [s Hs]; [done|].
    rewrite Hs. by eexists. }
  destruct (mapM_seqZ
              (λ r, mapM (λ c, l ← cellAt bestGrid r c; Some (newCell l)) (seqZ 0 GRID_SIZE))
              GRID_SIZE) as (cg & Hcg & Hlen & Hrows).
  { intros r Hr. destruct (Hrow r Hr) as (row & -> & _). by eexists. }
  exists cg. split; [done|].
  assert (∀ r c, inGrid r c →
                 cellAt cg r c = (l ← cellAt bestGrid r c; Some (newCell l))) as Hcell.
  { intros r c [Hr Hc]. unfold cellAt at 1. rewrite Hrows by done.
    destruct (Hrow r Hr) as (row & -> & _ & Hcols). simpl. by apply Hcols. }
  split.
  - split; [done|]. apply Forall_lookup. intros i row Hi.
    assert (0 ≤ Z.of_nat i < GRID_SIZE) as Hr.
    { apply lookup_lt_Some in Hi. unfold GRID_SIZE in *. lia. }
    pose proof (Hrows _ Hr) as Heq. unfold at_index in Heq.
    rewrite decide_True, Nat2Z.id, Hi in Heq by lia.
    destruct (Hrow _ Hr) as (row' & Hrow' & Hlen' & _). congruence.
  - intros r c Hin. rewrite Hcell by done.
    destruct (cellAt_inGrid bestGrid r c Hwf Hin) as [s Hs]. rewrite Hs. simpl.
    eexists. split; [done|]. by exists s.
Qed.

Lemma forEach_opt_spec {A S} (I : list A → S → Prop) (f : S → A → option S)
    (l visited : list A) (s : S) :
  I visited s →
  (∀ seen x rest s1, visited ++ l = seen ++ x :: rest → I seen s1 →
     ∃ s2, f s1 x = Some s2 ∧ I (seen ++ [x]) s2) →
  ∃ s', forEach l s f = Some s' ∧ I (visited ++ l) s'.
Proof.
  revert visited s. induction l as [|x l IH]; intros visited s HI Hstep.
  - exists s. split; [done|]. by rewrite app_nil_r.
  - destruct (Hstep visited x l s eq_refl HI) as (s1 & Hf & HI1).
    simpl. rewrite Hf. simpl.
    replace (visited ++ x :: l) with ((visited ++ [x]) ++ l) by by rewrite <- app_assoc.
    apply IH; [done|]. intros seen y rest s2 Heq. apply (Hstep seen y rest).
    by rewrite <- app_assoc in Heq.
Qed.

Lemma setCell_gridCells (Q Q' : Z * Z → Cell → Prop) (g : list (list Cell)) r c (y : Cell) :
  gridCells Q g → inGrid r c → Q' (r, c) y →
  (∀ r' c' x, (r', c') ≠ (r, c) → cellAt g r' c' = Some x → Q (r', c') x → Q' (r', c') x) →
  ∃ g', setCell g r c y = Some g' ∧ gridCells Q' g'.
Proof.
  intros [Hwf HQ] Hin Hat Hother.
  destruct (setCell_spec g r c y Hwf Hin) as (g' & Hg' & Hwf' & Hcells).
  exists g'. split; [done|]. split; [done|]. intros r' c' Hin'.
  rewrite Hcells. case_decide as Heq.
  - simplify_eq. by exists y.
  - destruct (HQ r' c' Hin') as (x & Hx & HQx). exists x. split; [done|].
    by apply Hother.
Qed.

(** The number shown on a cell after the words [seen]: the smallest clue
    number among the words of [seen] that start there, if any. *)
Definition numberOK (seen : list PlacedWord) (rc : Z * Z) (n : option Z) : Prop :=
  match n with
  | None => ∀ pw, pw ∈ seen → startCell pw ≠ rc
  | Some n =>
      (∃ pw, pw ∈ seen ∧ startCell pw = rc ∧ pw_number pw = n) ∧
      ∀ pw, pw ∈ seen → startCell pw = rc → n ≤ pw_number pw
  end.

(** A cell of the grid once the clue references of [seen] are set. *)
Definition clueCell (bestGrid : list (list string)) (seen : list PlacedWord)
    (rc : Z * Z) (x : Cell) : Prop :=
  (∃ s, cellAt bestGrid rc.1 rc.2 = Some s ∧ letter x = s ∧
        isBlack x = bool_decide (s = ""%string)) ∧
  isSolutionCell x = false ∧ solutionIndex x = None ∧
  numberOK seen rc (number x).

(** The placed word lies in the grid, start cell included. *)
Definition geometryOK (pw : PlacedWord) : Prop :=
  fitsInGrid (pw_word pw) (pw_row pw) (pw_col pw) (pw_direction pw) ∧
  inGrid (pw_row pw) (pw_col pw).

Lemma numberOK_other seen pw rc n :
  startCell pw ≠ rc → numberOK seen rc n → numberOK (seen ++ [pw]) rc n.
Proof.
  intros Hne. destruct n as [n|]; simpl.
  - intros [(pw' & Hin & Hst & Hn) Hmin]. split.
    + exists pw'. split; [set_solver|done].
    + intros pw'' Hin' Hst'. apply elem_of_app in Hin' as [?|Hin']; [by apply Hmin|].
      apply list_elem_of_singleton in Hin' as ->. done.
  - intros Hnone pw' Hin'. apply elem_of_app in Hin' as [?|Hin']; [by apply Hnone|].
    apply list_elem_of_singleton in Hin' as ->. done.
Qed.

Lemma setClueRefs_spec bestGrid seen g pw :
  gridCells (clueCell bestGrid seen) g → geometryOK pw →
  ∃ g', setClueRefs g pw = Some g' ∧ gridCells (clueCell bestGrid (seen ++ [pw])) g'.
Proof.
  intros Hg [Hfits Hstart]. unfold setClueRefs.
  destruct (Hg) as [Hwf HQ].
  destruct (HQ _ _ Hstart) as (cell & Hcell & Hletter & Hsol & Hidx & Hnum).
  rewrite Hcell. simpl.
  assert (∃ g1, (if match number cell with
                    | Some n => pw_number pw <? n
                    | None => true
                    end
                 then setCell g (pw_row pw) (pw_col pw) (withNumber (pw_number pw) cell)
                 else Some g) = Some g1 ∧
                gridCells (clueCell bestGrid (seen ++ [pw])) g1) as (g1 & -> & Hg1).
  { assert (∀ r' c' x, (r', c') ≠ (pw_row pw, pw_col pw) → cellAt g r' c' = Some x →
              clueCell bestGrid seen (r', c') x →
              clueCell bestGrid (seen ++ [pw]) (r', c') x) as Hother.
    { intros r' c' x Hne _ (? & ? & ? & Hn).
      split; [done|]. split; [done|]. split; [done|].
      apply numberOK_other; [|done]. unfold startCell. congruence. }
    destruct (number cell) as [n|] eqn:Hn.
    - destruct (Z.ltb_spec (pw_number pw) n) as [Hlt|Hge].
      + apply (setCell_gridCells (clueCell bestGrid seen)); [done|done| |done].
        split; [done|]. split; [done|]. split; [done|]. simpl.
        destruct Hnum as [_ Hmin]. split; [exists pw; split; [set_solver|done]|].
        intros pw' Hin' Hst'. apply elem_of_app in Hin' as [?|Hin'].
        * specialize (Hmin pw' ltac:(done) Hst'). lia.
        * apply list_elem_of_singleton in Hin' as ->. lia.
      + exists g. split; [done|]. apply (gridCells_impl (clueCell bestGrid seen)); [done|].
        intros r' c' x Hin' Hx HQx.
        destruct (decide ((r', c') = (pw_row pw, pw_col pw))) as [Heq|Hne];
          [|by apply Hother].
        simplify_eq. destruct HQx as (? & ? & ? & _).
        split; [done|]. split; [done|]. split; [done|].
        rewrite Hn. destruct Hnum as [(pw' & ? & ? & ?) Hmin]. split.
        * exists pw'. split; [set_solver|done].
        * intros pw'' Hin'' Hst''. apply elem_of_app in Hin'' as [?|Hin''];
            [by apply Hmin|].
          apply list_elem_of_singleton in Hin'' as ->. lia.
    - apply (setCell_gridCells (clueCell bestGrid seen)); [done|done| |done].
      split; [done|]. split; [done|]. split; [done|].
      simpl. split; [exists pw; split; [set_solver|done]|].
      intros pw' Hin' Hst'. apply elem_of_app in Hin' as [?|Hin'].
      + exfalso. by eapply Hnum.
      + apply list_elem_of_singleton in Hin' as ->. lia. }
  simpl.
  apply (forEach_opt_total (gridCells (clueCell bestGrid (seen ++ [pw])))); [done|].
  intros g2 i Hi Hg2. apply elem_of_seqZ in Hi.
  pose proof (fitsInGrid_cells _ _ _ _ i Hfits ltac:(lia)) as Hin.
  destruct (pw_direction pw); simpl in Hin.
  - apply (updCell_gridCells (clueCell bestGrid (seen ++ [pw]))); [done|done| |done].
    by intros x _ (? & ? & ? & ?).
  - apply (updCell_gridCells (clueCell bestGrid (seen ++ [pw]))); [done|done| |done].
    by intros x _ (? & ? & ? & ?).
Qed.

Lemma setAllClueRefs_spec bestGrid cg0 (bestPlaced : list PlacedWord) :
  gridCells (λ rc x, ∃ s, cellAt bestGrid rc.1 rc.2 = Some s ∧ x = newCell s) cg0 →
  Forall geometryOK bestPlaced →
  ∃ cg, setAllClueRefs cg0 bestPlaced = Some cg ∧
        gridCells (clueCell bestGrid bestPlaced) cg.
Proof.
  intros Hcg0 Hgeo. unfold setAllClueRefs.
  apply (forEach_opt_spec (λ seen g, gridCells (clueCell bestGrid seen) g) _ bestPlaced []).
  - eapply gridCells_impl; [done|]. intros r c x _ _ (s & Hs & ->).
    split; [by exists s|]. repeat split; try done. intros pw Hpw. set_solver.
  - intros seen pw rest g Heq Hg. apply setClueRefs_spec; [done|].
    rewrite Forall_forall in Hgeo. apply Hgeo. simpl in Heq. rewrite Heq. set_solver.
Qed.

(** ** The letter cells *)

Definition allCells : list (Z * Z) :=
  r ← seqZ 0 GRID_SIZE; c ← seqZ 0 GRID_SIZE; [(r, c)].

Definition isLetterCell (cg : list (list Cell)) (rc : Z * Z) : bool :=
  match cellAt cg rc.1 rc.2 with
  | Some x => negb (isBlack x)
  | None => false
  end.

Lemma elem_of_allCells rc : rc ∈ allCells ↔ inGrid rc.1 rc.2.
Proof.
  unfold allCells, inGrid. rewrite list_elem_of_bind. split.
  - intros (r & H & Hr). apply list_elem_of_bind in H as (c & H & Hc).
    apply list_elem_of_singleton in H as ->. apply elem_of_seqZ in Hr, Hc. simpl. lia.
  - intros [Hr Hc]. exists rc.1. split; [|apply elem_of_seqZ; lia].
    apply list_elem_of_bind. exists rc.2. split; [|apply elem_of_seqZ; lia].
    destruct rc. set_solver.
Qed.

Lemma NoDup_allCells : NoDup allCells.
Proof.
  unfold allCells. apply NoDup_bind; [| |apply NoDup_seqZ].
  - intros r1 r2 y _ _ H1 H2.
    apply list_elem_of_bind in H1 as (c1 & H1 & _).
    apply list_elem_of_bind in H2 as (c2 & H2 & _).
    apply list_elem_of_singleton in H1, H2. congruence.
  - intros r _. apply NoDup_bind; [| |apply NoDup_seqZ].
    + intros c1 c2 y _ _ H1 H2. apply list_elem_of_singleton in H1, H2. congruence.
    + intros c _. apply NoDup_singleton.
Qed.

(** The letter cells are the cells of the grid that are not black, in
    row-major order. *)
Lemma collectLetterCells_spec (cg : list (list Cell)) :
  wfGrid cg →
  collectLetterCells cg = Some (filter (λ rc, isLetterCell cg rc = true) allCells).
Proof.
  intros Hwf. unfold collectLetterCells.
  assert (forEach (seqZ 0 GRID_SIZE) []
            (λ acc r, forEach (seqZ 0 GRID_SIZE) acc
               (λ acc c, cell ← cellAt cg r c;
                         Some (if isBlack cell then acc else acc ++ [(r, c)])))
          = forEach allCells []
              (λ acc rc, cell ← cellAt cg rc.1 rc.2;
                         Some (if isBlack cell then acc else acc ++ [rc]))) as ->.
  { unfold allCells. rewrite forEach_opt_bind. apply forEach_opt_ext. intros acc r _.
    by rewrite forEach_opt_singletons. }
  destruct (forEach_opt_spec
              (λ seen acc, acc = filter (λ rc, isLetterCell cg rc = true) seen)
              (λ acc rc, cell ← cellAt cg rc.1 rc.2;
                         Some (if isBlack cell then acc else acc ++ [rc]))
              allCells [] []) as (lcs & -> & Hlcs); [done| |by rewrite Hlcs].
  intros seen rc rest acc Heq ->.
  assert (inGrid rc.1 rc.2) as Hin.
  { apply elem_of_allCells. simpl in Heq. rewrite Heq. set_solver. }
  destruct (cellAt_inGrid cg _ _ Hwf Hin) as [x Hx]. rewrite Hx. simpl.
  assert (isLetterCell cg rc = negb (isBlack x)) as Hlc.
  { unfold isLetterCell. by rewrite Hx. }
  eexists. split; [done|]. rewrite filter_app, filter_cons, filter_nil.
  destruct (isBlack x); simpl in Hlc.
  - rewrite decide_False by congruence. by rewrite app_nil_r.
  - by rewrite decide_True by done.
Qed.

(** ** The overlay of the solution word *)

Lemma filterOpt_total {A} (p : A → option bool) (l : list A) :
  (∀ x, x ∈ l → is_Some (p x)) → is_Some (filterOpt p l).
Proof.
  induction l as [|x l IH]; intros Hp; simpl; [by eexists|].
  destruct (Hp x) as [b ->]; [set_solver|]. simpl.
  destruct IH as [l' ->]; [intros; apply Hp; set_solver|]. by eexists.
Qed.

Lemma filterOpt_elem_of {A} (p : A → option bool) (l l' : list A) (x : A) :
  filterOpt p l = Some l' → x ∈ l' → x ∈ l ∧ p x = Some true.
Proof.
  revert l'. induction l as [|y l IH]; intros l' H Hx; simpl in H.
  - injection H as <-. set_solver.
  - destruct (p y) as [b|] eqn:Hy; simplify_eq/=.
    destruct (filterOpt p l) as [l1|]; simplify_eq/=.
    destruct b.
    + apply elem_of_cons in Hx as [->|Hx]; [set_solver|].
      destruct (IH l1 eq_refl Hx). set_solver.
    + destruct (IH l1 eq_refl Hx). set_solver.
Qed.

Lemma filterOpt_nil {A} (p : A → option bool) (l : list A) (x : A) :
  filterOpt p l = Some [] → x ∈ l → p x = Some false.
Proof.
  induction l as [|y l IH]; intros H Hx; simpl in H; [set_solver|].
  destruct (p y) as [b|] eqn:Hy; simplify_eq/=.
  destruct (filterOpt p l) as [l1|]; simplify_eq/=.
  destruct b; simplify_eq/=.
  apply elem_of_cons in Hx as [->|Hx]; [done|]. by apply IH.
Qed.

Definition scCell (e : SolutionCell) : Z * Z := (sc_row e, sc_col e).

(** The cell holds the target letter. *)
Definition holdsLetter (g : list (list Cell)) (rc : Z * Z) (target : string) : Prop :=
  ∃ x, cellAt g rc.1 rc.2 = Some x ∧ letter x = target.

(** The effect of claiming [chosen] for the letter of index [i]: the cell is
    recorded, claimed and marked, its letter overwritten when [overwrite]
    holds; no other cell of the grid changes. *)
Definition claimed (st st' : Overlay) (chosen : Z * Z) (i : Z) (target : string)
    (overwrite : bool) : Prop :=
  wfGrid (ov_grid st') ∧
  ov_solutionCells st' = ov_solutionCells st ++ [mkSolutionCell chosen.1 chosen.2 i] ∧
  ov_usedCells st' = {[chosen]} ∪ ov_usedCells st ∧
  (∃ x, cellAt (ov_grid st) chosen.1 chosen.2 = Some x ∧
        cellAt (ov_grid st') chosen.1 chosen.2
        = Some (let y := withSolutionIndex i (withIsSolutionCell true x) in
                if overwrite then withLetter target y else y)) ∧
  (∀ r c, (r, c) ≠ chosen → cellAt (ov_grid st') r c = cellAt (ov_grid st) r c).

Lemma markSolutionCell_spec (st : Overlay) (chosen : Z * Z) (i : Z) (target : string) :
  wfGrid (ov_grid st) → inGrid chosen.1 chosen.2 →
  ∃ st', markSolutionCell st chosen i = Some st' ∧
         claimed st st' chosen i target false ∧ ov_usedWords st' = ov_usedWords st.
Proof.
  intros Hwf Hin. unfold markSolutionCell.
  destruct (updCell_spec (ov_grid st) chosen.1 chosen.2 (withIsSolutionCell true) Hwf Hin)
    as (g1 & x & -> & Hwf1 & Hx & Hg1).
  simpl.
  destruct (updCell_spec g1 chosen.1 chosen.2 (withSolutionIndex i) Hwf1 Hin)
    as (g2 & x1 & -> & Hwf2 & Hx1 & Hg2).
  simpl. eexists. split; [done|]. split; [|done].
  rewrite Hg1, decide_True in Hx1 by by destruct chosen. injection Hx1 as <-.
  split; [done|]. split; [done|]. split; [done|]. split.
  - exists x. split; [done|]. simpl. rewrite Hg2, decide_True by by destruct chosen. done.
  - intros r c Hne. simpl. rewrite Hg2, decide_False by by destruct chosen.
    rewrite Hg1, decide_False by by destruct chosen. done.
Qed.

Lemma claimed_markWordsUsed cellToWords st st' chosen i target overwrite :
  claimed st st' chosen i target overwrite →
  claimed st (markWordsUsed cellToWords chosen st') chosen i target overwrite.
Proof. done. Qed.

Lemma overwriteLetter_spec (st st1 : Overlay) (chosen : Z * Z) (i : Z) (target : string) :
  claimed st st1 chosen i target false → inGrid chosen.1 chosen.2 →
  ∃ st', overwriteLetter chosen target st1 = Some st' ∧ claimed st st' chosen i target true.
Proof.
  intros (Hwf1 & Hsc & Hused & (x & Hx & Hx1) & Hother) Hin. unfold overwriteLetter.
  destruct (updCell_spec (ov_grid st1) chosen.1 chosen.2 (withLetter target) Hwf1 Hin)
    as (g2 & x1 & -> & Hwf2 & Hx1' & Hg2).
  simpl. eexists. split; [done|].
  rewrite Hx1 in Hx1'. injection Hx1' as <-.
  split; [done|]. split; [done|]. split; [done|]. split.
  - exists x. split; [done|]. simpl. rewrite Hg2, decide_True by by destruct chosen. done.
  - intros r c Hne. simpl. rewrite Hg2, decide_False by by destruct chosen.
    by apply Hother.
Qed.

Lemma strictCandidate_total cellToWords st target lc :
  wfGrid (ov_grid st) → inGrid lc.1 lc.2 →
  is_Some (strictCandidate cellToWords st target lc).
Proof.
  intros Hwf Hin. unfold strictCandidate.
  destruct (cellAt_inGrid _ _ _ Hwf Hin) as [x ->]. simpl.
  repeat case_match; by eexists.
Qed.

Lemma strictCandidate_true cellToWords st target lc :
  strictCandidate cellToWords st target lc = Some true →
  holdsLetter (ov_grid st) lc target ∧ lc ∉ ov_usedCells st.
Proof.
  unfold strictCandidate, holdsLetter. destruct (cellAt _ _ _) as [x|]; [|done]. simpl.
  destruct (bool_decide (letter x = target)) eqn:Hl; simpl; [|done].
  destruct (bool_decide (lc ∈ ov_usedCells st)) eqn:Hu; [done|].
  apply bool_decide_eq_true in Hl. apply bool_decide_eq_false in Hu.
  intros _. split; [by exists x|done].
Qed.

Lemma fallbackCandidate_spec st target lc :
  wfGrid (ov_grid st) → inGrid lc.1 lc.2 →
  ∃ b, fallbackCandidate st target lc = Some b ∧
       (b = true ↔ holdsLetter (ov_grid st) lc target ∧ lc ∉ ov_usedCells st).
Proof.
  intros Hwf Hin. unfold fallbackCandidate, holdsLetter.
  destruct (cellAt_inGrid _ _ _ Hwf Hin) as [x ->]. simpl.
  destruct (bool_decide (letter x = target)) eqn:Hl; simpl.
  - apply bool_decide_eq_true in Hl.
    destruct (bool_decide (lc ∈ ov_usedCells st)) eqn:Hu.
    + apply bool_decide_eq_true in Hu. exists false. split; [done|]. naive_solver.
    + apply bool_decide_eq_false in Hu. exists true. split; [done|]. naive_solver.
  - apply bool_decide_eq_false in Hl. exists false. split; [done|]. naive_solver.
Qed.

Section OverlayStep.

Variable random : nat → nat.
Variable solutionWord : string.
Variable cellToWords : gmap (Z * Z) (list nat).
Variable letterCells : list (Z * Z).

Hypothesis letterCells_inGrid : ∀ rc, rc ∈ letterCells → inGrid rc.1 rc.2.

(** One turn of the overlay loop never fails, and it does one of three
    things: it claims an unclaimed letter cell that holds the target letter;
    or, when no unclaimed letter cell holds it, it claims an unclaimed
    letter cell and overwrites its letter; or, when every letter cell is
    claimed, it does nothing. *)
Lemma overlayStep_effect (st : Overlay) (i : Z) (pos : nat) :
  wfGrid (ov_grid st) → 0 ≤ i < wlen solutionWord →
  ∃ st' pos' target,
    overlayStep random solutionWord cellToWords letterCells st i pos = Some (st', pos') ∧
    letterAt solutionWord i = Some target ∧
    ((∃ chosen, chosen ∈ letterCells ∧ (chosen ∉ ov_usedCells st) ∧
                holdsLetter (ov_grid st) chosen target ∧
                claimed st st' chosen i target false) ∨
     ((∀ lc, lc ∈ letterCells → lc ∉ ov_usedCells st →
             ¬ holdsLetter (ov_grid st) lc target) ∧
      ∃ chosen, chosen ∈ letterCells ∧ (chosen ∉ ov_usedCells st) ∧
                claimed st st' chosen i target true) ∨
     ((∀ lc, lc ∈ letterCells → lc ∈ ov_usedCells st) ∧ st' = st)).
Proof.
  intros Hwf Hi. unfold overlayStep.
  destruct (letterAt_is_Some solutionWord i Hi) as [a Ha].
  set (target := String a EmptyString) in *.
  rewrite (gen_bind_run _ _ _ _ _ (liftOpt_run _ _ pos Ha)).
  destruct (shuffle_spec random letterCells pos) as (shuffled & Hsh & Hperm).
  rewrite (gen_bind_run _ _ _ _ _ Hsh).
  destruct (filterOpt_total (strictCandidate cellToWords st target) shuffled)
    as [candidates Hcand].
  { intros lc Hlc. apply strictCandidate_total; [done|].
    apply letterCells_inGrid. by rewrite <- Hperm. }
  rewrite (gen_bind_run _ _ _ _ _ (liftOpt_run _ _ _ Hcand)).
  destruct candidates as [|chosen ?].
  - destruct (shuffle_spec random letterCells (pos + (length letterCells - 1)))
      as (shuffled' & Hsh' & Hperm').
    rewrite (gen_bind_run _ _ _ _ _ Hsh').
    destruct (filterOpt_total (fallbackCandidate st target) shuffled')
      as [fallbackCandidates Hfall].
    { intros lc Hlc.
      destruct (fallbackCandidate_spec st target lc Hwf) as (b & -> & _); [|by eexists].
      apply letterCells_inGrid. by rewrite <- Hperm'. }
    rewrite (gen_bind_run _ _ _ _ _ (liftOpt_run _ _ _ Hfall)).
    destruct fallbackCandidates as [|chosen ?].
    + assert (∀ lc, lc ∈ letterCells → lc ∉ ov_usedCells st →
                    ¬ holdsLetter (ov_grid st) lc target) as Hnomatch.
      { intros lc Hlc Hunused Hholds.
        destruct (fallbackCandidate_spec st target lc Hwf (letterCells_inGrid _ Hlc))
          as (b & Hb & Hiff).
        rewrite (filterOpt_nil _ _ lc Hfall) in Hb by (by rewrite Hperm').
        injection Hb as <-. by destruct Hiff as [_ Hiff]; specialize (Hiff (conj Hholds Hunused)). }
      destruct (find _ letterCells) as [anyCell|] eqn:Hfind.
      * apply find_some in Hfind as [Hin Hunused].
        apply list_elem_of_In in Hin.
        apply negb_true_iff, bool_decide_eq_false in Hunused.
        destruct (markSolutionCell_spec st anyCell i target Hwf (letterCells_inGrid _ Hin))
          as (st1 & Hst1 & Hclaimed & _).
        rewrite (gen_bind_run _ _ _ _ _ (liftOpt_run _ _ _ Hst1)).
        destruct (overwriteLetter_spec st st1 anyCell i target Hclaimed
                    (letterCells_inGrid _ Hin)) as (st' & Hst' & Hclaimed').
        rewrite (liftOpt_run _ _ _ Hst').
        eexists _, _, _. split; [done|]. split; [done|]. right; left.
        split; [done|]. by exists anyCell.
      * eexists _, _, _. split; [done|]. split; [done|]. right; right.
        split; [|done]. intros lc Hlc.
        apply list_elem_of_In in Hlc.
        pose proof (find_none _ _ Hfind lc Hlc) as Hused.
        apply negb_false_iff, bool_decide_eq_true in Hused. done.
    + destruct (filterOpt_elem_of _ _ _ chosen Hfall) as [Hin Htrue]; [set_solver|].
      rewrite Hperm' in Hin.
      destruct (fallbackCandidate_spec st target chosen Hwf (letterCells_inGrid _ Hin))
        as (b & Hb & Hiff).
      rewrite Htrue in Hb. injection Hb as <-.
      destruct Hiff as [Hiff _]. destruct (Hiff eq_refl) as [Hholds Hunused].
      destruct (markSolutionCell_spec st chosen i target Hwf (letterCells_inGrid _ Hin))
        as (st1 & Hst1 & Hclaimed & _).
      rewrite (gen_bind_run _ _ _ _ _ (liftOpt_run _ _ _ Hst1)).
      eexists _, _, _. split; [done|]. split; [done|]. left.
      exists chosen. by split; [|split; [|split]].
  - destruct (filterOpt_elem_of _ _ _ chosen Hcand) as [Hin Htrue]; [set_solver|].
    rewrite Hperm in Hin.
    apply strictCandidate_true in Htrue as [Hholds Hunused].
    destruct (markSolutionCell_spec st chosen i target Hwf (letterCells_inGrid _ Hin))
      as (st1 & Hst1 & Hclaimed & _).
    rewrite (gen_bind_run _ _ _ _ _ (liftOpt_run _ _ _ Hst1)).
    eexists _, _, _. split; [done|]. split; [done|]. left.
    exists chosen. by split; [|split; [|split]].
Qed.

End OverlayStep.

(** The state of the overlay after the letters of indices [seen], over the
    letter cells [lcs] and from the cell grid [cg0]. *)
Record overlayOK (solutionWord : string) (lcs : list (Z * Z)) (cg0 : list (list Cell))
    (seen : list Z) (st : Overlay) : Prop := mkOverlayOK {
  oo_wf : wfGrid (ov_grid st);
  oo_used : ov_usedCells st = list_to_set (scCell <$> ov_solutionCells st);
  oo_nodup : NoDup (scCell <$> ov_solutionCells st);
  oo_cells : ∀ e, e ∈ ov_solutionCells st → scCell e ∈ lcs;
  oo_marked : ∀ e, e ∈ ov_solutionCells st →
    ∃ x, cellAt (ov_grid st) (sc_row e) (sc_col e) = Some x ∧
         letterAt solutionWord (sc_index e) = Some (letter x) ∧
         isSolutionCell x = true ∧ solutionIndex x = Some (sc_index e);
  oo_untouched : ∀ r c, (r, c) ∉ ov_usedCells st →
    cellAt (ov_grid st) r c = cellAt cg0 r c;
  oo_frame : ∀ r c x, cellAt (ov_grid st) r c = Some x →
    ∃ x0, cellAt cg0 r c = Some x0 ∧ number x = number x0 ∧ isBlack x = isBlack x0;
  oo_sorted : StronglySorted Z.lt (sc_index <$> ov_solutionCells st);
  oo_indices : ∀ e, e ∈ ov_solutionCells st → sc_index e ∈ seen;
  oo_length : length (ov_solutionCells st) = (length seen `min` length lcs)%nat
}.

Lemma overlayOK_init solutionWord lcs cg0 :
  wfGrid cg0 → overlayOK solutionWord lcs cg0 [] (mkOverlay cg0 [] ∅ ∅).
Proof.
  intros Hwf. split; simpl; try done.
  - constructor.
  - intros e He. set_solver.
  - intros e He. set_solver.
  - intros r c x Hx. by exists x.
  - constructor.
  - intros e He. set_solver.
Qed.

Lemma overlayOK_claimed solutionWord lcs cg0 seen st st' chosen i target overwrite :
  NoDup lcs → (∀ j, j ∈ seen → j < i) →
  overlayOK solutionWord lcs cg0 seen st →
  letterAt solutionWord i = Some target →
  chosen ∈ lcs → chosen ∉ ov_usedCells st →
  (overwrite = false → holdsLetter (ov_grid st) chosen target) →
  claimed st st' chosen i target overwrite →
  overlayOK solutionWord lcs cg0 (seen ++ [i]) st'.
Proof.
  intros Hnd Hseen [Hwf Hused Hnodup Hcells Hmarked Huntouched Hframe Hsorted Hidx Hlen]
         Htarget Hin Hunused Hholds (Hwf' & Hsc & Hused' & (x & Hx & Hx') & Hother).
  assert (∀ e, e ∈ ov_solutionCells st → scCell e ≠ chosen) as Hold.
  { intros e He Heq. apply Hunused. rewrite Hused, <- Heq.
    apply elem_of_list_to_set, list_elem_of_fmap. by exists e. }
  assert (chosen ∉ scCell <$> ov_solutionCells st) as Hfresh.
  { intros H. apply list_elem_of_fmap in H as (e & -> & He). by apply (Hold e). }
  assert (scCell (mkSolutionCell chosen.1 chosen.2 i) = chosen) as Hnew
    by by destruct chosen.
  split.
  - done.
  - rewrite Hused', Hsc, fmap_app, list_to_set_app_L, Hused. simpl.
    rewrite Hnew. set_solver.
  - rewrite Hsc, fmap_app. apply NoDup_app. split; [done|]. split.
    + intros y Hy Hy'. simpl in Hy'. rewrite Hnew in Hy'.
      apply list_elem_of_singleton in Hy'. by subst y.
    + apply NoDup_singleton.
  - intros e He. rewrite Hsc in He. apply elem_of_app in He as [He|He]; [by apply Hcells|].
    apply list_elem_of_singleton in He as ->. by rewrite Hnew.
  - intros e He. rewrite Hsc in He. apply elem_of_app in He as [He|He].
    + rewrite Hother by (apply (Hold e He)). by apply Hmarked.
    + apply list_elem_of_singleton in He as ->. simpl. rewrite Hx'. eexists. split; [done|].
      destruct overwrite; simpl; [done|].
      destruct (Hholds eq_refl) as (y & Hy & Hletter). rewrite Hx in Hy.
      injection Hy as <-. by rewrite Hletter.
  - intros r c Hrc. rewrite Hused' in Hrc.
    rewrite Hother by set_solver. apply Huntouched. set_solver.
  - intros r c y Hy. destruct (decide ((r, c) = chosen)) as [<-|Hne].
    + simpl in *. rewrite Hx' in Hy. injection Hy as <-.
      destruct (Hframe r c x Hx) as (x0 & Hx0 & Hn & Hb). exists x0.
      by destruct overwrite.
    + rewrite Hother in Hy by done. by apply Hframe.
  - rewrite Hsc, fmap_app. apply StronglySorted_app. split; [|split; [done|]].
    + intros a b Ha Hb. apply list_elem_of_singleton in Hb as ->. simpl.
      apply list_elem_of_fmap in Ha as (e & -> & He). apply Hseen. by apply Hidx.
    + repeat constructor.
  - intros e He. rewrite Hsc in He. apply elem_of_app in He as [He|He].
    + apply elem_of_app. left. by apply Hidx.
    + apply list_elem_of_singleton in He as ->. set_solver.
  - rewrite Hsc, !length_app. simpl.
    assert (length (chosen :: (scCell <$> ov_solutionCells st)) ≤ length lcs)%nat as Hle.
    { apply submseteq_length, NoDup_submseteq; [by constructor|].
      intros y Hy. apply elem_of_cons in Hy as [->|Hy]; [done|].
      apply list_elem_of_fmap in Hy as (e & -> & He). by apply Hcells. }
    simpl in Hle. rewrite length_fmap in Hle. lia.
Qed.

Lemma overlayOK_full solutionWord lcs cg0 seen st i :
  NoDup lcs → overlayOK solutionWord lcs cg0 seen st →
  (∀ lc, lc ∈ lcs → lc ∈ ov_usedCells st) →
  overlayOK solutionWord lcs cg0 (seen ++ [i]) st.
Proof.
  intros Hnd [Hwf Hused Hnodup Hcells Hmarked Huntouched Hframe Hsorted Hidx Hlen] Hall.
  split; try done.
  - intros e He. apply elem_of_app. left. by apply Hidx.
  - rewrite length_app. simpl.
    assert (length lcs ≤ length (scCell <$> ov_solutionCells st))%nat as Hle.
    { apply submseteq_length, NoDup_submseteq; [done|].
      intros y Hy. apply Hall in Hy. rewrite Hused in Hy.
      by apply elem_of_list_to_set in Hy. }
    rewrite length_fmap in Hle. lia.
Qed.

(** The overlay loop never fails and ends in a state that obeys the
    invariant for every index of the solution word. *)
Lemma overlay_spec random solutionWord cellToWords lcs cg0 pos :
  wfGrid cg0 → NoDup lcs → (∀ rc, rc ∈ lcs → inGrid rc.1 rc.2) →
  ∃ st pos',
    forEach (seqZ 0 (wlen solutionWord)) (mkOverlay cg0 [] ∅ ∅)
            (overlayStep random solutionWord cellToWords lcs) pos = Some (st, pos') ∧
    overlayOK solutionWord lcs cg0 (seqZ 0 (wlen solutionWord)) st.
Proof.
  intros Hwf Hnd Hin.
  apply (forEach_gen_spec (overlayOK solutionWord lcs cg0) _ _ []).
  - by apply overlayOK_init.
  - intros seen i rest st pos1 Heq Hst. simpl in Heq.
    assert (0 ≤ i < wlen solutionWord) as Hi.
    { assert (i ∈ seqZ 0 (wlen solutionWord)) as H by (rewrite Heq; set_solver).
      apply elem_of_seqZ in H. lia. }
    assert (∀ j, j ∈ seen → j < i) as Hseen.
    { intros j Hj. pose proof (StronglySorted_seqZ 0 (wlen solutionWord)) as Hs.
      rewrite Heq in Hs. eapply StronglySorted_app_1_elem_of; [done|done|set_solver]. }
    destruct (overlayStep_effect random solutionWord cellToWords lcs Hin st i pos1
                (oo_wf _ _ _ _ _ Hst) Hi)
      as (st' & pos' & target & Hstep & Htarget & Heffect).
    exists st', pos'. split; [done|].
    destruct Heffect as [(chosen & Hc & Hu & Hh & Hcl)|[(_ & chosen & Hc & Hu & Hcl)|[Hall ->]]].
    + by apply (overlayOK_claimed solutionWord lcs cg0 seen st st' chosen i target false).
    + by apply (overlayOK_claimed solutionWord lcs cg0 seen st st' chosen i target true).
    + by apply overlayOK_full.
Qed.

(** ** The generator as a whole *)

Lemma geometryOK_withPwNumber n pw : geometryOK (withPwNumber n pw) ↔ geometryOK pw.
Proof. done. Qed.

Lemma layoutOK_geometry g placed : layoutOK g placed → Forall geometryOK placed.
Proof.
  intros Hok. apply Forall_forall. intros pw Hpw. split.
  - by eapply lo_fits.
  - by eapply lo_start.
Qed.

Lemma numberClues_geometry placed : Forall geometryOK placed → Forall geometryOK (numberClues placed).
Proof.
  intros Hgeo. rewrite <- sortPlaced_perm in Hgeo.
  pose proof (numberClues_spec placed) as H2.
  apply Forall_lookup. intros i b Hb.
  destruct (Forall2_lookup_r _ _ _ _ _ H2 Hb) as (a & Ha & ->).
  apply geometryOK_withPwNumber. rewrite Forall_lookup in Hgeo. by eapply Hgeo.
Qed.

Lemma attemptStep_spec random wordPool best attempt pos :
  layoutOK best.2 best.1 →
  ∃ best' pos', attemptStep random wordPool best attempt pos = Some (best', pos') ∧
                layoutOK best'.2 best'.1.
Proof.
  intros Hbest. unfold attemptStep.
  destruct (shuffle_spec random wordPool pos) as (shuffledPool & Hsh & _).
  rewrite (gen_bind_run _ _ _ _ _ Hsh).
  destruct (runAttempt_spec shuffledPool) as (g & placed & Hrun & Hok).
  rewrite (gen_bind_run _ _ _ _ _ (liftOpt_run _ _ _ Hrun)).
  destruct (Z.of_nat (length placed) >? Z.of_nat (length best.1)); eexists _, _; done.
Qed.

(** What links a puzzle to the intermediate values of its generation: the
    layout of the best attempt, the cell grid with its clue references and
    the final state of the overlay. *)
Definition generatedBy (p : Puzzle) (bestGrid : list (list string))
    (placed0 : list PlacedWord) (cg : list (list Cell)) (st : Overlay) : Prop :=
  layoutOK bestGrid placed0 ∧
  placedWords p = numberClues placed0 ∧
  gridCells (clueCell bestGrid (placedWords p)) cg ∧
  overlayOK (solutionWord p) (filter (λ rc, isLetterCell cg rc = true) allCells) cg
            (seqZ 0 (wlen (solutionWord p))) st ∧
  grid p = ov_grid st ∧
  solutionCells p = ov_solutionCells st.

(** With a solution word to pick, the generator returns a puzzle: no index
    is out of bounds on the way. *)
Lemma generatePuzzle_spec random wordPool solutionWords pos :
  solutionWords ≠ [] →
  ∃ p pos' bestGrid placed0 cg st,
    generatePuzzle random wordPool solutionWords pos = Some (p, pos') ∧
    solutionWord p ∈ solutionWords ∧
    generatedBy p bestGrid placed0 cg st.
Proof.
  intros Hsols. unfold generatePuzzle.
  destruct (randomBelow_spec random (length solutionWords) pos) as (k & Hk & Hlt).
  rewrite (gen_bind_run _ _ _ _ _ Hk).
  destruct (lookup_lt_is_Some_2 solutionWords k) as [sw Hsw].
  { apply Hlt. destruct solutionWords; simpl; [done|lia]. }
  rewrite (gen_bind_run _ _ _ _ _ (liftOpt_run _ _ _ Hsw)).
  destruct (forEach_gen_total (λ best : list PlacedWord * list (list string),
                                 layoutOK best.2 best.1)
              (attemptStep random wordPool) (seqZ 0 8) ([], createEmptyGrid) (S pos))
    as ([placed0 bestGrid] & pos1 & Hloop & Hok).
  { apply layoutOK_empty. }
  { intros attempt best pos2 _ Hbest. by apply attemptStep_spec. }
  rewrite (gen_bind_run _ _ _ _ _ Hloop). simpl in Hok |- *.
  destruct (buildCellGrid_spec bestGrid (lo_wf _ _ Hok)) as (cg0 & Hcg0 & Hcells0).
  rewrite (gen_bind_run _ _ _ _ _ (liftOpt_run _ _ _ Hcg0)).
  destruct (setAllClueRefs_spec bestGrid cg0 (numberClues placed0) Hcells0)
    as (cg & Hcg & Hcells).
  { by apply numberClues_geometry, (layoutOK_geometry bestGrid). }
  rewrite (gen_bind_run _ _ _ _ _ (liftOpt_run _ _ _ Hcg)).
  pose proof (collectLetterCells_spec cg (proj1 Hcells)) as Hlcs.
  rewrite (gen_bind_run _ _ _ _ _ (liftOpt_run _ _ _ Hlcs)).
  destruct (overlay_spec random sw (buildCellToWords (numberClues placed0))
              (filter (λ rc, isLetterCell cg rc = true) allCells) cg pos1 (proj1 Hcells))
    as (st & pos' & Hov & Hst).
  { apply NoDup_filter, NoDup_allCells. }
  { intros rc Hrc. apply list_elem_of_filter in Hrc as [_ Hrc]. by apply elem_of_allCells. }
  rewrite (gen_bind_run _ _ _ _ _ Hov).
  eexists _, pos', bestGrid, placed0, cg, st. split; [done|]. split.
  - simpl. by eapply list_elem_of_lookup_2.
  - done.
Qed.

(** ** Dependence on the random draws *)

(** Two streams of draws agree on the positions from [lo] up to [hi]. *)
Definition agree (random1 random2 : nat → nat) (lo hi : nat) : Prop :=
  ∀ k, (lo ≤ k < hi)%nat → random1 k = random2 k.

(** Whatever [m1] returns, reading positions [pos .. pos' - 1] of the first
    stream, [m2] returns as well when the second stream agrees there. *)
Definition stable {A} (random1 random2 : nat → nat) (m1 m2 : Gen A) : Prop :=
  ∀ pos a pos', m1 pos = Some (a, pos') →
    (pos ≤ pos')%nat ∧ (agree random1 random2 pos pos' → m2 pos = Some (a, pos')).

Section Stable.

Variables random1 random2 : nat → nat.

Lemma stable_ret {A} (a : A) : stable random1 random2 (mret a) (mret a).
Proof. intros pos b pos' [= <- <-]. done. Qed.

Lemma stable_liftOpt {A} (o : option A) : stable random1 random2 (liftOpt o) (liftOpt o).
Proof. intros pos b pos' H. destruct o; simplify_eq/=. done. Qed.

Lemma stable_bind {A B} (m1 m2 : Gen A) (f1 f2 : A → Gen B) :
  stable random1 random2 m1 m2 → (∀ a, stable random1 random2 (f1 a) (f2 a)) →
  stable random1 random2 (m1 ≫= f1) (m2 ≫= f2).
Proof.
  intros Hm Hf pos b pos' H. apply gen_bind_Some in H as (a & pos1 & H1 & H2).
  destruct (Hm _ _ _ H1) as [Hle1 Hm2]. destruct (Hf a _ _ _ H2) as [Hle2 Hf2].
  split; [lia|]. intros Hag.
  rewrite (gen_bind_run m2 f2 pos a pos1).
  - apply Hf2. intros k Hk. apply Hag. lia.
  - apply Hm2. intros k Hk. apply Hag. lia.
Qed.

Lemma stable_randomBelow (n : nat) :
  stable random1 random2 (randomBelow random1 n) (randomBelow random2 n).
Proof.
  intros pos k pos'. unfold randomBelow. intros [= <- <-]. split; [lia|].
  intros Hag. rewrite (Hag pos) by lia. done.
Qed.

Lemma stable_forEach {A S} (f1 f2 : S → A → Gen S) (l : list A) (s : S) :
  (∀ s x, stable random1 random2 (f1 s x) (f2 s x)) →
  stable random1 random2 (forEach l s f1) (forEach l s f2).
Proof.
  intros Hf. revert s. induction l as [|x l IH]; intros s; simpl.
  - apply stable_ret.
  - apply stable_bind; [apply Hf|]. intros s'. apply IH.
Qed.

Lemma stable_shuffleLoop {T} (i : nat) (a : list T) :
  stable random1 random2 (shuffleLoop random1 i a) (shuffleLoop random2 i a).
Proof.
  revert a. induction i as [|i IH]; intros a; simpl.
  - apply stable_ret.
  - apply stable_bind; [apply stable_randomBelow|]. intros j.
    apply stable_bind; [apply stable_liftOpt|]. intros a'. apply IH.
Qed.

Lemma stable_shuffle {T} (arr : list T) :
  stable random1 random2 (shuffle random1 arr) (shuffle random2 arr).
Proof. apply stable_shuffleLoop. Qed.

Lemma stable_attemptStep wordPool best attempt :
  stable random1 random2 (attemptStep random1 wordPool best attempt)
                         (attemptStep random2 wordPool best attempt).
Proof.
  unfold attemptStep. apply stable_bind; [apply stable_shuffle|]. intros shuffledPool.
  apply stable_bind; [apply stable_liftOpt|]. intros [g placed].
  destruct (Z.of_nat (length placed) >? Z.of_nat (length best.1)); apply stable_ret.
Qed.

Lemma stable_overlayStep solutionWord cellToWords letterCells st i :
  stable random1 random2
    (overlayStep random1 solutionWord cellToWords letterCells st i)
    (overlayStep random2 solutionWord cellToWords letterCells st i).
Proof.
  unfold overlayStep. apply stable_bind; [apply stable_liftOpt|]. intros target.
  apply stable_bind; [apply stable_shuffle|]. intros shuffled.
  apply stable_bind; [apply stable_liftOpt|]. intros candidates.
  destruct candidates as [|chosen ?].
  - apply stable_bind; [apply stable_shuffle|]. intros shuffled'.
    apply stable_bind; [apply stable_liftOpt|]. intros fallbackCandidates.
    destruct fallbackCandidates as [|chosen ?].
    + destruct (find _ letterCells) as [anyCell|].
      * apply stable_bind; [apply stable_liftOpt|]. intros st'. apply stable_liftOpt.
      * apply stable_ret.
    + apply stable_bind; [apply stable_liftOpt|]. intros st'. apply stable_ret.
  - apply stable_bind; [apply stable_liftOpt|]. intros st'. apply stable_ret.
Qed.

(** The puzzle depends on the stream of draws only through the draws the
    run reads. *)
Lemma stable_generatePuzzle wordPool solutionWords :
  stable random1 random2 (generatePuzzle random1 wordPool solutionWords)
                         (generatePuzzle random2 wordPool solutionWords).
Proof.
  unfold generatePuzzle. apply stable_bind; [apply stable_randomBelow|]. intros k.
  apply stable_bind; [apply stable_liftOpt|]. intros solutionWord.
  apply stable_bind; [apply stable_forEach; intros; apply stable_attemptStep|].
  intros best.
  apply stable_bind; [apply stable_liftOpt|]. intros cellGrid0.
  apply stable_bind; [apply stable_liftOpt|]. intros cellGrid.
  apply stable_bind; [apply stable_liftOpt|]. intros letterCells.
  apply stable_bind; [apply stable_forEach; intros; apply stable_overlayStep|].
  intros st. apply stable_ret.
Qed.

End Stable.

(** * Worked examples *)

Definition entry (w : string) : WordEntry :=
  mkWordEntry w ("clue: " ++ w)%string "demo"%string.

Definition demoPool : list WordEntry :=
  entry <$> ["HELLO"; "WORLD"; "LOW"; "OWL"%string; "DOLL"; "ROLE"]%string.

Definition demoSolutionWords : list string := ["OLD"; "XY"]%string.

(** A stream whose draws are all [0]: every shuffle step exchanges the
    current element with the first one. *)
Definition zeroDraws : nat → nat := λ _, 0%nat.

Definition demoRun : option (Puzzle * nat) :=
  Eval vm_compute in generatePuzzle zeroDraws demoPool demoSolutionWords 0%nat.

Definition demoPuzzle : Puzzle :=
  Eval vm_compute in match demoRun with Some (p, _) => p | None => mkPuzzle [] [] ""%string [] end.

Definition demoEnd : nat :=
  Eval vm_compute in match demoRun with Some (_, n) => n | None => 0%nat end.

Lemma demoRun_eq :
  generatePuzzle zeroDraws demoPool demoSolutionWords 0%nat = Some (demoPuzzle, demoEnd).
Proof. vm_compute. reflexivity. Qed.

(** The grid holding the single word WORLD, across, centred. *)
Definition worldGrid : list (list string) :=
  Eval vm_compute in
    default createEmptyGrid (placeWord createEmptyGrid "WORLD"%string 7 5 across).

Definition worldPlaced : list PlacedWord :=
  [mkPlacedWord "WORLD"%string "clue: WORLD"%string 7 5 across 0].

Lemma worldGrid_wf : wfGrid worldGrid.
Proof. split; [reflexivity|]. repeat constructor. Qed.

(** * Main theorems *)

(** C1. [canPlaceWord] returns [true] if and only if the placement is
    legal: the word fits inside the 15x15 grid in its orientation; the cells
    just before its start and just after its end along its axis are empty or
    off the grid; at every position, a target cell that holds a letter holds
    the word's letter, is not occupied by a word of the same orientation and
    is occupied by a word of the perpendicular one (an intersection), and an
    empty target cell has both its neighbours along the perpendicular axis
    empty or off the grid; and there is at least one intersection whenever
    the placed list is not empty. *)
Theorem canPlaceWord_iff_legal (g : list (list string)) (word : string) (row col : Z)
    (d : direction) (placed : list PlacedWord) (occupied : OccupiedMap) :
  wfGrid g →
  canPlaceWord g word row col d placed occupied = Some true
  ↔ legalPlacement g word row col d placed occupied.
Proof.
  intros Hwf. split.
  - (* accepted: the reads that succeeded put the word inside the grid *)
    intros Htrue.
    pose proof (canPlaceWord_true_fits g word row col d placed occupied Hwf Htrue) as Hfits.
    destruct (canPlaceWord_fits_result g word row col d placed occupied Hwf Hfits)
      as (b & Hb & Hrules).
    assert (b = true) as -> by congruence.
    split; [exact Hfits|]. by apply Hrules.
  - (* legal: inside the grid every read succeeds and every test passes *)
    intros (Hfits & Hrest).
    destruct (canPlaceWord_fits_result g word row col d placed occupied Hwf Hfits)
      as (b & Hb & Hrules).
    rewrite Hb. f_equal. by apply Hrules.
Qed.

Lemma canPlaceWord_iff_legal_witness :
  wfGrid worldGrid ∧
  (canPlaceWord worldGrid "OWL"%string 7 6 down worldPlaced (getOccupied worldPlaced) = Some true
   ↔ legalPlacement worldGrid "OWL"%string 7 6 down worldPlaced (getOccupied worldPlaced)).
Proof.
  split; [apply worldGrid_wf|].
  apply (canPlaceWord_iff_legal worldGrid "OWL"%string 7 6 down worldPlaced
           (getOccupied worldPlaced)).
  apply worldGrid_wf.
Defined.

(** The crossing of the example is accepted, a parallel neighbour is not. *)
Example canPlaceWord_accepts_crossing :
  canPlaceWord worldGrid "OWL"%string 7 6 down worldPlaced (getOccupied worldPlaced) = Some true.
Proof. vm_compute. reflexivity. Qed.

Example canPlaceWord_rejects_neighbour :
  canPlaceWord worldGrid "OWL"%string 8 5 across worldPlaced (getOccupied worldPlaced) = Some false.
Proof. vm_compute. reflexivity. Qed.

(** For words with at least one letter, fitting in the grid is the same as
    having every letter on a cell of the grid. *)
Lemma fitsInGrid_iff_cells word row col d :
  0 < wlen word →
  fitsInGrid word row col d
  ↔ ∀ i, 0 ≤ i < wlen word → inGrid (cellOf d row col i).1 (cellOf d row col i).2.
Proof.
  intros Hlen. split.
  - intros Hfits i Hi. by apply (fitsInGrid_cells word).
  - intros Hcells. pose proof (Hcells 0 ltac:(lia)) as H0.
    pose proof (Hcells (wlen word - 1) ltac:(lia)) as H1.
    destruct d; unfold fitsInGrid, inGrid, GRID_SIZE in *; simpl in *; lia.
Qed.

(** C5. A candidate that passes the legality check is scored ten times its
    number of intersections, minus one half of the sum of the absolute row
    and column offsets of the word's centre from row 7 and column 7. *)
Theorem score_of_legal_candidate (g : list (list string)) (word : string) (r c : Z)
    (d : direction) (placed : list PlacedWord) (occupied : OccupiedMap) :
  wfGrid g →
  canPlaceWord g word r c d placed occupied = Some true →
  ∃ q, placementScore g word r c d = Some q ∧
       (q == 10 * inject_Z (intersections g word r c d)
             - (1 # 2) * (Qabs (rowCenterOffset word r d) + Qabs (colCenterOffset word c d)))%Q.
Proof.
  intros Hwf Hcan. apply canPlaceWord_spec in Hcan; [|done].
  by apply (placementScore_legal g word r c d placed occupied).
Qed.

Lemma score_of_legal_candidate_witness :
  ∃ q, placementScore worldGrid "OWL"%string 7 6 down = Some q ∧
       (q == 10 * inject_Z (intersections worldGrid "OWL"%string 7 6 down)
             - (1 # 2) * (Qabs (rowCenterOffset "OWL"%string 7 down)
                          + Qabs (colCenterOffset "OWL"%string 6 down)))%Q.
Proof.
  apply (score_of_legal_candidate worldGrid "OWL"%string 7 6 down worldPlaced
           (getOccupied worldPlaced)).
  - apply worldGrid_wf.
  - vm_compute. reflexivity.
Defined.

(** The score of the example: one intersection, centre one and a half rows
    below the middle and one column left of it. *)
Example score_example :
  (placementScore worldGrid "OWL"%string 7 6 down) = Some (0 + 10 - (Qabs (7 + 3 / 2 - 7) + Qabs (6 - 7)) * (1 # 2))%Q.
Proof. vm_compute. reflexivity. Qed.

(** C6, as amended. For every word the placement loop reaches while fewer
    than 28 words are placed: [findBestPlacement] returns the first legal
    placement attaining the maximum score in scan order (across before down,
    rows ascending, columns ascending), or nothing when no placement is
    legal; the word is committed to the grid and to the placed list exactly
    when that placement exists and its score is positive, and otherwise the
    grid and the placed list are unchanged.  Once 28 words are placed the
    loop stops and the remaining words are not examined. *)
Theorem placement_step (g : list (list string)) (placed : list PlacedWord)
    (e : WordEntry) (rest : list WordEntry) :
  wfGrid g →
  ∃ best,
    findBestPlacement g (we_word e) placed (getOccupied placed) = Some best ∧
    bestOf g (we_word e) placed (getOccupied placed) (scanOrder (we_word e)) best ∧
    match best with
    | Some p =>
        ((0 < pl_score p)%Q →
         ∃ g', placeWord g (we_word e) (pl_row p) (pl_col p) (pl_direction p) = Some g' ∧
               placeNext e g placed
               = Some (g', placed ++ [mkPlacedWord (we_word e) (we_clue e)
                                                   (pl_row p) (pl_col p) (pl_direction p) 0])) ∧
        (¬ (0 < pl_score p)%Q → placeNext e g placed = Some (g, placed))
    | None => placeNext e g placed = Some (g, placed)
    end ∧
    (Z.of_nat (length placed) < 28 →
     placeRest (e :: rest) g placed
     = '(g', placed') ← placeNext e g placed; placeRest rest g' placed') ∧
    (28 ≤ Z.of_nat (length placed) → placeRest (e :: rest) g placed = Some (g, placed)).
Proof.
  intros Hwf.
  destruct (findBestPlacement_total g (we_word e) placed (getOccupied placed) Hwf)
    as [best Hbest].
  exists best. split; [done|].
  pose proof (findBestPlacement_bestOf _ _ _ _ _ Hbest) as Hof.
  split; [done|]. split; [|split].
  - unfold placeNext. rewrite Hbest. simpl. destruct best as [p|]; [|done].
    destruct Hof as (_ & Hlegal & _).
    apply canPlaceWord_spec in Hlegal; [|done].
    destruct (placeWord_spec g (we_word e) (pl_row p) (pl_col p) (pl_direction p) Hwf)
      as (g' & Hg' & _); [apply Hlegal|].
    split.
    + intros Hpos. apply Qgtb_true in Hpos. rewrite Hpos, Hg'. simpl. by exists g'.
    + intros Hneg. destruct (Qgtb (pl_score p) 0) eqn:Hgt; [|done].
      apply Qgtb_true in Hgt. done.
  - intros Hlt. simpl. by rewrite (proj2 (Z.ltb_lt _ _) Hlt).
  - intros Hge. simpl. by rewrite (proj2 (Z.ltb_ge _ _) Hge).
Qed.

Lemma placement_step_witness :
  ∃ best,
    findBestPlacement worldGrid "OWL"%string worldPlaced (getOccupied worldPlaced) = Some best ∧
    bestOf worldGrid "OWL"%string worldPlaced (getOccupied worldPlaced)
           (scanOrder "OWL"%string) best.
Proof.
  destruct (placement_step worldGrid worldPlaced (entry "OWL"%string) [] worldGrid_wf)
    as (best & Hbest & Hof & _).
  exists best. split; [exact Hbest|exact Hof].
Defined.

(** The placement found for OWL on the example grid: down from row 5 in
    column 8, ending on the L of WORLD, with score 10 - (0.5 + 1) / 2. *)
Example findBestPlacement_example :
  findBestPlacement worldGrid "OWL"%string worldPlaced (getOccupied worldPlaced)
  = Some (Some (mkPlacement 5 8 down (37 # 4))).
Proof. vm_compute. reflexivity. Qed.

(** A pool that fills the grid up to the cap of 28 words. *)
Definition capPool : list WordEntry :=
  entry <$> ["STREETLANTERNS"; "SET"; "TEN"; "RAT"; "EAR"; "ERA"; "TAN"; "LET"; "ANT";
             "NET"; "TEA"; "EAT"; "RAN"; "NAT"; "SEA"; "ARE"; "ATE"; "TAR"; "ART"; "SAT";
             "EEL"; "LEE"; "TEE"; "SEE"; "ALE"; "LEA"; "EAST"; "SEAT"; "NEAT"; "RATE";
             "TEAR"; "LATE"]%string.

Definition capEntry : WordEntry := entry "TALE"%string.

Definition capGrid : list (list string) :=
  Eval vm_compute in
    match runAttempt capPool with Some (g, _) => g | None => [] end.

Definition capPlaced : list PlacedWord :=
  Eval vm_compute in
    match runAttempt capPool with Some (_, placed) => placed | None => [] end.

Definition capBest : Placement :=
  Eval vm_compute in
    match findBestPlacement capGrid (we_word capEntry) capPlaced (getOccupied capPlaced) with
    | Some (Some p) => p
    | _ => mkPlacement 0 0 across 0
    end.

(** C6, as stated, fails at the cap: in the attempt on [capPool] followed by
    TALE, 28 words are placed when the turn of TALE comes; TALE has a best
    placement of positive score on that grid, yet the loop leaves the grid
    and the placed list as they are. *)
Lemma placement_cap_counterexample :
  runAttempt capPool = Some (capGrid, capPlaced) ∧
  runAttempt (capPool ++ [capEntry]) = Some (capGrid, capPlaced) ∧
  length capPlaced = 28%nat ∧
  findBestPlacement capGrid (we_word capEntry) capPlaced (getOccupied capPlaced)
  = Some (Some capBest) ∧
  (0 < pl_score capBest)%Q ∧
  placeRest [capEntry] capGrid capPlaced = Some (capGrid, capPlaced) ∧
  ¬ (∃ pw, pw ∈ capPlaced ∧ pw_word pw = we_word capEntry).
Proof.
  split; [vm_compute; reflexivity|]. split; [vm_compute; reflexivity|].
  split; [vm_compute; reflexivity|]. split; [vm_compute; reflexivity|].
  split; [vm_compute; reflexivity|]. split; [vm_compute; reflexivity|].
  intros (pw & Hin & Hw).
  assert (Forall (λ pw, pw_word pw ≠ we_word capEntry) capPlaced) as HF.
  { unfold capPlaced. repeat (constructor; [by vm_compute|]). constructor. }
  rewrite Forall_forall in HF. by apply (HF pw).
Qed.

(** ** Legality of the placed words *)

(** Two cells are next to each other in a row or in a column. *)
Definition adjacentCells (a b : Z * Z) : Prop :=
  Z.abs (a.1 - b.1) + Z.abs (a.2 - b.2) = 1.

(** The cell of the [i]-th letter of a placed word. *)
Definition pwCell (pw : PlacedWord) (i : Z) : Z * Z :=
  cellOf (pw_direction pw) (pw_row pw) (pw_col pw) i.

(** The three rules of a legal crossword, on the list of placed words. *)
Definition legalCrossword (l : list PlacedWord) : Prop :=
  (* two distinct words that meet on a cell are perpendicular and agree on
     its letter *)
  (∀ i j a b ia ib,
     l !! i = Some a → l !! j = Some b → i ≠ j →
     0 ≤ ia < wlen (pw_word a) → 0 ≤ ib < wlen (pw_word b) →
     pwCell a ia = pwCell b ib →
     pw_direction a ≠ pw_direction b ∧
     letterAt (pw_word a) ia = letterAt (pw_word b) ib) ∧
  (* two parallel words on adjacent cells are crossed there by a word of the
     other orientation *)
  (∀ i j a b rc1 rc2,
     l !! i = Some a → l !! j = Some b → i ≠ j →
     pw_direction a = pw_direction b →
     covers a rc1 → covers b rc2 → adjacentCells rc1 rc2 →
     ∃ c, c ∈ l ∧ pw_direction c = otherDir (pw_direction a) ∧
          covers c rc1 ∧ covers c rc2) ∧
  (* no cell is covered by two across words or by two down words *)
  (∀ i j a b rc,
     l !! i = Some a → l !! j = Some b → i ≠ j →
     pw_direction a = pw_direction b → covers a rc → covers b rc → False).

Lemma adjacentCells_next a b :
  adjacentCells a b → ∃ d, b = nextCell d a ∨ a = nextCell d b.
Proof.
  destruct a as [r c], b as [r' c']. unfold adjacentCells, nextCell. simpl. intros H.
  destruct (decide (r = r')) as [->|Hr].
  - exists across. simpl. destruct (decide (c' = c + 1)); [left; congruence|].
    right. f_equal. lia.
  - exists down. simpl. destruct (decide (r' = r + 1)) as [->|].
    + left. f_equal. lia.
    + right. f_equal; lia.
Qed.

Lemma layoutOK_covers_filled g placed pw rc :
  layoutOK g placed → pw ∈ placed → covers pw rc → cellFilled g rc.
Proof.
  intros Hok Hpw (i & Hi & <-).
  apply (cellFilled_letter g (pw_word pw) i); [|done]. by apply (lo_letters g placed).
Qed.

(** A layout that obeys the invariant is a legal crossword. *)
Lemma layoutOK_legal g placed : layoutOK g placed → legalCrossword placed.
Proof.
  intros Hok. split; [|split].
  - intros i j a b ia ib Ha Hb Hne Hia Hib Hcell.
    pose proof (list_elem_of_lookup_2 _ _ _ Ha) as Hain.
    pose proof (list_elem_of_lookup_2 _ _ _ Hb) as Hbin.
    split.
    + intros Hd. apply Hne.
      apply (lo_single g placed Hok i j a b (pwCell a ia)); [done|done|done| |].
      * by exists ia.
      * exists ib. split; [done|]. by rewrite Hcell.
    + rewrite <- (lo_letters g placed Hok a ia Hain Hia).
      rewrite <- (lo_letters g placed Hok b ib Hbin Hib).
      fold (pwCell a ia). fold (pwCell b ib). by rewrite Hcell.
  - intros i j a b rc1 rc2 Ha Hb Hne Hd Hc1 Hc2 Hadj.
    pose proof (list_elem_of_lookup_2 _ _ _ Ha) as Hain.
    pose proof (list_elem_of_lookup_2 _ _ _ Hb) as Hbin.
    pose proof (layoutOK_covers_filled g placed a rc1 Hok Hain Hc1) as Hf1.
    pose proof (layoutOK_covers_filled g placed b rc2 Hok Hbin Hc2) as Hf2.
    assert (∃ d c, c ∈ placed ∧ pw_direction c = d ∧ covers c rc1 ∧ covers c rc2)
      as (d & c & Hcin & Hcd & Hcc1 & Hcc2).
    { destruct (adjacentCells_next rc1 rc2 Hadj) as (d & [->| ->]).
      - destruct (lo_adjacent g placed Hok d rc1 Hf1 Hf2) as (c & ? & ? & ? & ?).
        by exists d, c.
      - destruct (lo_adjacent g placed Hok d rc2 Hf2 Hf1) as (c & ? & ? & ? & ?).
        by exists d, c. }
    exists c. split; [done|]. split; [|done].
    destruct (decide (d = pw_direction a)) as [Heq|Hneq].
    + exfalso. apply list_elem_of_lookup in Hcin as [k Hk]. apply Hne.
      assert (k = i) as <-.
      { apply (lo_single g placed Hok k i c a rc1); [done|done|congruence|done|done]. }
      apply (lo_single g placed Hok k j c b rc2); [done|done|congruence|done|done].
    + rewrite Hcd. destruct d, (pw_direction a); done.
  - intros i j a b rc Ha Hb Hne Hd Hc1 Hc2. apply Hne.
    by apply (lo_single g placed Hok i j a b rc).
Qed.

(** The words of the result correspond, position by position and up to
    their numbers, to the words of the best attempt. *)
Lemma numberClues_positions (placed : list PlacedWord) :
  ∃ f : nat → nat, Inj (=) (=) f ∧
    (∀ i b, numberClues placed !! i = Some b →
            ∃ a, placed !! f i = Some a ∧ b = withPwNumber (pw_number b) a) ∧
    (∀ a, a ∈ placed → ∃ b, b ∈ numberClues placed ∧ b = withPwNumber (pw_number b) a).
Proof.
  destruct (proj1 (Permutation_inj _ _) (sortPlaced_perm placed)) as (_ & f & Hinj & Hf).
  pose proof (numberClues_spec placed) as H2.
  exists f. split; [done|]. split.
  - intros i b Hb. destruct (Forall2_lookup_r _ _ _ _ _ H2 Hb) as (a & Ha & ->).
    exists a. split; [by rewrite <- Hf|done].
  - intros a Ha. rewrite <- sortPlaced_perm in Ha.
    apply list_elem_of_lookup in Ha as [k Hk].
    destruct (Forall2_lookup_l _ _ _ _ _ H2 Hk) as (b & Hb & ->).
    eexists. split; [by eapply list_elem_of_lookup_2|done].
Qed.

Lemma legalCrossword_numberClues placed :
  legalCrossword placed → legalCrossword (numberClues placed).
Proof.
  intros (H1 & H2 & H3).
  destruct (numberClues_positions placed) as (f & Hinj & Hpos & Hback).
  split; [|split].
  - intros i j a b ia ib Ha Hb Hne Hia Hib Hcell.
    destruct (Hpos i a Ha) as (a0 & Ha0 & Hae). destruct (Hpos j b Hb) as (b0 & Hb0 & Hbe).
    rewrite Hae, Hbe in *.
    apply (H1 (f i) (f j) a0 b0 ia ib); try done. intros Heq. by apply Hinj in Heq.
  - intros i j a b rc1 rc2 Ha Hb Hne Hd Hc1 Hc2 Hadj.
    destruct (Hpos i a Ha) as (a0 & Ha0 & Hae). destruct (Hpos j b Hb) as (b0 & Hb0 & Hbe).
    rewrite Hae, Hbe in *.
    destruct (H2 (f i) (f j) a0 b0 rc1 rc2) as (c0 & Hc0 & Hcd & Hcc1 & Hcc2); try done.
    { intros Heq. by apply Hinj in Heq. }
    destruct (Hback c0 Hc0) as (c & Hc & Hce).
    exists c. split; [done|]. rewrite Hce. done.
  - intros i j a b rc Ha Hb Hne Hd Hc1 Hc2.
    destruct (Hpos i a Ha) as (a0 & Ha0 & Hae). destruct (Hpos j b Hb) as (b0 & Hb0 & Hbe).
    rewrite Hae, Hbe in *.
    apply (H3 (f i) (f j) a0 b0 rc); try done. intros Heq. by apply Hinj in Heq.
Qed.

(** A puzzle returned by the generator comes with the intermediate values
    of its generation. *)
Lemma generatePuzzle_generatedBy random wordPool solutionWords pos p pos' :
  generatePuzzle random wordPool solutionWords pos = Some (p, pos') →
  ∃ bestGrid placed0 cg st, generatedBy p bestGrid placed0 cg st.
Proof.
  intros H.
  assert (solutionWords ≠ []) as Hsols.
  { intros ->. unfold generatePuzzle in H.
    apply gen_bind_Some in H as (k & pos1 & _ & H).
    apply gen_bind_Some in H as (sw & pos2 & H & _).
    by rewrite lookup_nil in H. }
  destruct (generatePuzzle_spec random wordPool solutionWords pos Hsols)
    as (p0 & pos0 & bestGrid & placed0 & cg & st & Hrun & _ & Hgen).
  rewrite H in Hrun. injection Hrun as <- <-. by exists bestGrid, placed0, cg, st.
Qed.

(** C2. In every puzzle returned by [generatePuzzle], two distinct placed
    words that share a cell are perpendicular and agree on the letter of
    that cell; two parallel words that occupy adjacent cells are crossed on
    those cells by a word of the other orientation; and no cell is covered
    by two across words or by two down words. *)
Theorem generated_crossword_legal (random : nat → nat) (wordPool : list WordEntry)
    (solutionWords : list string) (pos : nat) (p : Puzzle) (pos' : nat) :
  generatePuzzle random wordPool solutionWords pos = Some (p, pos') →
  legalCrossword (placedWords p).
Proof.
  intros H.
  destruct (generatePuzzle_generatedBy _ _ _ _ _ _ H)
    as (bestGrid & placed0 & cg & st & Hok & Hplaced & _).
  rewrite Hplaced. by apply legalCrossword_numberClues, (layoutOK_legal bestGrid).
Qed.

Lemma generated_crossword_legal_witness : legalCrossword (placedWords demoPuzzle).
Proof.
  apply (generated_crossword_legal zeroDraws demoPool demoSolutionWords 0%nat
           demoPuzzle demoEnd).
  vm_compute. reflexivity.
Defined.

(** ** The solution cells of a generated puzzle *)

Lemma filter_ext_in {A} (P1 P2 : A → Prop) `{!∀ x, Decision (P1 x), !∀ x, Decision (P2 x)}
    (l : list A) :
  (∀ x, x ∈ l → (P1 x ↔ P2 x)) → filter P1 l = filter P2 l.
Proof.
  induction l as [|a l IH]; intros Hext; [done|].
  rewrite !filter_cons. rewrite IH by (intros; apply Hext; set_solver).
  destruct (decide (P1 a)) as [H1|H1].
  - rewrite decide_True; [done|]. apply Hext; [set_solver|done].
  - rewrite decide_False; [done|]. intros H2. apply H1, Hext; [set_solver|done].
Qed.

(** The number of cells of the grid that hold a letter. *)
Definition letterCellCount (g : list (list Cell)) : nat :=
  length (filter (λ rc, isLetterCell g rc = true) allCells).

Lemma overlayOK_letterCells solutionWord lcs cg seen st :
  wfGrid cg → overlayOK solutionWord lcs cg seen st →
  filter (λ rc, isLetterCell (ov_grid st) rc = true) allCells
  = filter (λ rc, isLetterCell cg rc = true) allCells.
Proof.
  intros Hwf Hst. apply filter_ext_in. intros rc Hrc. apply elem_of_allCells in Hrc.
  destruct (cellAt_inGrid _ _ _ (oo_wf _ _ _ _ _ Hst) Hrc) as [x Hx].
  destruct (oo_frame _ _ _ _ _ Hst _ _ _ Hx) as (x0 & Hx0 & _ & Hblack).
  unfold isLetterCell. by rewrite Hx, Hx0, Hblack.
Qed.

(** C3, as amended. In every puzzle returned by [generatePuzzle], the
    number of solution cells is the length of the solution word or the
    number of letter cells of the grid, whichever is smaller (so it is the
    length of the solution word whenever the grid has at least that many
    letter cells); and for every entry of [solutionCells] the grid cell at
    its row and column holds the letter of the solution word at its index. *)
Theorem solution_cells_cover (random : nat → nat) (wordPool : list WordEntry)
    (solutionWords : list string) (pos : nat) (p : Puzzle) (pos' : nat) :
  generatePuzzle random wordPool solutionWords pos = Some (p, pos') →
  length (solutionCells p)
  = (String.length (solutionWord p) `min` letterCellCount (grid p))%nat ∧
  ∀ e, e ∈ solutionCells p →
       ∃ x, cellAt (grid p) (sc_row e) (sc_col e) = Some x ∧
            letterAt (solutionWord p) (sc_index e) = Some (letter x).
Proof.
  intros H.
  destruct (generatePuzzle_generatedBy _ _ _ _ _ _ H)
    as (bestGrid & placed0 & cg & st & Hok & Hplaced & Hcg & Hst & Hgrid & Hsc).
  rewrite Hgrid, Hsc. split.
  - rewrite (oo_length _ _ _ _ _ Hst). unfold letterCellCount.
    rewrite (overlayOK_letterCells _ _ cg _ st (proj1 Hcg) Hst).
    rewrite length_seqZ. unfold wlen. by rewrite Nat2Z.id.
  - intros e He. destruct (oo_marked _ _ _ _ _ Hst e He) as (x & Hx & Hl & _).
    by exists x.
Qed.

Lemma solution_cells_cover_witness :
  length (solutionCells demoPuzzle)
  = (String.length (solutionWord demoPuzzle) `min` letterCellCount (grid demoPuzzle))%nat ∧
  ∀ e, e ∈ solutionCells demoPuzzle →
       ∃ x, cellAt (grid demoPuzzle) (sc_row e) (sc_col e) = Some x ∧
            letterAt (solutionWord demoPuzzle) (sc_index e) = Some (letter x).
Proof.
  apply (solution_cells_cover zeroDraws demoPool demoSolutionWords 0%nat
           demoPuzzle demoEnd).
  vm_compute. reflexivity.
Defined.

(** A pool of one two-letter word, with a solution word of three letters. *)
Definition shortPool : list WordEntry := [entry "AB"%string].

Definition shortSolutionWords : list string := ["ABC"%string].

Definition shortPuzzle : Puzzle :=
  Eval vm_compute in
    match generatePuzzle zeroDraws shortPool shortSolutionWords 0%nat with
    | Some (p, _) => p
    | None => mkPuzzle [] [] ""%string []
    end.

(** C3, as stated, fails when the grid has fewer letter cells than the
    solution word has letters: with the pool [AB] and the solution word ABC
    the puzzle returned has two solution cells for three letters. *)
Lemma solution_cells_counterexample :
  shortPool ≠ [] ∧ shortSolutionWords ≠ [] ∧
  (∃ pos', generatePuzzle zeroDraws shortPool shortSolutionWords 0%nat
           = Some (shortPuzzle, pos')) ∧
  length (solutionCells shortPuzzle) = 2%nat ∧
  String.length (solutionWord shortPuzzle) = 3%nat ∧
  length (solutionCells shortPuzzle) ≠ String.length (solutionWord shortPuzzle).
Proof.
  split; [done|]. split; [done|]. split; [eexists; vm_compute; reflexivity|].
  split; [vm_compute; reflexivity|]. split; [vm_compute; reflexivity|].
  vm_compute. discriminate.
Qed.

(** C10. In every puzzle returned by [generatePuzzle], the entries of
    [solutionCells] lie on pairwise distinct cells and their indices are
    strictly increasing; a grid cell is marked [isSolutionCell] if and only
    if an entry of [solutionCells] lies on it, and then its [solutionIndex]
    is the index of that entry; otherwise its [solutionIndex] is null. *)
Theorem solution_cells_marked (random : nat → nat) (wordPool : list WordEntry)
    (solutionWords : list string) (pos : nat) (p : Puzzle) (pos' : nat) :
  generatePuzzle random wordPool solutionWords pos = Some (p, pos') →
  NoDup (scCell <$> solutionCells p) ∧
  StronglySorted Z.lt (sc_index <$> solutionCells p) ∧
  ∀ r c, inGrid r c →
    ∃ x, cellAt (grid p) r c = Some x ∧
         (isSolutionCell x = true ↔ ∃ e, e ∈ solutionCells p ∧ scCell e = (r, c)) ∧
         (∀ e, e ∈ solutionCells p → scCell e = (r, c) →
               solutionIndex x = Some (sc_index e)) ∧
         ((∀ e, e ∈ solutionCells p → scCell e ≠ (r, c)) → solutionIndex x = None).
Proof.
  intros H.
  destruct (generatePuzzle_generatedBy _ _ _ _ _ _ H)
    as (bestGrid & placed0 & cg & st & Hok & Hplaced & Hcg & Hst & Hgrid & Hsc).
  rewrite Hgrid, Hsc.
  split; [apply (oo_nodup _ _ _ _ _ Hst)|]. split; [apply (oo_sorted _ _ _ _ _ Hst)|].
  intros r c Hin.
  destruct (decide ((r, c) ∈ ov_usedCells st)) as [Hused|Hunused].
  - rewrite (oo_used _ _ _ _ _ Hst) in Hused.
    apply elem_of_list_to_set, list_elem_of_fmap in Hused as (e & Hcell & He).
    destruct (oo_marked _ _ _ _ _ Hst e He) as (x & Hx & _ & Hsol & Hidx).
    assert (sc_row e = r ∧ sc_col e = c) as [<- <-].
    { unfold scCell in Hcell. by injection Hcell as -> ->. }
    exists x. split; [done|]. split; [|split].
    + split; [|done]. intros _. by exists e.
    + intros e' He' Hcell'. rewrite Hidx. f_equal. f_equal.
      pose proof (oo_nodup _ _ _ _ _ Hst) as Hnd.
      apply list_elem_of_lookup in He as [i Hi]. apply list_elem_of_lookup in He' as [j Hj].
      assert (i = j) as <-; [|congruence].
      apply (NoDup_lookup _ i j (sc_row e, sc_col e) Hnd).
      * by rewrite list_lookup_fmap, Hi.
      * rewrite list_lookup_fmap, Hj. simpl. by rewrite Hcell'.
    + intros Hnone. exfalso. by apply (Hnone e He).
  - rewrite (oo_untouched _ _ _ _ _ Hst r c Hunused).
    destruct (proj2 Hcg r c Hin) as (x & Hx & _ & Hsol & Hidx & _).
    exists x. split; [done|]. split; [|split].
    + split; [congruence|]. intros (e & He & Hcell). exfalso. apply Hunused.
      rewrite (oo_used _ _ _ _ _ Hst), <- Hcell.
      apply elem_of_list_to_set, list_elem_of_fmap. by exists e.
    + intros e He Hcell. exfalso. apply Hunused.
      rewrite (oo_used _ _ _ _ _ Hst), <- Hcell.
      apply elem_of_list_to_set, list_elem_of_fmap. by exists e.
    + done.
Qed.

Lemma solution_cells_marked_witness :
  NoDup (scCell <$> solutionCells demoPuzzle) ∧
  StronglySorted Z.lt (sc_index <$> solutionCells demoPuzzle).
Proof.
  destruct (solution_cells_marked zeroDraws demoPool demoSolutionWords 0%nat
              demoPuzzle demoEnd) as (Hnd & Hsorted & _).
  - vm_compute. reflexivity.
  - split; [exact Hnd|exact Hsorted].
Defined.

(** C7. With a solution word to pick (and whatever the word pool),
    [generatePuzzle] returns a puzzle: every index it evaluates is in
    bounds, since an index out of bounds would make the run fail. *)
Theorem generatePuzzle_returns (random : nat → nat) (wordPool : list WordEntry)
    (solutionWords : list string) (pos : nat) :
  solutionWords ≠ [] →
  ∃ p pos', generatePuzzle random wordPool solutionWords pos = Some (p, pos').
Proof.
  intros Hsols.
  destruct (generatePuzzle_spec random wordPool solutionWords pos Hsols)
    as (p & pos' & _ & _ & _ & _ & Hrun & _).
  by exists p, pos'.
Qed.

Lemma generatePuzzle_returns_witness :
  demoSolutionWords ≠ [] ∧
  ∃ p pos', generatePuzzle zeroDraws demoPool demoSolutionWords 0%nat = Some (p, pos').
Proof.
  split; [discriminate|].
  apply (generatePuzzle_returns zeroDraws demoPool demoSolutionWords 0%nat).
  discriminate.
Defined.

(** A puzzle with fewer placed words than the pool has entries is an
    ordinary result: the demonstration pool has six words, five are placed. *)
Example sparse_puzzle_returned :
  generatePuzzle zeroDraws demoPool demoSolutionWords 0%nat = Some (demoPuzzle, demoEnd) ∧
  length (placedWords demoPuzzle) = 5%nat ∧ length demoPool = 6%nat.
Proof. split; [apply demoRun_eq|]. split; vm_compute; reflexivity. Qed.

(** ** The clue numbers of a generated puzzle *)

Lemma cellBefore_trans a b c : cellBefore a b → cellBefore b c → cellBefore a c.
Proof. unfold cellBefore. lia. Qed.

Lemma cellBefore_irrefl a : ¬ cellBefore a a.
Proof. unfold cellBefore. lia. Qed.

(** Start cells further in row-major order have larger ranks. *)
Lemma clueRank_lt (l : list PlacedWord) (a b : PlacedWord) :
  a ∈ l → cellBefore (startCell a) (startCell b) →
  clueRank l (startCell a) < clueRank l (startCell b).
Proof.
  intros Ha Hab. unfold clueRank.
  assert (size (filter (λ k', cellBefore k' (startCell a)) (startCells l))
          < size (filter (λ k', cellBefore k' (startCell b)) (startCells l)))%nat; [|lia].
  apply subset_size. split.
  - intros k Hk. apply elem_of_filter in Hk as [Hk Hin]. apply elem_of_filter.
    split; [by eapply cellBefore_trans|done].
  - intros Hsub. apply (cellBefore_irrefl (startCell a)).
    assert (startCell a ∈ filter (λ k', cellBefore k' (startCell a)) (startCells l)) as Hin.
    { apply Hsub. apply elem_of_filter. split; [done|].
      unfold startCells. apply elem_of_list_to_set, list_elem_of_fmap. by exists a. }
    by apply elem_of_filter in Hin as [? _].
Qed.

(** The rank of a start cell is at most the number of distinct start
    cells. *)
Lemma clueRank_bounds (l : list PlacedWord) (a : PlacedWord) :
  a ∈ l → 1 ≤ clueRank l (startCell a) ≤ Z.of_nat (size (startCells l)).
Proof.
  intros Ha. unfold clueRank.
  assert (size (filter (λ k', cellBefore k' (startCell a)) (startCells l))
          < size (startCells l))%nat; [|lia].
  apply subset_size. split.
  - intros k Hk. by apply elem_of_filter in Hk as [_ ?].
  - intros Hsub. apply (cellBefore_irrefl (startCell a)).
    assert (startCell a ∈ filter (λ k', cellBefore k' (startCell a)) (startCells l)) as Hin.
    { apply Hsub. unfold startCells. apply elem_of_list_to_set, list_elem_of_fmap.
      by exists a. }
    by apply elem_of_filter in Hin as [? _].
Qed.

(** The numbering loop hands out every number from [num] on, one per start
    cell that is new to the map. *)
Lemma numberLoop_onto (l : list PlacedWord) (numberMap : gmap (Z * Z) Z) (num n : Z) :
  num ≤ n < num + Z.of_nat (size (startCells l ∖ dom numberMap)) →
  ∃ pw, pw ∈ numberLoop l numberMap num ∧ pw_number pw = n.
Proof.
  revert numberMap num. induction l as [|pw l IH]; intros numberMap num Hn.
  - unfold startCells in Hn. simpl in Hn.
    rewrite difference_disjoint_L, size_empty in Hn by set_solver. lia.
  - assert (startCells (pw :: l) = {[startCell pw]} ∪ startCells l) as Hcells by done.
    simpl. fold (startCell pw).
    destruct (numberMap !! startCell pw) as [n0|] eqn:Hlook.
    + assert (startCells (pw :: l) ∖ dom numberMap = startCells l ∖ dom numberMap) as Heq.
      { rewrite Hcells. apply set_eq. intros k.
        rewrite !elem_of_difference, elem_of_union, elem_of_singleton, elem_of_dom.
        split; [|intros [? ?]; split; [by right|done]].
        intros [[->|?] Hk]; [|done]. exfalso. apply Hk. by eexists. }
      rewrite Heq in Hn. destruct (IH numberMap num Hn) as (pw' & Hin & Hnum).
      exists pw'. split; [by right|done].
    + destruct (decide (n = num)) as [->|Hne].
      { eexists. split; [by left|done]. }
      assert (size (startCells (pw :: l) ∖ dom numberMap)
              = S (size (startCells l ∖ dom (<[startCell pw := num]> numberMap)))) as Hsize.
      { assert (startCells (pw :: l) ∖ dom numberMap
                = {[startCell pw]} ∪ startCells l ∖ dom (<[startCell pw := num]> numberMap))
          as ->.
        { rewrite Hcells. apply set_eq. intros k.
          rewrite elem_of_union, !elem_of_difference, elem_of_union, elem_of_singleton,
            dom_insert_L, elem_of_union, elem_of_singleton, elem_of_dom.
          split.
          - intros [[->|Hk] Hd]; [by left|].
            destruct (decide (k = startCell pw)) as [->|Hk']; [by left|].
            right. split; [done|]. intros [?|?]; done.
          - intros [->|[Hk Hd]].
            + split; [by left|]. rewrite Hlook. by intros [? ?].
            + split; [by right|]. intros Hs. apply Hd. by right. }
        rewrite size_union, size_singleton; [done|].
        apply disjoint_singleton_l. rewrite elem_of_difference, dom_insert_L.
        intros [_ Hd]. apply Hd. apply elem_of_union. left. by apply elem_of_singleton. }
      rewrite Hsize in Hn.
      destruct (IH (<[startCell pw := num]> numberMap) (num + 1)) as (pw' & Hin & Hnum);
        [lia|].
      exists pw'. split; [by right|done].
Qed.

(** Every number from 1 to the number of distinct start cells is the
    number of a placed word. *)
Lemma numberClues_onto (placed : list PlacedWord) (n : Z) :
  1 ≤ n ≤ Z.of_nat (size (startCells (numberClues placed))) →
  ∃ pw, pw ∈ numberClues placed ∧ pw_number pw = n.
Proof.
  intros Hn. unfold numberClues in *. apply numberLoop_onto.
  unfold startCells in Hn. rewrite numberLoop_startCell in Hn.
  rewrite dom_empty_L, difference_empty_L. unfold startCells. lia.
Qed.

(** C4. In every puzzle returned by [generatePuzzle], the number of a
    placed word is the rank of its start cell among the distinct start
    cells in row-major order, counted from 1; the numbers in use are
    exactly 1, 2, 3, ... up to the number of distinct start cells; two words
    with the same start cell have the same number, and a start cell further
    in row-major order (row first, then column) has a larger number; and
    the [number] field of a grid cell is the smallest number among the
    words that start there, or null when no word starts there. *)
Theorem clue_numbers (random : nat → nat) (wordPool : list WordEntry)
    (solutionWords : list string) (pos : nat) (p : Puzzle) (pos' : nat) :
  generatePuzzle random wordPool solutionWords pos = Some (p, pos') →
  (∀ pw, pw ∈ placedWords p →
         pw_number pw = clueRank (placedWords p) (startCell pw)) ∧
  (∀ pw, pw ∈ placedWords p →
         1 ≤ pw_number pw ≤ Z.of_nat (size (startCells (placedWords p)))) ∧
  (∀ n, 1 ≤ n ≤ Z.of_nat (size (startCells (placedWords p))) →
        ∃ pw, pw ∈ placedWords p ∧ pw_number pw = n) ∧
  (∀ a b, a ∈ placedWords p → b ∈ placedWords p →
          startCell a = startCell b → pw_number a = pw_number b) ∧
  (∀ a b, a ∈ placedWords p → b ∈ placedWords p →
          cellBefore (startCell a) (startCell b) → pw_number a < pw_number b) ∧
  (∀ r c, inGrid r c →
          ∃ x, cellAt (grid p) r c = Some x ∧
               match number x with
               | Some n =>
                   (∃ pw, pw ∈ placedWords p ∧ startCell pw = (r, c) ∧ pw_number pw = n) ∧
                   (∀ pw, pw ∈ placedWords p → startCell pw = (r, c) → n ≤ pw_number pw)
               | None => ∀ pw, pw ∈ placedWords p → startCell pw ≠ (r, c)
               end).
Proof.
  intros H.
  destruct (generatePuzzle_generatedBy _ _ _ _ _ _ H)
    as (bestGrid & placed0 & cg & st & Hok & Hplaced & Hcg & Hst & Hgrid & Hsc).
  assert (∀ pw, pw ∈ placedWords p →
                pw_number pw = clueRank (placedWords p) (startCell pw)) as Hrank.
  { rewrite Hplaced. apply numberClues_rank. }
  split; [done|]. split; [|split; [|split; [|split]]].
  - intros pw Hpw. rewrite (Hrank pw Hpw). by apply clueRank_bounds.
  - rewrite Hplaced. apply numberClues_onto.
  - intros a b Ha Hb Heq. rewrite (Hrank a Ha), (Hrank b Hb). by rewrite Heq.
  - intros a b Ha Hb Hlt. rewrite (Hrank a Ha), (Hrank b Hb). by apply clueRank_lt.
  - intros r c Hin. rewrite Hgrid.
    destruct (cellAt_inGrid _ _ _ (oo_wf _ _ _ _ _ Hst) Hin) as [x Hx].
    destruct (oo_frame _ _ _ _ _ Hst _ _ _ Hx) as (x0 & Hx0 & Hnum & _).
    destruct (proj2 Hcg r c Hin) as (x0' & Hx0' & _ & _ & _ & Hok0).
    rewrite Hx0 in Hx0'. injection Hx0' as <-.
    exists x. split; [done|]. rewrite Hnum. exact Hok0.
Qed.

Lemma clue_numbers_witness :
  (∀ pw, pw ∈ placedWords demoPuzzle →
         pw_number pw = clueRank (placedWords demoPuzzle) (startCell pw)) ∧
  (∀ a b, a ∈ placedWords demoPuzzle → b ∈ placedWords demoPuzzle →
          cellBefore (startCell a) (startCell b) → pw_number a < pw_number b).
Proof.
  destruct (clue_numbers zeroDraws demoPool demoSolutionWords 0%nat demoPuzzle demoEnd)
    as (Hrank & _ & _ & _ & Hlt & _).
  - vm_compute. reflexivity.
  - split; [exact Hrank|exact Hlt].
Defined.

(** The numbers of the demonstration puzzle, in the order of the list. *)
Example clue_numbers_example :
  (λ pw, (pw_word pw, pw_row pw, pw_col pw, pw_number pw)) <$> placedWords demoPuzzle
  = [("ROLE", 3, 10, 1); ("DOLL", 5, 7, 2); ("OWL", 5, 8, 3);
     ("LOW", 6, 6, 4); ("WORLD", 7, 5, 5)]%string.
Proof. vm_compute. reflexivity. Qed.

(** ** The last resort of the overlay *)

(** C8, as amended. When the last resort of the overlay fires for a
    solution letter (no unclaimed letter cell holds the target letter) and
    an unclaimed letter cell is left to choose, exactly one cell of the
    grid, the chosen unclaimed letter cell, has its letter overwritten with
    the target letter, and every other cell of the grid is left as it was;
    when no unclaimed letter cell is left, the step changes nothing. *)
Theorem last_resort_frame (random : nat → nat) (solutionWord : string)
    (cellToWords : gmap (Z * Z) (list nat)) (letterCells : list (Z * Z))
    (st : Overlay) (i : Z) (pos : nat) (target : string) (st' : Overlay) (pos' : nat) :
  wfGrid (ov_grid st) →
  (∀ rc, rc ∈ letterCells → inGrid rc.1 rc.2) →
  letterAt solutionWord i = Some target →
  (∀ lc, lc ∈ letterCells → lc ∉ ov_usedCells st →
         ¬ holdsLetter (ov_grid st) lc target) →
  overlayStep random solutionWord cellToWords letterCells st i pos = Some (st', pos') →
  ((∃ lc, lc ∈ letterCells ∧ lc ∉ ov_usedCells st) →
   ∃ chosen x x',
     chosen ∈ letterCells ∧ (chosen ∉ ov_usedCells st) ∧
     cellAt (ov_grid st) chosen.1 chosen.2 = Some x ∧ letter x ≠ target ∧
     cellAt (ov_grid st') chosen.1 chosen.2 = Some x' ∧ letter x' = target ∧
     (∀ r c, (r, c) ≠ chosen → cellAt (ov_grid st') r c = cellAt (ov_grid st) r c) ∧
     ov_solutionCells st' = ov_solutionCells st ++ [mkSolutionCell chosen.1 chosen.2 i]) ∧
  ((∀ lc, lc ∈ letterCells → lc ∈ ov_usedCells st) → st' = st).
Proof.
  intros Hwf Hin Htarget Hnomatch Hstep.
  assert (0 ≤ i < wlen solutionWord) as Hi by by apply letterAt_Some in Htarget as [? _].
  destruct (overlayStep_effect random solutionWord cellToWords letterCells Hin st i pos Hwf Hi)
    as (st1 & pos1 & target1 & Hstep1 & Htarget1 & Heffect).
  rewrite Hstep in Hstep1. injection Hstep1 as <- <-.
  rewrite Htarget in Htarget1. injection Htarget1 as <-.
  destruct Heffect as [(chosen & Hc & Hu & Hh & _)|[(_ & chosen & Hc & Hu & Hcl)|[Hall ->]]].
  - exfalso. by apply (Hnomatch chosen).
  - split.
    + intros _. destruct Hcl as (_ & Hsc & _ & (x & Hx & Hx') & Hother).
      exists chosen, x. eexists. repeat split; try done.
      intros Hl. apply (Hnomatch chosen Hc Hu). by exists x.
    + intros Hall. exfalso. by apply Hu, Hall.
  - split; [|done]. intros (lc0 & Hlc0 & Hfree0). exfalso. by apply Hfree0, Hall.
Qed.

(** The cell grid of the single word AB, and the overlay of the letter X on
    it: no cell holds an X, so the last resort fires. *)
Definition abCellGrid : list (list Cell) :=
  Eval vm_compute in
    default [] (g ← placeWord createEmptyGrid "AB"%string 7 6 across; buildCellGrid g).

Definition abLetterCells : list (Z * Z) := [(7, 6); (7, 7)].

Definition abCellToWords : gmap (Z * Z) (list nat) :=
  buildCellToWords [mkPlacedWord "AB"%string "clue: AB"%string 7 6 across 1].

Definition abStart : Overlay := mkOverlay abCellGrid [] ∅ ∅.

Definition abStep : option (Overlay * nat) :=
  Eval vm_compute in overlayStep zeroDraws "XY"%string abCellToWords abLetterCells abStart 0 0%nat.

Definition abEnd : Overlay :=
  Eval vm_compute in match abStep with Some (st, _) => st | None => abStart end.

Definition abEndPos : nat :=
  Eval vm_compute in match abStep with Some (_, n) => n | None => 0%nat end.

Lemma abLetterCells_inGrid rc : rc ∈ abLetterCells → inGrid rc.1 rc.2.
Proof.
  intros Hrc. unfold abLetterCells in Hrc. rewrite !elem_of_cons, elem_of_nil in Hrc.
  destruct Hrc as [->|[->|[]]]; unfold inGrid, GRID_SIZE; simpl; lia.
Qed.

Lemma last_resort_frame_witness :
  ((∃ lc, lc ∈ abLetterCells ∧ lc ∉ ov_usedCells abStart) →
   ∃ chosen x x',
     chosen ∈ abLetterCells ∧ (chosen ∉ ov_usedCells abStart) ∧
     cellAt (ov_grid abStart) chosen.1 chosen.2 = Some x ∧ letter x ≠ "X"%string ∧
     cellAt (ov_grid abEnd) chosen.1 chosen.2 = Some x' ∧ letter x' = "X"%string ∧
     (∀ r c, (r, c) ≠ chosen → cellAt (ov_grid abEnd) r c = cellAt (ov_grid abStart) r c) ∧
     ov_solutionCells abEnd
     = ov_solutionCells abStart ++ [mkSolutionCell chosen.1 chosen.2 0]) ∧
  ((∀ lc, lc ∈ abLetterCells → lc ∈ ov_usedCells abStart) → abEnd = abStart).
Proof.
  apply (last_resort_frame zeroDraws "XY"%string abCellToWords abLetterCells abStart
           0 0%nat "X"%string abEnd abEndPos).
  - split; [reflexivity|]. repeat constructor.
  - apply abLetterCells_inGrid.
  - reflexivity.
  - intros lc Hlc _ (x & Hx & Hl). unfold abLetterCells in Hlc.
    rewrite !elem_of_cons, elem_of_nil in Hlc.
    destruct Hlc as [->|[->|[]]]; vm_compute in Hx; injection Hx as <-; discriminate Hl.
  - vm_compute. reflexivity.
Defined.

(** The step of the example: the letter of the first letter cell is
    overwritten, the second keeps its B. *)
Example last_resort_example :
  (letter <$> cellAt (ov_grid abStart) 7 6, letter <$> cellAt (ov_grid abStart) 7 7,
   letter <$> cellAt (ov_grid abEnd) 7 6, letter <$> cellAt (ov_grid abEnd) 7 7)
  = (Some "A", Some "B", Some "X", Some "B")%string.
Proof. vm_compute. reflexivity. Qed.

(** The overlay of ABC on the same grid, after the letters A and B: both
    letter cells are claimed. *)
Definition abFullRun : option (Overlay * nat) :=
  Eval vm_compute in
    forEach [0; 1] abStart
            (overlayStep zeroDraws "ABC"%string abCellToWords abLetterCells) 0%nat.

Definition abFull : Overlay :=
  Eval vm_compute in match abFullRun with Some (st, _) => st | None => abStart end.

Definition abFullPos : nat :=
  Eval vm_compute in match abFullRun with Some (_, n) => n | None => 0%nat end.

(** C8, as stated, fails when no unclaimed letter cell is left: on the grid
    of AB with both letter cells claimed for A and B, no unclaimed letter
    cell holds the letter C, the last resort is reached, and the step
    returns the state it was given: no letter is overwritten. *)
Lemma last_resort_counterexample :
  forEach [0; 1] abStart
          (overlayStep zeroDraws "ABC"%string abCellToWords abLetterCells) 0%nat
  = Some (abFull, abFullPos) ∧
  letterAt "ABC"%string 2 = Some "C"%string ∧
  (∀ lc, lc ∈ abLetterCells → lc ∉ ov_usedCells abFull →
         ¬ holdsLetter (ov_grid abFull) lc "C"%string) ∧
  (∃ pos', overlayStep zeroDraws "ABC"%string abCellToWords abLetterCells abFull 2
                       abFullPos
           = Some (abFull, pos')) ∧
  (∀ r c, inGrid r c →
          letter <$> cellAt (ov_grid abFull) r c ≠ Some "C"%string).
Proof.
  split; [vm_compute; reflexivity|]. split; [reflexivity|]. split; [|split].
  - intros lc Hlc Hfree. exfalso. apply Hfree. unfold abLetterCells in Hlc.
    rewrite !elem_of_cons, elem_of_nil in Hlc.
    destruct Hlc as [->|[->|[]]]; compute_done.
  - eexists. vm_compute. reflexivity.
  - intros r c Hin Hc.
    assert (Forall (λ rc, letter <$> cellAt (ov_grid abFull) rc.1 rc.2 ≠ Some "C"%string)
                   allCells) as HF by compute_done.
    rewrite Forall_forall in HF. apply (HF (r, c)); [|done]. by apply elem_of_allCells.
Qed.

(** ** Determinism *)

(** C9. [generatePuzzle] is deterministic modulo the random source: two
    runs on the same word pool and the same solution-word list whose draws
    are identical at every position the first run reads return the same
    puzzle (grid, placed words, solution word and solution cells alike). *)
Theorem generatePuzzle_deterministic (random1 random2 : nat → nat)
    (wordPool : list WordEntry) (solutionWords : list string)
    (pos : nat) (p : Puzzle) (pos' : nat) :
  generatePuzzle random1 wordPool solutionWords pos = Some (p, pos') →
  (∀ k, (pos ≤ k < pos')%nat → random1 k = random2 k) →
  generatePuzzle random2 wordPool solutionWords pos = Some (p, pos').
Proof.
  intros H Hagree.
  destruct (stable_generatePuzzle random1 random2 wordPool solutionWords pos p pos' H)
    as [_ Hrun].
  by apply Hrun.
Qed.

(** A stream that differs from [zeroDraws] only after the draws the
    demonstration run reads. *)
Definition lateDraws : nat → nat := λ k, if (k <? demoEnd)%nat then 0%nat else 7%nat.

Lemma generatePuzzle_deterministic_witness :
  generatePuzzle lateDraws demoPool demoSolutionWords 0%nat = Some (demoPuzzle, demoEnd).
Proof.
  apply (generatePuzzle_deterministic zeroDraws lateDraws demoPool demoSolutionWords
           0%nat demoPuzzle demoEnd).
  - vm_compute. reflexivity.
  - intros k Hk. unfold lateDraws, zeroDraws.
    destruct (Nat.ltb_spec k demoEnd) as [_|Hge]; [reflexivity|lia].
Defined.

(** * Further properties of the generator *)

(** ** shuffle *)

(** The part of the array above the index of the loop is out of its reach. *)
Lemma shuffleLoop_prefix {T} (random : nat → nat) (i : nat) (l suffix : list T)
    (pos : nat) (r : list T) (pos' : nat) :
  (i < length l)%nat ∨ i = 0%nat →
  shuffleLoop random i l pos = Some (r, pos') →
  shuffleLoop random i (l ++ suffix) pos = Some (r ++ suffix, pos').
Proof.
  revert l pos. induction i as [|i IH]; intros l pos Hi H; simpl in *.
  - by injection H as <- <-.
  - destruct Hi as [Hi|?]; [|done].
    apply gen_bind_Some in H as (j & pos1 & Hj & H).
    apply gen_bind_Some in H as (l1 & pos2 & Hswap & H).
    rewrite (gen_bind_run _ _ _ _ _ Hj).
    unfold liftOpt in Hswap. destruct (swap l (S i) j) as [l1'|] eqn:Hl1; [|done].
    injection Hswap as -> ->.
    unfold swap in Hl1.
    destruct (l !! S i) as [ai|] eqn:Hai; [|done].
    destruct (l !! j) as [aj|] eqn:Haj; [|done]. simpl in Hl1. injection Hl1 as <-.
    assert (swap (l ++ suffix) (S i) j
            = Some (<[j := ai]> (<[S i := aj]> l) ++ suffix)) as Hswap'.
    { unfold swap. rewrite (lookup_app_l_Some _ _ _ _ Hai), (lookup_app_l_Some _ _ _ _ Haj).
      simpl. f_equal. apply lookup_lt_Some in Haj.
      rewrite insert_app_l by done. rewrite insert_app_l by (rewrite length_insert; lia).
      done. }
    rewrite (gen_bind_run _ _ _ _ _ (liftOpt_run _ _ _ Hswap')).
    apply IH; [|done]. left. rewrite !length_insert. lia.
Qed.

Lemma shuffleLoop_reaches {T} (n : nat) (a target : list T) (pos : nat) :
  length a = S n → target ≡ₚ a →
  ∃ random, shuffleLoop random n a pos = Some (target, (pos + n)%nat).
Proof.
  revert a target pos. induction n as [|n IH]; intros a target pos Hlen Hperm.
  - exists (λ _, 0%nat). simpl. destruct a as [|y [|]]; simplify_eq/=.
    apply Permutation_singleton_r in Hperm as ->. by rewrite Nat.add_0_r.
  - assert (length target = S (S n)) as Hlt by by rewrite Hperm.
    destruct (lookup_lt_is_Some_2 target (S n)) as [x Hx]; [lia|].
    assert (x ∈ a) as Hxa.
    { rewrite <- Hperm. by eapply list_elem_of_lookup_2. }
    apply list_elem_of_lookup in Hxa as [j Hj].
    pose proof (lookup_lt_Some _ _ _ Hj) as Hjlt.
    destruct (swap_spec a (S n) j) as (a1 & Hswap & Hperm1); [lia|lia|].
    assert (a1 !! S n = Some x) as Hlast.
    { unfold swap in Hswap.
      destruct (lookup_lt_is_Some_2 a (S n)) as [y Hy]; [lia|].
      rewrite Hy, Hj in Hswap. simpl in Hswap. injection Hswap as <-.
      destruct (decide (j = S n)) as [->|Hne].
      - rewrite list_lookup_insert_eq by (rewrite length_insert; lia). congruence.
      - rewrite list_lookup_insert_ne by done.
        by rewrite list_lookup_insert_eq by lia. }
    assert (length a1 = S (S n)) as Hlen1 by by rewrite Hperm1.
    assert (a1 = take (S n) a1 ++ [x]) as Ha1.
    { rewrite <- (take_drop_middle a1 (S n) x Hlast) at 1.
      rewrite drop_ge by lia. done. }
    assert (target = take (S n) target ++ [x]) as Htarget.
    { rewrite <- (take_drop_middle target (S n) x Hx) at 1.
      rewrite drop_ge by lia. done. }
    assert (take (S n) target ≡ₚ take (S n) a1) as Hrest.
    { apply (Permutation_app_inv_r [x]). rewrite <- Ha1, <- Htarget.
      by rewrite Hperm, Hperm1. }
    destruct (IH (take (S n) a1) (take (S n) target) (S pos)) as (random' & Hloop); [|done|].
    { rewrite length_take. lia. }
    exists (λ k, if decide (k = pos) then j else random' k). simpl.
    assert (randomBelow (λ k, if decide (k = pos) then j else random' k) (S n + 1) pos
            = Some (j, S pos)) as Hdraw.
    { unfold randomBelow. rewrite decide_True by done.
      replace (S n + 1 =? 0)%nat with false by (symmetry; apply Nat.eqb_neq; lia).
      by rewrite Nat.mod_small by lia. }
    rewrite (gen_bind_run _ _ _ _ _ Hdraw).
    rewrite (gen_bind_run _ _ _ _ _ (liftOpt_run _ _ _ Hswap)).
    rewrite Ha1, Htarget.
    replace (pos + S n)%nat with (S pos + n)%nat by lia.
    apply shuffleLoop_prefix; [left; rewrite length_take; lia|].
    destruct (stable_shuffleLoop random' (λ k, if decide (k = pos) then j else random' k)
                n (take (S n) a1) (S pos) _ _ Hloop) as [_ Hrun].
    apply Hrun. intros k Hk. rewrite decide_False by lia. done.
Qed.

(** [shuffle] never fails, returns a permutation of its argument and takes
    one draw per element but the first; an array of at most one element is
    returned as it is. *)
Theorem shuffle_permutes {T} (random : nat → nat) (arr : list T) (pos : nat) :
  ∃ a', shuffle random arr pos = Some (a', (pos + (length arr - 1))%nat) ∧
        a' ≡ₚ arr ∧ (length arr = 0%nat ∨ length arr = 1%nat → a' = arr).
Proof.
  destruct (shuffle_spec random arr pos) as (a' & Hrun & Hperm).
  exists a'. split; [done|]. split; [done|].
  intros Hlen. destruct arr as [|x [|y arr]]; simpl in Hlen.
  - by apply Permutation_nil_r in Hperm.
  - by apply Permutation_singleton_r in Hperm.
  - lia.
Qed.

(** Every ordering of the array is the result of [shuffle] for some draws. *)
Theorem shuffle_reaches_every_order {T} (arr target : list T) :
  target ≡ₚ arr →
  ∃ random, shuffle random arr 0%nat = Some (target, (length arr - 1)%nat).
Proof.
  intros Hperm. unfold shuffle. destruct arr as [|x arr].
  - apply Permutation_nil_r in Hperm as ->. by exists (λ _, 0%nat).
  - simpl. rewrite Nat.sub_0_r.
    destruct (shuffleLoop_reaches (length arr) (x :: arr) target 0%nat eq_refl Hperm)
      as (random & H).
    by exists random.
Qed.

Lemma shuffle_reaches_every_order_witness :
  ∃ random, shuffle random [1; 2; 3] 0%nat = Some ([3; 1; 2], 2%nat).
Proof.
  apply (shuffle_reaches_every_order [1; 2; 3] [3; 1; 2]).
  apply (Permutation_cons_append [1; 2] 3).
Defined.

(** ** getOccupied *)

Lemma getOccupied_nonempty (placed : list PlacedWord) (rc : Z * Z) (dirs : gset direction) :
  getOccupied placed !! rc = Some dirs → dirs ≠ ∅.
Proof.
  unfold getOccupied.
  assert (∀ (m : OccupiedMap),
            (∀ rc dirs, m !! rc = Some dirs → dirs ≠ ∅) →
            ∀ rc dirs,
              foldl (λ m pw,
                       foldl (λ m i, addDirection (cellOf (pw_direction pw) (pw_row pw)
                                                          (pw_col pw) i)
                                                  (pw_direction pw) m)
                             m (seqZ 0 (wlen (pw_word pw))))
                    m placed !! rc = Some dirs → dirs ≠ ∅) as Hgen.
  { induction placed as [|pw rest IH]; intros m Hm; simpl; [done|].
    apply IH. generalize (seqZ 0 (wlen (pw_word pw))). intros positions.
    revert m Hm. induction positions as [|i positions IHp]; intros m Hm; simpl; [done|].
    apply IHp. intros rc' dirs'. unfold addDirection.
    destruct (decide (rc' = cellOf (pw_direction pw) (pw_row pw) (pw_col pw) i)) as [->|Hne].
    - rewrite lookup_insert_eq. intros [= <-]. set_solver.
    - rewrite lookup_insert_ne by done. apply Hm. }
  apply Hgen. intros rc' dirs'. by rewrite lookup_empty.
Qed.

(** The occupancy map has a key for a cell exactly when a placed word
    covers the cell, and the set stored there holds the orientations of the
    words that cover it. *)
Theorem getOccupied_lookup (placed : list PlacedWord) (rc : Z * Z) :
  match getOccupied placed !! rc with
  | None => ∀ pw, pw ∈ placed → ¬ covers pw rc
  | Some dirs =>
      dirs ≠ ∅ ∧
      ∀ d, d ∈ dirs ↔ ∃ pw, pw ∈ placed ∧ pw_direction pw = d ∧ covers pw rc
  end.
Proof.
  destruct (getOccupied placed !! rc) as [dirs|] eqn:Hm.
  - split; [by eapply getOccupied_nonempty|].
    intros d. rewrite <- getOccupied_spec. unfold occupiedBy. rewrite Hm. naive_solver.
  - intros pw Hpw Hcov.
    assert (occupiedBy (getOccupied placed) rc (pw_direction pw)) as (dirs & Hd & _).
    { apply getOccupied_spec. by exists pw. }
    congruence.
Qed.

(** ** placeWord after canPlaceWord *)

(** A placement that [canPlaceWord] accepts is written by [placeWord]
    without leaving the grid; afterwards the word is read along its cells,
    every letter the grid held is still there, and the cells off the word
    are as before. *)
Theorem legal_placement_keeps_letters (g : list (list string)) (word : string)
    (row col : Z) (d : direction) (placed : list PlacedWord) (occupied : OccupiedMap) :
  wfGrid g →
  canPlaceWord g word row col d placed occupied = Some true →
  ∃ g', placeWord g word row col d = Some g' ∧ wfGrid g' ∧
        (∀ i, 0 ≤ i < wlen word →
              cellAt g' (cellOf d row col i).1 (cellOf d row col i).2 = letterAt word i) ∧
        (∀ r c s, cellAt g r c = Some s → s ≠ ""%string → cellAt g' r c = Some s) ∧
        (∀ r c, (∀ i, 0 ≤ i < wlen word → cellOf d row col i ≠ (r, c)) →
                cellAt g' r c = cellAt g r c).
Proof.
  intros Hwf Hcan. apply canPlaceWord_spec in Hcan as (Hfits & _ & _ & Hpos & _); [|done].
  destruct (placeWord_spec g word row col d Hwf Hfits) as (g' & Hg' & Hwf' & Hin & Hout).
  exists g'. split; [done|]. split; [done|]. split; [done|]. split; [|done].
  intros r c s Hs Hne.
  destruct (onWord_dec word row col d (r, c)) as [(i & Hi & Hc)|Hoff].
  - destruct (Hpos i Hi) as (existing & He & Hfilled & _).
    rewrite Hc in He. simpl in He. rewrite Hs in He. injection He as <-.
    destruct (Hfilled Hne) as (Hletter & _).
    specialize (Hin i Hi). rewrite Hc in Hin. simpl in Hin. congruence.
  - rewrite Hout by done. done.
Qed.

Lemma legal_placement_keeps_letters_witness :
  ∃ g', placeWord worldGrid "OWL"%string 7 6 down = Some g' ∧ wfGrid g' ∧
        cellAt g' 7 5 = Some "W"%string.
Proof.
  destruct (legal_placement_keeps_letters worldGrid "OWL"%string 7 6 down worldPlaced
              (getOccupied worldPlaced) worldGrid_wf)
    as (g' & Hg' & Hwf' & _ & Hkeep & _).
  - vm_compute. reflexivity.
  - exists g'. split; [exact Hg'|]. split; [exact Hwf'|].
    apply Hkeep; [vm_compute; reflexivity|discriminate].
Defined.

(** ** The scan of findBestPlacement loses no placement *)

Lemma fitsInGrid_scanOrder word d r c :
  fitsInGrid word r c d → (d, r, c) ∈ scanOrder word.
Proof.
  intros H. apply elem_of_scanOrder. destruct d; unfold fitsInGrid, GRID_SIZE in *; lia.
Qed.

(** On a grid of the right size [findBestPlacement] returns null exactly
    when no start cell and orientation at all is accepted by
    [canPlaceWord]; a placement it returns is accepted and no accepted
    placement, anywhere, has a larger score.  A word longer than the grid
    is wide has no placement. *)
Theorem findBestPlacement_complete (g : list (list string)) (word : string)
    (placed : list PlacedWord) (occupied : OccupiedMap) :
  wfGrid g →
  ∃ best, findBestPlacement g word placed occupied = Some best ∧
    match best with
    | None => ∀ d r c, canPlaceWord g word r c d placed occupied ≠ Some true
    | Some p =>
        canPlaceWord g word (pl_row p) (pl_col p) (pl_direction p) placed occupied
        = Some true ∧
        placementScore g word (pl_row p) (pl_col p) (pl_direction p) = Some (pl_score p) ∧
        ∀ d r c, canPlaceWord g word r c d placed occupied = Some true →
                 ∃ q, placementScore g word r c d = Some q ∧ (q <= pl_score p)%Q
    end ∧
    (GRID_SIZE < wlen word → best = None).
Proof.
  intros Hwf.
  destruct (findBestPlacement_total g word placed occupied Hwf) as [best Hbest].
  exists best. split; [done|].
  pose proof (findBestPlacement_bestOf _ _ _ _ _ Hbest) as Hof.
  assert (∀ d r c, canPlaceWord g word r c d placed occupied = Some true →
                   (d, r, c) ∈ scanOrder word) as Hscan.
  { intros d r c Hcan. apply fitsInGrid_scanOrder.
    by apply (canPlaceWord_true_fits g word r c d placed occupied). }
  split.
  - destruct best as [p|]; simpl in Hof.
    + destruct Hof as (_ & Hcan & Hscore & Hmax). split; [done|]. split; [done|].
      intros d r c Hc.
      destruct (placementScore_legal g word r c d placed occupied) as (q & Hq & _).
      { by apply canPlaceWord_spec. }
      exists q. split; [done|].
      by apply (Hmax (d, r, c) q (Hscan d r c Hc)).
    + intros d r c Hc. by apply (Hof (d, r, c) (Hscan d r c Hc)).
  - intros Hlong. destruct best as [p|]; [|done]. exfalso.
    destruct Hof as (_ & Hcan & _).
    apply canPlaceWord_true_fits in Hcan; [|done].
    destruct (pl_direction p); unfold fitsInGrid in Hcan; lia.
Qed.

Lemma findBestPlacement_complete_witness :
  ∃ best, findBestPlacement worldGrid "OWL"%string worldPlaced (getOccupied worldPlaced)
          = Some best ∧ (GRID_SIZE < wlen "OWL"%string → best = None).
Proof.
  destruct (findBestPlacement_complete worldGrid "OWL"%string worldPlaced
              (getOccupied worldPlaced) worldGrid_wf) as (best & Hbest & _ & Hlong).
  exists best. split; [exact Hbest|exact Hlong].
Defined.

(** ** The score of a placement that crosses a word *)

Lemma inject_Z_between (a x b : Z) :
  a ≤ x ≤ b → (inject_Z a <= inject_Z x)%Q ∧ (inject_Z x <= inject_Z b)%Q.
Proof. intros [H1 H2]. rewrite <- !Zle_Qle. done. Qed.

Lemma penalty_bound (x y l : Q) :
  (0 <= x)%Q → (x <= 14)%Q → (0 <= y)%Q → (1 <= l)%Q → (y + l <= 15)%Q →
  (Qabs (x - 7) + Qabs (y + l / 2 - 7) <= 29 # 2)%Q.
Proof.
  intros Hx0 Hx1 Hy0 Hl Hsum. unfold Qdiv. change (/ 2)%Q with (1 # 2)%Q.
  apply (Qabs_case (x - 7)); intros H1; apply (Qabs_case (y + l * (1 # 2) - 7)); intros H2; lra.
Qed.

(** The centre of a word inside the grid is at most 14.5 cells from the
    middle cell, rows and columns added. *)
Lemma centre_penalty_bound (word : string) (r c : Z) (d : direction) :
  fitsInGrid word r c d → 0 < wlen word →
  (Qabs (rowCenterOffset word r d) + Qabs (colCenterOffset word c d) <= 29 # 2)%Q.
Proof.
  intros Hfits Hlen. unfold rowCenterOffset, colCenterOffset.
  destruct d; unfold fitsInGrid, GRID_SIZE in Hfits.
  - destruct (inject_Z_between 0 r 14 ltac:(lia)) as [Hr0 Hr1].
    destruct (inject_Z_between 0 c 15 ltac:(lia)) as [Hc0 _].
    destruct (inject_Z_between 1 (wlen word) 15 ltac:(lia)) as [HL0 _].
    apply penalty_bound; try done.
    rewrite <- inject_Z_plus. change 15%Q with (inject_Z 15). rewrite <- Zle_Qle. lia.
  - destruct (inject_Z_between 0 c 14 ltac:(lia)) as [Hc0 Hc1].
    destruct (inject_Z_between 0 r 15 ltac:(lia)) as [Hr0 _].
    destruct (inject_Z_between 1 (wlen word) 15 ltac:(lia)) as [HL0 _].
    rewrite Qplus_comm. apply penalty_bound; try done.
    rewrite <- inject_Z_plus. change 15%Q with (inject_Z 15). rewrite <- Zle_Qle. lia.
Qed.

(** Once a word is placed, every placement [findBestPlacement] returns has
    a score of at least 2.75: it crosses a placed word (ten points) and the
    penalty of a word inside the grid is at most 7.25.  The test
    [placement.score > 0] of the placement loop therefore always passes,
    and a word that has a legal placement is committed. *)
Theorem crossing_placement_is_committed (g : list (list string))
    (placed : list PlacedWord) (e : WordEntry) (p : Placement) :
  wfGrid g → placed ≠ [] →
  findBestPlacement g (we_word e) placed (getOccupied placed) = Some (Some p) →
  (11 # 4 <= pl_score p)%Q ∧
  ∃ g', placeWord g (we_word e) (pl_row p) (pl_col p) (pl_direction p) = Some g' ∧
        placeNext e g placed
        = Some (g', placed ++ [mkPlacedWord (we_word e) (we_clue e)
                                            (pl_row p) (pl_col p) (pl_direction p) 0]).
Proof.
  intros Hwf Hne Hbest.
  pose proof (findBestPlacement_bestOf _ _ _ _ _ Hbest) as (_ & Hcan & Hscore & _).
  apply canPlaceWord_spec in Hcan; [|done].
  destruct (placementScore_legal _ _ _ _ _ _ _ Hcan) as (q & Hq & Hspec).
  rewrite Hscore in Hq. injection Hq as <-.
  pose proof Hcan as (Hfits & _ & _ & _ & Hint). specialize (Hint Hne).
  pose proof (legalPlacement_nonempty_word _ _ _ _ _ _ _ Hcan Hne) as Hlen.
  pose proof (centre_penalty_bound _ _ _ _ Hfits Hlen) as Hpen.
  assert (11 # 4 <= pl_score p)%Q as Hlow.
  { rewrite Hspec. unfold specScore.
    destruct (inject_Z_between 1 (intersections g (we_word e) (pl_row p) (pl_col p)
                                                 (pl_direction p)) _ (conj Hint (Z.le_refl _)))
      as [Hi _].
    change (inject_Z 1) with 1%Q in Hi. lra. }
  split; [done|].
  destruct (placeWord_spec g (we_word e) (pl_row p) (pl_col p) (pl_direction p) Hwf Hfits)
    as (g' & Hg' & _).
  exists g'. split; [done|].
  unfold placeNext. rewrite Hbest. simpl.
  assert (Qgtb (pl_score p) 0 = true) as -> by (apply Qgtb_true; lra).
  by rewrite Hg'.
Qed.

Lemma crossing_placement_is_committed_witness :
  (11 # 4 <= 37 # 4)%Q ∧
  ∃ g', placeWord worldGrid "OWL"%string 5 8 down = Some g' ∧
        placeNext (entry "OWL"%string) worldGrid worldPlaced
        = Some (g', worldPlaced ++ [mkPlacedWord "OWL"%string (we_clue (entry "OWL"%string))
                                                 5 8 down 0]).
Proof.
  apply (crossing_placement_is_committed worldGrid worldPlaced (entry "OWL"%string)
           (mkPlacement 5 8 down (37 # 4)) worldGrid_wf).
  - discriminate.
  - vm_compute. reflexivity.
Defined.

(** ** The stages of a run *)

Lemma liftOpt_Some {A} (o : option A) (pos : nat) (a : A) (pos' : nat) :
  liftOpt o pos = Some (a, pos') → o = Some a ∧ pos' = pos.
Proof. unfold liftOpt. destruct o; naive_solver. Qed.

(** A loop that returned went through states that obey any invariant its
    body keeps. *)
Lemma forEach_gen_inv {A S} (I : list A → S → Prop) (f : S → A → Gen S)
    (l visited : list A) (s : S) (pos : nat) (s' : S) (pos' : nat) :
  I visited s →
  (∀ seen x s1 pos1 s2 pos2, I seen s1 → f s1 x pos1 = Some (s2, pos2) → I (seen ++ [x]) s2) →
  forEach l s f pos = Some (s', pos') → I (visited ++ l) s'.
Proof.
  intros HI Hstep. revert visited s pos HI.
  induction l as [|x l IH]; intros visited s pos HI H; simpl in H.
  - injection H as <- <-. by rewrite app_nil_r.
  - apply gen_bind_Some in H as (s1 & pos1 & Hf & H).
    replace (visited ++ x :: l) with ((visited ++ [x]) ++ l) by by rewrite <- app_assoc.
    eapply IH; [|done]. by eapply Hstep.
Qed.

(** The intermediate values of a run that returned the puzzle [p]. *)
Lemma generatePuzzle_stages random wordPool solutionWords pos p pos' :
  generatePuzzle random wordPool solutionWords pos = Some (p, pos') →
  ∃ best pos1 cg0 cg lcs st,
    solutionWords !! (if (length solutionWords =? 0)%nat then 0%nat
                      else (random pos `mod` length solutionWords)%nat)
    = Some (solutionWord p) ∧
    forEach (seqZ 0 8) ([], createEmptyGrid) (attemptStep random wordPool) (S pos)
    = Some (best, pos1) ∧
    buildCellGrid best.2 = Some cg0 ∧
    setAllClueRefs cg0 (numberClues best.1) = Some cg ∧
    collectLetterCells cg = Some lcs ∧
    forEach (seqZ 0 (wlen (solutionWord p))) (mkOverlay cg [] ∅ ∅)
            (overlayStep random (solutionWord p) (buildCellToWords (numberClues best.1)) lcs)
            pos1 = Some (st, pos') ∧
    p = {| grid := ov_grid st; placedWords := numberClues best.1;
           solutionWord := solutionWord p; solutionCells := ov_solutionCells st |}.
Proof.
  intros H. unfold generatePuzzle in H.
  apply gen_bind_Some in H as (k & pos0 & Hk & H).
  unfold randomBelow in Hk. injection Hk as <- <-.
  apply gen_bind_Some in H as (sw & pos0 & Hsw & H).
  apply liftOpt_Some in Hsw as [Hsw ->].
  apply gen_bind_Some in H as (best & pos1 & Hbest & H).
  apply gen_bind_Some in H as (cg0 & pos2 & Hcg0 & H).
  apply liftOpt_Some in Hcg0 as [Hcg0 ->].
  apply gen_bind_Some in H as (cg & pos2 & Hcg & H).
  apply liftOpt_Some in Hcg as [Hcg ->].
  apply gen_bind_Some in H as (lcs & pos2 & Hlcs & H).
  apply liftOpt_Some in Hlcs as [Hlcs ->].
  apply gen_bind_Some in H as (st & pos2 & Hst & H).
  injection H as <- <-. simpl.
  by exists best, pos1, cg0, cg, lcs, st.
Qed.

(** ** What one attempt places *)

Lemma placeNext_cases (e : WordEntry) g placed g' placed' :
  placeNext e g placed = Some (g', placed') →
  (g' = g ∧ placed' = placed) ∨
  ∃ p, findBestPlacement g (we_word e) placed (getOccupied placed) = Some (Some p) ∧
       placeWord g (we_word e) (pl_row p) (pl_col p) (pl_direction p) = Some g' ∧
       placed' = placed ++ [mkPlacedWord (we_word e) (we_clue e)
                                         (pl_row p) (pl_col p) (pl_direction p) 0].
Proof.
  unfold placeNext. intros H.
  destruct (findBestPlacement g (we_word e) placed (getOccupied placed)) as [best|] eqn:Hbest;
    [|done].
  simpl in H. destruct best as [p|]; [|left; by injection H as <- <-].
  destruct (Qgtb (pl_score p) 0); [|left; by injection H as <- <-].
  destruct (placeWord g (we_word e) (pl_row p) (pl_col p) (pl_direction p)) as [g1|] eqn:Hg1;
    [|done].
  simpl in H. injection H as <- <-. right. by exists p.
Qed.

Definition pwEntry (pw : PlacedWord) : string * string := (pw_word pw, pw_clue pw).
Definition weEntry (e : WordEntry) : string * string := (we_word e, we_clue e).

(** Two placed words share a cell. *)
Definition crossing (a b : PlacedWord) : Prop := ∃ rc, covers a rc ∧ covers b rc.

(** Any two words of the list are linked by a chain of words of the list in
    which each word shares a cell with the next. *)
Definition connectedWords (l : list PlacedWord) : Prop :=
  ∀ a b, a ∈ l → b ∈ l → rtc (λ x y, x ∈ l ∧ y ∈ l ∧ crossing x y) a b.

Lemma crossing_sym a b : crossing a b → crossing b a.
Proof. intros (rc & ? & ?). by exists rc. Qed.

(** A legal placement on a grid that holds words crosses one of them. *)
Lemma legal_crosses g placed word clue row col d :
  layoutOK g placed → placed ≠ [] →
  legalPlacement g word row col d placed (getOccupied placed) →
  ∃ pw0, pw0 ∈ placed ∧ crossing (mkPlacedWord word clue row col d 0) pw0.
Proof.
  intros Hok Hne (_ & _ & _ & _ & Hint). specialize (Hint Hne).
  unfold intersections in Hint.
  destruct (filter (λ i, targetFilled g row col d i = true) (seqZ 0 (wlen word)))
    as [|i rest] eqn:Hf; [simpl in Hint; lia|].
  assert (i ∈ filter (λ i, targetFilled g row col d i = true) (seqZ 0 (wlen word))) as Hi
    by (rewrite Hf; set_solver).
  apply list_elem_of_filter in Hi as [Hfilled Hi]. apply elem_of_seqZ in Hi.
  unfold targetFilled in Hfilled.
  destruct (cellAt g (cellOf d row col i).1 (cellOf d row col i).2) as [s|] eqn:Hs; [|done].
  apply filled_true in Hfilled.
  destruct (lo_covered _ _ Hok (cellOf d row col i)) as (pw0 & Hpw0 & Hcov).
  { by exists s. }
  exists pw0. split; [done|]. exists (cellOf d row col i). split; [|done].
  exists i. simpl. split; [lia|done].
Qed.

Lemma connectedWords_snoc (l : list PlacedWord) (w pw0 : PlacedWord) :
  connectedWords l → pw0 ∈ l → crossing w pw0 → connectedWords (l ++ [w]).
Proof.
  intros Hl Hpw0 Hcross.
  assert (∀ a b, a ∈ l → b ∈ l →
                 rtc (λ x y, x ∈ l ++ [w] ∧ y ∈ l ++ [w] ∧ crossing x y) a b) as Hold.
  { intros a b Ha Hb. eapply rtc_subrel; [|by apply Hl].
    intros x y (Hx & Hy & Hc). set_solver. }
  assert (w ∈ l ++ [w]) as Hw by set_solver.
  assert (pw0 ∈ l ++ [w]) as Hpw0' by set_solver.
  intros a b Ha Hb.
  apply elem_of_app in Ha as [Ha|Ha]; apply elem_of_app in Hb as [Hb|Hb].
  - by apply Hold.
  - apply list_elem_of_singleton in Hb as ->.
    eapply rtc_r; [by apply (Hold a pw0)|]. split; [done|]. split; [done|].
    by apply crossing_sym.
  - apply list_elem_of_singleton in Ha as ->.
    eapply rtc_l; [|by apply (Hold pw0 b)]. done.
  - apply list_elem_of_singleton in Ha as ->. apply list_elem_of_singleton in Hb as ->.
    apply rtc_refl.
Qed.

(** What the placement loop has done by the time it stops: it has added
    words to the end of the list, at most up to the cap, each of them for an
    entry of the pool and in the order of the entries, each with number 0;
    the layout is legal and stays in one piece. *)
Record attemptOK (entries : list WordEntry) (g : list (list string))
    (placed : list PlacedWord) : Prop := mkAttemptOK {
  ao_layout : layoutOK g placed;
  ao_cap : (length placed ≤ 28)%nat;
  ao_entries : (pwEntry <$> placed) `sublist_of` (weEntry <$> entries);
  ao_numbers : Forall (λ pw, pw_number pw = 0) placed;
  ao_connected : connectedWords placed;
  ao_nonempty : (∀ pw, pw ∈ placed → 0 < wlen (pw_word pw)) ∨ ∃ s, placed = [s]
}.

Lemma covers_nonempty pw rc : covers pw rc → 0 < wlen (pw_word pw).
Proof. intros (i & Hi & _). lia. Qed.

Lemma placeNext_attemptOK (visited : list WordEntry) (e : WordEntry) g placed g' placed' :
  attemptOK visited g placed → placed ≠ [] → (length placed < 28)%nat →
  placeNext e g placed = Some (g', placed') →
  attemptOK (visited ++ [e]) g' placed' ∧ placed' ≠ [] ∧
  ∃ added, placed' = placed ++ added.
Proof.
  intros [Hok Hcap Hsub Hnum Hconn Hwords] Hne Hlt H.
  apply placeNext_cases in H as [[-> ->]|(p & Hbest & Hplace & ->)].
  - split; [|split; [done|by exists []; rewrite app_nil_r]].
    split; try done. rewrite fmap_app. by apply sublist_inserts_r.
  - pose proof (findBestPlacement_bestOf _ _ _ _ _ Hbest) as (_ & Hcan & _).
    apply canPlaceWord_spec in Hcan; [|apply Hok].
    split; [|split; [by intros [_ ?]%app_eq_nil|by eexists]].
    split.
    + eapply layoutOK_place; [done|done| |done].
      eapply fitsInGrid_start; [apply Hcan|].
      by eapply legalPlacement_nonempty_word.
    + rewrite length_app. simpl. lia.
    + rewrite !fmap_app. by apply sublist_app.
    + apply Forall_app. split; [done|]. by repeat constructor.
    + destruct (legal_crosses g placed (we_word e) (we_clue e) (pl_row p) (pl_col p)
                  (pl_direction p) Hok Hne Hcan) as (pw0 & Hpw0 & Hcross).
      by apply (connectedWords_snoc placed _ pw0).
    + left. intros pw Hpw. apply elem_of_app in Hpw as [Hpw|Hpw].
      * destruct Hwords as [Hall|[s ->]]; [by apply Hall|].
        destruct (legal_crosses g [s] (we_word e) (we_clue e) (pl_row p) (pl_col p)
                    (pl_direction p) Hok Hne Hcan) as (pw0 & Hpw0 & rc & _ & Hcov).
        apply list_elem_of_singleton in Hpw as ->. apply list_elem_of_singleton in Hpw0 as ->.
        by eapply covers_nonempty.
      * apply list_elem_of_singleton in Hpw as ->. simpl.
        by eapply legalPlacement_nonempty_word.
Qed.

Lemma placeRest_attemptOK (entries visited : list WordEntry) g placed g' placed' :
  attemptOK visited g placed → placed ≠ [] ∨ entries = [] →
  placeRest entries g placed = Some (g', placed') →
  attemptOK (visited ++ entries) g' placed' ∧ ∃ added, placed' = placed ++ added.
Proof.
  revert visited g placed. induction entries as [|e rest IH];
    intros visited g placed Hok Hne H; simpl in H.
  - injection H as <- <-. rewrite app_nil_r. split; [done|]. exists []. by rewrite app_nil_r.
  - destruct Hne as [Hne|?]; [|done].
    destruct (Z.ltb_spec (Z.of_nat (length placed)) 28) as [Hlt|Hge].
    + destruct (placeNext e g placed) as [[g1 placed1]|] eqn:Hnext; [|done]. simpl in H.
      destruct (placeNext_attemptOK visited e g placed g1 placed1 Hok Hne ltac:(lia) Hnext)
        as (Hok1 & Hne1 & added1 & ->).
      destruct (IH (visited ++ [e]) g1 (placed ++ added1) Hok1 (or_introl Hne1) H)
        as (Hok' & added & ->).
      rewrite <- app_assoc in Hok'. simpl in Hok'. split; [done|].
      exists (added1 ++ added). by rewrite app_assoc.
    + injection H as <- <-. split; [|exists []; by rewrite app_nil_r].
      destruct Hok as [Hok Hcap Hsub Hnum Hconn Hwords]. split; try done.
      rewrite fmap_app. by apply sublist_inserts_r.
Qed.

(** The entries an attempt works on: those of the shuffled pool that are
    not longer than the grid is wide. *)
Definition fitting (pool : list WordEntry) : list WordEntry :=
  filter (λ w, wlen (we_word w) ≤ GRID_SIZE) pool.

(** The seed: the first fitting entry, across in the middle row, centred. *)
Definition seedOf (first : WordEntry) : PlacedWord :=
  mkPlacedWord (we_word first) (we_clue first) (GRID_SIZE / 2)
               ((GRID_SIZE - wlen (we_word first)) / 2) across 0.

Lemma runAttempt_attemptOK (shuffledPool : list WordEntry) g placed :
  runAttempt shuffledPool = Some (g, placed) →
  attemptOK (fitting shuffledPool) g placed ∧
  match fitting shuffledPool with
  | [] => placed = [] ∧ g = createEmptyGrid
  | first :: _ => ∃ rest, placed = seedOf first :: rest
  end.
Proof.
  unfold runAttempt. fold (fitting shuffledPool). intros H.
  assert (∀ w, w ∈ fitting shuffledPool → wlen (we_word w) ≤ GRID_SIZE) as Hlen.
  { intros w Hw. apply list_elem_of_filter in Hw. apply Hw. }
  destruct (fitting shuffledPool) as [|first rest] eqn:Hfit.
  - simpl in H. injection H as <- <-. split; [|done].
    split; [apply layoutOK_empty|simpl; lia|done|done| |].
    + intros a b Ha. set_solver.
    + left. intros pw Hpw. set_solver.
  - destruct (placeFirst_spec (first :: rest) Hlen) as (g0 & placed0 & Hfirst & Hok0 & Hne0).
    rewrite Hfirst in H. simpl in H.
    assert (placed0 = [seedOf first]) as ->.
    { simpl in Hfirst.
      destruct (placeWord createEmptyGrid (we_word first) (GRID_SIZE / 2)
                          ((GRID_SIZE - wlen (we_word first)) / 2) across); [|done].
      simpl in Hfirst. by injection Hfirst as <- <-. }
    assert (attemptOK [first] g0 [seedOf first]) as Hseed.
    { split; [done|simpl; lia|done|by repeat constructor| |by right; eexists].
      intros a b Ha Hb. apply list_elem_of_singleton in Ha as ->.
      apply list_elem_of_singleton in Hb as ->. apply rtc_refl. }
    assert ([seedOf first] ≠ [] ∨ rest = []) as Hne by by left.
    destruct (placeRest_attemptOK rest [first] g0 [seedOf first] g placed Hseed Hne H)
      as (Hok & added & ->).
    split; [done|]. by exists added.
Qed.

(** ** The attempt that is kept *)

Lemma attemptStep_cases random wordPool best attempt pos best' pos' :
  attemptStep random wordPool best attempt pos = Some (best', pos') →
  ∃ shuffledPool g placed,
    shuffledPool ≡ₚ wordPool ∧ runAttempt shuffledPool = Some (g, placed) ∧
    (((length best.1 < length placed)%nat ∧ best' = (placed, g)) ∨
     ((length placed ≤ length best.1)%nat ∧ best' = best)).
Proof.
  unfold attemptStep. intros H.
  apply gen_bind_Some in H as (shuffledPool & pos1 & Hsh & H).
  destruct (shuffle_spec random wordPool pos) as (sp & Hsp & Hperm).
  rewrite Hsh in Hsp. injection Hsp as <- _.
  apply gen_bind_Some in H as ([g placed] & pos2 & Hrun & H).
  apply liftOpt_Some in Hrun as [Hrun ->].
  exists shuffledPool, g, placed. split; [done|]. split; [done|].
  destruct (Z.gtb_spec (Z.of_nat (length placed)) (Z.of_nat (length best.1)));
    injection H as <- <-; [left|right]; split; (lia || done).
Qed.

(** The layout that the eight attempts leave is the result of one attempt,
    run on one ordering of the pool. *)
Lemma attempts_result random wordPool pos best pos' :
  forEach (seqZ 0 8) ([], createEmptyGrid) (attemptStep random wordPool) pos
  = Some (best, pos') →
  ∃ shuffledPool, shuffledPool ≡ₚ wordPool ∧ runAttempt shuffledPool = Some (best.2, best.1).
Proof.
  intros H.
  apply (forEach_gen_inv
           (λ (seen : list Z) (best : list PlacedWord * list (list string)),
              (seen = [] ∧ best = ([], createEmptyGrid)) ∨
              ∃ shuffledPool, shuffledPool ≡ₚ wordPool ∧
                              runAttempt shuffledPool = Some (best.2, best.1))
           _ _ []) in H.
  - destruct H as [[? _]|H]; [done|exact H].
  - by left.
  - intros seen x s1 pos1 s2 pos2 Hs1 Hstep. right.
    apply attemptStep_cases in Hstep
      as (sp & g & placed & Hperm & Hrun & [[Hlt ->]|[Hle ->]]).
    + by exists sp.
    + destruct Hs1 as [[_ ->]|Hs1]; [|done].
      simpl in Hle. destruct placed; [|simpl in Hle; lia].
      exists sp. split; [done|].
      destruct (runAttempt_attemptOK sp g [] Hrun) as [_ Hseed].
      destruct (fitting sp); [by destruct Hseed as [_ ->]|by destruct Hseed].
Qed.

(** The layout behind a returned puzzle: the result of an attempt on an
    ordering of the pool, sorted and numbered. *)
Lemma generatePuzzle_attempt random wordPool solutionWords pos p pos' :
  generatePuzzle random wordPool solutionWords pos = Some (p, pos') →
  ∃ shuffledPool g placed,
    shuffledPool ≡ₚ wordPool ∧ runAttempt shuffledPool = Some (g, placed) ∧
    placedWords p = numberClues placed.
Proof.
  intros H.
  apply generatePuzzle_stages in H as (best & pos1 & cg0 & cg & lcs & st & _ & Hbest & _ & _ & _ & _ & ->).
  apply attempts_result in Hbest as (sp & Hperm & Hrun).
  by exists sp, best.2, best.1.
Qed.

(** ** Sorting and numbering keep the words *)

Lemma Forall2_fmap_eq {A B} (f : A → B) (l l' : list A) :
  Forall2 (λ a b, f b = f a) l l' → f <$> l' = f <$> l.
Proof. induction 1 as [|a b l l' Hab _ IH]; [done|]. rewrite !fmap_cons. by f_equal. Qed.

Lemma numberClues_entries (placed : list PlacedWord) :
  pwEntry <$> numberClues placed ≡ₚ pwEntry <$> placed.
Proof.
  rewrite <- (sortPlaced_perm placed) at 2.
  assert (pwEntry <$> numberClues placed = pwEntry <$> sortPlaced placed) as ->; [|done].
  apply Forall2_fmap_eq. eapply Forall2_impl; [apply numberClues_spec|]. by intros a b ->.
Qed.

Lemma numberClues_length (placed : list PlacedWord) :
  length (numberClues placed) = length placed.
Proof.
  rewrite <- (length_fmap pwEntry), numberClues_entries, length_fmap. done.
Qed.

Lemma fitting_perm (l l' : list WordEntry) : l ≡ₚ l' → fitting l ≡ₚ fitting l'.
Proof. intros H. unfold fitting. by rewrite H. Qed.

(** ** Properties of the returned list of words *)

(** A returned puzzle never has more than 28 placed words. *)
Theorem placed_words_capped (random : nat → nat) (wordPool : list WordEntry)
    (solutionWords : list string) (pos : nat) (p : Puzzle) (pos' : nat) :
  generatePuzzle random wordPool solutionWords pos = Some (p, pos') →
  (length (placedWords p) ≤ 28)%nat.
Proof.
  intros H. apply generatePuzzle_attempt in H as (sp & g & placed & _ & Hrun & ->).
  rewrite numberClues_length.
  destruct (runAttempt_attemptOK sp g placed Hrun) as [Hok _]. apply Hok.
Qed.

Lemma placed_words_capped_witness : (length (placedWords demoPuzzle) ≤ 28)%nat.
Proof.
  apply (placed_words_capped zeroDraws demoPool demoSolutionWords 0%nat demoPuzzle demoEnd).
  exact demoRun_eq.
Defined.

(** The word and clue of every placed word are those of an entry of the
    pool that is not longer than the grid is wide, and no entry is used more
    often than the pool holds it. *)
Theorem placed_words_from_pool (random : nat → nat) (wordPool : list WordEntry)
    (solutionWords : list string) (pos : nat) (p : Puzzle) (pos' : nat) :
  generatePuzzle random wordPool solutionWords pos = Some (p, pos') →
  (pwEntry <$> placedWords p) ⊆+ (weEntry <$> fitting wordPool).
Proof.
  intros H. apply generatePuzzle_attempt in H as (sp & g & placed & Hperm & Hrun & ->).
  rewrite numberClues_entries, <- (fitting_perm _ _ Hperm).
  destruct (runAttempt_attemptOK sp g placed Hrun) as [Hok _].
  apply sublist_submseteq, Hok.
Qed.

Lemma placed_words_from_pool_witness :
  (pwEntry <$> placedWords demoPuzzle) ⊆+ (weEntry <$> fitting demoPool).
Proof.
  apply (placed_words_from_pool zeroDraws demoPool demoSolutionWords 0%nat
           demoPuzzle demoEnd).
  exact demoRun_eq.
Defined.

Lemma numberClues_elem_of (placed : list PlacedWord) (a : PlacedWord) :
  a ∈ placed → ∃ b, b ∈ numberClues placed ∧ b = withPwNumber (pw_number b) a.
Proof.
  intros Ha. destruct (numberClues_positions placed) as (_ & _ & _ & Hback). by apply Hback.
Qed.

(** The puzzle has no placed word exactly when no entry of the pool fits
    the grid; otherwise the seed of the kept attempt is among the placed
    words: an across word in row 7 whose start column centres it. *)
Theorem seed_word_centred (random : nat → nat) (wordPool : list WordEntry)
    (solutionWords : list string) (pos : nat) (p : Puzzle) (pos' : nat) :
  generatePuzzle random wordPool solutionWords pos = Some (p, pos') →
  (placedWords p = [] ↔ ∀ e, e ∈ wordPool → GRID_SIZE < wlen (we_word e)) ∧
  (placedWords p ≠ [] →
   ∃ pw, pw ∈ placedWords p ∧ pw_direction pw = across ∧ pw_row pw = 7 ∧
         pw_col pw = (GRID_SIZE - wlen (pw_word pw)) / 2 ∧
         ∃ e, e ∈ wordPool ∧ pwEntry pw = weEntry e).
Proof.
  intros H. apply generatePuzzle_attempt in H as (sp & g & placed & Hperm & Hrun & ->).
  destruct (runAttempt_attemptOK sp g placed Hrun) as [_ Hseed].
  assert (fitting sp = [] ↔ ∀ e, e ∈ wordPool → GRID_SIZE < wlen (we_word e)) as Hnone.
  { unfold fitting. split.
    - intros Hnil e He. rewrite <- Hperm in He.
      destruct (decide (wlen (we_word e) ≤ GRID_SIZE)) as [Hle|]; [|lia].
      assert (e ∈ filter (λ w, wlen (we_word w) ≤ GRID_SIZE) sp) as Hin
        by by apply list_elem_of_filter.
      rewrite Hnil in Hin. set_solver.
    - intros Hall. destruct (filter _ sp) as [|e rest] eqn:Hf; [done|].
      assert (e ∈ filter (λ w, wlen (we_word w) ≤ GRID_SIZE) sp) as Hin
        by (rewrite Hf; set_solver).
      apply list_elem_of_filter in Hin as [Hle Hin]. rewrite Hperm in Hin.
      specialize (Hall e Hin). lia. }
  assert (numberClues placed = [] ↔ placed = []) as Hnil.
  { rewrite <- !length_zero_iff_nil, numberClues_length. done. }
  split.
  - rewrite Hnil, <- Hnone. destruct (fitting sp); [by destruct Hseed|].
    destruct Hseed as [rest ->]. done.
  - rewrite Hnil. intros Hne.
    destruct (fitting sp) as [|first rest] eqn:Hfit; [by destruct Hseed|].
    destruct Hseed as [rest' ->].
    destruct (numberClues_elem_of (seedOf first :: rest') (seedOf first)) as (b & Hb & Hbe);
      [set_solver|].
    exists b. split; [done|]. rewrite Hbe. simpl. split; [done|]. split; [done|].
    split; [done|]. exists first. split; [|done].
    rewrite <- Hperm.
    assert (first ∈ fitting sp) as Hin by (rewrite Hfit; set_solver).
    apply list_elem_of_filter in Hin. apply Hin.
Qed.

Lemma seed_word_centred_witness :
  ∃ pw, pw ∈ placedWords demoPuzzle ∧ pw_direction pw = across ∧ pw_row pw = 7 ∧
        pw_col pw = (GRID_SIZE - wlen (pw_word pw)) / 2 ∧
        ∃ e, e ∈ demoPool ∧ pwEntry pw = weEntry e.
Proof.
  destruct (seed_word_centred zeroDraws demoPool demoSolutionWords 0%nat demoPuzzle demoEnd
              demoRun_eq) as [_ Hseed].
  apply Hseed. discriminate.
Defined.

(** ** The crossword is in one piece *)

Lemma covers_withPwNumber n pw rc : covers (withPwNumber n pw) rc ↔ covers pw rc.
Proof. done. Qed.

Lemma connectedWords_numberClues (placed : list PlacedWord) :
  connectedWords placed → connectedWords (numberClues placed).
Proof.
  intros Hconn.
  destruct (numberClues_positions placed) as (f & _ & Hpos & Hback).
  assert (∀ b, b ∈ numberClues placed →
               ∃ a, a ∈ placed ∧ b = withPwNumber (pw_number b) a) as Hfrom.
  { intros b Hb. apply list_elem_of_lookup in Hb as [i Hi].
    destruct (Hpos i b Hi) as (a & Ha & Hbe). exists a.
    split; [by eapply list_elem_of_lookup_2|done]. }
  assert (∀ a b b', a ∈ placed → b ∈ numberClues placed → b' ∈ numberClues placed →
                    b = withPwNumber (pw_number b) a →
                    b' = withPwNumber (pw_number b') a → b = b') as Hsame.
  { intros a b b' Ha Hb Hb' Hbe Hbe'.
    rewrite Hbe, Hbe'. f_equal.
    rewrite (numberClues_rank placed b Hb), (numberClues_rank placed b' Hb').
    f_equal. rewrite Hbe, Hbe'. done. }
  assert (∀ a a', rtc (λ x y, x ∈ placed ∧ y ∈ placed ∧ crossing x y) a a' →
                  a ∈ placed →
                  ∀ b b', b ∈ numberClues placed → b' ∈ numberClues placed →
                          b = withPwNumber (pw_number b) a →
                          b' = withPwNumber (pw_number b') a' →
                          rtc (λ x y, x ∈ numberClues placed ∧ y ∈ numberClues placed ∧
                                      crossing x y) b b') as Hpath.
  { intros a a' Hrtc. induction Hrtc as [a|a a1 a' (Ha & Ha1 & Hcross) _ IH];
      intros Hain b b' Hb Hb' Hbe Hbe'.
    - rewrite (Hsame a b b' Hain Hb Hb' Hbe Hbe'). apply rtc_refl.
    - destruct (Hback a1 Ha1) as (b1 & Hb1 & Hb1e).
      eapply rtc_l; [|by apply (IH Ha1 b1 b')].
      split; [done|]. split; [done|].
      destruct Hcross as (rc & Hc & Hc1). exists rc.
      rewrite Hbe, Hb1e. done. }
  intros b b' Hb Hb'.
  destruct (Hfrom b Hb) as (a & Ha & Hbe). destruct (Hfrom b' Hb') as (a' & Ha' & Hbe').
  by apply (Hpath a a' (Hconn a a' Ha Ha') Ha b b').
Qed.

(** The placed words of a returned puzzle form one connected crossword:
    any two of them are linked by a chain of placed words in which each
    word shares a cell with the next. *)
Theorem crossword_connected (random : nat → nat) (wordPool : list WordEntry)
    (solutionWords : list string) (pos : nat) (p : Puzzle) (pos' : nat) :
  generatePuzzle random wordPool solutionWords pos = Some (p, pos') →
  connectedWords (placedWords p).
Proof.
  intros H. apply generatePuzzle_attempt in H as (sp & g & placed & _ & Hrun & ->).
  destruct (runAttempt_attemptOK sp g placed Hrun) as [Hok _].
  apply connectedWords_numberClues, Hok.
Qed.

Lemma crossword_connected_witness : connectedWords (placedWords demoPuzzle).
Proof.
  apply (crossword_connected zeroDraws demoPool demoSolutionWords 0%nat demoPuzzle demoEnd).
  exact demoRun_eq.
Defined.

(** ** The order of the list of placed words *)

Lemma StronglySorted_lookup_lt {A} (R : relation A) (l : list A) (i j : nat) (a b : A) :
  StronglySorted R l → l !! i = Some a → l !! j = Some b → (i < j)%nat → R a b.
Proof.
  intros Hs Ha Hb Hij. rewrite <- (take_drop j l) in Hs.
  eapply StronglySorted_app_1_elem_of; [done| |].
  - apply list_elem_of_lookup. exists i. by rewrite lookup_take_lt.
  - apply list_elem_of_lookup. exists 0%nat. by rewrite lookup_drop, Nat.add_0_r.
Qed.

Lemma StronglySorted_startLe_same (l l' : list PlacedWord) :
  Forall2 (λ a b, startCell a = startCell b) l l' →
  StronglySorted startLe l → StronglySorted startLe l'.
Proof.
  intros H2. induction H2 as [|a b l l' Hab H2 IH]; intros Hs; [constructor|].
  apply StronglySorted_inv in Hs as [Hs Hall]. constructor; [by apply IH|].
  rewrite Forall_forall in Hall. apply Forall_forall. intros y Hy.
  apply list_elem_of_lookup in Hy as [i Hi].
  destruct (Forall2_lookup_r _ _ _ _ _ H2 Hi) as (x & Hx & Hxy).
  specialize (Hall x (list_elem_of_lookup_2 _ _ _ Hx)).
  unfold startLe in *. by rewrite <- Hab, <- Hxy.
Qed.

(** The placed words are listed in reading order of their start cells (row
    first, then column), so their clue numbers never decrease along the
    list. *)
Theorem placed_words_in_reading_order (random : nat → nat) (wordPool : list WordEntry)
    (solutionWords : list string) (pos : nat) (p : Puzzle) (pos' : nat) :
  generatePuzzle random wordPool solutionWords pos = Some (p, pos') →
  StronglySorted startLe (placedWords p) ∧
  ∀ i j a b, (i ≤ j)%nat → placedWords p !! i = Some a → placedWords p !! j = Some b →
             pw_number a ≤ pw_number b.
Proof.
  intros H. apply generatePuzzle_attempt in H as (sp & g & placed & _ & _ & ->).
  assert (StronglySorted startLe (numberClues placed)) as Hsorted.
  { apply (StronglySorted_startLe_same (sortPlaced placed)); [|apply sortPlaced_sorted].
    eapply Forall2_impl; [apply numberClues_spec|]. by intros a b ->. }
  split; [done|].
  intros i j a b Hij Ha Hb.
  pose proof (list_elem_of_lookup_2 _ _ _ Ha) as Hain.
  pose proof (list_elem_of_lookup_2 _ _ _ Hb) as Hbin.
  destruct (decide (i = j)) as [->|Hne]; [by simplify_eq|].
  assert (startLe a b) as [Hlt|Heq].
  { eapply (StronglySorted_lookup_lt startLe); [done|exact Ha|exact Hb|lia]. }
  - rewrite (numberClues_rank _ _ Hain), (numberClues_rank _ _ Hbin).
    apply Z.lt_le_incl. by apply clueRank_lt.
  - rewrite (numberClues_rank _ _ Hain), (numberClues_rank _ _ Hbin). by rewrite Heq.
Qed.

Lemma placed_words_in_reading_order_witness :
  StronglySorted startLe (placedWords demoPuzzle).
Proof.
  destruct (placed_words_in_reading_order zeroDraws demoPool demoSolutionWords 0%nat
              demoPuzzle demoEnd demoRun_eq) as [Hsorted _].
  exact Hsorted.
Defined.

(** ** The choice of the solution word *)



(** ** The clue references and the play state of the cells *)

(** The clue reference of a cell for an orientation. *)
Definition clueRef (d : direction) (x : Cell) : option Z :=
  match d with across => acrossClue x | down => downClue x end.

Definition withClueRef (d : direction) (n : Z) : Cell → Cell :=
  match d with across => withAcrossClue n | down => withDownClue n end.

(** A cell nobody has played on. *)
Definition blank (x : Cell) : Prop :=
  userInput x = ""%string ∧ revealed x = false ∧ checked x = false ∧ isCorrect x = None.

(** The reference is the number of a word of [seen] with that orientation
    on the cell, and null when [seen] has no such word. *)
Definition clueRefOK (d : direction) (seen : list PlacedWord) (rc : Z * Z)
    (n : option Z) : Prop :=
  match n with
  | Some n => ∃ pw, pw ∈ seen ∧ pw_direction pw = d ∧ covers pw rc ∧ pw_number pw = n
  | None => ∀ pw, pw ∈ seen → pw_direction pw = d → ¬ covers pw rc
  end.

Definition refCell (seen : list PlacedWord) (rc : Z * Z) (x : Cell) : Prop :=
  blank x ∧ ∀ d, clueRefOK d seen rc (clueRef d x).

Lemma blank_withClueRef d n x : blank x → blank (withClueRef d n x).
Proof. by destruct d. Qed.

Lemma clueRef_withClueRef d n x : clueRef d (withClueRef d n x) = Some n.
Proof. by destruct d. Qed.

Lemma clueRef_withClueRef_other d n x :
  clueRef (otherDir d) (withClueRef d n x) = clueRef (otherDir d) x.
Proof. by destruct d. Qed.

Lemma clueRefOK_other d seen pw rc n :
  (pw_direction pw = d → ¬ covers pw rc) →
  clueRefOK d seen rc n → clueRefOK d (seen ++ [pw]) rc n.
Proof.
  intros Hpw. destruct n as [n|]; simpl.
  - intros (pw' & Hin & H). exists pw'. split; [set_solver|done].
  - intros Hnone pw' Hin Hd. apply elem_of_app in Hin as [Hin|Hin]; [by apply Hnone|].
    apply list_elem_of_singleton in Hin as ->. by apply Hpw.
Qed.

(** The cells of the grid while the references of [pw] are being set: the
    positions [vis] of the word are done. *)
Definition refCellDuring (seen : list PlacedWord) (pw : PlacedWord) (vis : list Z)
    (rc : Z * Z) (x : Cell) : Prop :=
  blank x ∧
  clueRefOK (otherDir (pw_direction pw)) seen rc (clueRef (otherDir (pw_direction pw)) x) ∧
  ((∃ i, i ∈ vis ∧ pwCell pw i = rc) → clueRef (pw_direction pw) x = Some (pw_number pw)) ∧
  ((∀ i, i ∈ vis → pwCell pw i ≠ rc) →
   clueRefOK (pw_direction pw) seen rc (clueRef (pw_direction pw) x)).

Lemma markRefs_spec (seen : list PlacedWord) (pw : PlacedWord) (g : list (list Cell)) :
  fitsInGrid (pw_word pw) (pw_row pw) (pw_col pw) (pw_direction pw) →
  gridCells (refCell seen) g →
  ∃ g', forEach (seqZ 0 (wlen (pw_word pw))) g
                (λ g i, updCell g (pwCell pw i).1 (pwCell pw i).2
                                (withClueRef (pw_direction pw) (pw_number pw))) = Some g' ∧
        gridCells (refCell (seen ++ [pw])) g'.
Proof.
  intros Hfits Hg.
  destruct (forEach_opt_spec
              (λ vis g, gridCells (refCellDuring seen pw vis) g)
              (λ g i, updCell g (pwCell pw i).1 (pwCell pw i).2
                              (withClueRef (pw_direction pw) (pw_number pw)))
              (seqZ 0 (wlen (pw_word pw))) [] g) as (g' & Hrun & Hg').
  - eapply gridCells_impl; [done|]. intros r c x _ _ (Hblank & Hrefs).
    split; [done|]. split; [apply Hrefs|]. split.
    + intros (i & Hi & _). set_solver.
    + intros _. apply Hrefs.
  - intros vis i rest g1 Heq Hg1. simpl in Heq.
    assert (0 ≤ i < wlen (pw_word pw)) as Hi.
    { assert (i ∈ seqZ 0 (wlen (pw_word pw))) as H by (rewrite Heq; set_solver).
      apply elem_of_seqZ in H. lia. }
    pose proof (fitsInGrid_cells _ _ _ _ i Hfits Hi) as Hin. fold (pwCell pw i) in Hin.
    destruct (pwCell pw i) as [r0 c0] eqn:Hcell. simpl in Hin |- *.
    apply (updCell_gridCells (refCellDuring seen pw vis)); [done|done| |].
    + intros x _ (Hblank & Hother & _ & _).
      split; [by apply blank_withClueRef|].
      split; [by rewrite clueRef_withClueRef_other|].
      split; [intros _; apply clueRef_withClueRef|].
      intros Hnone. exfalso. apply (Hnone i); [set_solver|done].
    + intros r' c' x Hne _ (Hblank & Hother & Hdone & Htodo).
      split; [done|]. split; [done|]. split.
      * intros (j & Hj & Hc). apply Hdone. exists j. split; [|done].
        apply elem_of_app in Hj as [Hj|Hj]; [done|].
        apply list_elem_of_singleton in Hj as ->. congruence.
      * intros Hnone. apply Htodo. intros j Hj. apply Hnone. set_solver.
  - exists g'. split; [done|]. simpl in Hg'.
    eapply gridCells_impl; [done|]. intros r c x _ _ (Hblank & Hother & Hdone & Htodo).
    split; [done|]. intros d.
    destruct (decide (d = pw_direction pw)) as [->|Hd].
    + destruct (onWord_dec (pw_word pw) (pw_row pw) (pw_col pw) (pw_direction pw) (r, c))
        as [(i & Hi & Hc)|Hoff].
      * rewrite Hdone.
        -- exists pw. split; [set_solver|]. split; [done|]. split; [by exists i|done].
        -- exists i. split; [apply elem_of_seqZ; lia|done].
      * apply clueRefOK_other.
        -- intros _ (i & Hi & Hc). by apply (Hoff i).
        -- apply Htodo. intros i Hi. apply elem_of_seqZ in Hi. apply Hoff. lia.
    + assert (d = otherDir (pw_direction pw)) as -> by by destruct d, (pw_direction pw).
      apply clueRefOK_other; [|done]. intros Heq. by destruct (pw_direction pw).
Qed.

Lemma refCell_withNumber seen rc n x : refCell seen rc x → refCell seen rc (withNumber n x).
Proof. intros [Hblank Hrefs]. split; [done|]. intros d. specialize (Hrefs d). by destruct d. Qed.

Lemma setClueRefs_refs (seen : list PlacedWord) (g : list (list Cell)) (pw : PlacedWord) :
  gridCells (refCell seen) g → geometryOK pw →
  ∃ g', setClueRefs g pw = Some g' ∧ gridCells (refCell (seen ++ [pw])) g'.
Proof.
  intros Hg [Hfits Hstart]. unfold setClueRefs.
  destruct (proj2 Hg _ _ Hstart) as (cell & Hcell & Hcellref).
  rewrite Hcell. simpl.
  assert (∃ g1, (if match number cell with
                    | Some n => pw_number pw <? n
                    | None => true
                    end
                 then setCell g (pw_row pw) (pw_col pw) (withNumber (pw_number pw) cell)
                 else Some g) = Some g1 ∧
                gridCells (refCell seen) g1) as (g1 & -> & Hg1).
  { destruct (match number cell with Some n => pw_number pw <? n | None => true end);
      [|by exists g].
    apply (setCell_gridCells (refCell seen)); [done|done| |done].
    by apply refCell_withNumber. }
  simpl.
  destruct (markRefs_spec seen pw g1 Hfits Hg1) as (g' & Hrun & Hg').
  exists g'. split; [|done]. rewrite <- Hrun.
  apply forEach_opt_ext. intros g2 i _. unfold pwCell. by destruct (pw_direction pw).
Qed.

Lemma setAllClueRefs_refs (bestGrid : list (list string)) (cg0 : list (list Cell))
    (bestPlaced : list PlacedWord) :
  gridCells (λ rc x, ∃ s, cellAt bestGrid rc.1 rc.2 = Some s ∧ x = newCell s) cg0 →
  Forall geometryOK bestPlaced →
  ∃ cg, setAllClueRefs cg0 bestPlaced = Some cg ∧ gridCells (refCell bestPlaced) cg.
Proof.
  intros Hcg0 Hgeo. unfold setAllClueRefs.
  apply (forEach_opt_spec (λ seen g, gridCells (refCell seen) g) _ bestPlaced []).
  - eapply gridCells_impl; [done|]. intros r c x _ _ (s & _ & ->).
    split; [done|]. intros d. destruct d; intros pw Hpw; set_solver.
  - intros seen pw rest g Heq Hg. apply setClueRefs_refs; [done|].
    rewrite Forall_forall in Hgeo. apply Hgeo. simpl in Heq. rewrite Heq. set_solver.
Qed.

(** ** What the overlay leaves alone *)

(** The fields the overlay never writes. *)
Definition overlayKeeps (x x0 : Cell) : Prop :=
  userInput x = userInput x0 ∧ isBlack x = isBlack x0 ∧ number x = number x0 ∧
  acrossClue x = acrossClue x0 ∧ downClue x = downClue x0 ∧
  revealed x = revealed x0 ∧ checked x = checked x0 ∧ isCorrect x = isCorrect x0.

Lemma overlay_keeps random solutionWord cellToWords lcs cg0 pos st pos' :
  wfGrid cg0 → (∀ rc, rc ∈ lcs → inGrid rc.1 rc.2) →
  forEach (seqZ 0 (wlen solutionWord)) (mkOverlay cg0 [] ∅ ∅)
          (overlayStep random solutionWord cellToWords lcs) pos = Some (st, pos') →
  wfGrid (ov_grid st) ∧
  ∀ r c x, cellAt (ov_grid st) r c = Some x →
           ∃ x0, cellAt cg0 r c = Some x0 ∧ overlayKeeps x x0.
Proof.
  intros Hwf Hin H.
  apply (forEach_gen_inv
           (λ (_ : list Z) st,
              wfGrid (ov_grid st) ∧
              ∀ r c x, cellAt (ov_grid st) r c = Some x →
                       ∃ x0, cellAt cg0 r c = Some x0 ∧ overlayKeeps x x0)
           _ _ []) in H; [done| |].
  - split; [done|]. intros r c x Hx. exists x. split; [done|]. by repeat split.
  - intros _ i st1 pos1 st2 pos2 [Hwf1 Hkeep] Hstep.
    assert (0 ≤ i < wlen solutionWord) as Hi.
    { unfold overlayStep in Hstep. apply gen_bind_Some in Hstep as (t & ? & Ht & _).
      apply liftOpt_Some in Ht as [Ht _]. by apply letterAt_Some in Ht as [? _]. }
    destruct (overlayStep_effect random solutionWord cellToWords lcs Hin st1 i pos1 Hwf1 Hi)
      as (st' & pos'' & target & Hrun & _ & Heffect).
    rewrite Hstep in Hrun. injection Hrun as <- <-.
    assert (∀ chosen overwrite, claimed st1 st2 chosen i target overwrite →
              wfGrid (ov_grid st2) ∧
              ∀ r c x, cellAt (ov_grid st2) r c = Some x →
                       ∃ x0, cellAt cg0 r c = Some x0 ∧ overlayKeeps x x0) as Hclaimed.
    { intros chosen overwrite (Hwf2 & _ & _ & (y & Hy & Hy') & Hother).
      split; [done|]. intros r c x Hx.
      destruct (decide ((r, c) = chosen)) as [<-|Hne].
      - simpl in *. rewrite Hy' in Hx. injection Hx as <-.
        destruct (Hkeep r c y Hy) as (x0 & Hx0 & Hk). exists x0. split; [done|].
        by destruct overwrite.
      - rewrite Hother in Hx by done. by apply Hkeep. }
    destruct Heffect as [(chosen & _ & _ & _ & Hcl)|[(_ & chosen & _ & _ & Hcl)|[_ ->]]].
    + by apply (Hclaimed chosen false).
    + by apply (Hclaimed chosen true).
    + done.
Qed.

(** The cell grid of a returned puzzle, with the clue references of its
    placed words and the fields the overlay kept. *)
Lemma generatePuzzle_cells random wordPool solutionWords pos p pos' :
  generatePuzzle random wordPool solutionWords pos = Some (p, pos') →
  wfGrid (grid p) ∧
  ∀ r c x, cellAt (grid p) r c = Some x →
           ∃ x0, refCell (placedWords p) (r, c) x0 ∧ overlayKeeps x x0.
Proof.
  intros H.
  apply generatePuzzle_stages in H
    as (best & pos1 & cg0 & cg & lcs & st & _ & Hbest & Hcg0 & Hcg & Hlcs & Hst & Hp).
  apply attempts_result in Hbest as (sp & _ & Hrun).
  destruct (runAttempt_attemptOK sp _ _ Hrun) as [[Hok _ _ _ _ _] _].
  destruct (buildCellGrid_spec best.2 (lo_wf _ _ Hok)) as (cg0' & Hcg0' & Hcells0).
  rewrite Hcg0 in Hcg0'. injection Hcg0' as <-.
  destruct (setAllClueRefs_refs best.2 cg0 (numberClues best.1) Hcells0) as (cg' & Hcg' & Hrefs).
  { by apply numberClues_geometry, (layoutOK_geometry best.2). }
  rewrite Hcg in Hcg'. injection Hcg' as <-.
  pose proof (collectLetterCells_spec cg (proj1 Hrefs)) as Hlcs'.
  rewrite Hlcs in Hlcs'. injection Hlcs' as ->.
  apply overlay_keeps in Hst as [Hwf Hkeep]; [|apply Hrefs|].
  - rewrite Hp. simpl. split; [done|]. intros r c x Hx.
    destruct (Hkeep r c x Hx) as (x0 & Hx0 & Hk). exists x0. split; [|done].
    pose proof (cellAt_Some_inGrid _ _ _ _ (proj1 Hrefs) Hx0) as Hin.
    destruct (proj2 Hrefs r c Hin) as (x0' & Hx0' & Href). by simplify_eq.
  - intros rc Hrc. apply list_elem_of_filter in Hrc as [_ Hrc]. by apply elem_of_allCells.
Qed.

(** The grid of a returned puzzle is 15x15 and nobody has played on it:
    every cell has an empty [userInput], is neither revealed nor checked,
    and has a null [isCorrect]. *)
Theorem cells_start_blank (random : nat → nat) (wordPool : list WordEntry)
    (solutionWords : list string) (pos : nat) (p : Puzzle) (pos' : nat) :
  generatePuzzle random wordPool solutionWords pos = Some (p, pos') →
  wfGrid (grid p) ∧
  ∀ r c, inGrid r c →
    ∃ x, cellAt (grid p) r c = Some x ∧
         userInput x = ""%string ∧ revealed x = false ∧ checked x = false ∧
         isCorrect x = None.
Proof.
  intros H. apply generatePuzzle_cells in H as [Hwf Hcells]. split; [done|].
  intros r c Hin. destruct (cellAt_inGrid _ _ _ Hwf Hin) as [x Hx]. exists x. split; [done|].
  destruct (Hcells r c x Hx) as (x0 & [(Hu & Hr & Hc & Hi) _] & (Hu' & _ & _ & _ & _ & Hr' & Hc' & Hi')).
  by rewrite Hu', Hr', Hc', Hi'.
Qed.

Lemma cells_start_blank_witness :
  wfGrid (grid demoPuzzle) ∧
  ∃ x, cellAt (grid demoPuzzle) 7 5 = Some x ∧
       userInput x = ""%string ∧ revealed x = false ∧ checked x = false ∧
       isCorrect x = None.
Proof.
  destruct (cells_start_blank zeroDraws demoPool demoSolutionWords 0%nat demoPuzzle demoEnd
              demoRun_eq) as [Hwf Hcells].
  split; [exact Hwf|]. apply Hcells. vm_compute. intuition discriminate.
Defined.

(** The clue references of a cell of a returned puzzle. *)
Lemma generatePuzzle_clueRef random wordPool solutionWords pos p pos' :
  generatePuzzle random wordPool solutionWords pos = Some (p, pos') →
  ∀ r c, inGrid r c →
    ∃ x, cellAt (grid p) r c = Some x ∧
         ∀ d n, clueRef d x = Some n
                ↔ ∃ pw, pw ∈ placedWords p ∧ pw_direction pw = d ∧ covers pw (r, c) ∧
                        pw_number pw = n.
Proof.
  intros H.
  destruct (generatePuzzle_generatedBy _ _ _ _ _ _ H)
    as (bestGrid & placed0 & _ & _ & Hok & Hplaced & _).
  assert (legalCrossword (placedWords p)) as (_ & _ & Hsingle).
  { rewrite Hplaced. by apply legalCrossword_numberClues, (layoutOK_legal bestGrid). }
  apply generatePuzzle_cells in H as [Hwf Hcells].
  intros r c Hin. destruct (cellAt_inGrid _ _ _ Hwf Hin) as [x Hx]. exists x. split; [done|].
  destruct (Hcells r c x Hx) as (x0 & [_ Hrefs] & (_ & _ & _ & Ha & Hd & _)).
  intros d n. specialize (Hrefs d).
  assert (clueRef d x = clueRef d x0) as -> by by destruct d.
  split.
  - intros Hn. by rewrite Hn in Hrefs.
  - intros (pw & Hpw & Hdir & Hcov & Hnum).
    destruct (clueRef d x0) as [m|]; simpl in Hrefs.
    + destruct Hrefs as (pw' & Hpw' & Hdir' & Hcov' & Hnum').
      apply list_elem_of_lookup in Hpw as [i Hi]. apply list_elem_of_lookup in Hpw' as [j Hj].
      destruct (decide (i = j)) as [->|Hne]; [by simplify_eq|].
      exfalso. apply (Hsingle i j pw pw' (r, c)); (done || congruence).
    + exfalso. by apply (Hrefs pw).
Qed.

(** In a returned puzzle the [acrossClue] of a cell is the number of the
    across word that covers the cell, and null when no across word covers
    it; likewise [downClue] for the down words. *)
Theorem clue_references (random : nat → nat) (wordPool : list WordEntry)
    (solutionWords : list string) (pos : nat) (p : Puzzle) (pos' : nat) :
  generatePuzzle random wordPool solutionWords pos = Some (p, pos') →
  ∀ r c, inGrid r c →
    ∃ x, cellAt (grid p) r c = Some x ∧
         ∀ d n, clueRef d x = Some n
                ↔ ∃ pw, pw ∈ placedWords p ∧ pw_direction pw = d ∧ covers pw (r, c) ∧
                        pw_number pw = n.
Proof.
  intros H r c Hin.
  destruct (generatePuzzle_clueRef _ _ _ _ _ _ H r c Hin) as (x & Hx & Hrefs).
  exists x. split; [exact Hx|]. intros d n. apply Hrefs.
Qed.

Lemma clue_references_witness :
  ∃ x, cellAt (grid demoPuzzle) 7 5 = Some x ∧
       ∀ d n, clueRef d x = Some n
              ↔ ∃ pw, pw ∈ placedWords demoPuzzle ∧ pw_direction pw = d ∧
                      covers pw (7, 5) ∧ pw_number pw = n.
Proof.
  apply (clue_references zeroDraws demoPool demoSolutionWords 0%nat demoPuzzle demoEnd
           demoRun_eq 7 5).
  vm_compute. intuition discriminate.
Defined.

(** ** Black cells and letters *)

Lemma layoutOK_filled_iff_covered g placed rc :
  layoutOK g placed → inGrid rc.1 rc.2 →
  ∃ s, cellAt g rc.1 rc.2 = Some s ∧
       (s ≠ ""%string ↔ ∃ pw, pw ∈ placed ∧ covers pw rc).
Proof.
  intros Hok Hin. destruct (cellAt_inGrid _ _ _ (lo_wf _ _ Hok) Hin) as [s Hs].
  exists s. split; [done|]. split.
  - intros Hne. apply (lo_covered _ _ Hok). by exists s.
  - intros (pw & Hpw & Hcov). by destruct (layoutOK_covers_filled g placed pw rc Hok Hpw Hcov)
      as (s' & Hs' & Hne); simplify_eq.
Qed.

Lemma numberClues_covers (placed : list PlacedWord) (rc : Z * Z) :
  (∃ pw, pw ∈ numberClues placed ∧ covers pw rc) ↔ (∃ pw, pw ∈ placed ∧ covers pw rc).
Proof.
  destruct (numberClues_positions placed) as (f & _ & Hpos & Hback). split.
  - intros (b & Hb & Hcov). apply list_elem_of_lookup in Hb as [i Hi].
    destruct (Hpos i b Hi) as (a & Ha & Hbe). exists a.
    split; [by eapply list_elem_of_lookup_2|]. by rewrite Hbe in Hcov.
  - intros (a & Ha & Hcov). destruct (Hback a Ha) as (b & Hb & Hbe).
    exists b. split; [done|]. by rewrite Hbe.
Qed.

(** In a returned puzzle a cell is black exactly when no placed word
    covers it; a black cell has an empty letter; and a cell that is not a
    solution cell holds the letter of every placed word at the position
    that lies on it. *)
Theorem black_cells_and_letters (random : nat → nat) (wordPool : list WordEntry)
    (solutionWords : list string) (pos : nat) (p : Puzzle) (pos' : nat) :
  generatePuzzle random wordPool solutionWords pos = Some (p, pos') →
  ∀ r c, inGrid r c →
    ∃ x, cellAt (grid p) r c = Some x ∧
         (isBlack x = true ↔ ∀ pw, pw ∈ placedWords p → ¬ covers pw (r, c)) ∧
         (isBlack x = true → letter x = ""%string) ∧
         (isSolutionCell x = false →
          ∀ pw i, pw ∈ placedWords p → 0 ≤ i < wlen (pw_word pw) → pwCell pw i = (r, c) →
                  letterAt (pw_word pw) i = Some (letter x)).
Proof.
  intros H.
  destruct (generatePuzzle_generatedBy _ _ _ _ _ _ H)
    as (bestGrid & placed0 & cg & st & Hok & Hplaced & Hcg & Hst & Hgrid & Hsc).
  intros r c Hin. rewrite Hgrid.
  destruct (cellAt_inGrid _ _ _ (oo_wf _ _ _ _ _ Hst) Hin) as [x Hx].
  exists x. split; [done|].
  destruct (oo_frame _ _ _ _ _ Hst _ _ _ Hx) as (x0 & Hx0 & _ & Hblack).
  destruct (proj2 Hcg r c Hin) as (x0' & Hx0' & (s & Hs & Hletter & Hblack0) & _).
  rewrite Hx0 in Hx0'. injection Hx0' as <-.
  destruct (layoutOK_filled_iff_covered bestGrid placed0 (r, c) Hok Hin) as (s' & Hs' & Hcov).
  simpl in Hs, Hs'. rewrite Hs in Hs'. injection Hs' as <-.
  rewrite Hplaced.
  assert (isBlack x = true ↔ s = ""%string) as Hb.
  { rewrite Hblack, Hblack0. apply bool_decide_eq_true. }
  assert ((r, c) ∉ ov_usedCells st → letter x = s) as Hfree.
  { intros Hfree. rewrite (oo_untouched _ _ _ _ _ Hst r c Hfree) in Hx. by simplify_eq. }
  assert ((r, c) ∈ ov_usedCells st → isSolutionCell x = true ∧ isBlack x = false) as Hused.
  { intros Hu. rewrite (oo_used _ _ _ _ _ Hst) in Hu.
    apply elem_of_list_to_set, list_elem_of_fmap in Hu as (e & Hcell & He).
    destruct (oo_marked _ _ _ _ _ Hst e He) as (y & Hy & _ & Hsol & _).
    assert (sc_row e = r ∧ sc_col e = c) as [<- <-].
    { unfold scCell in Hcell. by injection Hcell as -> ->. }
    rewrite Hx in Hy. injection Hy as <-. split; [done|].
    pose proof (oo_cells _ _ _ _ _ Hst e He) as Hlc.
    apply list_elem_of_filter in Hlc as [Hlc _]. unfold isLetterCell, scCell in Hlc.
    simpl in Hlc. rewrite Hx0 in Hlc. rewrite Hblack. by apply negb_true_iff in Hlc. }
  split; [|split].
  - rewrite Hb. split.
    + intros -> pw Hpw Hc. assert (""%string ≠ ""%string); [|done].
      apply Hcov. apply numberClues_covers. by exists pw.
    + intros Hnone. destruct (decide (s = ""%string)) as [|Hne]; [done|]. exfalso.
      apply Hcov in Hne. apply numberClues_covers in Hne as (pw & Hpw & Hc).
      by apply (Hnone pw).
  - intros Hbl. destruct (decide ((r, c) ∈ ov_usedCells st)) as [Hu|Hu].
    + destruct (Hused Hu) as [_ ?]. congruence.
    + rewrite (Hfree Hu). by apply Hb.
  - intros Hnot pw i Hpw Hi Hcell.
    destruct (decide ((r, c) ∈ ov_usedCells st)) as [Hu|Hu].
    { destruct (Hused Hu) as [? _]. congruence. }
    rewrite (Hfree Hu), <- Hs.
    destruct (numberClues_positions placed0) as (f & _ & Hpos & _).
    apply list_elem_of_lookup in Hpw as [k Hk].
    destruct (Hpos k pw Hk) as (a & Ha & Hpe).
    pose proof (lo_letters _ _ Hok a i (list_elem_of_lookup_2 _ _ _ Ha)) as Hl.
    rewrite Hpe in Hi, Hcell |- *. unfold pwCell in Hcell. simpl in *.
    rewrite Hcell in Hl. simpl in Hl. symmetry. by apply Hl.
Qed.

Lemma black_cells_and_letters_witness :
  ∃ x, cellAt (grid demoPuzzle) 0 0 = Some x ∧
       (isBlack x = true ↔ ∀ pw, pw ∈ placedWords demoPuzzle → ¬ covers pw (0, 0)) ∧
       (isBlack x = true → letter x = ""%string).
Proof.
  destruct (black_cells_and_letters zeroDraws demoPool demoSolutionWords 0%nat demoPuzzle
              demoEnd demoRun_eq 0 0) as (x & Hx & Hb & Hl & _).
  - vm_compute. intuition discriminate.
  - exists x. split; [exact Hx|]. split; [exact Hb|exact Hl].
Defined.

(** Every solution cell of a returned puzzle lies inside the grid on a
    cell that a placed word covers, and its index is a position of the
    solution word. *)
Theorem solution_cells_on_words (random : nat → nat) (wordPool : list WordEntry)
    (solutionWords : list string) (pos : nat) (p : Puzzle) (pos' : nat) :
  generatePuzzle random wordPool solutionWords pos = Some (p, pos') →
  ∀ e, e ∈ solutionCells p →
       inGrid (sc_row e) (sc_col e) ∧
       0 ≤ sc_index e < wlen (solutionWord p) ∧
       (∃ x, cellAt (grid p) (sc_row e) (sc_col e) = Some x ∧ isBlack x = false) ∧
       ∃ pw, pw ∈ placedWords p ∧ covers pw (sc_row e, sc_col e).
Proof.
  intros H.
  destruct (generatePuzzle_generatedBy _ _ _ _ _ _ H)
    as (bestGrid & placed0 & cg & st & Hok & Hplaced & Hcg & Hst & Hgrid & Hsc).
  intros e He. rewrite Hsc in He.
  pose proof (oo_cells _ _ _ _ _ Hst e He) as Hlc.
  apply list_elem_of_filter in Hlc as [Hlc Hall]. apply elem_of_allCells in Hall.
  unfold scCell in Hall, Hlc. simpl in Hall.
  split; [done|]. split.
  { pose proof (oo_indices _ _ _ _ _ Hst e He) as Hi. apply elem_of_seqZ in Hi. lia. }
  destruct (oo_marked _ _ _ _ _ Hst e He) as (x & Hx & _).
  destruct (oo_frame _ _ _ _ _ Hst _ _ _ Hx) as (x0 & Hx0 & _ & Hblack).
  unfold isLetterCell in Hlc. simpl in Hlc. rewrite Hx0 in Hlc.
  apply negb_true_iff in Hlc.
  split.
  { exists x. rewrite Hgrid. split; [done|]. congruence. }
  destruct (proj2 Hcg _ _ Hall) as (x0' & Hx0' & (s & Hs & _ & Hblack0) & _).
  rewrite Hx0 in Hx0'. injection Hx0' as <-.
  destruct (layoutOK_filled_iff_covered bestGrid placed0 (sc_row e, sc_col e) Hok Hall)
    as (s' & Hs' & Hcov).
  simpl in Hs, Hs'. rewrite Hs in Hs'. injection Hs' as <-.
  rewrite Hplaced. apply numberClues_covers. apply Hcov.
  intros ->. rewrite Hblack0 in Hlc. by rewrite bool_decide_eq_true_2 in Hlc.
Qed.

Lemma solution_cells_on_words_witness :
  Forall (λ e, inGrid (sc_row e) (sc_col e) ∧
               0 ≤ sc_index e < wlen (solutionWord demoPuzzle) ∧
               (∃ x, cellAt (grid demoPuzzle) (sc_row e) (sc_col e) = Some x ∧
                     isBlack x = false) ∧
               ∃ pw, pw ∈ placedWords demoPuzzle ∧ covers pw (sc_row e, sc_col e))
         (solutionCells demoPuzzle).
Proof.
  apply Forall_forall.
  apply (solution_cells_on_words zeroDraws demoPool demoSolutionWords 0%nat demoPuzzle
           demoEnd demoRun_eq).
Defined.

(** ** The attempt that is kept is the largest *)

Lemma forEach_gen_inv_pos {A S} (I : list A → S → nat → Prop) (f : S → A → Gen S)
    (l visited : list A) (s : S) (pos : nat) (s' : S) (pos' : nat) :
  I visited s pos →
  (∀ seen x s1 pos1 s2 pos2, I seen s1 pos1 → f s1 x pos1 = Some (s2, pos2) →
                             I (seen ++ [x]) s2 pos2) →
  forEach l s f pos = Some (s', pos') → I (visited ++ l) s' pos'.
Proof.
  intros HI Hstep. revert visited s pos HI.
  induction l as [|x l IH]; intros visited s pos HI H; simpl in H.
  - injection H as <- <-. by rewrite app_nil_r.
  - apply gen_bind_Some in H as (s1 & pos1 & Hf & H).
    replace (visited ++ x :: l) with ((visited ++ [x]) ++ l) by by rewrite <- app_assoc.
    eapply IH; [|done]. by eapply Hstep.
Qed.

(** The position in the stream of draws at which attempt [k] of a run
    started at [pos] begins: one draw for the solution word, and one draw
    per entry of the pool but the first for every shuffle. *)
Definition attemptStart (wordPool : list WordEntry) (pos : nat) (k : nat) : nat :=
  (S pos + k * (length wordPool - 1))%nat.

(** None of the eight attempts has placed more words than the returned
    puzzle has: the attempt with the most words is the one that is kept. *)
Theorem kept_attempt_is_largest (random : nat → nat) (wordPool : list WordEntry)
    (solutionWords : list string) (pos : nat) (p : Puzzle) (pos' : nat) :
  generatePuzzle random wordPool solutionWords pos = Some (p, pos') →
  ∀ k, (k < 8)%nat →
    ∃ shuffledPool g placed,
      shuffle random wordPool (attemptStart wordPool pos k)
      = Some (shuffledPool, attemptStart wordPool pos (S k)) ∧
      runAttempt shuffledPool = Some (g, placed) ∧
      (length placed ≤ length (placedWords p))%nat.
Proof.
  intros H.
  apply generatePuzzle_stages in H
    as (best & pos1 & cg0 & cg & lcs & st & _ & Hbest & _ & _ & _ & _ & ->).
  simpl. rewrite numberClues_length.
  apply (forEach_gen_inv_pos
           (λ (seen : list Z) (best : list PlacedWord * list (list string)) (pos1 : nat),
              pos1 = attemptStart wordPool pos (length seen) ∧
              ∀ k, (k < length seen)%nat →
                ∃ shuffledPool g placed,
                  shuffle random wordPool (attemptStart wordPool pos k)
                  = Some (shuffledPool, attemptStart wordPool pos (S k)) ∧
                  runAttempt shuffledPool = Some (g, placed) ∧
                  (length placed ≤ length best.1)%nat)
           _ _ []) in Hbest.
  - destruct Hbest as [_ Hall]. intros k Hk. apply Hall. simpl.
    try rewrite length_seqZ. lia.
  - split; [unfold attemptStart; simpl; lia|]. intros k Hk. simpl in Hk. lia.
  - intros seen x s1 p1 s2 p2 [-> Hall] Hstep.
    unfold attemptStep in Hstep.
    apply gen_bind_Some in Hstep as (sp & p3 & Hsh & Hstep).
    destruct (shuffle_spec random wordPool (attemptStart wordPool pos (length seen)))
      as (sp' & Hsp' & _).
    rewrite Hsh in Hsp'.
    assert (p3 = attemptStart wordPool pos (S (length seen))) as ->.
    { injection Hsp' as _ ->. unfold attemptStart. lia. }
    clear sp' Hsp'.
    apply gen_bind_Some in Hstep as ([g placed] & p4 & Hrun & Hstep).
    apply liftOpt_Some in Hrun as [Hrun ->].
    assert (p2 = attemptStart wordPool pos (S (length seen)) ∧
            (length s1.1 ≤ length s2.1)%nat ∧ (length placed ≤ length s2.1)%nat)
      as (-> & Hold & Hnew).
    { destruct (Z.gtb_spec (Z.of_nat (length placed)) (Z.of_nat (length s1.1)));
        injection Hstep as <- <-; simpl; lia. }
    rewrite length_app. simpl. rewrite Nat.add_1_r. split; [done|].
    intros k Hk. destruct (decide (k = length seen)) as [->|Hne].
    + by exists sp, g, placed.
    + destruct (Hall k ltac:(lia)) as (sp0 & g0 & placed0 & H1 & H2 & H3).
      exists sp0, g0, placed0. split; [done|]. split; [done|]. lia.
Qed.

Lemma kept_attempt_is_largest_witness :
  ∃ shuffledPool g placed,
    shuffle zeroDraws demoPool (attemptStart demoPool 0 3)
    = Some (shuffledPool, attemptStart demoPool 0 4) ∧
    runAttempt shuffledPool = Some (g, placed) ∧
    (length placed ≤ length (placedWords demoPuzzle))%nat.
Proof.
  apply (kept_attempt_is_largest zeroDraws demoPool demoSolutionWords 0%nat demoPuzzle
           demoEnd demoRun_eq 3%nat).
  lia.
Defined.

(** * The game: properties *)

(** ** Writing to the cells of the grid *)

(** Two grids of the right size with the same cells are the same grid. *)
Lemma grid_ext {A} (g1 g2 : list (list A)) :
  wfGrid g1 → wfGrid g2 →
  (∀ r c, inGrid r c → cellAt g1 r c = cellAt g2 r c) → g1 = g2.
Proof.
  intros [Hl1 Hr1] [Hl2 Hr2] Hcells.
  apply list_eq. intros i.
  destruct (decide (i < Z.to_nat GRID_SIZE)%nat) as [Hi|Hi]; last first.
  { rewrite !lookup_ge_None_2 by lia. done. }
  destruct (lookup_lt_is_Some_2 g1 i) as [row1 Hrow1]; [lia|].
  destruct (lookup_lt_is_Some_2 g2 i) as [row2 Hrow2]; [lia|].
  rewrite Hrow1, Hrow2. f_equal.
  rewrite Forall_lookup in Hr1, Hr2.
  pose proof (Hr1 _ _ Hrow1) as Hlen1. pose proof (Hr2 _ _ Hrow2) as Hlen2.
  apply list_eq. intros j.
  destruct (decide (j < Z.to_nat GRID_SIZE)%nat) as [Hj|Hj]; last first.
  { rewrite !lookup_ge_None_2 by lia. done. }
  specialize (Hcells (Z.of_nat i) (Z.of_nat j)).
  unfold cellAt, at_index in Hcells.
  rewrite ?decide_True in Hcells by lia. rewrite ?Nat2Z.id in Hcells.
  rewrite Hrow1, Hrow2 in Hcells. simpl in Hcells.
  rewrite ?decide_True in Hcells by lia. rewrite ?Nat2Z.id in Hcells.
  apply Hcells. unfold inGrid, GRID_SIZE in *. lia.
Qed.

(** The effect of a write to the cell [(r, c)]: the cell becomes [F] of
    what it was, the other cells stay. *)
Definition writes (g g' : list (list Cell)) (r c : Z) (F : Cell → Cell) : Prop :=
  wfGrid g' ∧
  ∃ x, cellAt g r c = Some x ∧
       ∀ r' c', cellAt g' r' c' = if decide ((r', c') = (r, c)) then Some (F x)
                                  else cellAt g r' c'.

Lemma updCell_writes (g : list (list Cell)) r c (F : Cell → Cell) :
  wfGrid g → inGrid r c → ∃ g', updCell g r c F = Some g' ∧ writes g g' r c F.
Proof.
  intros Hwf Hin.
  destruct (updCell_spec g r c F Hwf Hin) as (g' & x & Hg' & Hwf' & Hx & Hcells).
  exists g'. split; [done|]. split; [done|]. by exists x.
Qed.

Lemma writes_compose g g1 g2 r c (F G : Cell → Cell) :
  writes g g1 r c F → writes g1 g2 r c G → writes g g2 r c (G ∘ F).
Proof.
  intros (Hwf1 & x & Hx & H1) (Hwf2 & y & Hy & H2). split; [done|].
  exists x. split; [done|]. intros r' c'. rewrite H2.
  rewrite H1, decide_True in Hy by done. injection Hy as <-.
  case_decide; [done|]. rewrite H1. by rewrite decide_False.
Qed.

Lemma writes_id g r c : wfGrid g → inGrid r c → writes g g r c id.
Proof.
  intros Hwf Hin. split; [done|]. destruct (cellAt_inGrid g r c Hwf Hin) as [x Hx].
  exists x. split; [done|]. intros r' c'. case_decide; [by simplify_eq|done].
Qed.

Lemma writes_ext g g' r c (F G : Cell → Cell) :
  writes g g' r c F → (∀ x, cellAt g r c = Some x → F x = G x) → writes g g' r c G.
Proof.
  intros (Hwf & x & Hx & H) Hext. split; [done|]. exists x. split; [done|].
  intros r' c'. rewrite H. case_decide; [|done]. by rewrite (Hext x Hx).
Qed.

(** The cell after [enterAt] and after [revealAt]. *)
Definition entered (u : string) (x : Cell) : Cell :=
  withIsCorrect None (withChecked false (withUserInput u x)).

Definition shown (x : Cell) : Cell :=
  withIsCorrect (Some true) (withChecked true (withRevealed true (withUserInput (letter x) x))).

Lemma enterAt_writes g r c u :
  wfGrid g → inGrid r c → ∃ g', enterAt g r c u = Some g' ∧ writes g g' r c (entered u).
Proof.
  intros Hwf Hin. unfold enterAt.
  destruct (updCell_writes g r c (withUserInput u) Hwf Hin) as (g1 & -> & H1). simpl.
  destruct (updCell_writes g1 r c (withChecked false) (proj1 H1) Hin) as (g2 & -> & H2). simpl.
  destruct (updCell_writes g2 r c (withIsCorrect None) (proj1 H2) Hin) as (g3 & -> & H3).
  exists g3. split; [done|].
  apply (writes_compose g g2 g3 r c _ _ (writes_compose g g1 g2 r c _ _ H1 H2) H3).
Qed.

Lemma revealAt_writes g r c :
  wfGrid g → inGrid r c → ∃ g', revealAt g r c = Some g' ∧ writes g g' r c shown.
Proof.
  intros Hwf Hin. unfold revealAt.
  destruct (cellAt_inGrid g r c Hwf Hin) as [x Hx]. rewrite Hx. simpl.
  destruct (updCell_writes g r c (withUserInput (letter x)) Hwf Hin) as (g1 & -> & H1). simpl.
  destruct (updCell_writes g1 r c (withRevealed true) (proj1 H1) Hin) as (g2 & -> & H2). simpl.
  destruct (updCell_writes g2 r c (withChecked true) (proj1 H2) Hin) as (g3 & -> & H3). simpl.
  destruct (updCell_writes g3 r c (withIsCorrect (Some true)) (proj1 H3) Hin)
    as (g4 & -> & H4).
  exists g4. split; [done|].
  eapply writes_ext.
  - apply (writes_compose g g3 g4 r c _ _
             (writes_compose g g2 g3 r c _ _ (writes_compose g g1 g2 r c _ _ H1 H2) H3) H4).
  - intros y Hy. rewrite Hx in Hy. by injection Hy as <-.
Qed.

(** A pass over all the cells whose body writes [F] to the cell it is
    at: every cell of the grid becomes [F] of what it was. *)
Lemma forCells_writes (g : list (list Cell))
    (body : list (list Cell) → Z → Z → option (list (list Cell))) (F : Cell → Cell) :
  wfGrid g →
  (∀ g1 r c, wfGrid g1 → inGrid r c → ∃ g2, body g1 r c = Some g2 ∧ writes g1 g2 r c F) →
  ∃ g', forCells g body = Some g' ∧ wfGrid g' ∧
        ∀ r c x, cellAt g r c = Some x → cellAt g' r c = Some (F x).
Proof.
  intros Hwf Hbody. unfold forCells.
  destruct (forEach_opt_spec
              (λ rows g1, wfGrid g1 ∧
                 ∀ r c x, cellAt g r c = Some x →
                          cellAt g1 r c = Some (if decide (r ∈ rows) then F x else x))
              (λ g r, forEach (seqZ 0 GRID_SIZE) g (λ g c, body g r c))
              (seqZ 0 GRID_SIZE) [] g) as (g' & Hrun & Hwf' & Hcells).
  - split; [done|]. intros r c x Hx. rewrite decide_False by set_solver. done.
  - intros rows r rest g1 Heq [Hwf1 H1]. simpl in Heq.
    assert (0 ≤ r < GRID_SIZE ∧ r ∉ rows) as [Hr Hfresh].
    { pose proof (NoDup_seqZ 0 GRID_SIZE) as Hnd. rewrite Heq in Hnd.
      apply NoDup_app in Hnd as (_ & Hnd & _).
      assert (r ∈ seqZ 0 GRID_SIZE) as Hin by (rewrite Heq; set_solver).
      apply elem_of_seqZ in Hin. split; [lia|]. intros Hr. apply (Hnd r Hr). set_solver. }
    destruct (forEach_opt_spec
                (λ cols g2, wfGrid g2 ∧
                   ∀ r' c x, cellAt g r' c = Some x →
                     cellAt g2 r' c
                     = Some (if decide (r' ∈ rows ∨ (r' = r ∧ c ∈ cols)) then F x else x))
                (λ g c, body g r c) (seqZ 0 GRID_SIZE) [] g1) as (g2 & Hrun2 & Hwf2 & H2).
    + split; [done|]. intros r' c x Hx. rewrite (H1 r' c x Hx).
      destruct (decide (r' ∈ rows)).
      * by rewrite decide_True by by left.
      * rewrite decide_False; [done|]. set_solver.
    + intros cols c rest' g3 Heq' [Hwf3 H3]. simpl in Heq'.
      assert (0 ≤ c < GRID_SIZE ∧ c ∉ cols) as [Hc Hfresh'].
      { pose proof (NoDup_seqZ 0 GRID_SIZE) as Hnd. rewrite Heq' in Hnd.
        apply NoDup_app in Hnd as (_ & Hnd & _).
        assert (c ∈ seqZ 0 GRID_SIZE) as Hin by (rewrite Heq'; set_solver).
        apply elem_of_seqZ in Hin. split; [lia|]. intros Hc. apply (Hnd c Hc). set_solver. }
      destruct (Hbody g3 r c Hwf3 (conj Hr Hc)) as (g4 & Hg4 & Hwf4 & y & Hy & H4).
      exists g4. split; [done|]. split; [done|].
      intros r' c' x Hx. rewrite H4. specialize (H3 r' c' x Hx).
      destruct (decide ((r', c') = (r, c))) as [Heq2|Hne].
      * injection Heq2 as -> ->. rewrite Hy in H3.
        rewrite decide_False in H3 by (intros [?|[_ ?]]; done). injection H3 as ->.
        rewrite decide_True; [done|]. right. split; [done|]. set_solver.
      * rewrite H3. f_equal.
        destruct (decide (r' ∈ rows ∨ r' = r ∧ c' ∈ cols)) as [Hd|Hd].
        -- rewrite decide_True; [done|]. destruct Hd as [?|[? ?]]; [by left|right].
           split; [done|]. set_solver.
        -- rewrite decide_False; [done|]. intros [?|[-> Hin]]; apply Hd; [by left|].
           right. split; [done|]. apply elem_of_app in Hin as [?|Hin]; [done|].
           apply list_elem_of_singleton in Hin as ->. done.
    + exists g2. split; [done|]. split; [done|].
      intros r' c x Hx. rewrite (H2 r' c x Hx). f_equal.
      pose proof (cellAt_Some_inGrid _ _ _ _ Hwf Hx) as [_ Hc].
      destruct (decide (r' ∈ rows ∨ r' = r ∧ c ∈ [] ++ seqZ 0 GRID_SIZE)) as [Hd|Hd].
      * rewrite decide_True; [done|]. destruct Hd as [?|[-> _]]; set_solver.
      * rewrite decide_False; [done|]. intros Hin. apply Hd.
        apply elem_of_app in Hin as [?|Hin]; [by left|].
        apply list_elem_of_singleton in Hin as ->. right. split; [done|].
        simpl. apply elem_of_seqZ. lia.
  - exists g'. split; [done|]. split; [done|].
    intros r c x Hx. rewrite (Hcells r c x Hx). f_equal.
    rewrite decide_True; [done|].
    pose proof (cellAt_Some_inGrid _ _ _ _ Hwf Hx) as [Hr _].
    simpl. apply elem_of_seqZ. lia.
Qed.

(** ** The passes over the grid *)

Lemma cellAt_fmap {A B} (F : A → B) (g : list (list A)) (r c : Z) :
  cellAt ((λ row : list A, F <$> row) <$> g) r c = F <$> cellAt g r c.
Proof.
  unfold cellAt, at_index. destruct (decide (0 ≤ r)); [|done].
  rewrite list_lookup_fmap. destruct (g !! Z.to_nat r) as [row|]; [|done]. simpl.
  destruct (decide (0 ≤ c)); [|done]. by rewrite list_lookup_fmap.
Qed.

Lemma wfGrid_fmap {A B} (F : A → B) (g : list (list A)) :
  wfGrid g → wfGrid ((λ row : list A, F <$> row) <$> g).
Proof.
  intros [Hlen Hrows]. split; [by rewrite length_fmap|].
  apply Forall_fmap. eapply Forall_impl; [done|]. intros row Hrow. simpl.
  by rewrite length_fmap.
Qed.

(** A pass that writes [F] to every cell returns the grid mapped by [F]. *)
Lemma forCells_fmap (g : list (list Cell))
    (body : list (list Cell) → Z → Z → option (list (list Cell))) (F : Cell → Cell) :
  wfGrid g →
  (∀ g1 r c, wfGrid g1 → inGrid r c → ∃ g2, body g1 r c = Some g2 ∧ writes g1 g2 r c F) →
  forCells g body = Some ((λ row : list Cell, F <$> row) <$> g).
Proof.
  intros Hwf Hbody.
  destruct (forCells_writes g body F Hwf Hbody) as (g' & -> & Hwf' & Hcells).
  f_equal. apply grid_ext; [done|by apply wfGrid_fmap|].
  intros r c Hin. rewrite cellAt_fmap.
  destruct (cellAt_inGrid g r c Hwf Hin) as [x Hx]. rewrite Hx. by apply Hcells.
Qed.

Section GamePasses.

Variable toUpperCase : string → string.

(** The cell after [checkPuzzle]: an entry on a letter cell is marked
    right or wrong. *)
Definition verdict (x : Cell) : Cell :=
  if negb (isBlack x) && negb (bool_decide (userInput x = ""%string))
  then withIsCorrect (Some (bool_decide (toUpperCase (userInput x) = letter x)))
         (withChecked true x)
  else x.

(** The cell after [revealAll]. *)
Definition solved (x : Cell) : Cell := if negb (isBlack x) then shown x else x.

(** The cell after [clearErrors]. *)
Definition wiped (x : Cell) : Cell :=
  if checked x && bool_decide (isCorrect x = Some false) then entered ""%string x else x.

Lemma checkPuzzle_fmap (st : AppState) :
  wfGrid (app_grid st) →
  checkPuzzle toUpperCase st
  = Some (setGrid ((λ row : list Cell, verdict <$> row) <$> app_grid st) st).
Proof.
  intros Hwf. unfold checkPuzzle.
  rewrite (forCells_fmap (app_grid st) _ verdict Hwf); [done|].
  intros g1 r c Hwf1 Hin.
  destruct (cellAt_inGrid g1 r c Hwf1 Hin) as [x Hx]. rewrite Hx. simpl.
  destruct (negb (isBlack x) && negb (bool_decide (userInput x = ""%string))) eqn:Hcond.
  - destruct (updCell_writes g1 r c (withChecked true) Hwf1 Hin) as (g2 & -> & H2). simpl.
    assert (cellAt g2 r c = Some (withChecked true x)) as ->.
    { destruct H2 as (_ & y & Hy & H2). rewrite H2, decide_True by done. congruence. }
    simpl.
    destruct (updCell_writes g2 r c
                (withIsCorrect (Some (bool_decide (toUpperCase (userInput x) = letter x))))
                (proj1 H2) Hin) as (g3 & -> & H3).
    exists g3. split; [done|].
    eapply writes_ext; [apply (writes_compose g1 g2 g3 r c _ _ H2 H3)|].
    intros y Hy. rewrite Hx in Hy. injection Hy as <-.
    unfold verdict. by rewrite Hcond.
  - exists g1. split; [done|].
    eapply writes_ext; [by apply writes_id|].
    intros y Hy. rewrite Hx in Hy. injection Hy as <-. unfold verdict. by rewrite Hcond.
Qed.

Lemma revealAll_fmap (st : AppState) :
  wfGrid (app_grid st) →
  revealAll st
  = Some (setShowKeyboard false (setIsRunning false (setIsComplete true
            (setShowSolution true
               (setGrid ((λ row : list Cell, solved <$> row) <$> app_grid st) st))))).
Proof.
  intros Hwf. unfold revealAll.
  rewrite (forCells_fmap (app_grid st) _ solved Hwf); [done|].
  intros g1 r c Hwf1 Hin.
  destruct (cellAt_inGrid g1 r c Hwf1 Hin) as [x Hx]. rewrite Hx. simpl.
  destruct (isBlack x) eqn:Hb; simpl.
  - exists g1. split; [done|]. eapply writes_ext; [by apply writes_id|].
    intros y Hy. rewrite Hx in Hy. injection Hy as <-. unfold solved. by rewrite Hb.
  - destruct (revealAt_writes g1 r c Hwf1 Hin) as (g2 & -> & H2).
    exists g2. split; [done|]. eapply writes_ext; [done|].
    intros y Hy. rewrite Hx in Hy. injection Hy as <-. unfold solved. by rewrite Hb.
Qed.

Lemma clearErrors_fmap (st : AppState) :
  wfGrid (app_grid st) →
  clearErrors st = Some (setGrid ((λ row : list Cell, wiped <$> row) <$> app_grid st) st).
Proof.
  intros Hwf. unfold clearErrors.
  rewrite (forCells_fmap (app_grid st) _ wiped Hwf); [done|].
  intros g1 r c Hwf1 Hin.
  destruct (cellAt_inGrid g1 r c Hwf1 Hin) as [x Hx]. rewrite Hx. simpl.
  destruct (checked x && bool_decide (isCorrect x = Some false)) eqn:Hcond.
  - destruct (enterAt_writes g1 r c ""%string Hwf1 Hin) as (g2 & -> & H2).
    exists g2. split; [done|]. eapply writes_ext; [done|].
    intros y Hy. rewrite Hx in Hy. injection Hy as <-. unfold wiped. by rewrite Hcond.
  - exists g1. split; [done|]. eapply writes_ext; [by apply writes_id|].
    intros y Hy. rewrite Hx in Hy. injection Hy as <-. unfold wiped. by rewrite Hcond.
Qed.

Lemma fmap_fmap_grid {A} (F G : A → A) (g : list (list A)) :
  (∀ x, G (F x) = F x) →
  (λ row : list A, G <$> row) <$> ((λ row : list A, F <$> row) <$> g)
  = (λ row : list A, F <$> row) <$> g.
Proof.
  intros H. rewrite <- list_fmap_compose. apply list_fmap_ext. intros i row _. simpl.
  rewrite <- list_fmap_compose. apply list_fmap_ext. intros j x _. simpl. apply H.
Qed.




Lemma solved_idemp x : solved (solved x) = solved x.
Proof. unfold solved. destruct (isBlack x) eqn:Hb; simpl; by rewrite Hb. Qed.

(** [revealAll] shows the letter of every letter cell, marks the cell
    revealed, checked and right, and leaves the black cells alone; it ends
    the game (complete, clock stopped, solution shown); a second
    [revealAll] changes nothing. *)
Theorem revealAll_shows_every_letter (st : AppState) :
  wfGrid (app_grid st) →
  ∃ st', revealAll st = Some st' ∧ wfGrid (app_grid st') ∧
    revealAll st' = Some st' ∧
    app_isComplete st' = true ∧ app_isRunning st' = false ∧ app_showSolution st' = true ∧
    ∀ r c x, cellAt (app_grid st) r c = Some x →
      ∃ x', cellAt (app_grid st') r c = Some x' ∧ letter x' = letter x ∧
        (isBlack x = true → x' = x) ∧
        (isBlack x = false →
         userInput x' = letter x ∧ revealed x' = true ∧ checked x' = true ∧
         isCorrect x' = Some true).
Proof.
  intros Hwf. eexists. split; [by apply revealAll_fmap|].
  split; [by apply wfGrid_fmap|]. split.
  - rewrite revealAll_fmap by by apply wfGrid_fmap. simpl.
    rewrite fmap_fmap_grid by apply solved_idemp. done.
  - split; [done|]. split; [done|]. split; [done|].
    intros r c x Hx. exists (solved x). simpl. rewrite cellAt_fmap, Hx. split; [done|].
    unfold solved. destruct (isBlack x); simpl; naive_solver.
Qed.

Lemma clearedCell_idemp x : clearedCell (clearedCell x) = clearedCell x.
Proof. unfold clearedCell. by destruct (revealed x) eqn:Hr; simpl; rewrite ?Hr. Qed.

(** [clearPuzzle] empties every cell that was not revealed and resets its
    marks, keeps the revealed cells as they are, and never changes a
    letter; a second [clearPuzzle] changes nothing. *)
Theorem clearPuzzle_keeps_revealed (st : AppState) (r c : Z) :
  clearPuzzle (clearPuzzle st) = clearPuzzle st ∧
  match cellAt (app_grid st) r c with
  | Some x =>
      ∃ x', cellAt (app_grid (clearPuzzle st)) r c = Some x' ∧
        letter x' = letter x ∧ isBlack x' = isBlack x ∧ revealed x' = revealed x ∧
        (revealed x = true → x' = x) ∧
        (revealed x = false →
         userInput x' = ""%string ∧ checked x' = false ∧ isCorrect x' = None)
  | None => cellAt (app_grid (clearPuzzle st)) r c = None
  end.
Proof.
  split.
  - unfold clearPuzzle. simpl. rewrite fmap_fmap_grid by apply clearedCell_idemp. done.
  - unfold clearPuzzle. simpl. rewrite cellAt_fmap.
    destruct (cellAt (app_grid st) r c) as [x|]; [|done].
    exists (clearedCell x). split; [done|]. unfold clearedCell.
    destruct x as [l u b n a d s i rv ch ic]. simpl. destruct rv; naive_solver.
Qed.

End GamePasses.

(** ** What the handlers keep *)

(** The part of a cell that belongs to the puzzle, not to the play. *)
Definition sameSolution (x y : Cell) : Prop :=
  letter x = letter y ∧ isBlack x = isBlack y ∧ number x = number y ∧
  acrossClue x = acrossClue y ∧ downClue x = downClue y ∧
  isSolutionCell x = isSolutionCell y ∧ solutionIndex x = solutionIndex y.

(** The invariant of the game: the grid is a 15x15 grid whose cells differ
    from those of the puzzle only in the fields of the play, the placed
    words, the selected cell and the solution cells lie inside the grid, and
    the hints used are within their budgets. *)
Record appOK (st : AppState) : Prop := mkAppOK {
  ok_grid : wfGrid (app_grid st);
  ok_words : Forall geometryOK (placedWords (app_puzzle st));
  ok_selected : ∀ r c, app_selectedCell st = Some (r, c) → inGrid r c;
  ok_solution : ∀ r c x, cellAt (app_grid st) r c = Some x →
    ∃ y, cellAt (grid (app_puzzle st)) r c = Some y ∧ sameSolution x y;
  ok_cells : ∀ sc, sc ∈ solutionCells (app_puzzle st) → inGrid (sc_row sc) (sc_col sc);
  ok_letterHints : 0 ≤ app_hintsLetterUsed st ≤ MAX_LETTER_HINTS;
  ok_wordHints : 0 ≤ app_hintsWordUsed st ≤ MAX_WORD_HINTS
}.

(** The grid [g'] is a grid of the right size whose cells have the
    solution part of the cells of [g]. *)
Definition playedFrom (g g' : list (list Cell)) : Prop :=
  wfGrid g' ∧
  ∀ r c x', cellAt g' r c = Some x' → ∃ x, cellAt g r c = Some x ∧ sameSolution x' x.

Lemma sameSolution_refl x : sameSolution x x.
Proof. by repeat split. Qed.

Lemma sameSolution_trans x y z : sameSolution x y → sameSolution y z → sameSolution x z.
Proof.
  intros (?&?&?&?&?&?&?) (?&?&?&?&?&?&?). repeat split; congruence.
Qed.

Lemma playedFrom_refl g : wfGrid g → playedFrom g g.
Proof. intros Hwf. split; [done|]. intros r c x Hx. exists x. split; [done|]. apply sameSolution_refl. Qed.

Lemma playedFrom_trans g1 g2 g3 : playedFrom g1 g2 → playedFrom g2 g3 → playedFrom g1 g3.
Proof.
  intros [_ H12] [Hwf H23]. split; [done|]. intros r c x3 Hx3.
  destruct (H23 r c x3 Hx3) as (x2 & Hx2 & Hs32). destruct (H12 r c x2 Hx2) as (x1 & Hx1 & Hs21).
  exists x1. split; [done|]. by eapply sameSolution_trans.
Qed.

Lemma writes_playedFrom g g' r c (F : Cell → Cell) :
  writes g g' r c F → (∀ x, sameSolution (F x) x) → playedFrom g g'.
Proof.
  intros (Hwf & x & Hx & Hcells) HF. split; [done|]. intros r' c' x' Hx'.
  rewrite Hcells in Hx'. case_decide as Heq.
  - injection Heq as -> ->. injection Hx' as <-. exists x. split; [done|]. apply HF.
  - exists x'. split; [done|]. apply sameSolution_refl.
Qed.

Lemma fmap_playedFrom g (F : Cell → Cell) :
  wfGrid g → (∀ x, sameSolution (F x) x) →
  playedFrom g ((λ row : list Cell, F <$> row) <$> g).
Proof.
  intros Hwf HF. split; [by apply wfGrid_fmap|]. intros r c x'.
  rewrite cellAt_fmap. destruct (cellAt g r c) as [x|]; [|done].
  intros [= <-]. exists x. split; [done|]. apply HF.
Qed.

Lemma sameSolution_entered u x : sameSolution (entered u x) x.
Proof. by repeat split. Qed.

Lemma sameSolution_shown x : sameSolution (shown x) x.
Proof. by repeat split. Qed.

Lemma appOK_setGrid st g' :
  appOK st → playedFrom (app_grid st) g' → appOK (setGrid g' st).
Proof.
  intros [Hwf Hwords Hsel Hsol Hsc Hl Hw] [Hwf' Hplayed]. split; simpl; try done.
  intros r c x' Hx'. destruct (Hplayed r c x' Hx') as (x & Hx & Hs).
  destruct (Hsol r c x Hx) as (y & Hy & Hs'). exists y. split; [done|].
  by eapply sameSolution_trans.
Qed.

Lemma appOK_setSelectedCell st r c :
  appOK st → inGrid r c → appOK (setSelectedCell (Some (r, c)) st).
Proof.
  intros [Hwf Hwords Hsel Hsol Hsc Hl Hw] Hin. split; simpl; try done.
  by intros r' c' [= <- <-].
Qed.

(** A state that differs from [st] in fields the invariant does not read. *)
Definition sameCore (st st' : AppState) : Prop :=
  app_puzzle st' = app_puzzle st ∧ app_grid st' = app_grid st ∧
  app_selectedCell st' = app_selectedCell st ∧
  app_hintsLetterUsed st' = app_hintsLetterUsed st ∧
  app_hintsWordUsed st' = app_hintsWordUsed st.

Lemma appOK_sameCore st st' : appOK st → sameCore st st' → appOK st'.
Proof.
  intros [Hwf Hwords Hsel Hsol Hsc Hl Hw] (Hp & Hg & Hs & Hhl & Hhw).
  split; rewrite ?Hp, ?Hg, ?Hs, ?Hhl, ?Hhw; done.
Qed.

Section GameSteps.

Variable toUpperCase : string → string.

(** *** checkComplete *)

Definition scanStep (acc : bool * bool) (cell : Cell) : bool * bool :=
  if negb (isBlack cell) then
    (if bool_decide (userInput cell = ""%string) then false else acc.1,
     if negb (bool_decide (toUpperCase (userInput cell) = letter cell)) then false else acc.2)
  else acc.

(** Every letter cell has an entry; every letter cell has the right one. *)
Definition allFilledIn (g : list (list Cell)) : Prop :=
  ∀ r c x, cellAt g r c = Some x → isBlack x = false → userInput x ≠ ""%string.

Definition allCorrectIn (g : list (list Cell)) : Prop :=
  ∀ r c x, cellAt g r c = Some x → isBlack x = false →
           toUpperCase (userInput x) = letter x.

Lemma checkCompleteScan_spec (g : list (list Cell)) :
  wfGrid g →
  ∃ allFilled allCorrect,
    checkCompleteScan toUpperCase g = Some (allFilled, allCorrect) ∧
    (allFilled = true ↔ allFilledIn g) ∧ (allCorrect = true ↔ allCorrectIn g).
Proof.
  intros Hwf. unfold checkCompleteScan.
  set (Q1 := λ x : Cell, isBlack x = false → userInput x ≠ ""%string).
  set (Q2 := λ x : Cell, isBlack x = false → toUpperCase (userInput x) = letter x).
  assert (∀ acc x, ((scanStep acc x).1 = true ↔ acc.1 = true ∧ Q1 x) ∧
                   ((scanStep acc x).2 = true ↔ acc.2 = true ∧ Q2 x)) as Hstep.
  { intros [af ac] x. unfold scanStep, Q1, Q2. simpl.
    destruct (isBlack x); simpl; [naive_solver|].
    destruct (bool_decide (userInput x = ""%string)) eqn:Hu;
      destruct (bool_decide (toUpperCase (userInput x) = letter x)) eqn:Ht; simpl;
      try apply bool_decide_eq_true in Hu; try apply bool_decide_eq_false in Hu;
      try apply bool_decide_eq_true in Ht; try apply bool_decide_eq_false in Ht;
      naive_solver. }
  destruct (forEach_opt_spec
              (λ rows (acc : bool * bool),
                 (acc.1 = true ↔ ∀ r c x, r ∈ rows → cellAt g r c = Some x → Q1 x) ∧
                 (acc.2 = true ↔ ∀ r c x, r ∈ rows → cellAt g r c = Some x → Q2 x))
              (λ acc r, forEach (seqZ 0 GRID_SIZE) acc (λ '(allFilled, allCorrect) c,
                 cell ← cellAt g r c;
                 if negb (isBlack cell) then
                   Some (if bool_decide (userInput cell = ""%string) then false else allFilled,
                         if negb (bool_decide (toUpperCase (userInput cell) = letter cell))
                         then false else allCorrect)
                 else Some (allFilled, allCorrect)))
              (seqZ 0 GRID_SIZE) [] (true, true)) as ([af ac] & Hrun & H1 & H2).
  - simpl. split; (split; [intros _ r c x Hr; set_solver|done]).
  - intros rows r rest acc Heq [Ha1 Ha2]. simpl in Heq.
    assert (0 ≤ r < GRID_SIZE) as Hr.
    { assert (r ∈ seqZ 0 GRID_SIZE) as Hin by (rewrite Heq; set_solver).
      apply elem_of_seqZ in Hin. lia. }
    destruct (forEach_opt_spec
                (λ cols (acc' : bool * bool),
                   (acc'.1 = true ↔ acc.1 = true ∧
                      ∀ c x, c ∈ cols → cellAt g r c = Some x → Q1 x) ∧
                   (acc'.2 = true ↔ acc.2 = true ∧
                      ∀ c x, c ∈ cols → cellAt g r c = Some x → Q2 x))
                (λ '(allFilled, allCorrect) c,
                   cell ← cellAt g r c;
                   if negb (isBlack cell) then
                     Some (if bool_decide (userInput cell = ""%string) then false
                           else allFilled,
                           if negb (bool_decide (toUpperCase (userInput cell) = letter cell))
                           then false else allCorrect)
                   else Some (allFilled, allCorrect))
                (seqZ 0 GRID_SIZE) [] acc) as (acc' & Hrun' & Hb1 & Hb2).
    + split; (split; [intros ?; split; [done|]; intros c x Hc; set_solver|by intros [? _]]).
    + intros cols c rest' [af' ac'] Heq' [Hc1 Hc2]. simpl in Heq'.
      assert (0 ≤ c < GRID_SIZE) as Hc.
      { assert (c ∈ seqZ 0 GRID_SIZE) as Hin by (rewrite Heq'; set_solver).
        apply elem_of_seqZ in Hin. lia. }
      destruct (cellAt_inGrid g r c Hwf (conj Hr Hc)) as [x Hx]. rewrite Hx. simpl.
      exists (scanStep (af', ac') x). split.
      { unfold scanStep. simpl. by destruct (isBlack x). }
      destruct (Hstep (af', ac') x) as [Hs1 Hs2]. simpl in *. split.
      * rewrite Hs1, Hc1. split.
        -- intros [[? Hall] ?]. split; [done|]. intros c' x' Hc' Hx'.
           apply elem_of_app in Hc' as [?|Hc']; [by eapply Hall|].
           apply list_elem_of_singleton in Hc' as ->. by simplify_eq.
        -- intros [? Hall]. split; [split; [done|]|].
           ++ intros c' x' Hc'. apply Hall. set_solver.
           ++ apply (Hall c x); [set_solver|done].
      * rewrite Hs2, Hc2. split.
        -- intros [[? Hall] ?]. split; [done|]. intros c' x' Hc' Hx'.
           apply elem_of_app in Hc' as [?|Hc']; [by eapply Hall|].
           apply list_elem_of_singleton in Hc' as ->. by simplify_eq.
        -- intros [? Hall]. split; [split; [done|]|].
           ++ intros c' x' Hc'. apply Hall. set_solver.
           ++ apply (Hall c x); [set_solver|done].
    + exists acc'. split; [done|]. simpl in Hb1, Hb2. split.
      * rewrite Hb1, Ha1. split.
        -- intros [Hold Hnew] r' c x Hr' Hx.
           apply elem_of_app in Hr' as [?|Hr']; [by eapply Hold|].
           apply list_elem_of_singleton in Hr' as ->. eapply Hnew; [|done].
           apply elem_of_seqZ. pose proof (cellAt_Some_inGrid _ _ _ _ Hwf Hx) as [_ ?]. lia.
        -- intros Hall. split.
           ++ intros r' c x Hr'. apply Hall. set_solver.
           ++ intros c x _. apply Hall. set_solver.
      * rewrite Hb2, Ha2. split.
        -- intros [Hold Hnew] r' c x Hr' Hx.
           apply elem_of_app in Hr' as [?|Hr']; [by eapply Hold|].
           apply list_elem_of_singleton in Hr' as ->. eapply Hnew; [|done].
           apply elem_of_seqZ. pose proof (cellAt_Some_inGrid _ _ _ _ Hwf Hx) as [_ ?]. lia.
        -- intros Hall. split.
           ++ intros r' c x Hr'. apply Hall. set_solver.
           ++ intros c x _. apply Hall. set_solver.
  - exists af, ac. split; [done|]. simpl in H1, H2. split.
    + rewrite H1. unfold allFilledIn, Q1. split.
      * intros Hall r c x Hx. apply (Hall r c x); [|done].
        apply elem_of_seqZ. pose proof (cellAt_Some_inGrid _ _ _ _ Hwf Hx) as [? _]. lia.
      * intros Hall r c x _. apply Hall.
    + rewrite H2. unfold allCorrectIn, Q2. split.
      * intros Hall r c x Hx. apply (Hall r c x); [|done].
        apply elem_of_seqZ. pose proof (cellAt_Some_inGrid _ _ _ _ Hwf Hx) as [? _]. lia.
      * intros Hall r c x _. apply Hall.
Qed.

(** The state once the game is won. *)
Definition won (st : AppState) : AppState :=
  setShowKeyboard false (setShowCongrats true (setIsRunning false (setIsComplete true st))).


Lemma checkComplete_ok (g : list (list Cell)) (st : AppState) :
  wfGrid g → appOK st →
  ∃ st', checkComplete toUpperCase g st = Some st' ∧ appOK st' ∧ sameCore st st'.
Proof.
  intros Hwf Hok. unfold checkComplete.
  destruct (checkCompleteScan_spec g Hwf) as (af & ac & -> & _). simpl.
  eexists. split; [done|].
  destruct (af && ac); split; try done; by eapply appOK_sameCore.
Qed.

End GameSteps.

(** ** The handlers keep the invariant *)

Lemma findIndex_bounds {A} (p : A → bool) (l : list A) :
  -1 ≤ findIndex p l < Z.of_nat (length l) ∨ (l = [] ∧ findIndex p l = -1).
Proof.
  induction l as [|x l IH]; simpl; [by right|]. left.
  destruct (p x); [lia|].
  destruct (Z.ltb_spec (findIndex p l) 0); [lia|].
  destruct IH as [?|[-> ?]]; simpl in *; lia.
Qed.

Lemma getClueCells_cellOf (clue : PlacedWord) :
  getClueCells clue = pwCell clue <$> seqZ 0 (wlen (pw_word clue)).
Proof.
  unfold getClueCells, pwCell. apply list_fmap_ext. intros _ i _.
  by destruct (pw_direction clue).
Qed.

Lemma elem_of_getClueCells (clue : PlacedWord) (rc : Z * Z) :
  rc ∈ getClueCells clue ↔ covers clue rc.
Proof.
  rewrite getClueCells_cellOf, list_elem_of_fmap. unfold covers, pwCell.
  setoid_rewrite elem_of_seqZ. split.
  - intros (i & -> & Hi). exists i. split; [lia|done].
  - intros (i & Hi & <-). exists i. split; [done|lia].
Qed.

Lemma getClueCells_inGrid (clue : PlacedWord) (rc : Z * Z) :
  geometryOK clue → rc ∈ getClueCells clue → inGrid rc.1 rc.2.
Proof.
  intros [Hfits _] (i & Hi & <-)%elem_of_getClueCells. by apply (fitsInGrid_cells (pw_word clue)).
Qed.

Lemma shown_idemp x : shown (shown x) = shown x.
Proof. done. Qed.

(** Revealing a list of cells of the grid. *)
Lemma revealCells_spec (cells : list (Z * Z)) (g : list (list Cell)) :
  wfGrid g → (∀ rc, rc ∈ cells → inGrid rc.1 rc.2) →
  ∃ g', forEach cells g (λ g rc, revealAt g rc.1 rc.2) = Some g' ∧ wfGrid g' ∧
        ∀ r c x, cellAt g r c = Some x →
                 cellAt g' r c = Some (if bool_decide ((r, c) ∈ cells) then shown x else x).
Proof.
  intros Hwf Hin.
  destruct (forEach_opt_spec
              (λ vis g1, wfGrid g1 ∧
                 ∀ r c x, cellAt g r c = Some x →
                   cellAt g1 r c = Some (if bool_decide ((r, c) ∈ vis) then shown x else x))
              (λ g rc, revealAt g rc.1 rc.2) cells [] g) as (g' & Hrun & Hwf' & Hcells).
  - split; [done|]. intros r c x Hx. by rewrite bool_decide_eq_false_2 by set_solver.
  - intros vis [r0 c0] rest g1 Heq [Hwf1 H1]. simpl in Heq.
    assert (inGrid r0 c0) as Hin0 by (apply (Hin (r0, c0)); rewrite Heq; set_solver).
    destruct (revealAt_writes g1 r0 c0 Hwf1 Hin0) as (g2 & Hg2 & Hwf2 & y & Hy & H2).
    exists g2. split; [done|]. split; [done|]. intros r c x Hx.
    rewrite H2. specialize (H1 r c x Hx).
    destruct (decide ((r, c) = (r0, c0))) as [Heq'|Hne].
    + injection Heq' as -> ->. rewrite Hy in H1. injection H1 as ->.
      rewrite (bool_decide_eq_true_2 ((r0, c0) ∈ vis ++ [(r0, c0)])) by set_solver.
      by destruct (bool_decide ((r0, c0) ∈ vis)).
    + rewrite H1. f_equal.
      destruct (bool_decide ((r, c) ∈ vis)) eqn:Hv.
      * apply bool_decide_eq_true in Hv. rewrite bool_decide_eq_true_2; [done|set_solver].
      * apply bool_decide_eq_false in Hv. rewrite bool_decide_eq_false_2; [done|].
        intros [?|Hl]%elem_of_app; [done|]. by apply list_elem_of_singleton in Hl.
  - exists g'. by split.
Qed.

Section GameInvariant.

Variable toUpperCase : string → string.

(** A step of the game from [st]: the next state obeys the invariant and
    plays the same puzzle. *)
Definition stepsTo (st st' : AppState) : Prop :=
  appOK st' ∧ app_puzzle st' = app_puzzle st.

Lemma stepsTo_sameCore st st1 st' :
  stepsTo st st1 → sameCore st1 st' → stepsTo st st'.
Proof.
  intros [Hok Hp] Hcore. split; [by eapply appOK_sameCore|].
  destruct Hcore as (-> & _). done.
Qed.

Lemma getActiveClue_total (st : AppState) :
  appOK st →
  ∃ active, getActiveClue st = Some active ∧
            ∀ pw, active = Some pw → pw ∈ placedWords (app_puzzle st).
Proof.
  intros Hok. unfold getActiveClue.
  destruct (app_selectedCell st) as [[row col]|] eqn:Hsel; [|by eexists].
  destruct (cellAt_inGrid _ _ _ (ok_grid _ Hok) (ok_selected _ Hok _ _ Hsel)) as [cell ->].
  simpl.
  assert (∀ n d pw, findClue (placedWords (app_puzzle st)) n d = Some pw →
                    pw ∈ placedWords (app_puzzle st)) as Hfind.
  { intros n d pw H. apply find_some in H as [H _]. by apply list_elem_of_In. }
  repeat case_match; eexists; (split; [done|]); intros pw Hpw; simplify_eq; eauto.
Qed.

Lemma moveToNextCell_ok (g : list (list Cell)) (row col : Z) (dir : direction)
    (st : AppState) :
  wfGrid g → inGrid row col → appOK st →
  ∃ st', moveToNextCell g row col dir st = Some st' ∧ stepsTo st st' ∧
         app_grid st' = app_grid st.
Proof.
  intros Hwf [Hr Hc] Hok. unfold moveToNextCell.
  destruct (_ && _) eqn:Hin; [|by eexists].
  apply andb_true_iff in Hin as [Hnr%Z.ltb_lt Hnc%Z.ltb_lt].
  assert (inGrid (if bool_decide (dir = across) then row else row + 1)
                 (if bool_decide (dir = across) then col + 1 else col)) as Hin.
  { destruct (bool_decide (dir = across)); unfold inGrid in *; lia. }
  destruct (cellAt_inGrid g _ _ Hwf Hin) as [cell ->]. simpl.
  eexists. split; [done|].
  destruct (isBlack cell); simpl; (split; [split|]); try done.
  by apply appOK_setSelectedCell.
Qed.

Lemma moveToPrevCell_ok (g : list (list Cell)) (row col : Z) (dir : direction)
    (st : AppState) :
  wfGrid g → inGrid row col → appOK st →
  ∃ st', moveToPrevCell g row col dir st = Some st' ∧ stepsTo st st' ∧
         app_grid st' = app_grid st.
Proof.
  intros Hwf [Hr Hc] Hok. unfold moveToPrevCell.
  destruct (_ && _) eqn:Hin; [|by eexists].
  apply andb_true_iff in Hin as [Hnr%Z.geb_le Hnc%Z.geb_le].
  assert (inGrid (if bool_decide (dir = across) then row else row - 1)
                 (if bool_decide (dir = across) then col - 1 else col)) as Hin.
  { destruct (bool_decide (dir = across)); unfold inGrid in *; lia. }
  destruct (cellAt_inGrid g _ _ Hwf Hin) as [cell ->]. simpl.
  eexists. split; [done|].
  destruct (isBlack cell); simpl; (split; [split|]); try done.
  by apply appOK_setSelectedCell.
Qed.

Lemma enterAt_ok (st : AppState) (r c : Z) (u : string) :
  appOK st → inGrid r c →
  ∃ g', enterAt (app_grid st) r c u = Some g' ∧ playedFrom (app_grid st) g'.
Proof.
  intros Hok Hin.
  destruct (enterAt_writes (app_grid st) r c u (ok_grid _ Hok) Hin) as (g' & Hg' & Hw).
  exists g'. split; [done|]. eapply writes_playedFrom; [done|]. apply sameSolution_entered.
Qed.

Lemma selectCell_ok (cell : Cell) (row col : Z) (st : AppState) :
  appOK st → inGrid row col → stepsTo st (selectCell cell row col st).
Proof.
  intros Hok Hin. unfold selectCell.
  pose proof (appOK_setSelectedCell st row col Hok Hin) as Hok1.
  repeat case_match; (split; [|done]); try done; by eapply appOK_sameCore.
Qed.

Lemma handleCellInteraction_ok (row col : Z) (isMobile : bool) (now : Z) (st : AppState) :
  appOK st → inGrid row col →
  ∃ st', handleCellInteraction row col isMobile now st = Some st' ∧ stepsTo st st'.
Proof.
  intros Hok Hin. unfold handleCellInteraction.
  destruct (cellAt_inGrid _ _ _ (ok_grid _ Hok) Hin) as [cell ->]. simpl.
  pose proof (selectCell_ok cell row col st Hok Hin) as Hsel.
  assert (stepsTo st st) as Hrefl by by split.
  destruct (isBlack cell); [by eexists|].
  destruct isMobile.
  - destruct (match app_lastTap st with Some _ => _ | None => _ end).
    + eexists. split; [done|]. by apply (stepsTo_sameCore st st).
    + eexists. split; [done|].
      destruct (bool_decide (app_selectedCell st = Some (row, col)));
        [by apply (stepsTo_sameCore st st)|].
      by apply (stepsTo_sameCore st (selectCell cell row col st)).
  - eexists. split; [done|].
    destruct (bool_decide (app_selectedCell st = Some (row, col)));
      [by apply (stepsTo_sameCore st st)|done].
Qed.

Lemma handleLetterInput_ok (key : string) (st : AppState) :
  appOK st → ∃ st', handleLetterInput toUpperCase key st = Some st' ∧ stepsTo st st'.
Proof.
  intros Hok. unfold handleLetterInput.
  destruct (app_selectedCell st) as [[row col]|] eqn:Hsel; [|by eexists].
  pose proof (ok_selected _ Hok _ _ Hsel) as Hin.
  destruct (enterAt_ok st row col (toUpperCase key) Hok Hin) as (g' & -> & Hplayed). simpl.
  pose proof (appOK_setGrid st g' Hok Hplayed) as Hok1.
  destruct (moveToNextCell_ok (app_grid st) row col (app_direction st) (setGrid g' st)
              (ok_grid _ Hok) Hin Hok1) as (st1 & -> & [Hok2 Hp2] & _). simpl.
  destruct (checkComplete_ok toUpperCase g' st1 (proj1 Hplayed) Hok2) as (st2 & -> & Hok3 & Hc).
  exists st2. split; [done|]. split; [done|]. destruct Hc as (-> & _). done.
Qed.

Lemma handleDelete_ok (st : AppState) :
  appOK st → ∃ st', handleDelete st = Some st' ∧ stepsTo st st'.
Proof.
  intros Hok. unfold handleDelete.
  destruct (app_selectedCell st) as [[row col]|] eqn:Hsel; [|by eexists].
  pose proof (ok_selected _ Hok _ _ Hsel) as Hin.
  destruct (cellAt_inGrid _ _ _ (ok_grid _ Hok) Hin) as [cell ->]. simpl.
  destruct (bool_decide (userInput cell = ""%string)).
  - destruct (moveToPrevCell_ok (app_grid st) row col (app_direction st) st
                (ok_grid _ Hok) Hin Hok) as (st1 & -> & [Hok1 Hp1] & Hg1). simpl.
    assert (∃ newGrid,
              (if ((if bool_decide (app_direction st = across) then row else row - 1) >=? 0)
                  && ((if bool_decide (app_direction st = across) then col - 1 else col) >=? 0)
               then
                 prev ← cellAt (app_grid st)
                               (if bool_decide (app_direction st = across) then row else row - 1)
                               (if bool_decide (app_direction st = across) then col - 1 else col);
                 if negb (isBlack prev)
                 then enterAt (app_grid st)
                              (if bool_decide (app_direction st = across) then row else row - 1)
                              (if bool_decide (app_direction st = across) then col - 1 else col)
                              ""%string
                 else Some (app_grid st)
               else Some (app_grid st)) = Some newGrid ∧
              playedFrom (app_grid st) newGrid) as (newGrid & -> & Hplayed).
    { destruct (_ && _) eqn:Hb;
        [|exists (app_grid st); split; [done|apply playedFrom_refl, Hok]].
      apply andb_true_iff in Hb as [Hnr%Z.geb_le Hnc%Z.geb_le].
      assert (inGrid (if bool_decide (app_direction st = across) then row else row - 1)
                     (if bool_decide (app_direction st = across) then col - 1 else col))
        as Hin'.
      { destruct Hin. destruct (bool_decide (app_direction st = across));
          unfold inGrid in *; lia. }
      destruct (cellAt_inGrid _ _ _ (ok_grid _ Hok) Hin') as [prev ->]. simpl.
      destruct (isBlack prev); simpl;
        [exists (app_grid st); split; [done|apply playedFrom_refl, Hok]|].
      by apply enterAt_ok. }
    simpl. eexists. split; [done|]. split; [|done].
    apply appOK_setGrid; [done|]. by rewrite Hg1.
  - destruct (enterAt_ok st row col ""%string Hok Hin) as (g' & -> & Hplayed). simpl.
    eexists. split; [done|]. split; [|done]. by apply appOK_setGrid.
Qed.

Lemma jsRem_index (idx step len : Z) :
  0 < len → -1 ≤ idx < len → (step = 1 ∨ step = -1) →
  ∃ k, jsRem (idx + step + len) len = Some k ∧ 0 ≤ k < len.
Proof.
  intros Hlen Hidx Hstep. unfold jsRem.
  destruct (Z.eqb_spec len 0) as [->|Hne]; [lia|].
  eexists. split; [done|].
  destruct (decide (0 ≤ idx + step + len)) as [Hnn|Hneg].
  - apply Z.rem_bound_pos; lia.
  - assert (idx + step + len = -1 ∧ len = 1) as [-> ->] by lia. by vm_compute.
Qed.

(** The Tab key with an active clue: without a placed word of the
    current direction the handler fails; otherwise the selection goes to the
    start of one of them. *)
Lemma tab_step (shiftKey : bool) (st : AppState) (row col : Z) (active : PlacedWord) :
  app_selectedCell st = Some (row, col) →
  getActiveClue st = Some (Some active) →
  let clues := filter (λ pw, pw_direction pw = app_direction st)
                      (placedWords (app_puzzle st)) in
  (clues = [] ∧ handleKeyDown toUpperCase (Tab shiftKey) st = None) ∨
  (∃ nextClue, nextClue ∈ clues ∧
     handleKeyDown toUpperCase (Tab shiftKey) st
     = Some (setSelectedCell (Some (pw_row nextClue, pw_col nextClue)) st)).
Proof.
  intros Hsel Hact clues. unfold handleKeyDown. rewrite Hsel, Hact. simpl. fold clues.
  destruct clues as [|c0 rest] eqn:Hclues; [by left|]. right.
  rewrite <- Hclues.
  set (idx := findIndex (λ c, bool_decide (pw_number c = pw_number active)) clues).
  destruct (jsRem_index idx (if shiftKey then -1 else 1) (Z.of_nat (length clues)))
    as (k & -> & Hk).
  { rewrite Hclues. simpl. lia. }
  { destruct (findIndex_bounds (λ c, bool_decide (pw_number c = pw_number active)) clues)
      as [?|[Hnil _]]; [done|]. by rewrite Hclues in Hnil. }
  { destruct shiftKey; auto. }
  simpl. destruct (proj2 (at_index_is_Some clues k) Hk) as [nextClue Hnext].
  rewrite Hnext. simpl. exists nextClue. split; [|done].
  apply at_index_Some in Hnext as [_ Hnext]. by eapply list_elem_of_lookup_2.
Qed.

Definition hasWordIn (p : Puzzle) (d : direction) : Prop :=
  ∃ pw, pw ∈ placedWords p ∧ pw_direction pw = d.

Lemma handleKeyDown_ok (key : Key) (st : AppState) :
  appOK st →
  (∀ shiftKey, key = Tab shiftKey → hasWordIn (app_puzzle st) (app_direction st)) →
  ∃ st', handleKeyDown toUpperCase key st = Some st' ∧ stepsTo st st'.
Proof.
  intros Hok Htab.
  assert (stepsTo st st) as Hrefl by by split.
  destruct (app_selectedCell st) as [[row col]|] eqn:Hsel;
    [|exists st; unfold handleKeyDown; by rewrite Hsel].
  pose proof (ok_selected _ Hok _ _ Hsel) as Hin.
  destruct key as [shiftKey| | | | | | |key|].
  - destruct (getActiveClue_total st Hok) as ([active|] & Hact & _); last first.
    { exists st. unfold handleKeyDown. by rewrite Hsel, Hact. }
    destruct (tab_step shiftKey st row col active Hsel Hact)
      as [[Hnil _]|(nextClue & Hnext & ->)].
    + destruct (Htab shiftKey eq_refl) as (pw & Hpw & Hdir). exfalso.
      assert (pw ∈ filter (λ pw, pw_direction pw = app_direction st)
                          (placedWords (app_puzzle st))) as Hmem
        by by apply list_elem_of_filter.
      rewrite Hnil in Hmem. by apply not_elem_of_nil in Hmem.
    + eexists. split; [done|]. split; [|done].
      apply appOK_setSelectedCell; [done|].
      apply list_elem_of_filter in Hnext as [_ Hnext].
      pose proof (ok_words _ Hok) as Hgeo. rewrite Forall_forall in Hgeo.
      apply (Hgeo nextClue Hnext).
  - unfold handleKeyDown. rewrite Hsel.
    destruct (moveToNextCell_ok (app_grid st) row col across (setDirection across st)
                (ok_grid _ Hok) Hin) as (st' & -> & [Hok' Hp] & _);
      [by apply (appOK_sameCore st)|]. by exists st'.
  - unfold handleKeyDown. rewrite Hsel.
    destruct (moveToPrevCell_ok (app_grid st) row col across (setDirection across st)
                (ok_grid _ Hok) Hin) as (st' & -> & [Hok' Hp] & _);
      [by apply (appOK_sameCore st)|]. by exists st'.
  - unfold handleKeyDown. rewrite Hsel.
    destruct (moveToNextCell_ok (app_grid st) row col down (setDirection down st)
                (ok_grid _ Hok) Hin) as (st' & -> & [Hok' Hp] & _);
      [by apply (appOK_sameCore st)|]. by exists st'.
  - unfold handleKeyDown. rewrite Hsel.
    destruct (moveToPrevCell_ok (app_grid st) row col down (setDirection down st)
                (ok_grid _ Hok) Hin) as (st' & -> & [Hok' Hp] & _);
      [by apply (appOK_sameCore st)|]. by exists st'.
  - unfold handleKeyDown. rewrite Hsel. by apply handleDelete_ok.
  - unfold handleKeyDown. rewrite Hsel.
    destruct (enterAt_ok st row col ""%string Hok Hin) as (g' & -> & Hplayed). simpl.
    eexists. split; [done|]. split; [|done]. by apply appOK_setGrid.
  - unfold handleKeyDown. rewrite Hsel. by apply handleLetterInput_ok.
  - exists st. unfold handleKeyDown. by rewrite Hsel.
Qed.

Lemma handleClueClick_ok (clue : PlacedWord) (isMobile : bool) (st : AppState) :
  appOK st → clue ∈ placedWords (app_puzzle st) →
  stepsTo st (handleClueClick clue isMobile st).
Proof.
  intros Hok Hclue.
  pose proof (ok_words _ Hok) as Hgeo. rewrite Forall_forall in Hgeo.
  destruct (Hgeo clue Hclue) as [_ Hin].
  pose proof (appOK_setSelectedCell st _ _ Hok Hin) as Hok1.
  unfold handleClueClick. destruct isMobile; (split; [|done]);
    by apply (appOK_sameCore (setSelectedCell (Some (pw_row clue, pw_col clue)) st)).
Qed.

Lemma appOK_hint (st : AppState) (g' : list (list Cell)) :
  appOK st → playedFrom (app_grid st) g' →
  (app_hintsLetterUsed st < MAX_LETTER_HINTS →
   appOK (setHintsLetterUsed (app_hintsLetterUsed st + 1) (setGrid g' st))) ∧
  (app_hintsWordUsed st < MAX_WORD_HINTS →
   appOK (setHintsWordUsed (app_hintsWordUsed st + 1) (setGrid g' st))).
Proof.
  intros Hok Hplayed.
  destruct (appOK_setGrid st g' Hok Hplayed) as [Hwf Hwords Hsel Hsol Hsc Hl Hw].
  simpl in *. split; intros Hlt; split; simpl; try done; lia.
Qed.

Lemma revealCell_ok (st : AppState) :
  appOK st → ∃ st', revealCell toUpperCase st = Some st' ∧ stepsTo st st'.
Proof.
  intros Hok. assert (stepsTo st st) as Hrefl by by split. unfold revealCell.
  destruct (app_selectedCell st) as [[row col]|] eqn:Hsel; [|by exists st].
  pose proof (ok_selected _ Hok _ _ Hsel) as Hin.
  destruct (Z.geb_spec (app_hintsLetterUsed st) MAX_LETTER_HINTS) as [?|Hlt]; [by exists st|].
  destruct (cellAt_inGrid _ _ _ (ok_grid _ Hok) Hin) as [cell ->]. simpl.
  destruct (_ || _); [by exists st|].
  destruct (revealAt_writes (app_grid st) row col (ok_grid _ Hok) Hin) as (g' & -> & Hw).
  simpl.
  assert (playedFrom (app_grid st) g') as Hplayed
    by (eapply writes_playedFrom; [done|apply sameSolution_shown]).
  destruct (appOK_hint st g' Hok Hplayed) as [Hhint _].
  destruct (checkComplete_ok toUpperCase g' _ (proj1 Hplayed) (Hhint Hlt))
    as (st' & -> & Hok' & Hcore).
  exists st'. split; [done|]. split; [done|]. by destruct Hcore as (-> & _).
Qed.

Lemma revealWord_ok (st : AppState) :
  appOK st → ∃ st', revealWord toUpperCase st = Some st' ∧ stepsTo st st'.
Proof.
  intros Hok. assert (stepsTo st st) as Hrefl by by split. unfold revealWord.
  destruct (Z.geb_spec (app_hintsWordUsed st) MAX_WORD_HINTS) as [?|Hlt]; [by exists st|].
  destruct (getActiveClue_total st Hok) as ([active|] & -> & Hact); simpl; [|by exists st].
  pose proof (ok_words _ Hok) as Hgeo. rewrite Forall_forall in Hgeo.
  destruct (revealCells_spec (getClueCells active) (app_grid st) (ok_grid _ Hok))
    as (g' & -> & Hwf' & Hcells).
  { intros rc. apply getClueCells_inGrid, Hgeo, Hact. done. }
  simpl.
  assert (playedFrom (app_grid st) g') as Hplayed.
  { split; [done|]. intros r c x' Hx'.
    pose proof (cellAt_Some_inGrid _ _ _ _ Hwf' Hx') as Hin.
    destruct (cellAt_inGrid _ _ _ (ok_grid _ Hok) Hin) as [x Hx].
    exists x. split; [done|]. rewrite (Hcells r c x Hx) in Hx'. injection Hx' as <-.
    destruct (bool_decide _); [apply sameSolution_shown|apply sameSolution_refl]. }
  destruct (appOK_hint st g' Hok Hplayed) as [_ Hhint].
  destruct (checkComplete_ok toUpperCase g' _ Hwf' (Hhint Hlt)) as (st' & -> & Hok' & Hcore).
  exists st'. split; [done|]. split; [done|]. by destruct Hcore as (-> & _).
Qed.

Lemma sameSolution_verdict x : sameSolution (verdict toUpperCase x) x.
Proof. unfold verdict. destruct (_ && _); by repeat split. Qed.

Lemma sameSolution_solved x : sameSolution (solved x) x.
Proof. unfold solved. destruct (negb _); by repeat split. Qed.

Lemma sameSolution_wiped x : sameSolution (wiped x) x.
Proof. unfold wiped. destruct (_ && _); by repeat split. Qed.

Lemma sameSolution_clearedCell x : sameSolution (clearedCell x) x.
Proof. by repeat split. Qed.

Lemma revealAll_ok (st : AppState) :
  appOK st → ∃ st', revealAll st = Some st' ∧ stepsTo st st'.
Proof.
  intros Hok. rewrite (revealAll_fmap st (ok_grid _ Hok)). eexists. split; [done|].
  split; [|done].
  apply (appOK_sameCore
           (setGrid ((λ row : list Cell, solved <$> row) <$> app_grid st) st)); [|done].
  apply appOK_setGrid; [done|]. apply fmap_playedFrom; [apply Hok|apply sameSolution_solved].
Qed.

Lemma checkPuzzle_ok (st : AppState) :
  appOK st → ∃ st', checkPuzzle toUpperCase st = Some st' ∧ stepsTo st st'.
Proof.
  intros Hok. rewrite (checkPuzzle_fmap toUpperCase st (ok_grid _ Hok)).
  eexists. split; [done|]. split; [|done].
  apply appOK_setGrid; [done|]. apply fmap_playedFrom; [apply Hok|apply sameSolution_verdict].
Qed.

Lemma clearErrors_ok (st : AppState) :
  appOK st → ∃ st', clearErrors st = Some st' ∧ stepsTo st st'.
Proof.
  intros Hok. rewrite (clearErrors_fmap st (ok_grid _ Hok)).
  eexists. split; [done|]. split; [|done].
  apply appOK_setGrid; [done|]. apply fmap_playedFrom; [apply Hok|apply sameSolution_wiped].
Qed.

Lemma clearPuzzle_ok (st : AppState) : appOK st → stepsTo st (clearPuzzle st).
Proof.
  intros Hok. split; [|done].
  apply appOK_setGrid; [done|].
  apply fmap_playedFrom; [apply Hok|apply sameSolution_clearedCell].
Qed.

Lemma onToggleDirection_ok (st : AppState) :
  appOK st → ∃ st', onToggleDirection st = Some st' ∧ stepsTo st st'.
Proof.
  intros Hok. assert (stepsTo st st) as Hrefl by by split. unfold onToggleDirection.
  destruct (app_selectedCell st) as [[row col]|] eqn:Hsel; [|by exists st].
  destruct (cellAt_inGrid _ _ _ (ok_grid _ Hok) (ok_selected _ Hok _ _ Hsel)) as [cell ->].
  simpl. eexists. split; [done|]. by apply (stepsTo_sameCore st st).
Qed.

End GameInvariant.

(** ** A game on a generated puzzle *)

(** A puzzle that [generatePuzzle] returns. *)
Definition generated (p : Puzzle) : Prop :=
  ∃ random wordPool solutionWords pos pos',
    generatePuzzle random wordPool solutionWords pos = Some (p, pos').

Lemma generated_appOK (p : Puzzle) (st : AppState) :
  generated p → app_puzzle st = p → app_grid st = grid p → app_selectedCell st = None →
  app_hintsLetterUsed st = 0 → app_hintsWordUsed st = 0 → appOK st.
Proof.
  intros (random & wordPool & solutionWords & pos & pos' & H) Hp Hg Hsel Hl Hw.
  destruct (generatePuzzle_generatedBy _ _ _ _ _ _ H)
    as (bestGrid & placed0 & cg & ov & Hok & Hplaced & Hcg & Hov & Hgrid & Hsc).
  pose proof (generatePuzzle_cells _ _ _ _ _ _ H) as [Hwf _].
  split; rewrite ?Hp, ?Hg, ?Hsel, ?Hl, ?Hw; try done.
  - rewrite Hplaced. by apply numberClues_geometry, (layoutOK_geometry bestGrid).
  - intros r c x Hx. exists x. split; [done|]. apply sameSolution_refl.
  - intros sc Hin. rewrite Hsc in Hin.
    pose proof (oo_cells _ _ _ _ _ Hov sc Hin) as Hlc.
    apply list_elem_of_filter in Hlc as [_ Hall]. by apply elem_of_allCells in Hall.
Qed.

Lemma solutionLetters_total (st : AppState) : appOK st → is_Some (solutionLetters st).
Proof.
  intros Hok. unfold solutionLetters. apply mapM_is_Some, Forall_forall.
  intros sc Hsc. simpl.
  destruct (cellAt_inGrid _ _ _ (ok_grid _ Hok) (ok_cells _ Hok sc Hsc)) as [cell ->].
  done.
Qed.

Section GameRuns.

Variable toUpperCase : string → string.

(** What the document can send in the state [st]: a click on a cell of the
    grid or on a clue of the puzzle, a new puzzle from the generator, and
    the Tab key when the puzzle has a word of the current direction. *)
Definition eventOK (st : AppState) (ev : Event) : Prop :=
  match ev with
  | CellInteraction row col _ _ => inGrid row col
  | ClueClick clue _ => clue ∈ placedWords (app_puzzle st)
  | KeyDown (Tab _) => hasWordIn (app_puzzle st) (app_direction st)
  | NewPuzzle p => generated p
  | _ => True
  end.

Lemma handle_ok (ev : Event) (st : AppState) :
  appOK st → eventOK st ev →
  ∃ st', handle toUpperCase ev st = Some st' ∧ appOK st' ∧
         (app_puzzle st' = app_puzzle st ∨ ∃ p, ev = NewPuzzle p).
Proof.
  intros Hok Hev.
  assert (∀ o : option AppState, (∃ st', o = Some st' ∧ stepsTo st st') →
            ∃ st', o = Some st' ∧ appOK st' ∧
                   (app_puzzle st' = app_puzzle st ∨ ∃ p, ev = NewPuzzle p)) as Hweak.
  { intros o (st' & -> & [? ?]). exists st'. split; [done|]. split; [done|]. by left. }
  destruct ev as [row col isMobile now|key|key| | |clue isMobile| | | | | | |p| |value];
    simpl in *.
  - by apply Hweak, handleCellInteraction_ok.
  - apply Hweak, handleKeyDown_ok; [done|]. by intros shiftKey ->.
  - by apply Hweak, handleLetterInput_ok.
  - by apply Hweak, handleDelete_ok.
  - by apply Hweak, onToggleDirection_ok.
  - apply Hweak. eexists. split; [done|]. by apply handleClueClick_ok.
  - by apply Hweak, revealCell_ok.
  - by apply Hweak, revealWord_ok.
  - by apply Hweak, revealAll_ok.
  - by apply Hweak, checkPuzzle_ok.
  - apply Hweak. eexists. split; [done|]. by apply clearPuzzle_ok.
  - by apply Hweak, clearErrors_ok.
  - eexists. split; [done|]. split; [by apply (generated_appOK p)|]. right. by exists p.
  - apply Hweak. eexists. split; [done|]. split.
    + apply (appOK_sameCore st); [done|].
      unfold checkSolutionWord. by destruct (bool_decide _).
    + unfold checkSolutionWord. by destruct (bool_decide _).
  - apply Hweak. eexists. split; [done|]. split; [|done]. by apply (appOK_sameCore st).
Qed.

(** The events of a list handled one after the other. *)
Fixpoint run (evs : list Event) (st : AppState) : option AppState :=
  match evs with
  | [] => Some st
  | ev :: rest => st' ← handle toUpperCase ev st; run rest st'
  end.

(** Every event of the list is one the document can send in the state it
    is handled in. *)
Fixpoint playable (evs : list Event) (st : AppState) : Prop :=
  match evs with
  | [] => True
  | ev :: rest => eventOK st ev ∧
                  ∀ st', handle toUpperCase ev st = Some st' → playable rest st'
  end.

Lemma run_ok (evs : list Event) (st : AppState) :
  appOK st → playable evs st → ∃ st', run evs st = Some st' ∧ appOK st'.
Proof.
  revert st. induction evs as [|ev rest IH]; intros st Hok Hplay; simpl.
  - by exists st.
  - destruct Hplay as [Hev Hrest].
    destruct (handle_ok ev st Hok Hev) as (st1 & Hst1 & Hok1 & _). rewrite Hst1. simpl.
    apply IH; [done|]. by apply Hrest.
Qed.

(** A game on a puzzle from the generator never fails: whatever the user
    does, no handler reads outside the grid or a field of an undefined clue,
    provided Tab is only pressed while the puzzle has a word of the current
    direction.  In the state reached the grid is 15x15 and shows the puzzle
    of the state (same letters, black cells, numbers, clue references and
    solution marks), the selected cell is in the grid, at most 3 letter hints
    and 1 word hint are used, and rendering the active clue and the solution
    letters succeeds. *)
Theorem game_never_fails (random : nat → nat) (wordPool : list WordEntry)
    (solutionWords : list string) (pos : nat) (p : Puzzle) (pos' : nat)
    (evs : list Event) :
  generatePuzzle random wordPool solutionWords pos = Some (p, pos') →
  playable evs (initialState p) →
  ∃ st', run evs (initialState p) = Some st' ∧ appOK st' ∧
         is_Some (getActiveClue st') ∧ is_Some (solutionLetters st').
Proof.
  intros H Hplay.
  destruct (run_ok evs (initialState p)) as (st' & Hrun & Hok); [|done|].
  { apply (generated_appOK p); [|done..]. by exists random, wordPool, solutionWords, pos, pos'. }
  exists st'. split; [done|]. split; [done|]. split.
  - destruct (getActiveClue_total st' Hok) as (a & -> & _). done.
  - by apply solutionLetters_total.
Qed.

(** With a cell selected, the Tab key makes the handler fail exactly when
    there is an active clue and the puzzle has no word of the current
    direction: the index is then the remainder of a division by zero.
    Otherwise the state is unchanged (no active clue) or the selection goes
    to the start cell of a word of the current direction. *)
Theorem tab_fails_without_word_in_direction (shiftKey : bool) (st : AppState)
    (row col : Z) :
  appOK st → app_selectedCell st = Some (row, col) →
  (handleKeyDown toUpperCase (Tab shiftKey) st = None
   ↔ (∃ active, getActiveClue st = Some (Some active)) ∧
     ¬ hasWordIn (app_puzzle st) (app_direction st)) ∧
  (∀ st', handleKeyDown toUpperCase (Tab shiftKey) st = Some st' →
     st' = st ∨
     ∃ pw, pw ∈ placedWords (app_puzzle st) ∧ pw_direction pw = app_direction st ∧
           st' = setSelectedCell (Some (pw_row pw, pw_col pw)) st).
Proof.
  intros Hok Hsel.
  destruct (getActiveClue_total st Hok) as ([active|] & Hact & _).
  - destruct (tab_step toUpperCase shiftKey st row col active Hsel Hact)
      as [[Hnil Hnone]|(nextClue & Hnext & Hsome)].
    + split; [|by rewrite Hnone]. split; [|done]. intros _. split; [by exists active|].
      intros (pw & Hpw & Hdir).
      assert (pw ∈ filter (λ pw, pw_direction pw = app_direction st)
                          (placedWords (app_puzzle st))) as Hmem
        by by apply list_elem_of_filter.
      rewrite Hnil in Hmem. by apply not_elem_of_nil in Hmem.
    + apply list_elem_of_filter in Hnext as [Hdir Hnext]. rewrite Hsome. split.
      * split; [done|]. intros [_ Hno]. exfalso. apply Hno. by exists nextClue.
      * intros st' [= <-]. right. by exists nextClue.
  - assert (handleKeyDown toUpperCase (Tab shiftKey) st = Some st) as ->
      by (unfold handleKeyDown; by rewrite Hsel, Hact).
    split.
    + split; [done|]. intros [[active Hactive] _]. congruence.
    + intros st' [= <-]. by left.
Qed.

End GameRuns.

(** ** The active clue *)

(** In a returned puzzle a number and a direction name one word: two
    placed words with the same number start on the same cell, and two words
    of one direction cannot share it. *)
Lemma clue_unique random wordPool solutionWords pos p pos' (a b : PlacedWord) rc :
  generatePuzzle random wordPool solutionWords pos = Some (p, pos') →
  a ∈ placedWords p → b ∈ placedWords p →
  pw_number a = pw_number b → pw_direction a = pw_direction b → covers a rc → a = b.
Proof.
  intros H Ha Hb Hnum Hdir Hcov.
  destruct (generatePuzzle_attempt _ _ _ _ _ _ H) as (sp & g & placed & _ & Hrun & Hplaced).
  destruct (runAttempt_attemptOK sp g placed Hrun) as [[Hok _ _ _ _ Hne] _].
  assert (legalCrossword (placedWords p)) as (_ & _ & Hsingle).
  { rewrite Hplaced. by apply legalCrossword_numberClues, (layoutOK_legal g). }
  rewrite Hplaced in Ha, Hb.
  pose proof Ha as Ha'. pose proof Hb as Hb'.
  apply list_elem_of_lookup in Ha' as [i Hi]. apply list_elem_of_lookup in Hb' as [j Hj].
  destruct (decide (i = j)) as [->|Hij]; [congruence|]. exfalso.
  destruct Hne as [Hne|[s ->]]; last first.
  { apply lookup_lt_Some in Hi, Hj. rewrite numberClues_length in Hi, Hj. simpl in *. lia. }
  assert (startCell a = startCell b) as Hstart.
  { rewrite (numberClues_rank placed a Ha), (numberClues_rank placed b Hb) in Hnum.
    destruct (decide (cellBefore (startCell a) (startCell b))) as [Hlt|Hnlt].
    { pose proof (clueRank_lt (numberClues placed) a b Ha Hlt). lia. }
    destruct (decide (cellBefore (startCell b) (startCell a))) as [Hgt|Hngt].
    { pose proof (clueRank_lt (numberClues placed) b a Hb Hgt). lia. }
    unfold cellBefore in *. destruct (startCell a), (startCell b). simpl in *.
    f_equal; lia. }
  assert (0 < wlen (pw_word b)) as Hlenb.
  { destruct (numberClues_positions placed) as (f & _ & Hpos & _).
    destruct (Hpos j b Hj) as (b0 & Hb0 & ->). simpl.
    apply Hne. by eapply list_elem_of_lookup_2. }
  pose proof (covers_nonempty a rc Hcov) as Hlena.
  rewrite Hplaced in Hsingle.
  apply (Hsingle i j a b (startCell a) Hi Hj Hij Hdir).
  - exists 0. split; [lia|]. unfold startCell. destruct (pw_direction a); simpl; f_equal; lia.
  - rewrite Hstart. exists 0. split; [lia|].
    unfold startCell. destruct (pw_direction b); simpl; f_equal; lia.
Qed.

Lemma findClue_covering random wordPool solutionWords pos p pos' (pw : PlacedWord) rc :
  generatePuzzle random wordPool solutionWords pos = Some (p, pos') →
  pw ∈ placedWords p → covers pw rc →
  findClue (placedWords p) (pw_number pw) (pw_direction pw) = Some pw.
Proof.
  intros H Hpw Hcov. unfold findClue.
  destruct (List.find _ _) as [pw'|] eqn:Hfind.
  - apply find_some in Hfind as [Hin Hmatch]. apply list_elem_of_In in Hin.
    apply andb_true_iff in Hmatch as [Hn%bool_decide_eq_true Hd%bool_decide_eq_true].
    f_equal. symmetry. by eapply (clue_unique _ _ _ _ _ _ pw pw' rc H).
  - apply list_elem_of_In in Hpw. apply (find_none _ _ Hfind pw) in Hpw as Hmatch.
    rewrite !bool_decide_eq_true_2 in Hmatch by done. done.
Qed.

(** The active clue of a game on a returned puzzle: with a cell selected
    it is the placed word of the current direction that runs through the
    cell; when there is none, the word of the other direction through the
    cell; and there is no active clue only when no placed word covers the
    cell. *)
Theorem active_clue_runs_through_selection (random : nat → nat)
    (wordPool : list WordEntry) (solutionWords : list string) (pos : nat) (p : Puzzle)
    (pos' : nat) (st : AppState) (row col : Z) :
  generatePuzzle random wordPool solutionWords pos = Some (p, pos') →
  appOK st → app_puzzle st = p → app_selectedCell st = Some (row, col) →
  ∃ active, getActiveClue st = Some active ∧
    match active with
    | Some pw =>
        pw ∈ placedWords p ∧ covers pw (row, col) ∧
        (pw_direction pw = app_direction st ∨
         ∀ pw', pw' ∈ placedWords p → pw_direction pw' = app_direction st →
                ¬ covers pw' (row, col))
    | None => ∀ pw', pw' ∈ placedWords p → ¬ covers pw' (row, col)
    end.
Proof.
  intros H Hok Hp Hsel.
  pose proof (ok_selected _ Hok _ _ Hsel) as Hin.
  destruct (cellAt_inGrid _ _ _ (ok_grid _ Hok) Hin) as [x Hx].
  destruct (ok_solution _ Hok _ _ _ Hx) as (y & Hy & (_ & _ & _ & Hac & Hdc & _)).
  rewrite Hp in Hy.
  destruct (generatePuzzle_clueRef _ _ _ _ _ _ H row col Hin) as (y' & Hy' & Hrefs).
  rewrite Hy in Hy'. injection Hy' as <-.
  assert (∀ d, clueRef d x = clueRef d y) as Hxy by (intros d; by destruct d).
  assert (∀ d, (if bool_decide (d = across) then acrossClue x else downClue x) = clueRef d y)
    as Hcur by (intros d; rewrite <- Hxy; by destruct d).
  assert (∀ d, (if bool_decide (d = across) then downClue x else acrossClue x)
               = clueRef (otherDir d) y)
    as Halt by (intros d; rewrite <- Hxy; by destruct d).
  assert (∀ d, (if bool_decide (d = across) then down else across) = otherDir d)
    as Hother by (intros d; by destruct d).
  assert (∀ d n, clueRef d y = Some n →
            ∃ pw, findClue (placedWords p) n d = Some pw ∧
                  pw ∈ placedWords p ∧ covers pw (row, col) ∧ pw_direction pw = d) as Hfound.
  { intros d n Hn. apply Hrefs in Hn as (pw & Hpw & <- & Hcov & <-).
    exists pw. split; [|done]. by eapply findClue_covering. }
  assert (∀ d, clueRef d y = None →
            ∀ pw, pw ∈ placedWords p → pw_direction pw = d → ¬ covers pw (row, col))
    as Hnone.
  { intros d Hn pw Hpw Hdir Hcov.
    assert (clueRef d y = Some (pw_number pw)) as Hsome by (apply Hrefs; by exists pw).
    congruence. }
  unfold getActiveClue. rewrite Hsel, Hx, Hp. simpl.
  rewrite Hcur, Halt, Hother.
  destruct (clueRef (app_direction st) y) as [n|] eqn:Hn.
  - destruct (Hfound _ n Hn) as (pw & -> & Hpw & Hcov & Hdir).
    eexists. split; [done|]. simpl. split; [done|]. split; [done|]. by left.
  - destruct (clueRef (otherDir (app_direction st)) y) as [m|] eqn:Hm.
    + destruct (Hfound _ m Hm) as (pw & -> & Hpw & Hcov & Hdir).
      eexists. split; [done|]. simpl. split; [done|]. split; [done|]. right.
      by apply Hnone.
    + eexists. split; [done|]. simpl. intros pw Hpw Hcov.
      destruct (decide (pw_direction pw = app_direction st)) as [Hd|Hd].
      * by apply (Hnone _ Hn pw).
      * apply (Hnone _ Hm pw); [done| |done].
        destruct (pw_direction pw), (app_direction st); done.
Qed.

(** ** Hints and corrections *)

Section GameHints.

Variable toUpperCase : string → string.

Lemma checkComplete_cases (g : list (list Cell)) (st : AppState) :
  wfGrid g →
  checkComplete toUpperCase g st = Some st ∨ checkComplete toUpperCase g st = Some (won st).
Proof.
  intros Hwf. unfold checkComplete.
  destruct (checkCompleteScan_spec toUpperCase g Hwf) as (af & ac & -> & _). simpl.
  destruct (af && ac); [by right|by left].
Qed.

(** [revealWord] with an active clue and the word hint not yet used
    reveals the cells of the active clue, and only those, and uses the hint;
    in every other case it changes nothing. *)
Theorem revealWord_reveals_active_word (st : AppState) :
  appOK st →
  ∃ st', revealWord toUpperCase st = Some st' ∧
    match getActiveClue st with
    | Some (Some active) =>
        if decide (app_hintsWordUsed st < MAX_WORD_HINTS) then
          app_hintsWordUsed st' = app_hintsWordUsed st + 1 ∧
          ∀ r c x, cellAt (app_grid st) r c = Some x →
            (covers active (r, c) → cellAt (app_grid st') r c = Some (shown x)) ∧
            (¬ covers active (r, c) → cellAt (app_grid st') r c = Some x)
        else st' = st
    | _ => st' = st
    end.
Proof.
  intros Hok. unfold revealWord.
  destruct (getActiveClue_total st Hok) as (active & Hact & Hmem). rewrite Hact.
  destruct (Z.geb_spec (app_hintsWordUsed st) MAX_WORD_HINTS) as [Hge|Hlt].
  { exists st. split; [done|]. destruct active; [|done]. by rewrite decide_False by lia. }
  destruct active as [active|]; [|by exists st].
  destruct (decide (app_hintsWordUsed st < MAX_WORD_HINTS)) as [_|?]; [|done].
  simpl.
  pose proof (ok_words _ Hok) as Hgeo. rewrite Forall_forall in Hgeo.
  destruct (revealCells_spec (getClueCells active) (app_grid st) (ok_grid _ Hok))
    as (g' & -> & Hwf' & Hcells).
  { intros rc. by apply getClueCells_inGrid, Hgeo, Hmem. }
  simpl.
  destruct (checkComplete_cases g'
              (setHintsWordUsed (app_hintsWordUsed st + 1) (setGrid g' st)) Hwf')
    as [-> | ->]; eexists; (split; [done|]); simpl; (split; [done|]);
    intros r c x Hx; rewrite (Hcells r c x Hx); (split; intros Hcov);
    [rewrite bool_decide_eq_true_2|rewrite bool_decide_eq_false_2|
     rewrite bool_decide_eq_true_2|rewrite bool_decide_eq_false_2];
    try done; by rewrite elem_of_getClueCells.
Qed.

(** Typing a letter and pressing Backspace leaves the cell empty again
    and the selection where it was, when the cell after the selected one in
    the current direction is outside the grid, black or empty.  (When that
    cell has an entry, Backspace deletes that entry instead.) *)
Theorem backspace_undoes_letter (key : string) (st : AppState) (row col : Z)
    (x : Cell) :
  appOK st → app_selectedCell st = Some (row, col) →
  cellAt (app_grid st) row col = Some x → isBlack x = false →
  toUpperCase key ≠ ""%string →
  (∀ y, cellAt (app_grid st)
               (if bool_decide (app_direction st = across) then row else row + 1)
               (if bool_decide (app_direction st = across) then col + 1 else col) = Some y →
        isBlack y = true ∨ userInput y = ""%string) →
  ∃ st1 st2,
    handleLetterInput toUpperCase key st = Some st1 ∧ handleDelete st1 = Some st2 ∧
    app_selectedCell st2 = Some (row, col) ∧
    ∀ r c, cellAt (app_grid st2) r c
           = if decide ((r, c) = (row, col)) then Some (entered ""%string x)
             else cellAt (app_grid st) r c.
Proof.
  intros Hok Hsel Hx Hblack Hkey Hnext.
  pose proof (ok_selected _ Hok _ _ Hsel) as Hin.
  pose proof (ok_grid _ Hok) as Hwf.
  destruct (enterAt_writes (app_grid st) row col (toUpperCase key) Hwf Hin)
    as (g1 & Hg1 & Hwf1 & x' & Hx' & H1).
  rewrite Hx in Hx'. injection Hx' as <-.
  destruct (enterAt_writes g1 row col ""%string Hwf1 Hin) as (g2 & Hg2 & Hwf2 & x1 & Hx1 & H2).
  rewrite H1, decide_True in Hx1 by done. injection Hx1 as <-.
  assert (∀ r c, cellAt g2 r c
                 = if decide ((r, c) = (row, col)) then Some (entered ""%string x)
                   else cellAt (app_grid st) r c) as Hfinal.
  { intros r c. rewrite H2. destruct (decide ((r, c) = (row, col))); [done|].
    rewrite H1. by rewrite decide_False. }
  set (nr := if bool_decide (app_direction st = across) then row else row + 1) in *.
  set (nc := if bool_decide (app_direction st = across) then col + 1 else col) in *.
  assert ((nr, nc) ≠ (row, col)) as Hne.
  { subst nr nc. destruct (bool_decide _); intros [= ]; lia. }
  assert ((if bool_decide (app_direction st = across) then nr else nr - 1) = row ∧
          (if bool_decide (app_direction st = across) then nc - 1 else nc) = col)
    as [Hpr Hpc].
  { subst nr nc. destruct (bool_decide _); lia. }
  (* the state after the letter, before [checkComplete] *)
  assert (∃ stA, moveToNextCell (app_grid st) row col (app_direction st) (setGrid g1 st)
                 = Some stA ∧ app_grid stA = g1 ∧ app_direction stA = app_direction st ∧
                 ((app_selectedCell stA = Some (row, col) ∧
                   (∀ y, cellAt (app_grid st) nr nc = Some y → isBlack y = true)) ∨
                  (app_selectedCell stA = Some (nr, nc) ∧
                   ∃ y, cellAt (app_grid st) nr nc = Some y ∧ isBlack y = false)))
    as (stA & HstA & HgA & HdA & HselA).
  { unfold moveToNextCell. fold nr nc.
    destruct ((nr <? GRID_SIZE) && (nc <? GRID_SIZE)) eqn:Hrange.
    - apply andb_true_iff in Hrange as [Hnr%Z.ltb_lt Hnc%Z.ltb_lt].
      assert (inGrid nr nc) as Hin'.
      { destruct Hin. subst nr nc. destruct (bool_decide _); unfold inGrid in *; lia. }
      destruct (cellAt_inGrid _ _ _ Hwf Hin') as [y Hy]. rewrite Hy. simpl.
      eexists. split; [done|]. destruct (isBlack y) eqn:Hby; simpl.
      + repeat split. left. split; [done|]. intros y' Hy'. congruence.
      + repeat split. right. split; [done|]. by exists y.
    - eexists. split; [done|]. repeat split. left. split; [done|].
      intros y Hy. pose proof (cellAt_Some_inGrid _ _ _ _ Hwf Hy) as [? ?].
      apply andb_false_iff in Hrange as [?%Z.ltb_ge|?%Z.ltb_ge]; unfold GRID_SIZE in *; lia. }
  assert (∃ st1, handleLetterInput toUpperCase key st = Some st1 ∧
                 app_grid st1 = g1 ∧ app_direction st1 = app_direction st ∧
                 app_selectedCell st1 = app_selectedCell stA) as (st1 & Hst1 & Hgs & Hds & Hss).
  { unfold handleLetterInput. rewrite Hsel, Hg1. simpl. rewrite HstA. simpl.
    destruct (checkComplete_cases g1 stA Hwf1) as [-> | ->]; by eexists. }
  exists st1. unfold handleDelete. rewrite Hss, Hgs, Hds.
  destruct HselA as [[HsA Hblocked]|[HsA (y & Hy & Hby)]]; rewrite HsA in *.
  - (* the selection has not moved *)
    rewrite (H1 row col), decide_True by done. simpl.
    rewrite bool_decide_eq_false_2 by done.
    rewrite Hg2. simpl. eexists. split; [done|]. split; [done|]. simpl.
    split; [done|]. apply Hfinal.
  - (* the selection is on the next cell, which is empty *)
    rewrite (H1 nr nc), decide_False by done. rewrite Hy. simpl.
    destruct (Hnext y Hy) as [?|Hempty]; [congruence|].
    rewrite bool_decide_eq_true_2 by done.
    unfold moveToPrevCell. rewrite Hpr, Hpc.
    assert ((row >=? 0) && (col >=? 0) = true) as ->.
    { destruct Hin. apply andb_true_iff. split; apply Z.geb_le; lia. }
    rewrite (H1 row col), decide_True by done. simpl. rewrite Hblack. simpl.
    rewrite Hg2. simpl. eexists. split; [done|]. split; [done|]. simpl.
    split; [done|]. apply Hfinal.
Qed.

End GameHints.

(** ** The solution strip *)

(** A solution cell of a returned puzzle is a letter cell that holds the
    letter of the solution word at its index. *)
Lemma solutionCell_letter random wordPool solutionWords pos p pos' (e : SolutionCell) :
  generatePuzzle random wordPool solutionWords pos = Some (p, pos') →
  e ∈ solutionCells p →
  ∃ y, cellAt (grid p) (sc_row e) (sc_col e) = Some y ∧ isBlack y = false ∧
       letterAt (solutionWord p) (sc_index e) = Some (letter y).
Proof.
  intros H He.
  destruct (generatePuzzle_generatedBy _ _ _ _ _ _ H)
    as (bestGrid & placed0 & cg & st & Hok & Hplaced & Hcg & Hst & Hgrid & Hsc).
  rewrite Hsc in He.
  pose proof (oo_cells _ _ _ _ _ Hst e He) as Hlc.
  apply list_elem_of_filter in Hlc as [Hlc _].
  destruct (oo_marked _ _ _ _ _ Hst e He) as (x & Hx & Hletter & _).
  destruct (oo_frame _ _ _ _ _ Hst _ _ _ Hx) as (x0 & Hx0 & _ & Hblack).
  unfold isLetterCell, scCell in Hlc. simpl in Hlc. rewrite Hx0 in Hlc.
  apply negb_true_iff in Hlc.
  exists x. rewrite Hgrid. split; [done|]. split; [congruence|done].
Qed.

(** After [revealAll] in a game on a returned puzzle the solution strip
    shows, for every solution cell, the letter of the solution word at the
    index of the cell, whatever was entered before. *)
Theorem revealAll_shows_solution_word (random : nat → nat) (wordPool : list WordEntry)
    (solutionWords : list string) (pos : nat) (p : Puzzle) (pos' : nat)
    (st : AppState) :
  generatePuzzle random wordPool solutionWords pos = Some (p, pos') →
  appOK st → app_puzzle st = p →
  ∃ st' letters,
    revealAll st = Some st' ∧ solutionLetters st' = Some letters ∧
    Forall2 (λ e s, letterAt (solutionWord p) (sc_index e) = Some s)
            (solutionCells p) letters.
Proof.
  intros H Hok Hp.
  rewrite (revealAll_fmap st (ok_grid _ Hok)).
  assert (∀ e, e ∈ solutionCells p →
            ∃ s, letterAt (solutionWord p) (sc_index e) = Some s ∧
                 (cell ← cellAt ((λ row : list Cell, solved <$> row) <$> app_grid st)
                                (sc_row e) (sc_col e);
                  Some (if bool_decide (userInput cell = ""%string) then "_"%string
                        else userInput cell)) = Some s) as Hcell.
  { intros e He.
    destruct (solutionCell_letter _ _ _ _ _ _ e H He) as (y & Hy & Hblack & Hletter).
    pose proof He as Hin. rewrite <- Hp in Hin. apply (ok_cells _ Hok) in Hin.
    destruct (cellAt_inGrid _ _ _ (ok_grid _ Hok) Hin) as [x Hx].
    destruct (ok_solution _ Hok _ _ _ Hx) as (y' & Hy' & (Hl & Hb & _)).
    rewrite Hp, Hy in Hy'. injection Hy' as <-.
    exists (letter y). split; [done|].
    rewrite cellAt_fmap, Hx. simpl. unfold solved. rewrite Hb, Hblack. simpl.
    rewrite Hl. apply letterAt_Some in Hletter as [_ Hne].
    by rewrite bool_decide_eq_false_2. }
  assert (∃ letters,
            mapM (λ sc, cell ← cellAt ((λ row : list Cell, solved <$> row) <$> app_grid st)
                                      (sc_row sc) (sc_col sc);
                        Some (if bool_decide (userInput cell = ""%string) then "_"%string
                              else userInput cell)) (solutionCells p) = Some letters ∧
            Forall2 (λ e s, letterAt (solutionWord p) (sc_index e) = Some s)
                    (solutionCells p) letters) as (letters & Hletters & Hall).
  { induction (solutionCells p) as [|e l IH].
    - exists []. split; [done|]. constructor.
    - destruct (Hcell e) as (s & Hs & Hshow); [set_solver|].
      destruct IH as (letters & Hrest & Hall); [intros e' He'; apply Hcell; set_solver|].
      exists (s :: letters). split; [|by constructor].
      rewrite mapM_Some in Hrest. apply mapM_Some. by constructor. }
  eexists _, letters. split; [done|]. split; [|done].
  unfold solutionLetters. simpl. by rewrite Hp.
Qed.

(** ** The selection stays on letter cells *)

(** A cell of a returned puzzle that a placed word covers is not black. *)
Lemma covered_not_black random wordPool solutionWords pos p pos' (pw : PlacedWord) r c :
  generatePuzzle random wordPool solutionWords pos = Some (p, pos') →
  pw ∈ placedWords p → covers pw (r, c) →
  ∃ x, cellAt (grid p) r c = Some x ∧ isBlack x = false.
Proof.
  intros H Hpw Hcov.
  destruct (generatePuzzle_generatedBy _ _ _ _ _ _ H)
    as (bestGrid & placed0 & cg & st & Hok & Hplaced & Hcg & Hst & Hgrid & Hsc).
  assert (inGrid r c) as Hin.
  { pose proof (numberClues_geometry placed0 (layoutOK_geometry bestGrid placed0 Hok)) as Hgeo.
    rewrite <- Hplaced, Forall_forall in Hgeo. destruct (Hgeo pw Hpw) as [Hfits _].
    destruct Hcov as (i & Hi & Hcell).
    pose proof (fitsInGrid_cells (pw_word pw) _ _ _ i Hfits Hi) as Hc.
    by rewrite Hcell in Hc. }
  rewrite Hgrid.
  destruct (cellAt_inGrid _ _ _ (oo_wf _ _ _ _ _ Hst) Hin) as [x Hx].
  exists x. split; [done|].
  destruct (oo_frame _ _ _ _ _ Hst _ _ _ Hx) as (x0 & Hx0 & _ & Hblack).
  destruct (proj2 Hcg r c Hin) as (x0' & Hx0' & (s & Hs & _ & Hblack0) & _).
  rewrite Hx0 in Hx0'. injection Hx0' as <-.
  destruct (layoutOK_filled_iff_covered bestGrid placed0 (r, c) Hok Hin) as (s' & Hs' & Hc).
  simpl in Hs, Hs'. rewrite Hs in Hs'. injection Hs' as <-.
  rewrite Hblack, Hblack0. apply bool_decide_eq_false, Hc, numberClues_covers.
  rewrite <- Hplaced. by exists pw.
Qed.

(** The selection of [st'] is that of [st] or a letter cell of [g]. *)
Definition selStep (g : list (list Cell)) (st st' : AppState) : Prop :=
  app_selectedCell st' = app_selectedCell st ∨
  ∃ r c x, app_selectedCell st' = Some (r, c) ∧ cellAt g r c = Some x ∧ isBlack x = false.

Lemma moveToNextCell_selStep g row col dir st st' :
  moveToNextCell g row col dir st = Some st' → selStep g st st'.
Proof.
  unfold moveToNextCell. destruct (_ && _); [|intros [= <-]; by left].
  destruct (cellAt g _ _) as [cell|] eqn:Hcell; [|done]. simpl. intros [= <-].
  destruct (isBlack cell) eqn:Hb; simpl; [by left|]. right. by eexists _, _, cell.
Qed.

Lemma moveToPrevCell_selStep g row col dir st st' :
  moveToPrevCell g row col dir st = Some st' → selStep g st st'.
Proof.
  unfold moveToPrevCell. destruct (_ && _); [|intros [= <-]; by left].
  destruct (cellAt g _ _) as [cell|] eqn:Hcell; [|done]. simpl. intros [= <-].
  destruct (isBlack cell) eqn:Hb; simpl; [by left|]. right. by eexists _, _, cell.
Qed.

Section GameSelection.

Variable toUpperCase : string → string.

Lemma checkComplete_selection g st st' :
  wfGrid g → checkComplete toUpperCase g st = Some st' →
  app_selectedCell st' = app_selectedCell st.
Proof.
  intros Hwf H. destruct (checkComplete_cases toUpperCase g st Hwf) as [H'|H'];
    rewrite H' in H; by injection H as <-.
Qed.

Lemma handleLetterInput_selStep key st st' :
  appOK st → handleLetterInput toUpperCase key st = Some st' → selStep (app_grid st) st st'.
Proof.
  intros Hok. unfold handleLetterInput.
  destruct (app_selectedCell st) as [[row col]|] eqn:Hsel; [|intros [= <-]; by left].
  pose proof (ok_selected _ Hok _ _ Hsel) as Hin.
  destruct (enterAt_writes (app_grid st) row col (toUpperCase key) (ok_grid _ Hok) Hin)
    as (g1 & -> & Hwf1 & _). simpl.
  destruct (moveToNextCell _ _ _ _ _) as [st1|] eqn:Hmove; [|done]. simpl.
  intros Hcheck. apply checkComplete_selection in Hcheck; [|done].
  apply moveToNextCell_selStep in Hmove. unfold selStep in *. rewrite Hcheck.
  exact Hmove.
Qed.

Lemma handleDelete_selStep st st' :
  handleDelete st = Some st' → selStep (app_grid st) st st'.
Proof.
  unfold handleDelete.
  destruct (app_selectedCell st) as [[row col]|] eqn:Hsel; [|intros [= <-]; by left].
  destruct (cellAt (app_grid st) row col) as [cell|]; [|done]. simpl.
  destruct (bool_decide _).
  - destruct (moveToPrevCell _ _ _ _ _) as [st1|] eqn:Hmove; [|done]. simpl.
    destruct (if _ && _ then _ else _) as [newGrid|]; [|done]. simpl. intros [= <-].
    apply moveToPrevCell_selStep in Hmove. exact Hmove.
  - destruct (enterAt _ _ _ _); [|done]. simpl. intros [= <-]. by left.
Qed.

(** The start cell of every placed word of the puzzle is a letter cell. *)
Definition startsOnLetters (st : AppState) : Prop :=
  ∀ pw, pw ∈ placedWords (app_puzzle st) →
        ∃ x, cellAt (app_grid st) (pw_row pw) (pw_col pw) = Some x ∧ isBlack x = false.

Lemma handle_selStep (ev : Event) (st st' : AppState) :
  appOK st → startsOnLetters st → eventOK st ev → (∀ p, ev ≠ NewPuzzle p) →
  handle toUpperCase ev st = Some st' → selStep (app_grid st) st st'.
Proof.
  intros Hok Hstarts Hev Hnew H.
  destruct ev as [row col isMobile now|key|key| | |clue isMobile| | | | | | |p| |value];
    simpl in *.
  - unfold handleCellInteraction in H.
    destruct (cellAt (app_grid st) row col) as [cell|] eqn:Hcell; [|done]. simpl in H.
    destruct (isBlack cell) eqn:Hb; [injection H as <-; by left|].
    assert (selStep (app_grid st) st (selectCell cell row col st)) as Hselect.
    { right. exists row, col, cell. split; [|done]. unfold selectCell.
      by repeat case_match. }
    destruct isMobile.
    + destruct (match app_lastTap st with Some _ => _ | None => _ end);
        [injection H as <-; by left|].
      destruct (bool_decide (app_selectedCell st = Some (row, col)));
        injection H as <-; [by left|done].
    + destruct (bool_decide (app_selectedCell st = Some (row, col)));
        injection H as <-; [by left|done].
  - destruct (app_selectedCell st) as [[row col]|] eqn:Hsel; last first.
    { unfold handleKeyDown in H. rewrite Hsel in H. injection H as <-. by left. }
    destruct key as [shiftKey| | | | | | |key|].
    + destruct (getActiveClue_total st Hok) as ([active|] & Hact & _); last first.
      { unfold handleKeyDown in H. rewrite Hsel, Hact in H. injection H as <-. by left. }
      destruct (tab_step toUpperCase shiftKey st row col active Hsel Hact)
        as [[_ Hnone]|(nextClue & Hnext & Hsome)]; [congruence|].
      rewrite Hsome in H. injection H as <-.
      apply list_elem_of_filter in Hnext as [_ Hnext].
      destruct (Hstarts nextClue Hnext) as (x & Hx & Hb). right. by eexists _, _, x.
    + unfold handleKeyDown in H. rewrite Hsel in H.
      apply moveToNextCell_selStep in H. exact H.
    + unfold handleKeyDown in H. rewrite Hsel in H.
      apply moveToPrevCell_selStep in H. exact H.
    + unfold handleKeyDown in H. rewrite Hsel in H.
      apply moveToNextCell_selStep in H. exact H.
    + unfold handleKeyDown in H. rewrite Hsel in H.
      apply moveToPrevCell_selStep in H. exact H.
    + unfold handleKeyDown in H. rewrite Hsel in H.
      apply handleDelete_selStep in H. exact H.
    + unfold handleKeyDown in H. rewrite Hsel in H.
      destruct (enterAt _ _ _ _); [|done]. simpl in H. injection H as <-. by left.
    + unfold handleKeyDown in H. rewrite Hsel in H.
      apply handleLetterInput_selStep in H; [|done]. exact H.
    + unfold handleKeyDown in H. rewrite Hsel in H. injection H as <-. by left.
  - by apply (handleLetterInput_selStep key).
  - by apply handleDelete_selStep.
  - unfold onToggleDirection in H.
    destruct (app_selectedCell st) as [[row col]|] eqn:Hsel; [|injection H as <-; by left].
    destruct (cellAt _ _ _); [|done]. simpl in H. injection H as <-. by left.
  - injection H as <-. destruct (Hstarts clue Hev) as (x & Hx & Hb).
    right. exists (pw_row clue), (pw_col clue), x. split; [|done].
    unfold handleClueClick. by destruct isMobile.
  - unfold revealCell in H.
    destruct (app_selectedCell st) as [[row col]|] eqn:Hsel; [|injection H as <-; by left].
    destruct (_ >=? _); [injection H as <-; by left|].
    destruct (cellAt _ _ _) as [cell|]; [|done]. simpl in H.
    destruct (_ || _); [injection H as <-; by left|].
    destruct (revealAt_writes (app_grid st) row col (ok_grid _ Hok)
                (ok_selected _ Hok _ _ Hsel)) as (g' & Hg' & Hwf' & _).
    rewrite Hg' in H. simpl in H. apply checkComplete_selection in H; [|done].
    left. by rewrite H.
  - unfold revealWord in H. destruct (_ >=? _); [injection H as <-; by left|].
    destruct (getActiveClue_total st Hok) as ([active|] & Hact & Hmem); rewrite Hact in H;
      simpl in H; [|injection H as <-; by left].
    pose proof (ok_words _ Hok) as Hgeo. rewrite Forall_forall in Hgeo.
    destruct (revealCells_spec (getClueCells active) (app_grid st) (ok_grid _ Hok))
      as (g' & Hg' & Hwf' & _).
    { intros rc. by apply getClueCells_inGrid, Hgeo, Hmem. }
    rewrite Hg' in H. simpl in H. apply checkComplete_selection in H; [|done].
    left. by rewrite H.
  - rewrite (revealAll_fmap st (ok_grid _ Hok)) in H. injection H as <-. by left.
  - rewrite (checkPuzzle_fmap toUpperCase st (ok_grid _ Hok)) in H. injection H as <-.
    by left.
  - injection H as <-. by left.
  - rewrite (clearErrors_fmap st (ok_grid _ Hok)) in H. injection H as <-. by left.
  - by destruct (Hnew p).
  - injection H as <-. left. unfold checkSolutionWord. by destruct (bool_decide _).
  - injection H as <-. by left.
Qed.

(** The selected cell of the state, if any, is a letter cell of the grid. *)
Definition onLetterCell (st : AppState) : Prop :=
  ∀ r c, app_selectedCell st = Some (r, c) →
         ∃ x, cellAt (app_grid st) r c = Some x ∧ isBlack x = false.

(** No event of the list is a new puzzle. *)
Definition samePuzzle (evs : list Event) : Prop :=
  ∀ p, NewPuzzle p ∉ evs.

(** In a game on a returned puzzle without an empty word the selection
    never rests on a black cell: after any list of events that the document
    can send (clicks, keys, hints, checks and clears), the selected cell, if
    there is one, is a letter cell of the grid. *)
Theorem selection_never_black (random : nat → nat) (wordPool : list WordEntry)
    (solutionWords : list string) (pos : nat) (p : Puzzle) (pos' : nat)
    (evs : list Event) :
  generatePuzzle random wordPool solutionWords pos = Some (p, pos') →
  (∀ pw, pw ∈ placedWords p → pw_word pw ≠ ""%string) →
  samePuzzle evs → playable toUpperCase evs (initialState p) →
  ∃ st', run toUpperCase evs (initialState p) = Some st' ∧ onLetterCell st'.
Proof.
  intros H Hwords Hsame Hplay.
  assert (∀ st, appOK st → app_puzzle st = p → startsOnLetters st) as Hstarts.
  { intros st Hok Hp pw Hpw. rewrite Hp in Hpw.
    destruct (covered_not_black _ _ _ _ _ _ pw (pw_row pw) (pw_col pw) H Hpw)
      as (y & Hy & Hb).
    { exists 0. split; [|by destruct (pw_direction pw); simpl; f_equal; lia].
      specialize (Hwords pw Hpw). unfold wlen. destruct (pw_word pw); [done|].
      simpl. lia. }
    pose proof (cellAt_Some_inGrid _ _ _ _ (proj1 (generatePuzzle_cells _ _ _ _ _ _ H)) Hy)
      as Hin.
    destruct (cellAt_inGrid _ _ _ (ok_grid _ Hok) Hin) as [x Hx].
    destruct (ok_solution _ Hok _ _ _ Hx) as (y' & Hy' & (_ & Hbx & _)).
    rewrite Hp, Hy in Hy'. injection Hy' as <-. exists x. split; [done|]. congruence. }
  assert (∀ st, appOK st ∧ app_puzzle st = p ∧ onLetterCell st →
            playable toUpperCase evs st →
            ∃ st', run toUpperCase evs st = Some st' ∧ onLetterCell st') as Hrun.
  { clear Hplay. induction evs as [|ev rest IH]; intros st (Hok & Hp & Hon) Hplay; simpl.
    { by exists st. }
    destruct Hplay as [Hev Hrest].
    assert (∀ q, ev ≠ NewPuzzle q) as Hnew.
    { intros q ->. apply (Hsame q). by left. }
    destruct (handle_ok toUpperCase ev st Hok Hev) as (st1 & Hst1 & Hok1 & Hp1).
    destruct Hp1 as [Hp1|[q ->]]; [|by destruct (Hnew q)].
    rewrite Hst1. simpl. apply IH.
    - intros q Hq. apply (Hsame q). by right.
    - split; [done|]. split; [congruence|].
      intros r c Hsel1.
      assert (∃ x, cellAt (app_grid st) r c = Some x ∧ isBlack x = false) as (x & Hx & Hb).
      { destruct (handle_selStep ev st st1 Hok (Hstarts st Hok Hp) Hev Hnew Hst1)
          as [Hsame'|(r' & c' & x & Hsel' & Hx & Hb)].
        - apply Hon. congruence.
        - rewrite Hsel1 in Hsel'. injection Hsel' as <- <-. by exists x. }
      pose proof (cellAt_Some_inGrid _ _ _ _ (ok_grid _ Hok) Hx) as Hin.
      destruct (cellAt_inGrid _ _ _ (ok_grid _ Hok1) Hin) as [x1 Hx1].
      destruct (ok_solution _ Hok _ _ _ Hx) as (y & Hy & (_ & Hbx & _)).
      destruct (ok_solution _ Hok1 _ _ _ Hx1) as (y1 & Hy1 & (_ & Hbx1 & _)).
      rewrite Hp1, Hy in Hy1. injection Hy1 as <-.
      exists x1. split; [done|]. congruence.
    - by apply Hrest. }
  apply Hrun; [|done]. split; [|split; [done|by intros r c [=]]].
  apply (generated_appOK p); [|done..]. by exists random, wordPool, solutionWords, pos, pos'.
Qed.

End GameSelection.

(** ** Worked examples of the game *)

(** [toUpperCase] on strings of ASCII characters. *)
Definition asciiUpper (a : ascii) : ascii :=
  let n := nat_of_ascii a in
  if (97 <=? n)%nat && (n <=? 122)%nat then ascii_of_nat (n - 32) else a.

Fixpoint upperCase (s : string) : string :=
  match s with
  | EmptyString => EmptyString
  | String a rest => String (asciiUpper a) (upperCase rest)
  end.

(** The game on the demo puzzle, before the first event and with the W of
    WORLD selected. *)
Definition demoState : AppState := initialState demoPuzzle.

Definition demoSelected : AppState := setSelectedCell (Some (7, 5)) demoState.

Lemma demoState_ok : appOK demoState.
Proof.
  apply (generated_appOK demoPuzzle); [|done..].
  exists zeroDraws, demoPool, demoSolutionWords, 0%nat, demoEnd. apply demoRun_eq.
Qed.

Lemma demoSelected_ok : appOK demoSelected.
Proof. apply appOK_setSelectedCell; [apply demoState_ok|]. by vm_compute. Qed.

Lemma demoGrid_wf : wfGrid (app_grid demoState).
Proof. apply demoState_ok. Qed.

(** A puzzle with a single word, WORLD across, and the game on it after a
    click on the W and the key ArrowDown. *)
Definition soloRun : option (Puzzle * nat) :=
  Eval vm_compute in
    generatePuzzle zeroDraws (entry <$> ["WORLD"%string]) ["OLD"%string] 0%nat.

Definition soloPuzzle : Puzzle :=
  Eval vm_compute in
    match soloRun with Some (p, _) => p | None => mkPuzzle [] [] ""%string [] end.

Definition soloEnd : nat :=
  Eval vm_compute in match soloRun with Some (_, n) => n | None => 0%nat end.

Lemma soloRun_eq :
  generatePuzzle zeroDraws (entry <$> ["WORLD"%string]) ["OLD"%string] 0%nat
  = Some (soloPuzzle, soloEnd).
Proof. vm_compute. reflexivity. Qed.

Definition soloDown : AppState :=
  Eval vm_compute in
    default (initialState soloPuzzle)
            (run upperCase [CellInteraction 7 5 false 0; KeyDown ArrowDown]
                 (initialState soloPuzzle)).

Lemma soloDown_eq :
  run upperCase [CellInteraction 7 5 false 0; KeyDown ArrowDown] (initialState soloPuzzle)
  = Some soloDown.
Proof. vm_compute. reflexivity. Qed.

Lemma soloDown_ok : appOK soloDown.
Proof.
  destruct (run_ok upperCase [CellInteraction 7 5 false 0; KeyDown ArrowDown]
              (initialState soloPuzzle)) as (st' & Hrun & Hok).
  - apply (generated_appOK soloPuzzle); [|done..].
    exists zeroDraws, (entry <$> ["WORLD"%string]), ["OLD"%string], 0%nat, soloEnd.
    apply soloRun_eq.
  - split; [by vm_compute|]. intros st1 H1. vm_compute in H1. injection H1 as <-.
    split; [done|]. intros st2 H2. vm_compute in H2. injection H2 as <-. done.
  - rewrite soloDown_eq in Hrun. by injection Hrun as <-.
Qed.



Lemma revealAll_shows_every_letter_witness :
  ∃ st', revealAll demoState = Some st' ∧ wfGrid (app_grid st') ∧
    revealAll st' = Some st' ∧
    app_isComplete st' = true ∧ app_isRunning st' = false ∧ app_showSolution st' = true ∧
    ∀ r c x, cellAt (app_grid demoState) r c = Some x →
      ∃ x', cellAt (app_grid st') r c = Some x' ∧ letter x' = letter x ∧
        (isBlack x = true → x' = x) ∧
        (isBlack x = false →
         userInput x' = letter x ∧ revealed x' = true ∧ checked x' = true ∧
         isCorrect x' = Some true).
Proof. apply (revealAll_shows_every_letter demoState). apply demoGrid_wf. Defined.


(** A click on the W of WORLD, a letter, ArrowDown, a letter hint, a
    check and Tab. *)
Definition demoEvents : list Event :=
  [CellInteraction 7 5 false 0; KeyPress "w"%string; KeyDown ArrowDown;
   RevealCell; CheckPuzzle; KeyDown (Tab false)].

Lemma demoEvents_playable : playable upperCase demoEvents (initialState demoPuzzle).
Proof.
  split; [by vm_compute|]. intros st1 H1. vm_compute in H1. injection H1 as <-.
  split; [done|]. intros st2 H2. vm_compute in H2. injection H2 as <-.
  split; [done|]. intros st3 H3. vm_compute in H3. injection H3 as <-.
  split; [done|]. intros st4 H4. vm_compute in H4. injection H4 as <-.
  split; [done|]. intros st5 H5. vm_compute in H5. injection H5 as <-.
  split; [|done].
  exists (mkPlacedWord "ROLE"%string "clue: ROLE"%string 3 10 down 1).
  split; [|reflexivity]. vm_compute. constructor.
Qed.

Lemma game_never_fails_witness :
  ∃ st', run upperCase demoEvents (initialState demoPuzzle) = Some st' ∧
         appOK st' ∧ is_Some (getActiveClue st') ∧ is_Some (solutionLetters st').
Proof.
  apply (game_never_fails upperCase zeroDraws demoPool demoSolutionWords 0%nat demoPuzzle
           demoEnd demoEvents demoRun_eq).
  apply demoEvents_playable.
Defined.

Lemma selection_never_black_witness :
  ∃ st', run upperCase demoEvents (initialState demoPuzzle) = Some st' ∧ onLetterCell st'.
Proof.
  apply (selection_never_black upperCase zeroDraws demoPool demoSolutionWords 0%nat
           demoPuzzle demoEnd demoEvents demoRun_eq).
  - apply Forall_forall. repeat constructor; done.
  - intros p. unfold demoEvents. rewrite !not_elem_of_cons.
    repeat split; try done. apply not_elem_of_nil.
  - apply demoEvents_playable.
Defined.

Lemma tab_fails_without_word_in_direction_witness :
  (handleKeyDown upperCase (Tab false) soloDown = None
   ↔ (∃ active, getActiveClue soloDown = Some (Some active)) ∧
     ¬ hasWordIn (app_puzzle soloDown) (app_direction soloDown)) ∧
  (∀ st', handleKeyDown upperCase (Tab false) soloDown = Some st' →
     st' = soloDown ∨
     ∃ pw, pw ∈ placedWords (app_puzzle soloDown) ∧
           pw_direction pw = app_direction soloDown ∧
           st' = setSelectedCell (Some (pw_row pw, pw_col pw)) soloDown).
Proof.
  apply (tab_fails_without_word_in_direction upperCase false soloDown 7 5).
  - apply soloDown_ok.
  - reflexivity.
Defined.

Lemma active_clue_runs_through_selection_witness :
  ∃ active, getActiveClue demoSelected = Some active ∧
    match active with
    | Some pw =>
        pw ∈ placedWords demoPuzzle ∧ covers pw (7, 5) ∧
        (pw_direction pw = app_direction demoSelected ∨
         ∀ pw', pw' ∈ placedWords demoPuzzle → pw_direction pw' = app_direction demoSelected →
                ¬ covers pw' (7, 5))
    | None => ∀ pw', pw' ∈ placedWords demoPuzzle → ¬ covers pw' (7, 5)
    end.
Proof.
  apply (active_clue_runs_through_selection zeroDraws demoPool demoSolutionWords 0%nat
           demoPuzzle demoEnd demoSelected 7 5 demoRun_eq).
  - apply demoSelected_ok.
  - reflexivity.
  - reflexivity.
Defined.

Lemma revealWord_reveals_active_word_witness :
  ∃ st', revealWord upperCase demoSelected = Some st' ∧
    match getActiveClue demoSelected with
    | Some (Some active) =>
        if decide (app_hintsWordUsed demoSelected < MAX_WORD_HINTS) then
          app_hintsWordUsed st' = app_hintsWordUsed demoSelected + 1 ∧
          ∀ r c x, cellAt (app_grid demoSelected) r c = Some x →
            (covers active (r, c) → cellAt (app_grid st') r c = Some (shown x)) ∧
            (¬ covers active (r, c) → cellAt (app_grid st') r c = Some x)
        else st' = demoSelected
    | _ => st' = demoSelected
    end.
Proof.
  apply (revealWord_reveals_active_word upperCase demoSelected). apply demoSelected_ok.
Defined.

Lemma backspace_undoes_letter_witness :
  ∃ x st1 st2,
    cellAt (app_grid demoSelected) 7 5 = Some x ∧
    handleLetterInput upperCase "w"%string demoSelected = Some st1 ∧
    handleDelete st1 = Some st2 ∧
    app_selectedCell st2 = Some (7, 5) ∧
    ∀ r c, cellAt (app_grid st2) r c
           = if decide ((r, c) = (7, 5)) then Some (entered ""%string x)
             else cellAt (app_grid demoSelected) r c.
Proof.
  destruct (cellAt (app_grid demoSelected) 7 5) as [x|] eqn:Hx; [|by vm_compute in Hx].
  exists x.
  destruct (backspace_undoes_letter upperCase "w"%string demoSelected 7 5 x)
    as (st1 & st2 & H); [apply demoSelected_ok|reflexivity|done| | | |].
  - vm_compute in Hx. by injection Hx as <-.
  - by vm_compute.
  - intros y Hy. vm_compute in Hy. injection Hy as <-. by right.
  - by exists st1, st2.
Defined.

Lemma revealAll_shows_solution_word_witness :
  ∃ st' letters,
    revealAll demoState = Some st' ∧ solutionLetters st' = Some letters ∧
    Forall2 (λ e s, letterAt (solutionWord demoPuzzle) (sc_index e) = Some s)
            (solutionCells demoPuzzle) letters.
Proof.
  apply (revealAll_shows_solution_word zeroDraws demoPool demoSolutionWords 0%nat
           demoPuzzle demoEnd demoState demoRun_eq).
  - apply demoState_ok.
  - reflexivity.
Defined.
